(** * A shallow embedding of the DOCX template-tag engine

    The development follows the four core classes of the repository:
    [TagNormalizer] (XML healing), [TagDetector] (placeholder
    extraction), [DocxManager] (delimiter detection, healing of the
    package, search, selective replacement, reading of the
    placeholders, export) and [DocxAppender] (appending image pages),
    and the reordering of the appendices in the user interface.
    JavaScript strings are lists of UTF-16 code units, regular
    expressions are run by a backtracking matcher that follows the
    ECMAScript semantics of the constructs the sources use, and a ZIP
    archive is a finite map from part names to part contents. *)

From Stdlib Require Import NArith String Ascii DecimalString DecimalPos DecimalN.
From stdpp Require Import base tactics option list sorting gmap.

Set Default Proof Using "Type".

(** ** JavaScript strings *)

Module JS.

(** A UTF-16 code unit. *)
Abbreviation char := N.
Abbreviation jsstring := (list N).

(** A string literal of the sources, as code units. *)
Definition str (s : string) : jsstring :=
  (λ a, N_of_ascii a) <$> list_ascii_of_string s.

Definition ch (a : ascii) : char := N_of_ascii a.

(** A string literal of the sources that contains double quotes,
    written with an apostrophe for each of them. *)
Definition quoted (s : string) : jsstring :=
  (λ c, if (c =? 39)%N then 34%N else c) <$> str s.

#[global] Arguments str : simpl never.
#[global] Arguments quoted : simpl never.

(** WhiteSpace and LineTerminator code points: what [\s] matches and
    what [String.prototype.trim] strips. *)
Definition is_space (c : char) : bool :=
  ((9 <=? c) && (c <=? 13) || (c =? 32) || (c =? 160) || (c =? 5760)
   || (8192 <=? c) && (c <=? 8202) || (c =? 8232) || (c =? 8233)
   || (c =? 8239) || (c =? 8287) || (c =? 12288) || (c =? 65279))%N.

Definition is_digit (c : char) : bool := ((48 <=? c) && (c <=? 57))%N.

Fixpoint trimStart (s : jsstring) : jsstring :=
  match s with
  | c :: s' => if is_space c then trimStart s' else s
  | [] => []
  end.

Definition trimEnd (s : jsstring) : jsstring :=
  reverse (trimStart (reverse s)).

(** [String.prototype.trim] *)
Definition trim (s : jsstring) : jsstring := trimEnd (trimStart s).
#[global] Arguments trim : simpl never.

Fixpoint starts_with (p s : jsstring) : bool :=
  match p, s with
  | [], _ => true
  | a :: p', b :: s' => (a =? b)%N && starts_with p' s'
  | _ :: _, [] => false
  end.

(** [String.prototype.indexOf], [None] for -1. *)
Fixpoint indexOf (p s : jsstring) : option nat :=
  if starts_with p s then Some 0
  else match s with
       | [] => None
       | _ :: s' => S <$> indexOf p s'
       end.

(** [String.prototype.lastIndexOf], [None] for -1. *)
Fixpoint lastIndexOf (p s : jsstring) : option nat :=
  match s with
  | [] => if starts_with p s then Some 0 else None
  | _ :: s' =>
      match lastIndexOf p s' with
      | Some i => Some (S i)
      | None => if starts_with p s then Some 0 else None
      end
  end.

(** [String.prototype.includes] for a one-character string. *)
Definition includes_char (c : char) (s : jsstring) : bool :=
  existsb (N.eqb c) s.

(** [s.replace(p, r)] with a string pattern: only the first occurrence
    is replaced.  The replacement strings of the sources contain no
    dollar sign, so they are inserted as they are. *)
Definition replace_first (p r s : jsstring) : jsstring :=
  match indexOf p s with
  | Some i => take i s ++ r ++ drop (i + length p) s
  | None => s
  end.

(** The number of occurrences of a character. *)
Fixpoint count_char (c : char) (s : jsstring) : nat :=
  match s with
  | a :: s' => if (a =? c)%N then S (count_char c s') else count_char c s'
  | [] => 0
  end.

(** The number of occurrences of a doubled character, counted from the
    left without overlap. *)
Fixpoint count_double (c : char) (s : jsstring) : nat :=
  match s with
  | a :: s1 =>
      match s1 with
      | b :: s2 =>
          if (a =? c)%N && (b =? c)%N then S (count_double c s2)
          else count_double c s1
      | [] => 0
      end
  | [] => 0
  end.

(** Decimal rendering of a non-negative integer, as in a template
    literal. *)
Definition toString (n : N) : jsstring :=
  str (NilZero.string_of_uint (N.to_uint n)).
#[global] Arguments toString : simpl never.

(** [parseInt] on a string of decimal digits. *)
Definition parseInt (s : jsstring) : N :=
  fold_left (λ acc c, acc * 10 + (c - 48))%N s 0%N.

End JS.

Import JS.

(** ** Regular expressions *)

Module RegExp.

Inductive class_item : Type :=
| ItChar (c : char)
| ItSpace        (* \s *)
| ItNonSpace     (* \S *)
| ItDigit.       (* \d *)

Inductive regex : Type :=
| Eps
| Lit (c : char)
| Cls (neg : bool) (items : list class_item)
| Seq (r1 r2 : regex)
| Alt (r1 r2 : regex)
| Star (greedy : bool) (r : regex)
| Plus (greedy : bool) (r : regex)
| Group (n : nat) (r : regex)
| NCGroup (r : regex)
| NotAhead (r : regex)
| NotBehind (neg : bool) (items : list class_item).

Definition item_matches (c : char) (it : class_item) : bool :=
  match it with
  | ItChar d => (c =? d)%N
  | ItSpace => is_space c
  | ItNonSpace => negb (is_space c)
  | ItDigit => is_digit c
  end.

Definition class_matches (neg : bool) (items : list class_item) (c : char) : bool :=
  xorb neg (existsb (item_matches c) items).

(** The state of a match attempt: the input split at the current
    position (the consumed part reversed) and the captures so far. *)
Record mstate : Type := MState {
  consumed : list char;
  remaining : list char;
  captures : list (nat * jsstring)
}.

Definition cont : Type := mstate → option mstate.
Definition matcher : Type := mstate → cont → option mstate.

Definition step_char (p : char → bool) : matcher := λ st k,
  match remaining st with
  | c :: rest =>
      if p c then k (MState (c :: consumed st) rest (captures st)) else None
  | [] => None
  end.

(** RepeatMatcher with min = 0 and no upper bound: an iteration that
    consumes nothing fails.  The fuel bounds the number of iterations
    by the length of the remaining input. *)
Fixpoint star_loop (body : matcher) (greedy : bool) (fuel : nat) : matcher :=
  λ st k,
  let again :=
    match fuel with
    | 0 => λ _ : unit, None
    | S fuel' => λ _ : unit,
        body st (λ st',
          if bool_decide (length (remaining st') < length (remaining st))
          then star_loop body greedy fuel' st' k else None)
    end in
  if greedy
  then match again () with Some r => Some r | None => k st end
  else match k st with Some r => Some r | None => again () end.

Definition captured (st st' : mstate) : jsstring :=
  reverse (take (length (consumed st') - length (consumed st)) (consumed st')).

Fixpoint m (r : regex) : matcher :=
  match r with
  | Eps => λ st k, k st
  | Lit c => step_char (N.eqb c)
  | Cls neg items => step_char (class_matches neg items)
  | Seq r1 r2 => λ st k, m r1 st (λ st', m r2 st' k)
  | Alt r1 r2 => λ st k,
      match m r1 st k with Some x => Some x | None => m r2 st k end
  | Star g r1 => λ st k, star_loop (m r1) g (S (length (remaining st))) st k
  | Plus g r1 => λ st k,
      m r1 st (λ st', star_loop (m r1) g (S (length (remaining st'))) st' k)
  | Group n r1 => λ st k,
      m r1 st (λ st',
        k (MState (consumed st') (remaining st')
             ((n, captured st st') :: captures st')))
  | NCGroup r1 => m r1
  | NotAhead r1 => λ st k,
      match m r1 st Some with Some _ => None | None => k st end
  | NotBehind neg items => λ st k,
      match consumed st with
      | c :: _ => if class_matches neg items c then None else k st
      | [] => k st
      end
  end.

(** One successful match: the matched text and its capture groups. *)
Record match_info : Type := MatchInfo {
  mtext : jsstring;
  mgroups : list (nat * jsstring)
}.

(** The capture of group [n], [None] when it did not participate. *)
Fixpoint group (n : nat) (gs : list (nat * jsstring)) : option jsstring :=
  match gs with
  | [] => None
  | (i, s) :: gs' => if bool_decide (i = n) then Some s else group n gs'
  end.

(** A match attempt anchored at the current position. *)
Definition match_here (r : regex) (before after : list char) : option mstate :=
  m r (MState before after []) Some.

(** The pieces of a string under a global scan: text copied as it is,
    and matches. *)
Inductive piece : Type :=
| Gap (c : char)
| Hit (mi : match_info).

(** The scan of a regular expression with the [g] flag: the leftmost
    match from the current position, then on from its end; after an
    empty match the scan moves on by one code unit. *)
Fixpoint scan (r : regex) (fuel : nat) (before after : list char) : list piece :=
  match fuel with
  | 0 => []
  | S fuel' =>
      match match_here r before after with
      | Some st' =>
          let mi := MatchInfo (captured (MState before after []) st') (captures st') in
          if bool_decide (length (remaining st') < length after)
          then Hit mi :: scan r fuel' (consumed st') (remaining st')
          else Hit mi ::
               match after with
               | [] => []
               | c :: rest => Gap c :: scan r fuel' (c :: before) rest
               end
      | None =>
          match after with
          | [] => []
          | c :: rest => Gap c :: scan r fuel' (c :: before) rest
          end
      end
  end.

Definition pieces (r : regex) (s : jsstring) : list piece :=
  scan r (S (length s)) [] s.

(** All matches, in document order: [s.match(r)] for a global [r], and
    the successive results of [r.exec(s)] from [lastIndex = 0]. *)
Fixpoint hits (ps : list piece) : list match_info :=
  match ps with
  | [] => []
  | Gap _ :: ps' => hits ps'
  | Hit mi :: ps' => mi :: hits ps'
  end.

Definition matchAll (r : regex) (s : jsstring) : list match_info :=
  hits (pieces r s).

(** [s.replace(r, f)] for a global [r] and a replacer function that
    reads and updates a variable of its closure, here the state [S]. *)
Fixpoint rebuild {S : Type} (f : match_info → S → jsstring * S)
    (ps : list piece) (acc : S) : jsstring * S :=
  match ps with
  | [] => ([], acc)
  | Gap c :: ps' =>
      let '(out, acc') := rebuild f ps' acc in (c :: out, acc')
  | Hit mi :: ps' =>
      let '(rep, acc1) := f mi acc in
      let '(out, acc2) := rebuild f ps' acc1 in (rep ++ out, acc2)
  end.

Definition replace_st {S : Type} (r : regex)
    (f : match_info → S → jsstring * S) (s : jsstring) (acc : S) : jsstring * S :=
  rebuild f (pieces r s) acc.

(** [s.replace(r, f)] for a global [r] and a pure replacer. *)
Definition replace (r : regex) (f : match_info → jsstring) (s : jsstring) : jsstring :=
  (replace_st r (λ mi (_ : unit), (f mi, ())) s ()).1.

End RegExp.

(** ** Construction of a regular expression from its pattern text *)

Module Pattern.
Import RegExp.

(** The outcome of [new RegExp(pattern)]: the compiled expression, the
    [SyntaxError] the constructor throws, or a construct that no
    pattern of this program contains. *)
Inductive presult (A : Type) : Type :=
| POk (a : A)
| PSyntaxError (msg : string)
| PUnsupported.
Arguments POk {A} a.
Arguments PSyntaxError {A} msg.
Arguments PUnsupported {A}.

Definition pbind {A B : Type} (x : presult A) (f : A → presult B) : presult B :=
  match x with
  | POk a => f a
  | PSyntaxError msg => PSyntaxError msg
  | PUnsupported => PUnsupported
  end.

#[global] Instance presult_bind : MBind presult := λ A B f x, pbind x f.

Definition is_chr (a : ascii) (c : char) : bool := (c =? ch a)%N.

(** SyntaxCharacter, and the slash that a regular expression literal
    escapes. *)
Definition is_syntax_char (c : char) : bool :=
  existsb (N.eqb c) (str "^$\.*+?()[]{}|/").

Fixpoint mk_seq (ts : list regex) : regex :=
  match ts with
  | [] => Eps
  | [t] => t
  | t :: ts' => Seq t (mk_seq ts')
  end.

Fixpoint mk_alt (alts : list (list regex)) : regex :=
  match alts with
  | [] => Eps
  | [a] => mk_seq a
  | a :: alts' => Alt (mk_seq a) (mk_alt alts')
  end.

Definition cons_term (t : regex) (alts : list (list regex)) : list (list regex) :=
  match alts with
  | [] => [[t]]
  | a :: alts' => (t :: a) :: alts'
  end.

(** ClassAtom after a backslash, inside or outside brackets. *)
Definition class_escape (c : char) : presult class_item :=
  if is_chr "s" c then POk ItSpace
  else if is_chr "S" c then POk ItNonSpace
  else if is_chr "d" c then POk ItDigit
  else if is_syntax_char c || is_chr "-" c then POk (ItChar c)
  else PUnsupported.

(** The items of a bracketed class up to the closing bracket. *)
Fixpoint parse_class (s : jsstring) : presult (list class_item * jsstring) :=
  match s with
  | [] => PSyntaxError "Unterminated character class"
  | c :: s' =>
      if is_chr "]" c then POk ([], s')
      else if is_chr "-" c then PUnsupported
      else if is_chr "\" c then
        match s' with
        | [] => PSyntaxError "\ at end of pattern"
        | e :: s'' =>
            it ← class_escape e;
            '(its, rest) ← parse_class s'';
            POk (it :: its, rest)
        end
      else
        '(its, rest) ← parse_class s';
        POk (ItChar c :: its, rest)
  end.

Definition parse_brackets (s : jsstring) : presult (regex * jsstring) :=
  match s with
  | c :: s' =>
      if is_chr "^" c
      then '(its, rest) ← parse_class s'; POk (Cls true its, rest)
      else '(its, rest) ← parse_class s; POk (Cls false its, rest)
  | [] => PSyntaxError "Unterminated character class"
  end.

(** The question mark that makes a quantifier lazy, if it is there. *)
Definition lazy_mark (s : jsstring) : bool * jsstring :=
  match s with
  | l :: s' => if is_chr "?" l then (false, s') else (true, s)
  | [] => (true, s)
  end.

(** A quantifier after an atom, if there is one. *)
Definition quantified (atom : regex) (s : jsstring) : regex * jsstring :=
  match s with
  | q :: s' =>
      if is_chr "*" q then
        let '(g, rest) := lazy_mark s' in (Star g atom, rest)
      else if is_chr "+" q then
        let '(g, rest) := lazy_mark s' in (Plus g atom, rest)
      else if is_chr "?" q then
        let '(g, rest) := lazy_mark s' in
        ((if g then Alt atom Eps else Alt Eps atom), rest)
      else (atom, s)
  | [] => (atom, s)
  end.

Definition expect_close (s : jsstring) : presult jsstring :=
  match s with
  | c :: s' => if is_chr ")" c then POk s' else PSyntaxError "Unterminated group"
  | [] => PSyntaxError "Unterminated group"
  end.

(** A Disjunction: its alternatives, each a list of terms, the text
    after it (empty, or starting at a closing parenthesis) and the
    number of capturing groups opened so far. *)
Fixpoint parse_disj (fuel : nat) (s : jsstring) (n : nat)
    : presult (list (list regex) * jsstring * nat) :=
  match fuel with
  | 0 => PUnsupported
  | S fuel' =>
      let continue (atom : regex) (rest : jsstring) (n' : nat)
          : presult (list (list regex) * jsstring * nat) :=
        let '(term, rest') := quantified atom rest in
        '(alts, rest'', n'') ← parse_disj fuel' rest' n';
        POk (cons_term term alts, rest'', n'') in
      match s with
      | [] => POk ([[]], [], n)
      | c :: s' =>
          if is_chr ")" c then POk ([[]], s, n)
          else if is_chr "|" c then
            '(alts, rest, n') ← parse_disj fuel' s' n;
            POk ([] :: alts, rest, n')
          else if is_chr "*" c || is_chr "+" c || is_chr "?" c then
            PSyntaxError "Nothing to repeat"
          else if is_chr "^" c || is_chr "$" c then PUnsupported
          else if is_chr "." c then
            continue (Cls true [ItChar 10%N; ItChar 13%N; ItChar 8232%N; ItChar 8233%N]) s' n
          else if is_chr "\" c then
            match s' with
            | [] => PSyntaxError "\ at end of pattern"
            | e :: s'' =>
                it ← class_escape e;
                match it with
                | ItChar d => if is_chr "-" d then PUnsupported else continue (Lit d) s'' n
                | _ => continue (Cls false [it]) s'' n
                end
            end
          else if is_chr "[" c then
            '(cls, rest) ← parse_brackets s'; continue cls rest n
          else if is_chr "{" c then
            match s' with
            | d :: _ => if is_digit d then PUnsupported else continue (Lit c) s' n
            | [] => continue (Lit c) s' n
            end
          else if is_chr "(" c then
            match s' with
            | q :: s'' =>
                if is_chr "?" q then
                  match s'' with
                  | k :: s3 =>
                      if is_chr ":" k then
                        '(alts, rest, n') ← parse_disj fuel' s3 n;
                        rest' ← expect_close rest;
                        continue (NCGroup (mk_alt alts)) rest' n'
                      else if is_chr "!" k then
                        '(alts, rest, n') ← parse_disj fuel' s3 n;
                        rest' ← expect_close rest;
                        continue (NotAhead (mk_alt alts)) rest' n'
                      else if is_chr "<" k then
                        match s3 with
                        | b :: s4 =>
                            if is_chr "!" b then
                              '(alts, rest, n') ← parse_disj fuel' s4 n;
                              rest' ← expect_close rest;
                              match alts with
                              | [[Lit d]] => continue (NotBehind false [ItChar d]) rest' n'
                              | [[Cls neg its]] => continue (NotBehind neg its) rest' n'
                              | _ => PUnsupported
                              end
                            else PUnsupported
                        | [] => PSyntaxError "Invalid group"
                        end
                      else PUnsupported
                  | [] => PSyntaxError "Invalid group"
                  end
                else
                  '(alts, rest, n') ← parse_disj fuel' s' (S n);
                  rest' ← expect_close rest;
                  continue (Group (S n) (mk_alt alts)) rest' n'
            | [] => PSyntaxError "Unterminated group"
            end
          else continue (Lit c) s' n
      end
  end.

(** [new RegExp(pattern)] *)
Definition RegExp_new (pattern : jsstring) : presult regex :=
  '(alts, rest, _) ← parse_disj (S (length pattern)) pattern 0;
  match rest with
  | [] => POk (mk_alt alts)
  | _ :: _ => PSyntaxError "Unmatched ')'"
  end.

(** A regular expression literal of the sources; the literals used
    below all compile. *)
Definition compiled (pattern : jsstring) : regex :=
  match RegExp_new pattern with
  | POk r => r
  | _ => Eps
  end.

Definition literal (pattern : string) : regex := compiled (str pattern).

End Pattern.

Import RegExp Pattern.

(** ** Matching without regard to case *)

(** The matcher of a regular expression with the [i] flag: a
    character of the input is compared with a character of the
    pattern, or with the members of a set, by their canonical forms. *)
Module IgnoreCase.

(** The code units. *)
Definition all_units : list char := N.of_nat <$> seq 0 (N.to_nat 65536).

Section Canonical.
(** [Canonicalize] of the [i] flag: the upper-case form of a code
    unit, where it is a single code unit. *)
Variable canonicalize : char → char.

(** A character matches a set when a member of the set has its
    canonical form. *)
Definition item_matches_i (c : char) (it : class_item) : bool :=
  match it with
  | ItChar d => (canonicalize c =? canonicalize d)%N
  | _ =>
      existsb (λ a, item_matches a it && (canonicalize c =? canonicalize a)%N)
        all_units
  end.

Definition class_matches_i (neg : bool) (items : list class_item) (c : char) : bool :=
  xorb neg (existsb (item_matches_i c) items).

Fixpoint m_i (r : regex) : matcher :=
  match r with
  | Eps => λ st k, k st
  | Lit c => step_char (λ x, (canonicalize x =? canonicalize c)%N)
  | Cls neg items => step_char (class_matches_i neg items)
  | Seq r1 r2 => λ st k, m_i r1 st (λ st', m_i r2 st' k)
  | Alt r1 r2 => λ st k,
      match m_i r1 st k with Some x => Some x | None => m_i r2 st k end
  | Star g r1 => λ st k, star_loop (m_i r1) g (S (length (remaining st))) st k
  | Plus g r1 => λ st k,
      m_i r1 st (λ st', star_loop (m_i r1) g (S (length (remaining st'))) st' k)
  | Group n r1 => λ st k,
      m_i r1 st (λ st',
        k (MState (consumed st') (remaining st')
             ((n, captured st st') :: captures st')))
  | NCGroup r1 => m_i r1
  | NotAhead r1 => λ st k,
      match m_i r1 st Some with Some _ => None | None => k st end
  | NotBehind neg items => λ st k,
      match consumed st with
      | c :: _ => if class_matches_i neg items c then None else k st
      | [] => k st
      end
  end.

(** [r.exec(s)] for a global [r] whose [lastIndex] is the current
    position: the leftmost match from there, as the text before its
    start (reversed) and the state at its end; [None] for [null]. *)
Fixpoint exec (r : regex) (before after : list char) : option (list char * mstate) :=
  match m_i r (MState before after []) Some with
  | Some st' => Some (before, st')
  | None =>
      match after with
      | [] => None
      | c :: rest => exec r (c :: before) rest
      end
  end.

End Canonical.
End IgnoreCase.

(** ** TagNormalizer *)

Module TagNormalizer.

(** The text of capture group [n] of a match that has it. *)
Definition arg (n : nat) (mi : match_info) : jsstring :=
  default [] (group n (mgroups mi)).

Definition noisePatterns : list regex := Eval vm_compute in
  [ literal "<w:proofErr[^>]*\/>";
    literal "<w:noProof[^>]*\/>";
    literal "<w:lang[^>]*\/>";
    literal "<w:bookmarkStart[^>]*\/>";
    literal "<w:bookmarkEnd[^>]*\/>";
    literal "<w:commentRangeStart[^>]*\/>";
    literal "<w:commentRangeEnd[^>]*\/>";
    literal "<w:permStart[^>]*\/>";
    literal "<w:permEnd[^>]*\/>";
    literal "<w:moveFromRangeStart[^>]*\/>";
    literal "<w:moveFromRangeEnd[^>]*\/>";
    literal "<w:moveToRangeStart[^>]*\/>";
    literal "<w:moveToRangeEnd[^>]*\/>";
    literal "<w:rsid[^>]*\/>" ].

Definition removeNoiseTags (xml : jsstring) : jsstring :=
  fold_left (λ cleaned pattern, replace pattern (λ _, []) cleaned)
    noisePatterns xml.

Definition splitOpen : regex := Eval vm_compute in literal "({)([^}{]*?)(<[^>]+>)+([^}{]*?)({)".
Definition splitClose : regex := Eval vm_compute in literal "(})([^}{]*?)(<[^>]+>)+([^}{]*?)(})".

(** The replacer of both passes of [repairSplitDelimiters]: [!s] holds
    of the empty string only. *)
Definition repairWith (doubled : jsstring) (mi : match_info) : jsstring :=
  let padding1 := arg 2 mi in
  let padding2 := arg 4 mi in
  if bool_decide (trim padding1 = []) && bool_decide (trim padding2 = [])
  then doubled
  else mtext mi.

Definition repairSplitDelimiters (xml : jsstring) : jsstring :=
  let xml := replace splitOpen (repairWith (str "{{")) xml in
  let xml := replace splitClose (repairWith (str "}}")) xml in
  xml.

Definition removeDuplicateDelimiters (xml : jsstring) : jsstring := xml.

Definition tagRegex : regex := Eval vm_compute in literal "{{([\s\S]*?)}}".
Definition anyTag : regex := Eval vm_compute in literal "<[^>]+>".
Definition openBrace : regex := Eval vm_compute in literal "{".
Definition closeBrace : regex := Eval vm_compute in literal "}".

Definition cleanContent (content : jsstring) : jsstring :=
  let cleanContent := replace anyTag (λ _, []) content in
  replace closeBrace (λ _, []) (replace openBrace (λ _, []) cleanContent).

Definition consolidateTags (xml : jsstring) : jsstring :=
  replace tagRegex
    (λ mi, str "{{" ++ cleanContent (arg 1 mi) ++ str "}}") xml.

Definition normalize (xmlContent : jsstring) (isDoubleMode : bool) : jsstring :=
  let xml := xmlContent in
  let xml := removeNoiseTags xml in
  if isDoubleMode then
    let xml := repairSplitDelimiters xml in
    let xml := removeDuplicateDelimiters xml in
    let xml := consolidateTags xml in
    xml
  else xml.

End TagNormalizer.

(** ** TagDetector *)

Module TagDetector.

Record DocxTag : Type := mkTag {
  id : jsstring;
  raw : jsstring;
  name : jsstring
}.

Definition DOUBLE_BRACE_REGEX : regex := Eval vm_compute in literal "{{\s*([^}]+)\s*}}".
Definition SINGLE_BRACE_REGEX : regex := Eval vm_compute in literal "(?<!{){\s*([^{}]+)\s*}(?!})".

(** The two collections [findTags] builds: the array [tags] and the set
    [seen]. *)
Definition acc : Type := list DocxTag * gset jsstring.

Definition addTag (raw name : jsstring) (a : acc) : acc :=
  let '(tags, seen) := a in
  let cleanName := trim name in
  if bool_decide (cleanName ≠ []) && bool_decide (cleanName ∉ seen)
  then (tags ++ [mkTag cleanName raw cleanName], {[cleanName]} ∪ seen)
  else (tags, seen).

Definition arg (n : nat) (mi : match_info) : jsstring :=
  default [] (group n (mgroups mi)).

(** The body of the first loop, for one match. *)
Definition doubleStep (a : acc) (mi : match_info) : acc :=
  addTag (mtext mi) (arg 1 mi) a.

(** The body of the second loop, for one match. *)
Definition singleStep (a : acc) (mi : match_info) : acc :=
  let name := trim (arg 1 mi) in
  if bool_decide (length name < 50) && negb (includes_char 10%N name)
  then addTag (mtext mi) name a
  else a.

(** [Array.prototype.sort] with a comparator: a stable sort; with a
    consistent comparator every stable sort gives the same array. *)
Section Sort.
Context {A : Type} (cmp : A → A → Z).

Fixpoint insert_sorted (x : A) (l : list A) : list A :=
  match l with
  | [] => [x]
  | y :: l' => if bool_decide (cmp x y ≤ 0)%Z then x :: l else y :: insert_sorted x l'
  end.

Definition sort (l : list A) : list A := foldr insert_sorted [] l.
End Sort.

Section FindTags.
(** [String.prototype.localeCompare] under the host's locale. *)
Variable localeCompare : jsstring → jsstring → Z.

Definition collect (fullText : jsstring) : list DocxTag :=
  let doubles := matchAll DOUBLE_BRACE_REGEX fullText in
  let a := foldl doubleStep ([], ∅) doubles in
  let hasDouble := negb (bool_decide (doubles = [])) in
  let a :=
    if negb hasDouble
    then foldl singleStep a (matchAll SINGLE_BRACE_REGEX fullText)
    else a in
  a.1.

Definition findTags (fullText : jsstring) : list DocxTag :=
  sort (λ a b, localeCompare (name a) (name b)) (collect fullText).
End FindTags.

End TagDetector.

(** ** The archive *)

Module Zip.

(** A PizZip instance: the parts of the package by name.  A part is
    its content, the text of an XML part or the bytes of a media part. *)
Abbreviation archive := (gmap jsstring jsstring).

Definition DOCUMENT_XML : jsstring := str "word/document.xml".
Definition DOCUMENT_RELS : jsstring := str "word/_rels/document.xml.rels".

End Zip.

Import Zip.

(** ** DocxManager *)

Module DocxManager.
Import TagNormalizer.

Inductive exn : Type :=
| Error (msg : jsstring)
| SyntaxError (msg : string)
| Unsupported.

Record delimiters : Type := mkDelimiters {
  d_start : jsstring;
  d_end : jsstring
}.

Definition double_markers : delimiters := mkDelimiters (str "{{") (str "}}").
Definition single_markers : delimiters := mkDelimiters (str "{") (str "}").

(** What [new Docxtemplater(zip, options)] does: it returns the
    template, or throws an error that lists template errors, or throws
    another error. *)
Inductive template_result (T E : Type) : Type :=
| Template (doc : T)
| TemplateErrors (errors : list E)
| TemplateFailure.
Arguments Template {T E} doc.
Arguments TemplateErrors {T E} errors.
Arguments TemplateFailure {T E}.

Definition doubleOpenRegex : regex := Eval vm_compute in literal "{{".
Definition singleOpenRegex : regex := Eval vm_compute in literal "{".
Definition escapeRegex : regex := Eval vm_compute in literal "[.*+?^${}()|[\]\\]".

(** [chars.join(sep)] for an array of one-character strings. *)
Fixpoint join (sep : jsstring) (chars : list char) : jsstring :=
  match chars with
  | [] => []
  | [c] => [c]
  | c :: chars' => c :: sep ++ join sep chars'
  end.

(** The pattern text built from the search text. *)
Definition patternString (searchText : jsstring) : jsstring :=
  let escapedSearch := replace escapeRegex (λ mi, str "\" ++ mtext mi) searchText in
  let chars := escapedSearch in
  join (str "(<[^>]+>)*") chars.

(** The replacer passed to [xml.replace]; [matchCount] is the variable
    it increments. *)
Definition replacer (newTag : jsstring) (indicesToReplace : list nat)
    (mi : match_info) (matchCount : nat) : jsstring * nat :=
  let currentIndex := matchCount in
  let matchCount := S matchCount in
  if bool_decide (currentIndex ∈ indicesToReplace)
  then (newTag, matchCount)
  else (mtext mi, matchCount).

Definition notFoundMessage (searchText : jsstring) : jsstring :=
  quoted "Text '" ++ searchText ++ quoted "' not found in the document structure.".

(** The regular expression literals of [getTags] and [scanText]. *)
Definition paragraphEnd : regex := Eval vm_compute in literal "<\/w:p>".
Definition whitespaceRun : regex := Eval vm_compute in literal "\s+".

(** The text of a part as [getTags] reads it without the template: a
    line feed for every paragraph end and a space for every other
    markup element. *)
Definition partText (xml : jsstring) : jsstring :=
  replace anyTag (λ _, str " ") (replace paragraphEnd (λ _, [10%N]) xml).

(** [s.substring(a, b)] for numbers that are not negative. *)
Definition substring (s : jsstring) (a b : nat) : jsstring :=
  let finalStart := a `min` length s in
  let finalEnd := b `min` length s in
  let from := finalStart `min` finalEnd in
  let to := finalStart `max` finalEnd in
  take (to - from) (drop from s).

(** An entry of the result of [scanText]. *)
Record occurrenceInfo : Type := mkOccurrenceInfo {
  index : nat;
  context : jsstring
}.

(** [FormDataMap], a record of strings by name. *)
Abbreviation FormDataMap := (gmap jsstring jsstring).

(** What [throwHumanReadableError] reads of an entry of the errors of
    an error: [e.properties?.explanation], [e.message] and
    [e.properties?.context], each a string or [undefined]. *)
Record errorEntry : Type := mkErrorEntry {
  explanation : option jsstring;
  entryMessage : option jsstring;
  entryContext : option jsstring
}.

(** What it reads of the error: [error.message], and the value of
    [error.properties?.errors || error.errors] when it is an array. *)
Record thrown : Type := mkThrown {
  message : option jsstring;
  errors : option (list errorEntry)
}.

(** A string that is not empty is true, [undefined] and the empty
    string are false. *)
Definition truthy (s : option jsstring) : bool :=
  match s with
  | Some (_ :: _) => true
  | _ => false
  end.

(** A value inside a template literal. *)
Definition interpolated (s : option jsstring) : jsstring :=
  default (str "undefined") s.

(** [parts.join(sep)] *)
Fixpoint joinWith (sep : jsstring) (parts : list jsstring) : jsstring :=
  match parts with
  | [] => []
  | [p] => p
  | p :: parts' => p ++ sep ++ joinWith sep parts'
  end.

Definition errorLine (index : nat) (e : errorEntry) : jsstring :=
  let expl := if truthy (explanation e) then explanation e else entryMessage e in
  let context :=
    if truthy (entryContext e)
    then str " (Context: " ++ interpolated (entryContext e) ++ str ")"
    else [] in
  toString (N.of_nat (index + 1)) ++ str ". " ++ interpolated expl ++ context.

(** What [throwHumanReadableError] throws. *)
Definition throwHumanReadableError (error : thrown) : exn :=
  match errors error with
  | Some ((_ :: _) as entries) =>
      let messages := joinWith [10%N] (imap errorLine entries) in
      Error (str "Template Syntax Errors:" ++ [10%N] ++ messages)
  | _ =>
      Error (if truthy (message error) then interpolated (message error)
             else str "Failed to generate document.")
  end.

Section Manager.
(** The bytes of a package, and PizZip's reading and writing of
    them; [PizZip_new] is [None] when the constructor throws. *)
Variable ArrayBuffer : Type.
Variable PizZip_new : ArrayBuffer → option archive.
Variable generate : archive → ArrayBuffer.

Variables Docxtemplater TemplateError : Type.
Variable Docxtemplater_new :
  archive → delimiters → template_result Docxtemplater TemplateError.

Record manager : Type := mkManager {
  zip : option archive;
  doc : option Docxtemplater;
  originalContent : option ArrayBuffer;
  loadErrors : list TemplateError;
  delimiterConfig : delimiters
}.

Definition initial : manager :=
  mkManager None None None [] double_markers.

(** The outcome of a method: what it throws or returns, and the
    fields of the object afterwards. *)
Definition outcome (A : Type) : Type := (exn + A) * manager.

Definition set_delimiterConfig (d : delimiters) (st : manager) : manager :=
  mkManager (zip st) (doc st) (originalContent st) (loadErrors st) d.

Definition detectDelimiters (content : ArrayBuffer) (st : manager) : manager :=
  match PizZip_new content with
  | Some zip =>
      let xml := default [] (zip !! DOCUMENT_XML) in
      let doubleOpen := length (matchAll doubleOpenRegex xml) in
      let singleOpen := length (matchAll singleOpenRegex xml) in
      if bool_decide (doubleOpen = 0) && bool_decide (0 < singleOpen)
      then set_delimiterConfig single_markers st
      else set_delimiterConfig double_markers st
  | None => set_delimiterConfig double_markers st
  end.

(** [None] when the PizZip constructor throws. *)
Definition healDocumentXml (content : ArrayBuffer) (st : manager)
    : option ArrayBuffer :=
  zip ← PizZip_new content;
  match zip !! DOCUMENT_XML with
  | None => Some content
  | Some originalXml =>
      let isDoubleMode := bool_decide (d_start (delimiterConfig st) = str "{{") in
      let healedXml := normalize originalXml isDoubleMode in
      Some (generate (<[DOCUMENT_XML := healedXml]> zip))
  end.

Definition initializeDocxtemplater (st : manager) : outcome unit :=
  match zip st with
  | None => (inr (), st)
  | Some z =>
      match Docxtemplater_new z (delimiterConfig st) with
      | Template d =>
          (inr (), mkManager (zip st) (Some d) (originalContent st)
                     (loadErrors st) (delimiterConfig st))
      | TemplateErrors errors =>
          (inr (), mkManager (zip st) (doc st) (originalContent st)
                     errors (delimiterConfig st))
      | TemplateFailure =>
          (inl (Error (str "Critical error initializing template engine.")), st)
      end
  end.

Definition load (content : ArrayBuffer) (st : manager) : outcome unit :=
  let st := mkManager None None (Some content) [] (delimiterConfig st) in
  let st := detectDelimiters content st in
  match healDocumentXml content st ≫= PizZip_new with
  | None =>
      (inl (Error (str "Failed to read file. It may not be a valid DOCX/Zip file.")), st)
  | Some z =>
      initializeDocxtemplater
        (mkManager (Some z) (doc st) (originalContent st) (loadErrors st)
           (delimiterConfig st))
  end.

Definition replaceSpecificOccurrences (searchText tagName : jsstring)
    (indicesToReplace : list nat) (st : manager) : outcome unit :=
  match zip st with
  | None => (inl (Error (str "No document loaded")), st)
  | Some z =>
      match z !! DOCUMENT_XML with
      | None => (inl (Error (str "Could not find document.xml")), st)
      | Some xml =>
          match RegExp_new (patternString searchText) with
          | PSyntaxError msg => (inl (SyntaxError msg), st)
          | PUnsupported => (inl Unsupported, st)
          | POk regex =>
              let newTag := str "{{" ++ tagName ++ str "}}" in
              let '(xml, matchCount) :=
                replace_st regex (replacer newTag indicesToReplace) xml 0 in
              if bool_decide (matchCount = 0)
              then (inl (Error (notFoundMessage searchText)), st)
              else
                let z := <[DOCUMENT_XML := xml]> z in
                let newZipData := generate z in
                load newZipData
                  (mkManager (Some z) (doc st) (Some newZipData)
                     (loadErrors st) (delimiterConfig st))
          end
      end
  end.

(** [hasLoaded] and [getLoadErrors] *)
Definition hasLoaded (st : manager) : bool := bool_decide (zip st ≠ None).

Definition getLoadErrors (st : manager) : list TemplateError := loadErrors st.

(** A blob, and PizZip's writing of an instance to a blob of the DOCX
    type. *)
Variable Blob : Type.
Variable generateBlob : archive → Blob.

Definition exportCurrentZip (st : manager) : exn + Blob :=
  match zip st with
  | None => inl (Error (str "No file loaded"))
  | Some z => inr (generateBlob z)
  end.

(** [getTags]: [doc.getFullText()], [None] when it throws; the names
    of [Object.keys(zip.files)] in their order; the comparison of
    [localeCompare]. *)
Variable getFullText : Docxtemplater → option jsstring.
Variable fileNames : archive → list jsstring.
Variable localeCompare : jsstring → jsstring → Z.

Definition getTags (st : manager) : exn + list TagDetector.DocxTag :=
  match zip st with
  | None => inl (Error (str "No document loaded"))
  | Some z =>
      let fullText :=
        match doc st with
        | Some d => getFullText d
        | None =>
            let fullText :=
              match z !! DOCUMENT_XML with
              | Some docXml => partText docXml
              | None => []
              end in
            let headerFiles :=
              List.filter
                (λ f, starts_with (str "word/header") f
                      || starts_with (str "word/footer") f)
                (fileNames z) in
            Some (foldl (λ fullText f,
                           match z !! f with
                           | Some t =>
                               if bool_decide (t = []) then fullText
                               else fullText ++ str " " ++ partText t
                           | None => fullText
                           end)
                        fullText headerFiles)
        end in
      match fullText with
      | Some fullText => inr (TagDetector.findTags localeCompare fullText)
      | None => inl (Error (str "Failed to parse document text."))
      end
  end.

(** [scanText]: [Canonicalize] of the [i] flag and
    [String.prototype.toLowerCase]. *)
Variable canonicalize : char → char.
Variable toLowerCase : jsstring → jsstring.

(** The context of a match at [matchIndex] with [matchLength] code
    units. *)
Definition contextOf (xml searchText : jsstring) (matchIndex matchLength : nat)
    : jsstring :=
  let range := 200 in
  let start := Z.to_nat (Z.max 0 (Z.of_nat matchIndex - Z.of_nat range)) in
  let end_ := length xml `min` (matchIndex + matchLength + range) in
  let rawChunk := substring xml start end_ in
  let cleanText := replace anyTag (λ _, str " ") rawChunk in
  let cleanText := trim (replace whitespaceRun (λ _, str " ") cleanText) in
  let lowerChunk := toLowerCase cleanText in
  let lowerSearch := toLowerCase searchText in
  match indexOf lowerSearch lowerChunk with
  | Some textIndex =>
      let ctxStart := Z.to_nat (Z.max 0 (Z.of_nat textIndex - 30)) in
      let ctxEnd := length cleanText `min` (textIndex + length searchText + 30) in
      str "..." ++ substring cleanText ctxStart ctxEnd ++ str "..."
  | None =>
      str "..." ++ substring cleanText 0 (60 `min` length cleanText) ++ str "..."
  end.

(** The loop over the results of [regex.exec(xml)]; [None] when it
    has not ended after [fuel] iterations. *)
Fixpoint scanLoop (fuel : nat) (regex : regex) (xml searchText : jsstring)
    (before after : list char) (count : nat) : option (list occurrenceInfo) :=
  match fuel with
  | 0 => None
  | S fuel' =>
      match IgnoreCase.exec canonicalize regex before after with
      | None => Some []
      | Some (start, st') =>
          let matchIndex := length start in
          let matchLength := length (consumed st') - length start in
          let finalContext := contextOf xml searchText matchIndex matchLength in
          (λ matches, mkOccurrenceInfo count finalContext :: matches)
            <$> scanLoop fuel' regex xml searchText
                  (consumed st') (remaining st') (S count)
      end
  end.

Definition scanText (fuel : nat) (searchText : jsstring) (st : manager)
    : option (exn + list occurrenceInfo) :=
  match zip st with
  | None => Some (inl (Error (str "No document loaded")))
  | Some z =>
      match z !! DOCUMENT_XML with
      | None => Some (inl (Error (str "No document.xml found")))
      | Some xml =>
          match RegExp_new (patternString searchText) with
          | PSyntaxError msg => Some (inl (SyntaxError msg))
          | PUnsupported => Some (inl Unsupported)
          | POk regex => inr <$> scanLoop fuel regex xml searchText [] xml 0
          end
      end
  end.

(** The error that the PizZip constructor throws for bytes it cannot
    read; and [new Docxtemplater(zip, options)] followed by
    [render(data)]: the archive of [getZip()] afterwards, or the error
    that the constructor or the rendering throws. *)
Variable PizZip_error : ArrayBuffer → thrown.
Variable render : archive → delimiters → FormDataMap → thrown + archive.

Definition executeGeneration (content : ArrayBuffer) (data : FormDataMap)
    (st : manager) : thrown + Blob :=
  match PizZip_new content with
  | None => inl (PizZip_error content)
  | Some generationZip =>
      match render generationZip (delimiterConfig st) data with
      | inl error => inl error
      | inr rendered => inr (generateBlob rendered)
      end
  end.

Definition generateDocument (data : FormDataMap) (st : manager) : exn + Blob :=
  match zip st, originalContent st with
  | Some _, Some content =>
      match healDocumentXml content st with
      | None => inl (throwHumanReadableError (PizZip_error content))
      | Some healedContent =>
          match executeGeneration healedContent data st with
          | inl error => inl (throwHumanReadableError error)
          | inr blob => inr blob
          end
      end
  | _, _ => inl (Error (str "No document loaded"))
  end.

End Manager.

End DocxManager.

(** ** DocxAppender *)

Module DocxAppender.

Definition idRegex : regex := Eval vm_compute in compiled (quoted "Id='rId(\d+)'").

(** [s.match(r)?.[1]] for a regular expression without the [g] flag:
    group 1 of the leftmost match. *)
Definition firstGroup1 (r : regex) (s : jsstring) : option jsstring :=
  match matchAll r s with
  | mi :: _ => group 1 (mgroups mi)
  | [] => None
  end.

Definition getLastRId (relsXml : jsstring) : N :=
  let matches := mtext <$> matchAll idRegex relsXml in
  foldl (λ maxId m,
           let id := parseInt (default (str "0") (firstGroup1 idRegex m)) in
           if (maxId <? id)%N then id else maxId)
        0%N matches.

Definition relationshipTag (rId target : jsstring) : jsstring :=
  quoted "<Relationship Id='" ++ rId
  ++ quoted "' Type='http://schemas.openxmlformats.org/officeDocument/2006/relationships/image' Target='"
  ++ target ++ quoted "'/>".

Definition addRelationship (xml rId target : jsstring) : jsstring :=
  let relTag := relationshipTag rId target in
  replace_first (str "</Relationships>") (relTag ++ str "</Relationships>") xml.

Definition generatePageBreakAndImageXml (rId : jsstring) : jsstring :=
  quoted "
    <w:p>
      <w:r>
        <w:br w:type='page'/>
      </w:r>
    </w:p>
    <w:p>
      <w:r>
        <w:drawing>
          <wp:inline distT='0' distB='0' distL='0' distR='0'>
            <wp:extent cx='5953500' cy='8419500'/>
            <wp:effectExtent l='0' t='0' r='0' b='0'/>
            <wp:docPr id='1' name='Appendix Image'/>
            <wp:cNvGraphicFramePr>
              <a:graphicFrameLocks xmlns:a='http://schemas.openxmlformats.org/drawingml/2006/main' noChangeAspect='1'/>
            </wp:cNvGraphicFramePr>
            <a:graphic xmlns:a='http://schemas.openxmlformats.org/drawingml/2006/main'>
              <a:graphicData uri='http://schemas.openxmlformats.org/drawingml/2006/picture'>
                <pic:pic xmlns:pic='http://schemas.openxmlformats.org/drawingml/2006/picture'>
                  <pic:nvPicPr>
                    <pic:cNvPr id='0' name='Picture'/>
                    <pic:cNvPicPr/>
                  </pic:nvPicPr>
                  <pic:blipFill>
                    <a:blip r:embed='" ++ rId ++ quoted "'/>
                    <a:stretch>
                      <a:fillRect/>
                    </a:stretch>
                  </pic:blipFill>
                  <pic:spPr>
                    <a:xfrm>
                      <a:off x='0' y='0'/>
                      <a:ext cx='5953500' cy='8419500'/>
                    </a:xfrm>
                    <a:prstGeom prst='rect'>
                      <a:avLst/>
                    </a:prstGeom>
                  </pic:spPr>
                </pic:pic>
              </a:graphicData>
            </a:graphic>
          </wp:inline>
        </w:drawing>
      </w:r>
    </w:p>
    ".

Definition rIdOf (n : N) : jsstring := str "rId" ++ toString n.

#[global] Arguments generatePageBreakAndImageXml : simpl never.
#[global] Arguments relationshipTag : simpl never.

Section Appender.
(** A blob and its reading into a PizZip instance ([None] when the
    constructor throws), and the writing of an instance to a blob. *)
Variable Blob : Type.
Variable PizZip_new : Blob → option archive.
Variable generate : archive → Blob.
(** The value of [Date.now()] while the image at an index is handled. *)
Variable Date_now : nat → N.

Definition imgFileName (index : nat) : jsstring :=
  str "media/appendix_img_" ++ toString (Date_now index) ++ str "_"
  ++ toString (N.of_nat index) ++ str ".jpg".

(** The variables the loop over the images updates. *)
Record vars : Type := mkVars {
  v_zip : archive;
  v_relsXml : jsstring;
  v_lastRId : N;
  v_xmlAppend : jsstring
}.

Definition step (v : vars) (index : nat) (imgBuffer : jsstring) : vars :=
  let lastRId := (v_lastRId v + 1)%N in
  let rId := rIdOf lastRId in
  let zip := <[str "word/" ++ imgFileName index := imgBuffer]> (v_zip v) in
  let relsXml := addRelationship (v_relsXml v) rId (imgFileName index) in
  let xmlAppend := v_xmlAppend v ++ generatePageBreakAndImageXml rId in
  mkVars zip relsXml lastRId xmlAppend.

Fixpoint forEach (images : list jsstring) (index : nat) (v : vars) : vars :=
  match images with
  | [] => v
  | imgBuffer :: images' => forEach images' (S index) (step v index imgBuffer)
  end.

(** The resolved value of the promise, [None] when it is rejected. *)
Definition appendImages (initialDocxBlob : Blob) (images : list jsstring)
    : option Blob :=
  if bool_decide (length images = 0) then Some initialDocxBlob
  else
    zip ← PizZip_new initialDocxBlob;
    let relsXml := default [] (zip !! DOCUMENT_RELS) in
    let lastRId := getLastRId relsXml in
    let v := forEach images 0 (mkVars zip relsXml lastRId []) in
    let zip := <[DOCUMENT_RELS := v_relsXml v]> (v_zip v) in
    let zip :=
      match zip !! DOCUMENT_XML with
      | Some docXml =>
          match lastIndexOf (str "</w:body>") docXml with
          | Some splitIndex =>
              <[DOCUMENT_XML :=
                  take splitIndex docXml ++ v_xmlAppend v ++ drop splitIndex docXml]> zip
          | None => zip
          end
      | None => zip
      end in
    Some (generate zip).

End Appender.

End DocxAppender.

(** ** The list of appendices *)

Module Appendices.

(** [arr.splice(start, deleteCount, ...items)]: the removed elements
    and the array afterwards.  A negative start counts from the end,
    and the start and the count are clamped to the array. *)
Definition splice {A : Type} (start : Z) (deleteCount : nat) (items : list A)
    (arr : list A) : list A * list A :=
  let len := length arr in
  let actualStart :=
    if (start <? 0)%Z then Z.to_nat (Z.max (Z.of_nat len + start) 0)
    else Nat.min (Z.to_nat start) len in
  let actualDeleteCount := Nat.min deleteCount (len - actualStart) in
  (take actualDeleteCount (drop actualStart arr),
   take actualStart arr ++ items ++ drop (actualStart + actualDeleteCount) arr).

(** The direction of a move, [-1] or [1]. *)
Inductive direction : Type := Up | Down.

#[global] Instance direction_eq_dec : EqDecision direction.
Proof. solve_decision. Defined.

Definition offset (d : direction) : Z :=
  match d with Up => (-1)%Z | Down => 1%Z end.

Section Items.
(** An element of the array is an appendix or [undefined], here
    [None]. *)
Variable AppendixFile : Type.

(** The new value of the state; the state as it is when the function
    returns before it sets it. *)
Definition moveAppendix (appendices : list (option AppendixFile))
    (index : Z) (direction : direction) : list (option AppendixFile) :=
  let newIndex := (index + offset direction)%Z in
  if (newIndex <? 0)%Z || (newIndex >=? Z.of_nat (length appendices))%Z
  then appendices
  else
    let newItems := appendices in
    let '(removedItems, newItems) := splice index 1 [] newItems in
    let removed := mjoin (head removedItems) in
    let '(_, newItems) := splice newIndex 0 [removed] newItems in
    newItems.

Definition moveFile (appendices : list (option AppendixFile))
    (index : Z) (direction : direction) : list (option AppendixFile) :=
  let newIndex := (index + offset direction)%Z in
  if (newIndex <? 0)%Z || (newIndex >=? Z.of_nat (length appendices))%Z
  then appendices
  else
    let newItems := appendices in
    let '(removedItems, newItems) := splice index 1 [] newItems in
    let removed := mjoin (head removedItems) in
    let '(_, newItems) := splice newIndex 0 [removed] newItems in
    newItems.

End Items.

End Appendices.

(** * Properties *)

(** ** The matcher and the words of a regular expression *)

Module RegExpFacts.
Import RegExp.

(** The words of a regular expression; an assertion holds of the empty
    word only. *)
Inductive lang : regex → jsstring → Prop :=
| lang_eps : lang Eps []
| lang_lit c : lang (Lit c) [c]
| lang_cls neg items c :
    class_matches neg items c = true → lang (Cls neg items) [c]
| lang_seq r1 r2 w1 w2 :
    lang r1 w1 → lang r2 w2 → lang (Seq r1 r2) (w1 ++ w2)
| lang_alt_l r1 r2 w : lang r1 w → lang (Alt r1 r2) w
| lang_alt_r r1 r2 w : lang r2 w → lang (Alt r1 r2) w
| lang_star_nil g r : lang (Star g r) []
| lang_star_cons g r w1 w2 :
    lang r w1 → lang (Star g r) w2 → lang (Star g r) (w1 ++ w2)
| lang_plus g r w1 w2 :
    lang r w1 → lang (Star g r) w2 → lang (Plus g r) (w1 ++ w2)
| lang_group n r w : lang r w → lang (Group n r) w
| lang_ncgroup r w : lang r w → lang (NCGroup r) w
| lang_notahead r : lang (NotAhead r) []
| lang_notbehind neg items : lang (NotBehind neg items) [].

(** [st'] is [st] after the word [w] has been consumed. *)
Definition advances (st st' : mstate) (w : jsstring) : Prop :=
  remaining st = w ++ remaining st' ∧ consumed st' = reverse w ++ consumed st.

Lemma advances_nil st : advances st st [].
Proof. split; reflexivity. Qed.

Lemma advances_app st1 st2 st3 w1 w2 :
  advances st1 st2 w1 → advances st2 st3 w2 → advances st1 st3 (w1 ++ w2).
Proof.
  intros [H1 H2] [H3 H4]. split.
  - rewrite H1, H3. by rewrite app_assoc.
  - rewrite H4, H2, reverse_app. by rewrite app_assoc.
Qed.

Lemma advances_captures st st' w caps :
  advances st st' w →
  advances st (MState (consumed st') (remaining st') caps) w.
Proof. intros [H1 H2]. split; done. Qed.

(** What a successful run of a matcher tells: the continuation was
    entered after a word with property [P] had been consumed. *)
Definition sound (P : jsstring → Prop) (mt : matcher) : Prop :=
  ∀ st k res, mt st k = Some res →
    ∃ w st', P w ∧ advances st st' w ∧ k st' = Some res.

Lemma entered (P : jsstring → Prop) (k : cont) st res w st' :
  P w → advances st st' w → k st' = Some res →
  ∃ w st', P w ∧ advances st st' w ∧ k st' = Some res.
Proof. eauto. Qed.

Lemma step_char_sound (p : char → bool) :
  sound (λ w, ∃ c, w = [c] ∧ p c = true) (step_char p).
Proof.
  intros [before after caps] k res. unfold step_char. cbn.
  destruct after as [|c rest]; [done|].
  destruct (p c) eqn:Hp; [|done].
  intros Hk. eapply (entered _ _ _ _ [c]); [by exists c| |exact Hk].
  split; reflexivity.
Qed.

Lemma star_loop_sound g r body :
  sound (lang r) body →
  ∀ fuel, sound (lang (Star g r)) (star_loop body g fuel).
Proof.
  intros Hbody fuel. induction fuel as [|fuel IH]; intros st k res.
  - cbn. destruct g.
    + intros Hk. eapply entered; [apply lang_star_nil|apply advances_nil|done].
    + destruct (k st) eqn:Hk; [|done].
      intros [= <-]. eapply entered; [apply lang_star_nil|apply advances_nil|done].
  - cbn.
    set (again := body st _).
    assert (Hagain : again = Some res →
      ∃ w st', lang (Star g r) w ∧ advances st st' w ∧ k st' = Some res).
    { unfold again. intros H. apply Hbody in H as (w1 & st1 & Hw1 & Hadv1 & H).
      case_bool_decide; [|done].
      apply IH in H as (w2 & st2 & Hw2 & Hadv2 & H).
      eapply entered; [by apply lang_star_cons|by eapply advances_app|done]. }
    destruct g.
    + destruct again as [x|] eqn:Ha.
      * intros [= <-]. by apply Hagain.
      * intros Hk. eapply entered; [apply lang_star_nil|apply advances_nil|done].
    + destruct (k st) eqn:Hk.
      * intros [= <-]. eapply entered; [apply lang_star_nil|apply advances_nil|done].
      * apply Hagain.
Qed.

(** A successful match attempt consumed a word of the expression. *)
Theorem m_sound r : sound (lang r) (m r).
Proof.
  induction r as [|c|neg items|r1 IH1 r2 IH2|r1 IH1 r2 IH2|g r IH|g r IH
                 |n r IH|r IH|r IH|neg items]; intros st k res; cbn [m].
  - intros Hk. eapply entered; [apply lang_eps|apply advances_nil|done].
  - intros H. apply step_char_sound in H as (w & st' & (c' & -> & Hc) & Hadv & H).
    apply N.eqb_eq in Hc as <-. eapply entered; [apply lang_lit|done..].
  - intros H. apply step_char_sound in H as (w & st' & (c' & -> & Hc) & Hadv & H).
    eapply entered; [by apply lang_cls|done..].
  - intros H. apply IH1 in H as (w1 & st1 & Hw1 & Hadv1 & H).
    apply IH2 in H as (w2 & st2 & Hw2 & Hadv2 & H).
    eapply entered; [by apply lang_seq|by eapply advances_app|done].
  - destruct (m r1 st k) eqn:H1.
    + intros [= <-]. apply IH1 in H1 as (w & st' & ? & ? & ?).
      eapply entered; [by apply lang_alt_l|done..].
    + intros H. apply IH2 in H as (w & st' & ? & ? & ?).
      eapply entered; [by apply lang_alt_r|done..].
  - apply (star_loop_sound g r (m r) IH (S (length (remaining st)))).
  - intros H. apply IH in H as (w1 & st1 & Hw1 & Hadv1 & H).
    apply (star_loop_sound g r (m r) IH (S (length (remaining st1)))) in H
      as (w2 & st2 & Hw2 & Hadv2 & H).
    eapply entered; [by apply lang_plus|by eapply advances_app|done].
  - intros H. apply IH in H as (w & st' & Hw & Hadv & H).
    eapply entered; [by apply lang_group| |exact H].
    by apply advances_captures.
  - intros H. apply IH in H as (w & st' & ? & ? & ?).
    eapply entered; [by apply lang_ncgroup|done..].
  - destruct (m r st Some); [done|].
    intros Hk. eapply entered; [apply lang_notahead|apply advances_nil|done].
  - destruct (consumed st) as [|c ?] eqn:Hc.
    + intros Hk. eapply entered; [apply lang_notbehind|apply advances_nil|done].
    + destruct (class_matches neg items c); [done|].
      intros Hk. eapply entered; [apply lang_notbehind|apply advances_nil|done].
Qed.

Lemma captured_advances st st' w : advances st st' w → captured st st' = w.
Proof.
  intros [_ H]. unfold captured. rewrite H, length_app, length_reverse.
  replace (length w + length (consumed st) - length (consumed st)) with (length w) by lia.
  rewrite <- (length_reverse w), take_app_length. apply reverse_involutive.
Qed.

Lemma captured_reverse before w after after' caps caps' :
  captured (MState before after caps) (MState (reverse w ++ before) after' caps') = w.
Proof.
  unfold captured. cbn. rewrite length_app, length_reverse.
  replace (length w + length before - length before) with (length w) by lia.
  rewrite <- (length_reverse w), take_app_length. apply reverse_involutive.
Qed.

(** An anchored match: the matched word is a prefix of the input. *)
Lemma match_here_sound r before after st' :
  match_here r before after = Some st' →
  ∃ w, lang r w ∧ after = w ++ remaining st'
       ∧ consumed st' = reverse w ++ before
       ∧ captured (MState before after []) st' = w.
Proof.
  unfold match_here. intros H.
  apply m_sound in H as (w & st1 & Hw & Hadv & [= ->]).
  exists w. split; [done|]. destruct Hadv as [H1 H2]. cbn in *.
  split; [done|]. split; [done|]. by apply captured_advances.
Qed.

(** The text a list of pieces stands for. *)
Definition piece_text (p : piece) : jsstring :=
  match p with
  | Gap c => [c]
  | Hit mi => mtext mi
  end.

Definition pieces_text (ps : list piece) : jsstring :=
  concat (piece_text <$> ps).

(** The scan cuts the input into pieces and loses nothing. *)
Lemma scan_text r fuel before after :
  length after < fuel → pieces_text (scan r fuel before after) = after.
Proof.
  revert before after. induction fuel as [|fuel IH]; intros before after Hlen; [lia|].
  cbn [scan].
  assert (Hgap : pieces_text
            match after with
            | [] => []
            | c :: rest => Gap c :: scan r fuel (c :: before) rest
            end = after).
  { destruct after as [|c rest]; [done|]. unfold pieces_text. cbn.
    f_equal. apply IH. cbn in Hlen. lia. }
  destruct (match_here r before after) as [st'|] eqn:Hm; [|exact Hgap].
  apply match_here_sound in Hm as (w & Hw & Hafter & Hcons & Hcap).
  rewrite Hcap. case_bool_decide as Hlt.
  - unfold pieces_text. cbn. fold (pieces_text (scan r fuel (consumed st') (remaining st'))).
    rewrite IH; [by rewrite Hafter|].
    apply (f_equal length) in Hafter. rewrite length_app in Hafter. lia.
  - assert (w = []) as ->.
    { apply (f_equal length) in Hafter. rewrite length_app in Hafter.
      destruct w; [done|]. cbn in Hafter. lia. }
    unfold pieces_text in *. cbn. exact Hgap.
Qed.

Lemma pieces_text_eq r s : pieces_text (pieces r s) = s.
Proof. apply scan_text. lia. Qed.

(** Every match of the scan is a word of the expression. *)
Lemma scan_hits_lang r fuel before after mi :
  mi ∈ hits (scan r fuel before after) → lang r (mtext mi).
Proof.
  revert before after. induction fuel as [|fuel IH]; intros before after; cbn [scan].
  { cbn. by intros ?%elem_of_nil. }
  assert (Hgap : mi ∈ hits
            match after with
            | [] => []
            | c :: rest => Gap c :: scan r fuel (c :: before) rest
            end → lang r (mtext mi)).
  { destruct after as [|c rest]; cbn; [by intros ?%elem_of_nil|]. apply IH. }
  destruct (match_here r before after) as [st'|] eqn:Hm; [|exact Hgap].
  apply match_here_sound in Hm as (w & Hw & Hafter & Hcons & Hcap).
  rewrite Hcap. case_bool_decide; cbn.
  - intros [->|Hin]%elem_of_cons; [done|]. by eapply IH.
  - intros [->|Hin]%elem_of_cons; [done|]. by apply Hgap.
Qed.

Lemma matchAll_lang r s mi : mi ∈ matchAll r s → lang r (mtext mi).
Proof. apply scan_hits_lang. Qed.

(** The replacement of the matches, piece by piece. *)
Definition piece_replaced (f : match_info → jsstring) (p : piece) : jsstring :=
  match p with
  | Gap c => [c]
  | Hit mi => f mi
  end.

Lemma rebuild_pure (f : match_info → jsstring) ps :
  (rebuild (λ mi (_ : unit), (f mi, ())) ps ()).1
  = concat (piece_replaced f <$> ps).
Proof.
  induction ps as [|[c|mi] ps IH]; cbn; [done| |].
  - destruct (rebuild _ ps ()) as [out []]. cbn in *. by rewrite IH.
  - destruct (rebuild _ ps ()) as [out []]. cbn in *. by rewrite IH.
Qed.

Lemma replace_pieces r f s :
  replace r f s = concat (piece_replaced f <$> pieces r s).
Proof. apply rebuild_pure. Qed.

(** *** Loops over a class of characters *)

(** A lazy loop tries the continuation first and then takes one more
    character. *)
Fixpoint lazy_run (p : char → bool) (k : cont)
    (before after : list char) (caps : list (nat * jsstring)) : option mstate :=
  match k (MState before after caps) with
  | Some r => Some r
  | None =>
      match after with
      | a :: after' => if p a then lazy_run p k (a :: before) after' caps else None
      | [] => None
      end
  end.

(** A greedy loop takes characters as long as it can and tries the
    continuation on the way back. *)
Fixpoint greedy_run (p : char → bool) (k : cont)
    (before after : list char) (caps : list (nat * jsstring)) : option mstate :=
  match after with
  | a :: after' =>
      if p a
      then match greedy_run p k (a :: before) after' caps with
           | Some r => Some r
           | None => k (MState before after caps)
           end
      else k (MState before after caps)
  | [] => k (MState before [] caps)
  end.

Lemma star_loop_lazy p fuel before after caps k :
  length after < fuel →
  star_loop (step_char p) false fuel (MState before after caps) k
  = lazy_run p k before after caps.
Proof.
  revert before after. induction fuel as [|fuel IH]; intros before after Hlen; [lia|].
  cbn [star_loop]. destruct after as [|a after']; cbn [lazy_run].
  - by destruct (k _).
  - destruct (k _); [done|]. unfold step_char at 1. cbn [remaining consumed captures].
    destruct (p a); [|done].
    rewrite bool_decide_true by (cbn; lia). apply IH. cbn in Hlen. lia.
Qed.

Lemma star_loop_greedy p fuel before after caps k :
  length after < fuel →
  star_loop (step_char p) true fuel (MState before after caps) k
  = greedy_run p k before after caps.
Proof.
  revert before after. induction fuel as [|fuel IH]; intros before after Hlen; [lia|].
  cbn [star_loop]. destruct after as [|a after']; cbn [greedy_run].
  - done.
  - unfold step_char at 1. cbn [remaining consumed captures].
    destruct (p a); [|done].
    rewrite bool_decide_true by (cbn; lia). rewrite IH; [done|]. cbn in Hlen. lia.
Qed.

(** *** Scans described by a function on the text *)

(** [mu] gives, for the text at the current position, the match there
    and the text after it. *)
Definition described (r : regex) (mu : jsstring → option (match_info * jsstring)) : Prop :=
  ∀ before after,
    (λ st', (MatchInfo (captured (MState before after []) st') (captures st'),
             remaining st')) <$> match_here r before after
    = mu after.

Inductive scanned (mu : jsstring → option (match_info * jsstring))
    : jsstring → list piece → Prop :=
| scanned_nil : scanned mu [] []
| scanned_hit s mi rest ps :
    mu s = Some (mi, rest) → scanned mu rest ps → scanned mu s (Hit mi :: ps)
| scanned_gap a s ps :
    mu (a :: s) = None → scanned mu s ps → scanned mu (a :: s) (Gap a :: ps).

Lemma scan_scanned r mu fuel before after :
  described r mu →
  (∀ s mi rest, mu s = Some (mi, rest) → length rest < length s) →
  length after < fuel →
  scanned mu after (scan r fuel before after).
Proof.
  intros Hmu Hprogress. revert before after.
  induction fuel as [|fuel IH]; intros before after Hlen; [lia|].
  cbn [scan]. specialize (Hmu before after).
  destruct (match_here r before after) as [st'|] eqn:Hm; cbn in Hmu.
  - symmetry in Hmu. pose proof (Hprogress _ _ _ Hmu) as Hlt.
    rewrite bool_decide_true by done.
    eapply scanned_hit; [exact Hmu|]. apply IH. lia.
  - destruct after as [|a after']; [constructor|].
    apply scanned_gap; [done|]. apply IH. cbn in Hlen. lia.
Qed.

Lemma pieces_scanned r mu s :
  described r mu →
  (∀ s mi rest, mu s = Some (mi, rest) → length rest < length s) →
  scanned mu s (pieces r s).
Proof. intros. eapply scan_scanned; [done..|lia]. Qed.

Lemma scanned_functional mu s ps1 ps2 :
  (∀ s mi rest, mu s = Some (mi, rest) → length rest < length s) →
  scanned mu s ps1 → scanned mu s ps2 → ps1 = ps2.
Proof.
  intros Hprogress H1. revert ps2.
  induction H1 as [|s mi rest ps Hmu _ IH|a s ps Hmu _ IH]; intros ps2 H2.
  - inversion H2 as [|s' mi' rest' ps' Hmu' _|]; subst; [done|].
    apply Hprogress in Hmu'. cbn in Hmu'. lia.
  - inversion H2 as [|s' mi' rest' ps' Hmu' Hrest|a' s' ps' Hmu' Hrest]; subst.
    + apply Hprogress in Hmu. cbn in Hmu. lia.
    + rewrite Hmu in Hmu'. injection Hmu' as <- <-. f_equal. by apply IH.
    + congruence.
  - inversion H2 as [|s' mi' rest' ps' Hmu' Hrest|a' s' ps' Hmu' Hrest]; subst.
    + congruence.
    + f_equal. by apply IH.
Qed.

(** Removing the matches leaves characters of the text only. *)
Lemma scanned_removed mu s ps (x : char) :
  (∀ s mi rest, mu s = Some (mi, rest) → ∃ w, s = w ++ rest) →
  scanned mu s ps →
  x ∈ concat (piece_replaced (λ _, []) <$> ps) → x ∈ s.
Proof.
  intros Hsuffix H. induction H as [|s mi rest ps Hmu _ IH|a s ps Hmu _ IH]; cbn.
  - done.
  - intros Hx. destruct (Hsuffix _ _ _ Hmu) as [w ->].
    apply elem_of_app. right. by apply IH.
  - intros [->|Hx]%elem_of_cons; [apply elem_of_cons; by left|].
    apply elem_of_cons. right. by apply IH.
Qed.

(** *** The replacement along a described scan *)

Lemma pieces_hit r mu s mi rest :
  described r mu →
  (∀ s mi rest, mu s = Some (mi, rest) → length rest < length s) →
  mu s = Some (mi, rest) → pieces r s = Hit mi :: pieces r rest.
Proof.
  intros Hmu Hprogress Hs.
  apply (scanned_functional mu s); [done|by apply pieces_scanned|].
  eapply scanned_hit; [exact Hs|by apply pieces_scanned].
Qed.

Lemma pieces_gap r mu a s :
  described r mu →
  (∀ s mi rest, mu s = Some (mi, rest) → length rest < length s) →
  mu (a :: s) = None → pieces r (a :: s) = Gap a :: pieces r s.
Proof.
  intros Hmu Hprogress Hs.
  apply (scanned_functional mu (a :: s)); [done|by apply pieces_scanned|].
  apply scanned_gap; [exact Hs|by apply pieces_scanned].
Qed.

Lemma pieces_nil r mu :
  described r mu →
  (∀ s mi rest, mu s = Some (mi, rest) → length rest < length s) →
  pieces r [] = [].
Proof.
  intros Hmu Hprogress.
  apply (scanned_functional mu []); [done|by apply pieces_scanned|constructor].
Qed.

Lemma replace_hit r mu f s mi rest :
  described r mu →
  (∀ s mi rest, mu s = Some (mi, rest) → length rest < length s) →
  mu s = Some (mi, rest) → replace r f s = f mi ++ replace r f rest.
Proof.
  intros Hmu Hprogress Hs.
  by rewrite !replace_pieces, (pieces_hit r mu s mi rest).
Qed.

Lemma replace_gap r mu f a s :
  described r mu →
  (∀ s mi rest, mu s = Some (mi, rest) → length rest < length s) →
  mu (a :: s) = None → replace r f (a :: s) = a :: replace r f s.
Proof.
  intros Hmu Hprogress Hs.
  by rewrite !replace_pieces, (pieces_gap r mu a s).
Qed.

Lemma replace_nil r mu f :
  described r mu →
  (∀ s mi rest, mu s = Some (mi, rest) → length rest < length s) →
  replace r f [] = [].
Proof. intros Hmu Hprogress. by rewrite replace_pieces, (pieces_nil r mu). Qed.

(** Text in which no match can start is copied. *)
Lemma replace_gaps r mu f w s :
  described r mu →
  (∀ s mi rest, mu s = Some (mi, rest) → length rest < length s) →
  (∀ a t, a ∈ w → mu (a :: t) = None) →
  replace r f (w ++ s) = w ++ replace r f s.
Proof.
  intros Hmu Hprogress. induction w as [|a w IH]; intros Hw; [done|].
  cbn [app]. rewrite (replace_gap r mu) by (try done; apply Hw; by left).
  rewrite IH; [done|]. intros b t Hb. apply Hw. by right.
Qed.

(** Every match of the scan is a part of the text. *)
Lemma hits_within ps mi :
  mi ∈ hits ps → ∃ a c, pieces_text ps = a ++ mtext mi ++ c.
Proof.
  unfold pieces_text. induction ps as [|[c|mi'] ps IH]; cbn [hits].
  - by intros ?%elem_of_nil.
  - intros (a & c' & Heq)%IH. exists (c :: a), c'. cbn. by rewrite Heq.
  - intros [->|Hin]%elem_of_cons.
    + by exists [], (concat (piece_text <$> ps)).
    + destruct (IH Hin) as (a & c & Heq). exists (mtext mi' ++ a), c.
      cbn [fmap list_fmap concat piece_text]. rewrite Heq.
      by rewrite <- !app_assoc.
Qed.

Lemma matchAll_within r s mi :
  mi ∈ matchAll r s → ∃ a c, s = a ++ mtext mi ++ c.
Proof. intros H. apply hits_within in H. by rewrite pieces_text_eq in H. Qed.

(** Without a match the replacement returns the text. *)
Lemma replace_no_match r f s : matchAll r s = [] → replace r f s = s.
Proof.
  intros H. transitivity (pieces_text (pieces r s)); [|apply pieces_text_eq].
  rewrite replace_pieces. revert H. unfold matchAll, pieces_text.
  generalize (pieces r s). intros ps.
  induction ps as [|[c|mi] ps IH]; cbn; [done| |done].
  intros H. by rewrite IH.
Qed.

(** *** The words of a compound expression *)

Lemma lang_seq_inv r1 r2 w :
  lang (Seq r1 r2) w → ∃ w1 w2, w = w1 ++ w2 ∧ lang r1 w1 ∧ lang r2 w2.
Proof. inversion 1; subst; eauto. Qed.

Lemma lang_group_inv n r w : lang (Group n r) w → lang r w.
Proof. by inversion 1. Qed.

Lemma lang_lit_inv c w : lang (Lit c) w → w = [c].
Proof. by inversion 1. Qed.

Lemma lang_plus_inv g r w :
  lang (Plus g r) w → ∃ w1 w2, w = w1 ++ w2 ∧ lang r w1 ∧ lang (Star g r) w2.
Proof. inversion 1; subst; eauto. Qed.

(** *** What the matcher does not miss *)

(** No assertion in the expression. *)
Fixpoint assertion_free (r : regex) : bool :=
  match r with
  | Eps | Lit _ | Cls _ _ => true
  | Seq r1 r2 | Alt r1 r2 => assertion_free r1 && assertion_free r2
  | Star _ r1 | Plus _ r1 | Group _ r1 | NCGroup r1 => assertion_free r1
  | NotAhead _ | NotBehind _ _ => false
  end.

(** A matcher misses no word with property [P]: when the text ahead
    begins with such a word and the continuation accepts the state
    after it, whatever the captures, the run succeeds. *)
Definition complete (P : jsstring → Prop) (mt : matcher) : Prop :=
  ∀ w st rest k,
    P w → remaining st = w ++ rest →
    (∀ caps, is_Some (k (MState (reverse w ++ consumed st) rest caps))) →
    is_Some (mt st k).

Lemma step_char_complete (p : char → bool) :
  complete (λ w, ∃ c, w = [c] ∧ p c = true) (step_char p).
Proof.
  intros w [before after caps] rest k (c & -> & Hp) Hr Hk. cbn in *. subst after.
  unfold step_char. cbn. rewrite Hp. apply Hk.
Qed.

Lemma star_loop_complete (P : jsstring → Prop) body g :
  complete P body →
  ∀ ws, Forall P ws →
  ∀ fuel st rest k,
    remaining st = concat ws ++ rest →
    length (remaining st) < fuel →
    (∀ caps, is_Some (k (MState (reverse (concat ws) ++ consumed st) rest caps))) →
    is_Some (star_loop body g fuel st k).
Proof.
  intros Hbody ws Hws.
  induction Hws as [|w ws Hw _ IH]; intros fuel st rest k Hr Hfuel Hk.
  - destruct st as [before after caps]. cbn in Hr, Hk. subst after.
    destruct fuel as [|fuel]; [cbn in Hfuel; lia|]. cbn [star_loop].
    specialize (Hk caps).
    destruct g.
    + by destruct (body _ _).
    + destruct (k _); [done|]. by destruct Hk.
  - cbn [concat] in Hr, Hk. rewrite <- app_assoc in Hr.
    destruct w as [|c w].
    { cbn [app] in Hr, Hk. by apply (IH fuel st rest). }
    destruct fuel as [|fuel]; [lia|]. cbn [star_loop].
    assert (Hagain : is_Some
      (body st (λ st', if bool_decide (length (remaining st') < length (remaining st))
                       then star_loop body g fuel st' k else None))).
    { apply (Hbody (c :: w) st (concat ws ++ rest)); [done..|].
      intros caps. cbn [remaining]. rewrite bool_decide_true.
      2:{ rewrite Hr. cbn. rewrite !length_app. lia. }
      apply (IH fuel _ rest); [done| |].
      - cbn [remaining]. rewrite Hr in Hfuel. cbn in Hfuel.
        rewrite !length_app in *. lia.
      - intros caps'. cbn [consumed]. rewrite app_assoc, <- reverse_app. apply Hk. }
    destruct g.
    + destruct (body st _); [done|]. by destruct Hagain.
    + by destruct (k st).
Qed.

Lemma lang_star_words g r w :
  lang (Star g r) w → ∃ ws, Forall (lang r) ws ∧ w = concat ws.
Proof.
  remember (Star g r) as e eqn:He.
  induction 1 as [| | | | | | |g' r' w1 w2 H1 _ H2 IH| | | | |]; try discriminate.
  - by exists [].
  - injection He as -> ->. destruct (IH eq_refl) as (ws & Hws & ->).
    exists (w1 :: ws). split; [by constructor|done].
Qed.

(** The matcher finds a match wherever the text ahead begins with a
    word of an expression without assertions. *)
Theorem m_complete r : assertion_free r = true → complete (lang r) (m r).
Proof.
  induction r as [|c|neg items|r1 IH1 r2 IH2|r1 IH1 r2 IH2|g r IH|g r IH
                 |n r IH|r IH|r IH|neg items]; cbn [assertion_free m]; intros Hfree;
    try discriminate.
  - intros w [before after caps] rest k Hw Hr Hk. inversion Hw; subst.
    cbn in *. subst. apply Hk.
  - intros w st rest k Hw. inversion Hw; subst.
    apply step_char_complete. exists c. split; [done|apply N.eqb_refl].
  - intros w st rest k Hw. inversion Hw; subst.
    apply step_char_complete. by eexists.
  - apply andb_prop in Hfree as [H1 H2].
    intros w st rest k (w1 & w2 & -> & Hw1 & Hw2)%lang_seq_inv Hr Hk.
    rewrite <- app_assoc in Hr.
    apply (IH1 H1 w1 st (w2 ++ rest)); [done..|].
    intros caps. apply (IH2 H2 w2 _ rest); [done..|].
    intros caps'. cbn [consumed]. rewrite app_assoc, <- reverse_app. apply Hk.
  - apply andb_prop in Hfree as [H1 H2].
    intros w st rest k Hw Hr Hk.
    destruct (m r1 st k) eqn:Hm; [done|].
    inversion Hw; subst.
    + destruct (IH1 H1 w st rest k) as [x Hx]; [done..|]. congruence.
    + by apply (IH2 H2 w st rest).
  - intros w st rest k (ws & Hws & ->)%lang_star_words Hr Hk.
    apply (star_loop_complete (lang r) (m r) g (IH Hfree) ws Hws _ st rest);
      [done|lia|done].
  - intros w st rest k (w1 & w2 & -> & Hw1 & Hw2)%lang_plus_inv Hr Hk.
    rewrite <- app_assoc in Hr.
    apply (IH Hfree w1 st (w2 ++ rest)); [done..|].
    intros caps. apply lang_star_words in Hw2 as (ws & Hws & ->).
    apply (star_loop_complete (lang r) (m r) g (IH Hfree) ws Hws _ _ rest);
      [done|cbn; lia|].
    intros caps'. cbn [consumed]. rewrite app_assoc, <- reverse_app. apply Hk.
  - intros w st rest k Hw%lang_group_inv Hr Hk.
    apply (IH Hfree w st rest); [done..|].
    intros caps. cbn [consumed remaining]. apply Hk.
  - intros w st rest k Hw Hr Hk. inversion Hw; subst.
    by apply (IH Hfree w st rest).
Qed.

(** *** The cut of a text into matches *)

(** A text cut into words with property [P] and single characters at
    which no such word begins: the leftmost words, none overlapping
    another. *)
Inductive cut (P : jsstring → Prop) : jsstring → list piece → Prop :=
| cut_nil : cut P [] []
| cut_hit mi rest ps :
    P (mtext mi) → cut P rest ps → cut P (mtext mi ++ rest) (Hit mi :: ps)
| cut_gap a s ps :
    (∀ w rest, P w → a :: s ≠ w ++ rest) → cut P s ps →
    cut P (a :: s) (Gap a :: ps).

Lemma scan_cut r fuel before after :
  assertion_free r = true → (∀ w, lang r w → w ≠ []) →
  length after < fuel →
  cut (lang r) after (scan r fuel before after).
Proof.
  intros Hfree Hne. revert before after.
  induction fuel as [|fuel IH]; intros before after Hlen; [lia|].
  cbn [scan].
  destruct (match_here r before after) as [st'|] eqn:Hm.
  - apply match_here_sound in Hm as (w & Hw & Hafter & Hcons & Hcap).
    pose proof (Hne w Hw) as Hw'.
    rewrite bool_decide_true.
    2:{ rewrite Hafter, length_app. destruct w; [done|]. cbn. lia. }
    rewrite Hcap. rewrite Hafter at 1.
    apply (cut_hit (lang r) (MatchInfo w (captures st'))); [done|].
    apply IH. rewrite Hafter, length_app in Hlen. destruct w; [done|]. cbn in Hlen. lia.
  - destruct after as [|a s]; [constructor|].
    apply cut_gap; [|apply IH; cbn in Hlen; lia].
    intros w rest Hw Heq.
    destruct (m_complete r Hfree w (MState before (a :: s) []) rest Some Hw Heq)
      as [x Hx]; [by eexists|].
    unfold match_here in Hm. congruence.
Qed.

Lemma pieces_cut r s :
  assertion_free r = true → (∀ w, lang r w → w ≠ []) →
  cut (lang r) s (pieces r s).
Proof. intros. apply scan_cut; [done..|lia]. Qed.

Lemma cut_iff (P Q : jsstring → Prop) s ps :
  (∀ w, P w ↔ Q w) → cut P s ps → cut Q s ps.
Proof.
  intros HPQ. induction 1 as [|mi rest ps Hmi _ IH|a s ps Hgap _ IH].
  - constructor.
  - constructor; [by apply HPQ|done].
  - constructor; [|done]. intros w rest Hw. apply Hgap. by apply HPQ.
Qed.

Lemma cut_text P s ps : cut P s ps → pieces_text ps = s.
Proof.
  unfold pieces_text. induction 1 as [|mi rest ps _ _ IH|a s ps _ _ IH]; cbn.
  - done.
  - by rewrite IH.
  - by rewrite IH.
Qed.

Lemma cut_hits P s ps mi : cut P s ps → mi ∈ hits ps → P (mtext mi).
Proof.
  induction 1 as [|mi' rest ps Hmi _ IH|a s ps _ _ IH]; cbn [hits].
  - by intros ?%elem_of_nil.
  - intros [->|Hin]%elem_of_cons; [done|by apply IH].
  - exact IH.
Qed.

(** No word begins at a character that the cut copies. *)
Lemma cut_gaps P s ps ps1 c ps2 w rest :
  cut P s ps → ps = ps1 ++ Gap c :: ps2 → P w →
  c :: pieces_text ps2 ≠ w ++ rest.
Proof.
  intros H. revert ps1.
  induction H as [|mi rest' ps _ _ IH|a s ps Hgap Hcut IH]; intros ps1 Hps Hw.
  - by destruct ps1.
  - destruct ps1 as [|p ps1]; [done|]. injection Hps as _ Hps. by apply (IH ps1).
  - destruct ps1 as [|p ps1].
    + injection Hps as <- <-. rewrite (cut_text _ _ _ Hcut). by apply Hgap.
    + injection Hps as _ Hps. by apply (IH ps1).
Qed.

(** A text that holds a word somewhere has a match. *)
Lemma cut_found P s ps pre w post :
  (∀ w, P w → w ≠ []) →
  cut P s ps → s = pre ++ w ++ post → P w → hits ps ≠ [].
Proof.
  intros Hne H. revert pre.
  induction H as [|mi rest ps _ _ IH|a s ps Hgap _ IH]; intros pre Hs Hw.
  - apply Hne in Hw. destruct pre, w; done.
  - done.
  - cbn [hits]. destruct pre as [|b pre].
    + exfalso. by apply (Hgap w post).
    + injection Hs as _ Hs. by apply (IH pre).
Qed.

(** A run of the loop consumed a sequence of words of its body. *)
Lemma star_loop_words (P : jsstring → Prop) body g fuel :
  sound P body →
  sound (λ w, ∃ ws, Forall P ws ∧ w = concat ws) (star_loop body g fuel).
Proof.
  intros Hbody. induction fuel as [|fuel IH]; intros st k res.
  - cbn. destruct g.
    + intros Hk. eapply (entered _ _ _ _ []); [by exists []|apply advances_nil|done].
    + destruct (k st) eqn:Hk; [|done].
      intros [= <-]. eapply (entered _ _ _ _ []); [by exists []|apply advances_nil|done].
  - cbn.
    set (again := body st _).
    assert (Hagain : again = Some res →
      ∃ w st', (∃ ws, Forall P ws ∧ w = concat ws) ∧ advances st st' w ∧ k st' = Some res).
    { unfold again. intros H. apply Hbody in H as (w1 & st1 & Hw1 & Hadv1 & H).
      case_bool_decide; [|done].
      apply IH in H as (w2 & st2 & (ws & Hws & ->) & Hadv2 & H).
      eapply (entered _ _ _ _ (w1 ++ concat ws));
        [exists (w1 :: ws); split; [by constructor|done]
        |by eapply advances_app|done]. }
    destruct g.
    + destruct again as [x|] eqn:Ha.
      * intros [= <-]. by apply Hagain.
      * intros Hk. eapply (entered _ _ _ _ []); [by exists []|apply advances_nil|done].
    + destruct (k st) eqn:Hk.
      * intros [= <-]. eapply (entered _ _ _ _ []); [by exists []|apply advances_nil|done].
      * apply Hagain.
Qed.

Lemma complete_impl (P Q : jsstring → Prop) mt :
  (∀ w, P w → Q w) → complete Q mt → complete P mt.
Proof. intros HPQ H w st rest k Hw. apply H. by apply HPQ. Qed.

End RegExpFacts.

(** ** String search and decimal numbers *)

Module JSFacts.

Lemma starts_with_app p s : starts_with p (p ++ s) = true.
Proof. induction p as [|a p IH]; cbn; [done|]. by rewrite N.eqb_refl. Qed.

Lemma starts_with_prefix p s :
  starts_with p s = true → s = p ++ drop (length p) s.
Proof.
  revert s. induction p as [|a p IH]; intros [|b s]; cbn; try done.
  intros [->%N.eqb_eq H]%andb_prop. f_equal. by apply IH.
Qed.

(** [indexOf] returns the place of the first occurrence. *)
Lemma indexOf_split p s i :
  indexOf p s = Some i →
  s = take i s ++ p ++ drop (i + length p) s ∧ i ≤ length s.
Proof.
  revert i. induction s as [|x s IH]; intros i; cbn [indexOf].
  - destruct (starts_with p []) eqn:Hp; [|done].
    intros [= <-]. split; [|done]. by apply starts_with_prefix in Hp.
  - destruct (starts_with p (x :: s)) eqn:Hp.
    + intros [= <-]. split; [|cbn; lia]. by apply starts_with_prefix in Hp.
    + destruct (indexOf p s) as [i'|] eqn:Hi; [|done].
      intros [= <-]. destruct (IH i' eq_refl) as [H1 H2].
      split; [|cbn; lia]. cbn. f_equal. exact H1.
Qed.

Lemma indexOf_first p s i j :
  indexOf p s = Some i → j < i → starts_with p (drop j s) = false.
Proof.
  revert i j. induction s as [|x s IH]; intros i j; cbn [indexOf].
  - destruct (starts_with p []); [|done]. intros [= <-]. lia.
  - destruct (starts_with p (x :: s)) eqn:Hp; [intros [= <-]; lia|].
    destruct (indexOf p s) as [i'|] eqn:Hi; [|done].
    intros [= <-] Hj. destruct j as [|j]; [done|].
    cbn. eapply IH; [done|lia].
Qed.

Lemma indexOf_None p s j :
  indexOf p s = None → j ≤ length s → starts_with p (drop j s) = false.
Proof.
  revert j. induction s as [|x s IH]; intros j; cbn [indexOf].
  - destruct (starts_with p []) eqn:Hp; [done|]. intros _ Hj.
    cbn in Hj. by replace j with 0 by lia.
  - destruct (starts_with p (x :: s)) eqn:Hp; [done|].
    destruct (indexOf p s) eqn:Hi; [done|].
    intros _ Hj. destruct j as [|j]; [done|]. cbn. apply IH; [done|]. cbn in Hj. lia.
Qed.

(** [lastIndexOf] returns the place of the last occurrence. *)
Lemma lastIndexOf_last p s j :
  lastIndexOf p s = Some j →
  starts_with p (drop j s) = true
  ∧ j ≤ length s
  ∧ ∀ k, j < k → k ≤ length s → starts_with p (drop k s) = false.
Proof.
  revert j. induction s as [|x s IH]; intros j; cbn [lastIndexOf].
  - destruct (starts_with p []) eqn:Hp; [|done].
    intros [= <-]. split; [done|]. split; [done|]. cbn. lia.
  - destruct (lastIndexOf p s) as [j'|] eqn:Hl.
    + intros [= <-]. destruct (IH j' eq_refl) as (H1 & H2 & H3).
      split; [done|]. split; [cbn; lia|].
      intros [|k] Hk Hk'; [lia|]. cbn. apply H3; [lia|]. cbn in Hk'. lia.
    + destruct (starts_with p (x :: s)) eqn:Hp; [|done].
      intros [= <-]. split; [done|]. split; [cbn; lia|].
      intros [|k] Hk Hk'; [lia|]. cbn. clear IH Hp.
      cbn in Hk'. assert (k ≤ length s) as Hks by lia. clear Hk Hk'.
      revert k Hks. induction s as [|y s IHs]; intros k Hks.
      * cbn in Hl. destruct (starts_with p []) eqn:Hp; [done|].
        cbn in Hks. by replace k with 0 by lia.
      * cbn [lastIndexOf] in Hl.
        destruct (lastIndexOf p s) eqn:Hl'; [done|].
        destruct (starts_with p (y :: s)) eqn:Hp; [done|].
        destruct k as [|k]; [done|]. cbn. apply IHs; [done|]. cbn in Hks. lia.
Qed.

Lemma lastIndexOf_split p s j :
  lastIndexOf p s = Some j →
  s = take j s ++ p ++ drop (j + length p) s.
Proof.
  intros (H & _ & _)%lastIndexOf_last.
  apply starts_with_prefix in H. rewrite drop_drop in H.
  rewrite <- H. by rewrite take_drop.
Qed.

(** When the pattern starts with a character that it does not contain
    again, a text put before its first occurrence moves that occurrence
    and makes no earlier one, if the text starts with the same
    character, does not contain it again and does not start with the
    pattern. *)
Lemma starts_with_same_head c p u w1 w2 :
  c ∉ p → starts_with p (u ++ c :: w1) = starts_with p (u ++ c :: w2).
Proof.
  revert u. induction p as [|a p IH]; intros u Hc; [done|].
  apply not_elem_of_cons in Hc as [Hne Hc].
  destruct u as [|y u]; cbn.
  - replace (a =? c)%N with false; [done|].
    symmetry. apply N.eqb_neq. congruence.
  - by rewrite (IH u Hc).
Qed.

Lemma indexOf_skip c p t post :
  c ∉ t →
  indexOf (c :: p) (t ++ c :: p ++ post) = Some (length t).
Proof.
  induction t as [|x t IH]; intros Hc.
  - cbn [app length]. destruct post; cbn; by rewrite N.eqb_refl, starts_with_app.
  - apply not_elem_of_cons in Hc as [Hne Hc].
    cbn [app indexOf starts_with].
    replace (c =? x)%N with false by (symmetry; apply N.eqb_neq; congruence).
    cbn [andb]. by rewrite (IH Hc).
Qed.

Lemma indexOf_insert c p t pre post :
  c ∉ p → c ∉ t →
  starts_with (c :: p) (c :: t ++ c :: p ++ post) = false →
  indexOf (c :: p) (pre ++ c :: p ++ post) = Some (length pre) →
  indexOf (c :: p) (pre ++ c :: t ++ c :: p ++ post)
  = Some (length (pre ++ c :: t)).
Proof.
  intros Hp Ht Hstart. induction pre as [|x pre IH]; intros Hpre.
  - cbn [app length]. cbn [indexOf]. rewrite Hstart.
    by rewrite (indexOf_skip c p t post Ht).
  - cbn [app indexOf length] in *.
    destruct (starts_with (c :: p) (x :: pre ++ c :: p ++ post)) eqn:Hx; [done|].
    cbn [starts_with] in *.
    rewrite (starts_with_same_head c p pre (t ++ c :: p ++ post) (p ++ post) Hp), Hx.
    destruct (indexOf (c :: p) (pre ++ c :: p ++ post)) as [i|] eqn:Hi; [|done].
    injection Hpre as ->. by rewrite (IH eq_refl).
Qed.

Lemma replace_first_at p r pre post :
  indexOf p (pre ++ p ++ post) = Some (length pre) →
  replace_first p r (pre ++ p ++ post) = pre ++ r ++ post.
Proof.
  intros H. unfold replace_first. rewrite H.
  rewrite take_app_length. f_equal. f_equal.
  rewrite <- drop_drop, drop_app_length. apply drop_app_length.
Qed.

Lemma replace_first_absent p r s :
  indexOf p s = None → replace_first p r s = s.
Proof. intros H. unfold replace_first. by rewrite H. Qed.

(** Decimal numerals. *)
Lemma str_inj s1 s2 : str s1 = str s2 → s1 = s2.
Proof.
  unfold str. intros H.
  assert (Hl : list_ascii_of_string s1 = list_ascii_of_string s2).
  { revert H. generalize (list_ascii_of_string s1) (list_ascii_of_string s2).
    intros l1. induction l1 as [|a l1 IH]; intros [|b l2]; cbn; try done.
    intros [= Hab Hl]. f_equal; [|by apply IH].
    rewrite <- (ascii_N_embedding a), <- (ascii_N_embedding b). by rewrite Hab. }
  rewrite <- (string_of_list_ascii_of_string s1), <- (string_of_list_ascii_of_string s2).
  by rewrite Hl.
Qed.

Lemma toString_inj n1 n2 : toString n1 = toString n2 → n1 = n2.
Proof.
  unfold toString. intros H%str_inj.
  apply DecimalN.Unsigned.to_uint_inj.
  assert (Hsome : ∀ n, NilZero.uint_of_string (NilZero.string_of_uint (N.to_uint n))
                        = Some (N.to_uint n)).
  { intros n. apply NilZero.usu.
    destruct n as [|q]; [done|]. cbn.
    pose proof (DecimalPos.Unsigned.to_uint_nonnil q). done. }
  pose proof (Hsome n1) as H1. rewrite H, Hsome in H1. by injection H1.
Qed.

Lemma uint_digits d c :
  c ∈ str (NilEmpty.string_of_uint d) → is_digit c = true.
Proof.
  induction d; cbn; intros Hc;
    try (apply elem_of_cons in Hc as [->|Hc]; [reflexivity|by apply IHd]).
  by apply elem_of_nil in Hc.
Qed.

Lemma toString_digits n c : c ∈ toString n → is_digit c = true.
Proof.
  unfold toString, NilZero.string_of_uint.
  destruct (N.to_uint n) eqn:Hn; try apply uint_digits.
  cbn. by intros ->%list_elem_of_singleton.
Qed.

Lemma toString_lacks n c : is_digit c = false → c ∉ toString n.
Proof. intros Hc Hin. apply toString_digits in Hin. congruence. Qed.

(** A text cut at the first occurrence of a separator. *)
Lemma app_sep_inj (c : char) (d1 d2 r1 r2 : jsstring) :
  c ∉ d1 → c ∉ d2 → d1 ++ c :: r1 = d2 ++ c :: r2 → d1 = d2 ∧ r1 = r2.
Proof.
  revert d2. induction d1 as [|x d1 IH]; intros [|y d2] H1 H2; cbn.
  - by intros [= ->].
  - intros [= <- _]. by apply not_elem_of_cons in H2 as [? _].
  - intros [= -> _]. by apply not_elem_of_cons in H1 as [? _].
  - apply not_elem_of_cons in H1 as [_ H1]. apply not_elem_of_cons in H2 as [_ H2].
    intros [= -> H]. destruct (IH d2 H1 H2 H) as [-> ->]. done.
Qed.

Lemma lacks_includes (c : char) (s : jsstring) : includes_char c s = false → c ∉ s.
Proof.
  unfold includes_char. induction s as [|x s IH]; cbn.
  - intros _. apply not_elem_of_nil.
  - intros [Hx Hs]%orb_false_elim. apply not_elem_of_cons. split; [|by apply IH].
    by apply N.eqb_neq.
Qed.

End JSFacts.

(** ** The pattern of a search text *)

Module PatternFacts.
Import DocxManager RegExpFacts.

#[local] Arguments N.eqb : simpl never.

(** The characters that the search text has escaped. *)
Definition special (c : char) : bool :=
  existsb (N.eqb c) (str ".*+?^${}()|[]\").

(** The characters that start no construct of a pattern. *)
Definition ordinary (c : char) : bool :=
  negb (existsb (N.eqb c) (str ")|*+?^$.\[{(")).

(** The pattern text of what may stand between two characters. *)
Definition JOINER : jsstring := str "(<[^>]+>)*".

(** One markup element: [<], one or more characters other than [>],
    and [>] (code units 60 and 62). *)
Definition TAG : regex :=
  Seq (Lit 60%N) (Seq (Plus true (Cls true [ItChar 62%N])) (Lit 62%N)).

(** The terms of the pattern of a search text without special
    characters: its characters, with any number of markup elements
    between two of them; [n] capturing groups were opened before. *)
Fixpoint terms (chars : jsstring) (n : nat) : list regex :=
  match chars with
  | [] => []
  | c :: chars' =>
      match chars' with
      | [] => [Lit c]
      | _ :: _ => Lit c :: Star true (Group (S n) TAG) :: terms chars' (S n)
      end
  end.

Ltac eval_tests c :=
  repeat match goal with
         | |- context [is_chr ?a c] =>
             let b := eval vm_compute in (is_chr a c) in
             change (is_chr a c) with b
         end;
  cbn [orb].

Ltac split_tests H :=
  cbn [existsb] in H; repeat (apply orb_false_elim in H as [? H]).

Lemma special_chars :
  str ".*+?^${}()|[]\"
  = [ch "."; ch "*"; ch "+"; ch "?"; ch "^"; ch "$"; ch "{"; ch "}";
     ch "("; ch ")"; ch "|"; ch "["; ch "]"; ch "\"].
Proof. reflexivity. Qed.

Lemma ordinary_chars :
  str ")|*+?^$.\[{("
  = [ch ")"; ch "|"; ch "*"; ch "+"; ch "?"; ch "^"; ch "$"; ch ".";
     ch "\"; ch "["; ch "{"; ch "("].
Proof. reflexivity. Qed.

Lemma special_ordinary c : special c = false → ordinary c = true.
Proof.
  unfold special, ordinary. rewrite special_chars, ordinary_chars.
  intros H. apply negb_true_iff. split_tests H. cbn [existsb].
  repeat match goal with Hc : (c =? _)%N = false |- _ => rewrite Hc; clear Hc end.
  reflexivity.
Qed.

Lemma special_not_question c : special c = false → is_chr "?" c = false.
Proof.
  unfold special. rewrite special_chars. intros H. split_tests H. done.
Qed.

(** *** The steps of the parser *)

Lemma parse_ordinary c f s n :
  ordinary c = true →
  parse_disj (S f) (c :: s) n
  = let '(term, rest') := quantified (Lit c) s in
    pbind (parse_disj f rest' n)
      (λ '(alts, r, n'), POk (cons_term term alts, r, n')).
Proof.
  unfold ordinary. rewrite ordinary_chars.
  intros H. apply negb_true_iff in H. split_tests H.
  cbn [parse_disj]. unfold is_chr.
  repeat match goal with Hc : (c =? _)%N = false |- _ => rewrite Hc; clear Hc end.
  cbn [orb]. reflexivity.
Qed.

Lemma parse_group f q s n :
  is_chr "?" q = false →
  parse_disj (S f) (ch "(" :: q :: s) n
  = pbind (parse_disj f (q :: s) (S n)) (λ '(alts, rest, n'),
      pbind (expect_close rest) (λ rest',
        let '(term, rest'') := quantified (Group (S n) (mk_alt alts)) rest' in
        pbind (parse_disj f rest'' n') (λ '(alts', r, n''),
          POk (cons_term term alts', r, n'')))).
Proof.
  intros Hq. change (ch "(") with 40%N. cbn [parse_disj]. eval_tests 40%N.
  rewrite Hq. reflexivity.
Qed.

Lemma parse_escaped_paren f s n :
  parse_disj (S f) (ch "\" :: ch "(" :: s) n
  = let '(term, rest') := quantified (Lit (ch "(")) s in
    pbind (parse_disj f rest' n)
      (λ '(alts, r, n'), POk (cons_term term alts, r, n')).
Proof.
  change (ch "\") with 92%N. cbn [parse_disj]. eval_tests 92%N. reflexivity.
Qed.

(** The markup element inside the joiner, up to the closing
    parenthesis. *)
Lemma parse_tag f s n :
  parse_disj (S (S (S (S f)))) (str "<[^>]+>)" ++ s) n
  = POk ([[Lit 60%N; Plus true (Cls true [ItChar 62%N]); Lit 62%N]],
         ch ")" :: s, n).
Proof. vm_compute. reflexivity. Qed.

Lemma parse_joiner f rest n :
  head rest ≠ Some (ch "?") →
  parse_disj (S (S (S (S (S f))))) (JOINER ++ rest) n
  = pbind (parse_disj (S (S (S (S f)))) rest (S n)) (λ '(alts, r, n'),
      POk (cons_term (Star true (Group (S n) TAG)) alts, r, n')).
Proof.
  intros Hrest.
  change (JOINER ++ rest) with (ch "(" :: ch "<" :: str "[^>]+>)" ++ ch "*" :: rest).
  rewrite parse_group by reflexivity.
  change (ch "<" :: str "[^>]+>)" ++ ch "*" :: rest)
    with (str "<[^>]+>)" ++ ch "*" :: rest).
  rewrite parse_tag.
  cbn [pbind expect_close]. change (ch ")") with 41%N. eval_tests 41%N.
  cbn [pbind quantified]. change (ch "*") with 42%N. eval_tests 42%N.
  cbn [mk_alt mk_seq lazy_mark].
  destruct rest as [|l rest]; [reflexivity|].
  cbn [lazy_mark]. assert (is_chr "?" l = false) as ->.
  { apply N.eqb_neq. intros ->. by apply Hrest. }
  reflexivity.
Qed.

Lemma quantified_joiner atom rest :
  quantified atom (JOINER ++ rest) = (atom, JOINER ++ rest).
Proof. reflexivity. Qed.

(** *** A search text without special characters *)

Lemma parse_plain chars :
  Forall (λ c, special c = false) chars → chars ≠ [] →
  ∀ fuel n, 2 * length chars + 2 ≤ fuel →
    parse_disj fuel (join JOINER chars) n
    = POk ([terms chars n], [], n + (length chars - 1)).
Proof.
  induction chars as [|c chars IH]; [done|].
  intros [Hc Hchars]%Forall_cons _ fuel n Hfuel.
  destruct chars as [|c' chars].
  - destruct fuel as [|[|fuel]]; [cbn in Hfuel; lia..|].
    cbn [join]. rewrite parse_ordinary by (by apply special_ordinary).
    cbn [quantified]. cbn [parse_disj pbind cons_term terms length].
    by rewrite Nat.add_0_r.
  - cbn [join length] in *.
    destruct fuel as [|[|[|[|[|[|fuel]]]]]]; [lia..|].
    rewrite parse_ordinary by (by apply special_ordinary).
    rewrite quantified_joiner, parse_joiner.
    + rewrite IH; [|done|done|cbn [length]; lia].
      replace (n + (S (S (length chars)) - 1))
        with (S n + (S (length chars) - 1)) by lia.
      reflexivity.
    + destruct chars; cbn; intros [= ->]; apply Forall_cons in Hchars as [Hq _];
        by apply special_not_question in Hq.
Qed.

Lemma join_length c c' chars :
  length (join JOINER (c :: c' :: chars)) = 11 + length (join JOINER (c' :: chars)).
Proof. cbn [join]. cbn [length]. by rewrite length_app. Qed.

Lemma join_length_ge chars : 11 * length chars ≤ 10 + length (join JOINER chars).
Proof.
  induction chars as [|c [|c' chars] IH]; [cbn; lia..|].
  rewrite join_length. cbn [length] in *. lia.
Qed.

(** The pattern of a search text without special characters compiles
    to its characters with markup elements allowed between them. *)
Theorem RegExp_new_plain chars :
  Forall (λ c, special c = false) chars →
  RegExp_new (join JOINER chars) = POk (mk_seq (terms chars 0)).
Proof.
  intros Hchars. unfold RegExp_new.
  destruct chars as [|c [|c' chars]].
  - reflexivity.
  - apply Forall_cons in Hchars as [Hc _]. cbn [join length].
    rewrite parse_ordinary by (by apply special_ordinary). reflexivity.
  - rewrite (parse_plain _ Hchars); [reflexivity|done|].
    pose proof (join_length_ge (c :: c' :: chars)). cbn [length] in *. lia.
Qed.

(** *** A search text with a special character *)

Lemma join_cons sep c c' rest :
  join sep (c :: c' :: rest) = c :: sep ++ join sep (c' :: rest).
Proof. reflexivity. Qed.

Lemma join_app_cons sep pre c rest :
  join sep (pre ++ c :: rest) = flat_map (λ x, x :: sep) pre ++ join sep (c :: rest).
Proof.
  induction pre as [|x pre IH]; [done|].
  cbn [app flat_map]. rewrite <- app_assoc, <- IH. cbn [app].
  destruct pre; reflexivity.
Qed.

Lemma parse_unmatched pre tail :
  Forall (λ c, special c = false) pre →
  ∀ fuel n, 2 * length pre + 6 ≤ fuel →
    ∃ alts n',
      parse_disj fuel (flat_map (λ x, x :: JOINER) pre ++ ch "\" :: JOINER ++ tail) n
      = POk (alts, ch ")" :: ch "*" :: tail, n').
Proof.
  induction pre as [|c pre IH]; intros Hpre fuel n Hfuel.
  - destruct fuel as [|[|[|[|[|fuel]]]]]; [cbn in Hfuel; lia..|].
    cbn [flat_map app].
    change (ch "\" :: JOINER ++ tail)
      with (ch "\" :: ch "(" :: ch "<" :: str "[^>]+>)" ++ ch "*" :: tail).
    rewrite parse_escaped_paren. cbn [quantified].
    change (ch "<") with 60%N. eval_tests 60%N.
    change (60%N :: str "[^>]+>)" ++ ch "*" :: tail)
      with (str "<[^>]+>)" ++ ch "*" :: tail).
    rewrite parse_tag. cbn [pbind]. eauto.
  - apply Forall_cons in Hpre as [Hc Hpre].
    cbn [length] in Hfuel.
    destruct fuel as [|[|[|[|[|[|fuel]]]]]]; [lia..|].
    cbn [flat_map]. rewrite <- !app_assoc. cbn [app].
    rewrite parse_ordinary by (by apply special_ordinary).
    rewrite quantified_joiner, parse_joiner.
    + destruct (IH Hpre (S (S (S (S fuel)))) (S n)) as (alts & n' & ->); [lia|].
      cbn [pbind]. eauto.
    + destruct pre as [|q pre]; cbn; [done|]. intros [= ->].
      apply Forall_cons in Hpre as [Hq _]. by apply special_not_question in Hq.
Qed.

(** A pattern in which a backslash is followed by the joiner does not
    compile. *)
Theorem RegExp_new_unmatched pre c rest :
  Forall (λ x, special x = false) pre →
  RegExp_new (join JOINER (pre ++ ch "\" :: c :: rest))
  = PSyntaxError "Unmatched ')'".
Proof.
  intros Hpre. unfold RegExp_new.
  rewrite join_app_cons, join_cons.
  destruct (parse_unmatched pre (join JOINER (c :: rest)) Hpre
              (S (length (flat_map (λ x, x :: JOINER) pre
                          ++ ch "\" :: JOINER ++ join JOINER (c :: rest)))) 0)
    as (alts & n' & ->); [|reflexivity].
  rewrite length_app. cbn [length].
  assert (2 * length pre ≤ length (flat_map (λ x, x :: JOINER) pre)).
  { clear. induction pre as [|x pre IH]; cbn [flat_map length]; [lia|].
    rewrite length_app. cbn [length]. change (length JOINER) with 10. lia. }
  rewrite length_app. change (length JOINER) with 10. lia.
Qed.

(** *** The escaped search text *)

Lemma scan_class neg items fuel before after :
  length after < fuel →
  scan (Cls neg items) fuel before after
  = (λ c, if class_matches neg items c then Hit (MatchInfo [c] []) else Gap c)
    <$> after.
Proof.
  revert before after. induction fuel as [|fuel IH]; intros before after Hlen; [lia|].
  destruct after as [|a rest]; [done|].
  cbn [scan]. unfold match_here. cbn [m step_char remaining consumed captures].
  cbn in Hlen. cbn [fmap list_fmap].
  destruct (class_matches neg items a).
  - cbn [remaining consumed captures].
    rewrite bool_decide_true by (cbn; lia).
    rewrite (captured_reverse before [a]). f_equal. apply IH. lia.
  - f_equal. apply IH. lia.
Qed.

Definition escaped (searchText : jsstring) : jsstring :=
  flat_map (λ c, if special c then [ch "\"; c] else [c]) searchText.

Lemma escape_replace searchText :
  replace escapeRegex (λ mi, str "\" ++ mtext mi) searchText = escaped searchText.
Proof.
  rewrite replace_pieces. unfold pieces, escapeRegex.
  rewrite scan_class by lia. unfold escaped.
  induction searchText as [|c s IH]; [done|].
  cbn [fmap list_fmap concat flat_map]. rewrite IH. f_equal.
  change (class_matches false
            [ItChar 46%N; ItChar 42%N; ItChar 43%N; ItChar 63%N; ItChar 94%N;
             ItChar 36%N; ItChar 123%N; ItChar 125%N; ItChar 40%N; ItChar 41%N;
             ItChar 124%N; ItChar 91%N; ItChar 93%N; ItChar 92%N] c)
    with (special c).
  by destruct (special c).
Qed.

Lemma patternString_escaped searchText :
  patternString searchText = join JOINER (escaped searchText).
Proof. unfold patternString. by rewrite escape_replace. Qed.

Lemma escaped_plain chars :
  Forall (λ c, special c = false) chars → escaped chars = chars.
Proof.
  induction 1 as [|c chars Hc _ IH]; [done|].
  unfold escaped in *. cbn [flat_map]. by rewrite Hc, IH.
Qed.

Lemma first_special (s : jsstring) :
  Exists (λ c, special c = true) s →
  ∃ pre c post,
    s = pre ++ c :: post ∧ Forall (λ x, special x = false) pre ∧ special c = true.
Proof.
  induction s as [|x s IH]; intros H; [by apply Exists_nil in H|].
  destruct (special x) eqn:Hx.
  - by exists [], x, s.
  - apply Exists_cons in H as [H|H]; [congruence|].
    destruct (IH H) as (pre & c & post & -> & Hpre & Hc).
    exists (x :: pre), c, post. split; [done|]. split; [by constructor|done].
Qed.

(** The pattern of a search text compiles exactly when the text has
    none of the special characters. *)
Theorem RegExp_new_patternString searchText :
  RegExp_new (patternString searchText)
  = if bool_decide (Exists (λ c, special c = true) searchText)
    then PSyntaxError "Unmatched ')'"
    else POk (mk_seq (terms searchText 0)).
Proof.
  rewrite patternString_escaped. case_bool_decide as Hs.
  - destruct (first_special _ Hs) as (pre & c & post & -> & Hpre & Hc).
    unfold escaped. rewrite flat_map_app. fold (escaped pre). fold escaped.
    rewrite (escaped_plain pre Hpre). cbn [flat_map]. rewrite Hc.
    cbn [app]. by apply RegExp_new_unmatched.
  - assert (Hplain : Forall (λ c, special c = false) searchText).
    { apply Forall_forall. intros c Hc. destruct (special c) eqn:Hsp; [|done].
      exfalso. apply Hs, Exists_exists. eauto. }
    rewrite (escaped_plain _ Hplain). by apply RegExp_new_plain.
Qed.

(** *** What the pattern matches *)

(** A run of markup elements. *)
Inductive markup : jsstring → Prop :=
| markup_nil : markup []
| markup_cons body rest :
    body ≠ [] → 62%N ∉ body → markup rest →
    markup (60%N :: body ++ 62%N :: rest).

(** The search text with runs of markup elements between its
    characters and nothing else. *)
Inductive occurrence : jsstring → jsstring → Prop :=
| occurrence_last c : occurrence [c] [c]
| occurrence_next c c' chars ts w :
    markup ts → occurrence (c' :: chars) w →
    occurrence (c :: c' :: chars) (c :: ts ++ w).

Lemma lang_not_gt g w :
  lang (Star g (Cls true [ItChar (62%N)])) w → 62%N ∉ w.
Proof.
  remember (Star g (Cls true [ItChar (62%N)])) as r eqn:Hr.
  induction 1 as [| | | | | | |g' r' w1 w2 H1 _ H2 IH| | | | |]; try discriminate.
  - apply not_elem_of_nil.
  - injection Hr as -> ->. apply not_elem_of_app. split; [|by apply IH].
    inversion H1 as [| |neg items c Hc| | | | | | | | | |]; subst.
    apply not_elem_of_cons. split; [|apply not_elem_of_nil].
    unfold class_matches in Hc. cbn in Hc. rewrite orb_false_r in Hc.
    apply negb_true_iff, N.eqb_neq in Hc. congruence.
Qed.

Lemma lang_TAG w :
  lang TAG w → ∃ body, w = 60%N :: body ++ [62%N] ∧ body ≠ [] ∧ 62%N ∉ body.
Proof.
  unfold TAG. intros H.
  inversion H as [| | |r1 r2 w1 w2 H1 H2| | | | | | | | |]; subst.
  inversion H1; subst.
  inversion H2 as [| | |r1 r2 w3 w4 H3 H4| | | | | | | | |]; subst.
  inversion H4; subst.
  inversion H3 as [| | | | | | | |g r w5 w6 H5 H6| | | |]; subst.
  inversion H5 as [| |neg items c Hc| | | | | | | | | |]; subst.
  exists (c :: w6). split; [by rewrite <- app_assoc|]. split; [done|].
  apply not_elem_of_cons. split; [|by eapply lang_not_gt].
  unfold class_matches in Hc. cbn in Hc. rewrite orb_false_r in Hc.
  apply negb_true_iff, N.eqb_neq in Hc. congruence.
Qed.

Lemma lang_markup g n w : lang (Star g (Group n TAG)) w → markup w.
Proof.
  remember (Star g (Group n TAG)) as r eqn:Hr.
  induction 1 as [| | | | | | |g' r' w1 w2 H1 _ H2 IH| | | | |]; try discriminate.
  - constructor.
  - injection Hr as -> ->.
    inversion H1 as [| | | | | | | | |n' r'' w' Hw| | |]; subst.
    apply lang_TAG in Hw as (body & -> & Hne & Hgt).
    cbn [app]. rewrite <- app_assoc. cbn [app].
    constructor; [done..|]. by apply IH.
Qed.

(** Every word of the pattern is an occurrence of the search text. *)
Lemma terms_occurrence chars n w :
  chars ≠ [] → lang (mk_seq (terms chars n)) w → occurrence chars w.
Proof.
  revert n w. induction chars as [|c chars IH]; intros n w Hne; [done|].
  destruct chars as [|c' chars].
  - cbn. intros H. inversion H; subst. constructor.
  - assert (Hseq : mk_seq (terms (c :: c' :: chars) n)
              = Seq (Lit c) (Seq (Star true (Group (S n) TAG))
                               (mk_seq (terms (c' :: chars) (S n))))).
    { cbn [terms]. destruct chars; reflexivity. }
    rewrite Hseq. intros H.
    inversion H as [| | |r1 r2 w1 w2 H1 H2| | | | | | | | |]; subst.
    inversion H1; subst.
    inversion H2 as [| | |r1 r2 w3 w4 H3 H4| | | | | | | | |]; subst.
    cbn [app]. constructor; [by eapply lang_markup|].
    by apply (IH (S n)).
Qed.

Lemma lang_gt_free g w : 62%N ∉ w → lang (Star g (Cls true [ItChar 62%N])) w.
Proof.
  induction w as [|c w IH]; intros Hw; [constructor|].
  apply not_elem_of_cons in Hw as [Hc Hw].
  apply (lang_star_cons g _ [c] w); [|by apply IH].
  constructor. unfold class_matches. cbn. rewrite orb_false_r.
  by apply negb_true_iff, N.eqb_neq.
Qed.

Lemma TAG_lang body :
  body ≠ [] → 62%N ∉ body → lang TAG (60%N :: body ++ [62%N]).
Proof.
  intros Hne Hgt. destruct body as [|c body]; [done|].
  apply not_elem_of_cons in Hgt as [Hc Hgt].
  apply (lang_seq _ _ [60%N] (c :: body ++ [62%N])); [constructor|].
  apply (lang_seq _ _ (c :: body) [62%N]); [|constructor].
  apply (lang_plus true _ [c] body); [|by apply lang_gt_free].
  constructor. unfold class_matches. cbn. rewrite orb_false_r.
  by apply negb_true_iff, N.eqb_neq.
Qed.

Lemma markup_lang g n ts : markup ts → lang (Star g (Group n TAG)) ts.
Proof.
  induction 1 as [|body rest Hne Hgt _ IH]; [constructor|].
  replace (60%N :: body ++ 62%N :: rest) with ((60%N :: body ++ [62%N]) ++ rest)
    by (cbn; by rewrite <- app_assoc).
  apply lang_star_cons; [|done]. constructor. by apply TAG_lang.
Qed.

(** Every occurrence of the search text is a word of the pattern. *)
Lemma occurrence_terms chars n w :
  occurrence chars w → lang (mk_seq (terms chars n)) w.
Proof.
  intros H. revert n.
  induction H as [c|c c' chars ts w Hts _ IH]; intros n.
  - cbn. constructor.
  - assert (Hseq : mk_seq (terms (c :: c' :: chars) n)
              = Seq (Lit c) (Seq (Star true (Group (S n) TAG))
                               (mk_seq (terms (c' :: chars) (S n))))).
    { cbn [terms]. destruct chars; reflexivity. }
    rewrite Hseq. apply (lang_seq _ _ [c] (ts ++ w)); [constructor|].
    apply lang_seq; [by apply markup_lang|apply IH].
Qed.

Lemma terms_assertion_free chars n :
  assertion_free (mk_seq (terms chars n)) = true.
Proof.
  revert n. induction chars as [|c chars IH]; intros n; [done|].
  destruct chars as [|c' chars]; [done|].
  assert (Hseq : mk_seq (terms (c :: c' :: chars) n)
            = Seq (Lit c) (Seq (Star true (Group (S n) TAG))
                             (mk_seq (terms (c' :: chars) (S n))))).
  { cbn [terms]. destruct chars; reflexivity. }
  rewrite Hseq. cbn [assertion_free TAG]. by rewrite IH.
Qed.

Lemma occurrence_nonempty chars w : occurrence chars w → w ≠ [].
Proof. by destruct 1. Qed.

(** The scan of the pattern of a search text cuts the text into the
    leftmost occurrences of the search text and the characters
    between them. *)
Lemma terms_cut chars n s :
  chars ≠ [] → cut (occurrence chars) s (pieces (mk_seq (terms chars n)) s).
Proof.
  intros Hne. apply (cut_iff (lang (mk_seq (terms chars n)))).
  - intros w. split; [by apply terms_occurrence|apply occurrence_terms].
  - apply pieces_cut; [apply terms_assertion_free|].
    intros w Hw%terms_occurrence; [|done]. by eapply occurrence_nonempty.
Qed.

End PatternFacts.

(** ** Delimiter detection *)

Module Detection.
Import DocxManager RegExpFacts.

Lemma scan_single c fuel before after :
  length after < fuel →
  length (hits (scan (Lit c) fuel before after)) = count_char c after.
Proof.
  revert before after. induction fuel as [|fuel IH]; intros before after Hlen; [lia|].
  destruct after as [|a rest]; [done|].
  cbn [scan]. unfold match_here. cbn [m step_char remaining consumed captures].
  cbn in Hlen. cbn [count_char]. rewrite (N.eqb_sym a c).
  destruct (c =? a)%N.
  - cbn [remaining consumed].
    rewrite bool_decide_true by (cbn; lia). cbn. f_equal. apply IH. lia.
  - cbn. apply IH. lia.
Qed.

Lemma count_double_cons c a b s :
  count_double c (a :: b :: s)
  = if (a =? c)%N && (b =? c)%N then S (count_double c s)
    else count_double c (b :: s).
Proof. reflexivity. Qed.

Lemma scan_double c fuel before after :
  length after < fuel →
  length (hits (scan (Seq (Lit c) (Lit c)) fuel before after)) = count_double c after.
Proof.
  revert before after. induction fuel as [|fuel IH]; intros before after Hlen; [lia|].
  destruct after as [|a s1]; [done|].
  cbn in Hlen.
  assert (Hskip : length (hits (Gap a :: scan (Seq (Lit c) (Lit c)) fuel (a :: before) s1))
                  = count_double c s1).
  { cbn. apply IH. lia. }
  cbn [scan]. unfold match_here.
  destruct s1 as [|b s2]; cbn [m step_char remaining consumed captures].
  - destruct (c =? a)%N; cbn; destruct fuel; done.
  - rewrite count_double_cons, (N.eqb_sym c a), (N.eqb_sym c b).
    destruct (a =? c)%N; cbn [andb]; [|exact Hskip].
    destruct (b =? c)%N; [|exact Hskip].
    cbn [remaining consumed]. rewrite bool_decide_true by (cbn; lia).
    cbn. f_equal. apply IH. cbn in Hlen. lia.
Qed.

Lemma singleOpen_count xml :
  length (matchAll singleOpenRegex xml) = count_char (ch "{") xml.
Proof. apply scan_single. lia. Qed.

Lemma doubleOpen_count xml :
  length (matchAll doubleOpenRegex xml) = count_double (ch "{") xml.
Proof. apply scan_double. lia. Qed.

Section Detect.
Context {ArrayBuffer Docxtemplater TemplateError : Type}.
Variable PizZip_new : ArrayBuffer → option archive.

Local Abbreviation manager := (manager ArrayBuffer Docxtemplater TemplateError).
Local Abbreviation detectDelimiters :=
  (detectDelimiters ArrayBuffer PizZip_new Docxtemplater TemplateError).
Local Abbreviation config := (delimiterConfig ArrayBuffer Docxtemplater TemplateError).

(** C6: the detector always returns, with one of the two conventions
    and no other field changed; it selects the single markers exactly
    when the buffer opens, the main text part is there, its count of
    the double-open marker is zero and its count of the single-open
    marker is positive. *)
Theorem detectDelimiters_selects (content : ArrayBuffer) (st : manager) :
  (config (detectDelimiters content st) = single_markers
   ↔ ∃ zip xml,
       PizZip_new content = Some zip ∧ zip !! DOCUMENT_XML = Some xml
       ∧ count_double (ch "{") xml = 0 ∧ 0 < count_char (ch "{") xml)
  ∧ (config (detectDelimiters content st) ≠ single_markers
     → config (detectDelimiters content st) = double_markers)
  ∧ detectDelimiters content st
    = set_delimiterConfig _ _ _ (config (detectDelimiters content st)) st.
Proof.
  unfold DocxManager.detectDelimiters.
  destruct (PizZip_new content) as [zip|] eqn:Hzip.
  - rewrite singleOpen_count, doubleOpen_count.
    destruct (zip !! DOCUMENT_XML) as [xml|] eqn:Hxml; unfold default, from_option, id.
    + destruct (bool_decide (count_double (ch "{") xml = 0)
                && bool_decide (0 < count_char (ch "{") xml)) eqn:Hb.
      * apply andb_prop in Hb as [H1%bool_decide_eq_true H2%bool_decide_eq_true].
        cbv [set_delimiterConfig delimiterConfig]. split; [|done]. split; [|done]. intros _. by exists zip, xml.
      * cbv [set_delimiterConfig delimiterConfig]. split; [|done]. split; [done|].
        intros (zip' & xml' & [= <-] & Hx & H1 & H2).
        assert (xml' = xml) as -> by congruence.
        rewrite !bool_decide_true in Hb by done. done.
    + cbv [set_delimiterConfig delimiterConfig]. split; [|done]. split; [done|].
      intros (zip' & xml' & [= <-] & Hx & _). congruence.
  - cbv [set_delimiterConfig delimiterConfig]. split; [|done]. split; [done|].
    intros (zip' & xml' & ? & _). congruence.
Qed.
End Detect.

End Detection.

(** ** Placeholder extraction *)

Module TagDetectorFacts.
Import TagDetector RegExpFacts.

(** The calls of [addTag] that [findTags] makes, in order, as pairs of
    the raw text and the name passed. *)
Definition candidates (fullText : jsstring) : list (jsstring * jsstring) :=
  let doubles := matchAll DOUBLE_BRACE_REGEX fullText in
  if bool_decide (doubles = [])
  then
    omap (λ mi,
            let name := trim (arg 1 mi) in
            if bool_decide (length name < 50) && negb (includes_char 10%N name)
            then Some (mtext mi, name) else None)
         (matchAll SINGLE_BRACE_REGEX fullText)
  else (λ mi, (mtext mi, arg 1 mi)) <$> doubles.

Definition addCandidate (a : acc) (c : jsstring * jsstring) : acc :=
  addTag c.1 c.2 a.

Lemma foldl_doubleStep a mis :
  foldl doubleStep a mis
  = foldl addCandidate a ((λ mi, (mtext mi, arg 1 mi)) <$> mis).
Proof. revert a. induction mis as [|mi mis IH]; intros a; cbn; [done|apply IH]. Qed.

Lemma foldl_singleStep a mis :
  foldl singleStep a mis
  = foldl addCandidate a
      (omap (λ mi,
               let name := trim (arg 1 mi) in
               if bool_decide (length name < 50) && negb (includes_char 10%N name)
               then Some (mtext mi, name) else None) mis).
Proof.
  revert a. induction mis as [|mi mis IH]; intros a; cbn; [done|].
  unfold singleStep at 2.
  destruct (bool_decide _ && negb _); cbn; apply IH.
Qed.

Lemma collect_candidates fullText :
  collect fullText = (foldl addCandidate ([], ∅) (candidates fullText)).1.
Proof.
  unfold collect, candidates.
  case_bool_decide as Hd; cbn [negb].
  - rewrite Hd. cbn [foldl]. by rewrite foldl_singleStep.
  - by rewrite foldl_doubleStep.
Qed.

(** [t] is the entry made for the first candidate with its name. *)
Definition first_of (cs : list (jsstring * jsstring)) (t : DocxTag) : Prop :=
  ∃ l1 r nm l2,
    cs = l1 ++ (r, nm) :: l2
    ∧ name t = trim nm ∧ raw t = r ∧ id t = trim nm
    ∧ ∀ c, c ∈ l1 → trim c.2 ≠ trim nm.

Lemma first_of_snoc cs c t : first_of cs t → first_of (cs ++ [c]) t.
Proof.
  intros (l1 & r & nm & l2 & -> & H).
  exists l1, r, nm, (l2 ++ [c]). split; [|done].
  by rewrite <- app_assoc.
Qed.

Definition deduplicated (cs : list (jsstring * jsstring)) (a : acc) : Prop :=
  (∀ x, x ∈ a.2 ↔ x ∈ name <$> a.1)
  ∧ NoDup (name <$> a.1)
  ∧ (∀ t, t ∈ a.1 → first_of cs t)
  ∧ (∀ c, c ∈ cs → trim c.2 ≠ [] → trim c.2 ∈ name <$> a.1).

Lemma addCandidate_deduplicated cs a c :
  deduplicated cs a → deduplicated (cs ++ [c]) (addCandidate a c).
Proof.
  destruct a as [tags seen], c as [r nm].
  intros (Hseen & Hnd & Hfirst & Hall). cbn [fst snd] in *.
  unfold deduplicated, addCandidate, addTag. cbn [fst snd].
  destruct (bool_decide (trim nm ≠ [])) eqn:Hne; cbn [andb].
  2:{ apply bool_decide_eq_false in Hne.
      split; [done|]. split; [done|]. split.
      - intros t Ht. by apply first_of_snoc, Hfirst.
      - intros c [Hc| ->%list_elem_of_singleton]%elem_of_app Hc'; [by apply Hall|].
        cbn in Hc'. done. }
  apply bool_decide_eq_true in Hne.
  destruct (bool_decide (trim nm ∉ seen)) eqn:Hnew.
  - apply bool_decide_eq_true in Hnew. cbn [fst snd].
    split; [|split; [|split]].
    + intros x. rewrite fmap_app, elem_of_app, elem_of_union, elem_of_singleton.
      cbn. rewrite list_elem_of_singleton, Hseen. tauto.
    + rewrite fmap_app. apply NoDup_app. split; [done|]. split.
      * intros x Hx ->%list_elem_of_singleton. apply Hnew, Hseen, Hx.
      * cbn. apply NoDup_singleton.
    + intros t [Ht| ->%list_elem_of_singleton]%elem_of_app.
      * by apply first_of_snoc, Hfirst.
      * exists cs, r, nm, []. split; [done|]. cbn. split; [done|].
        split; [done|]. split; [done|].
        intros c Hc Heq. apply Hnew, Hseen. rewrite <- Heq.
        apply Hall; [done|]. by rewrite Heq.
    + intros c [Hc| ->%list_elem_of_singleton]%elem_of_app Hc'.
      * rewrite fmap_app, elem_of_app. left. by apply Hall.
      * rewrite fmap_app, elem_of_app. right. cbn. apply list_elem_of_singleton. done.
  - apply bool_decide_eq_false in Hnew. apply dec_stable in Hnew.
    split; [done|]. split; [done|]. split.
    + intros t Ht. by apply first_of_snoc, Hfirst.
    + intros c [Hc| ->%list_elem_of_singleton]%elem_of_app Hc'; [by apply Hall|].
      cbn. by apply Hseen.
Qed.

Lemma foldl_deduplicated cs :
  deduplicated cs (foldl addCandidate ([], ∅) cs).
Proof.
  induction cs as [|c cs IH] using rev_ind.
  - cbn. split; [|split; [|split]].
    + intros x. cbn. rewrite elem_of_nil. set_solver.
    + apply NoDup_nil_2.
    + intros t Ht. by apply elem_of_nil in Ht.
    + intros c Hc. by apply elem_of_nil in Hc.
  - rewrite foldl_app. cbn. by apply addCandidate_deduplicated.
Qed.

(** The sort is a stable insertion sort. *)
Section SortFacts.
Context {A : Type} (cmp : A → A → Z).
Hypothesis cmp_total : ∀ a b, (cmp a b ≤ 0 ∨ cmp b a ≤ 0)%Z.
Hypothesis cmp_trans : ∀ a b c, (cmp a b ≤ 0 → cmp b c ≤ 0 → cmp a c ≤ 0)%Z.

Lemma insert_sorted_perm x l : insert_sorted cmp x l ≡ₚ x :: l.
Proof.
  induction l as [|y l IH]; cbn; [done|].
  case_bool_decide; [done|]. rewrite IH. apply Permutation_swap.
Qed.

Lemma sort_perm l : sort cmp l ≡ₚ l.
Proof.
  induction l as [|x l IH]; cbn; [done|].
  rewrite insert_sorted_perm. by f_equiv.
Qed.

Lemma insert_sorted_sorted x l :
  StronglySorted (λ a b, cmp a b ≤ 0)%Z l →
  StronglySorted (λ a b, cmp a b ≤ 0)%Z (insert_sorted cmp x l).
Proof using cmp_total cmp_trans.
  induction l as [|y l IH]; cbn; intros Hs.
  - by repeat constructor.
  - apply StronglySorted_inv in Hs as [Hs Hy].
    case_bool_decide as Hxy.
    + constructor; [by constructor|]. constructor; [done|].
      eapply Forall_impl; [exact Hy|]. cbn. eauto.
    + constructor; [by apply IH|].
      rewrite insert_sorted_perm. constructor; [|done].
      destruct (cmp_total x y); [done|done].
Qed.

Lemma sort_sorted l : StronglySorted (λ a b, cmp a b ≤ 0)%Z (sort cmp l).
Proof using cmp_total cmp_trans.
  induction l as [|x l IH]; cbn; [constructor|by apply insert_sorted_sorted].
Qed.
End SortFacts.

(** C7, as the code has it: for a comparator that is a total preorder,
    as the comparison of the host's locale is, the result of
    [findTags] has no two entries with the same name, each entry
    carries the trimmed name and the raw text of the first candidate
    with that trimmed name, every candidate with a non-empty trimmed
    name is represented, and the entries are in ascending order of
    their names under the comparator. *)
Theorem findTags_unique_first_sorted
    (localeCompare : jsstring → jsstring → Z) (fullText : jsstring) :
  (∀ a b, (localeCompare a b ≤ 0 ∨ localeCompare b a ≤ 0)%Z) →
  (∀ a b c, (localeCompare a b ≤ 0 → localeCompare b c ≤ 0 → localeCompare a c ≤ 0)%Z) →
  NoDup (name <$> findTags localeCompare fullText)
  ∧ (∀ t, t ∈ findTags localeCompare fullText → first_of (candidates fullText) t)
  ∧ (∀ c, c ∈ candidates fullText → trim c.2 ≠ [] →
       trim c.2 ∈ name <$> findTags localeCompare fullText)
  ∧ StronglySorted (λ a b, localeCompare (name a) (name b) ≤ 0)%Z
      (findTags localeCompare fullText).
Proof.
  intros Htotal Htrans. unfold findTags.
  set (cmp := λ a b : DocxTag, localeCompare (name a) (name b)).
  pose proof (sort_perm cmp (collect fullText)) as Hperm.
  pose proof (foldl_deduplicated (candidates fullText)) as (_ & Hnd & Hfirst & Hall).
  rewrite <- collect_candidates in Hnd, Hfirst, Hall.
  split; [|split; [|split]].
  - by rewrite Hperm.
  - intros t Ht. apply Hfirst. by rewrite <- Hperm.
  - intros c Hc Hne. rewrite Hperm. by apply Hall.
  - apply sort_sorted; unfold cmp; eauto.
Qed.

(** The order of the code units, a comparator to run the sort with. *)
Fixpoint compareUnits (a b : jsstring) : Z :=
  match a, b with
  | [], [] => 0
  | [], _ :: _ => -1
  | _ :: _, [] => 1
  | x :: a', y :: b' =>
      if (x <? y)%N then -1 else if (y <? x)%N then 1 else compareUnits a' b'
  end.

Lemma compareUnits_total a b :
  (compareUnits a b ≤ 0 ∨ compareUnits b a ≤ 0)%Z.
Proof.
  revert b. induction a as [|x a IH]; intros [|y b]; cbn; try lia.
  destruct (N.ltb_spec x y), (N.ltb_spec y x); try lia. apply IH.
Qed.

Lemma compareUnits_trans a b c :
  (compareUnits a b ≤ 0 → compareUnits b c ≤ 0 → compareUnits a c ≤ 0)%Z.
Proof.
  revert b c. induction a as [|x a IH]; intros [|y b] [|z c]; cbn; try lia.
  destruct (N.ltb_spec x y), (N.ltb_spec y x), (N.ltb_spec y z),
    (N.ltb_spec z y), (N.ltb_spec x z), (N.ltb_spec z x); try lia.
  apply IH.
Qed.

(** A comparison that ranks the letters before their case, and lower
    case before upper case, as the collation of a host with the
    internationalisation interface does for names of ASCII letters:
    the sort key of a name is the letters without their case, then
    the cases. *)
Definition is_upper (c : char) : bool := (65 <=? c)%N && (c <=? 90)%N.

Definition sortKey (s : jsstring) : jsstring :=
  ((λ c, (if is_upper c then c + 32 else c) + 1)%N <$> s)
  ++ 0%N :: ((λ c, if is_upper c then 1%N else 0%N) <$> s).

Definition collate (a b : jsstring) : Z := compareUnits (sortKey a) (sortKey b).

Lemma collate_total a b : (collate a b ≤ 0 ∨ collate b a ≤ 0)%Z.
Proof. apply compareUnits_total. Qed.

Lemma collate_trans a b c :
  (collate a b ≤ 0 → collate b c ≤ 0 → collate a c ≤ 0)%Z.
Proof. apply compareUnits_trans. Qed.

(** Two placeholders that differ by the white space inside the markers
    only give one entry, with the raw text of the first. *)
Example findTags_whitespace :
  findTags compareUnits (str "{{name}} and {{ name }}, {{b}}, {{B}}")
  = [ mkTag (str "B") (str "{{B}}") (str "B");
      mkTag (str "b") (str "{{b}}") (str "b");
      mkTag (str "name") (str "{{name}}") (str "name") ].
Proof. vm_compute. reflexivity. Qed.

(** C7 fails as stated: the order is the one of the host's comparison,
    not the order of the code units.  Where the host ranks the letters
    before their case the name apple comes before the name Zebra,
    which has the smaller first code unit; the result is not in the
    case-sensitive order of the code units, in which a host that
    compares by code units puts it. *)
Lemma findTags_order_of_host :
  name <$> findTags collate (str "{{Zebra}} and {{apple}}")
  = [str "apple"; str "Zebra"]
  ∧ ¬ StronglySorted (λ a b, compareUnits (name a) (name b) ≤ 0)%Z
        (findTags collate (str "{{Zebra}} and {{apple}}"))
  ∧ name <$> findTags compareUnits (str "{{Zebra}} and {{apple}}")
    = [str "Zebra"; str "apple"].
Proof.
  split; [vm_compute; reflexivity|]. split; [|vm_compute; reflexivity].
  replace (findTags collate (str "{{Zebra}} and {{apple}}"))
    with [ mkTag (str "apple") (str "{{apple}}") (str "apple");
           mkTag (str "Zebra") (str "{{Zebra}}") (str "Zebra") ]
    by (vm_compute; reflexivity).
  intros Hsorted. apply StronglySorted_inv in Hsorted as [_ Hall].
  apply Forall_inv in Hall. vm_compute in Hall. by apply Hall.
Qed.

Lemma findTags_unique_first_sorted_witness :
  NoDup (name <$> findTags collate (str "{{name}} and {{ name }}, {{b}}, {{B}}"))
  ∧ StronglySorted (λ a b, collate (name a) (name b) ≤ 0)%Z
      (findTags collate (str "{{name}} and {{ name }}, {{b}}, {{B}}")).
Proof.
  destruct (findTags_unique_first_sorted collate
              (str "{{name}} and {{ name }}, {{b}}, {{B}}")
              collate_total collate_trans) as (H1 & _ & _ & H2).
  split; [exact H1|exact H2].
Defined.

End TagDetectorFacts.

(** ** Selective replacement *)

Module Replacement.
Import DocxManager RegExpFacts PatternFacts.

Lemma rebuild_replacer_count newTag indices ps n :
  (rebuild (replacer newTag indices) ps n).2 = n + length (hits ps).
Proof.
  revert n. induction ps as [|[c|mi] ps IH]; intros n; cbn.
  - lia.
  - specialize (IH n). destruct (rebuild _ ps n) as [out k]. exact IH.
  - unfold replacer at 1.
    set (rep := if bool_decide (n ∈ indices) then _ else _).
    assert (rep.2 = S n) as Hrep by (unfold rep; by case_bool_decide).
    destruct rep as [r n1]. cbn in Hrep. subst n1.
    specialize (IH (S n)). destruct (rebuild _ ps (S n)) as [out k].
    cbn in *. lia.
Qed.

Section Replace.
Context {ArrayBuffer Docxtemplater TemplateError : Type}.
Variable PizZip_new : ArrayBuffer → option archive.
Variable generate : archive → ArrayBuffer.
Variable Docxtemplater_new :
  archive → delimiters → template_result Docxtemplater TemplateError.

Local Abbreviation manager := (manager ArrayBuffer Docxtemplater TemplateError).
Local Abbreviation replaceSpecificOccurrences :=
  (replaceSpecificOccurrences ArrayBuffer PizZip_new generate
     Docxtemplater TemplateError Docxtemplater_new).

(** C2: when the pattern of the search text compiles and the
    replacing pass over the main text part finds no match, the call
    throws the text-not-found error and every field of the manager,
    the stored archive included, is what it was before the call. *)
Theorem replace_without_match_aborts
    (st : manager) (z : archive) (xml searchText tagName : jsstring)
    (indicesToReplace : list nat) (regex : regex) :
  zip _ _ _ st = Some z →
  z !! DOCUMENT_XML = Some xml →
  RegExp_new (patternString searchText) = POk regex →
  matchAll regex xml = [] →
  replaceSpecificOccurrences searchText tagName indicesToReplace st
  = (inl (Error (notFoundMessage searchText)), st).
Proof.
  intros Hzip Hxml Hre Hnone.
  unfold DocxManager.replaceSpecificOccurrences.
  rewrite Hzip, Hxml, Hre.
  pose proof (rebuild_replacer_count (str "{{" ++ tagName ++ str "}}")
                indicesToReplace (pieces regex xml) 0) as Hcount.
  unfold matchAll in Hnone. rewrite Hnone in Hcount.
  unfold replace_st.
  destruct (rebuild _ (pieces regex xml) 0) as [out n]. cbn in Hcount.
  subst n. reflexivity.
Qed.

(** The text after the replacement: the matches are numbered from the
    left, the selected ones become the token and every other piece is
    copied. *)
Fixpoint selected (newTag : jsstring) (indices : list nat)
    (ps : list piece) (index : nat) : jsstring :=
  match ps with
  | [] => []
  | Gap c :: ps' => c :: selected newTag indices ps' index
  | Hit mi :: ps' =>
      (if bool_decide (index ∈ indices) then newTag else mtext mi)
      ++ selected newTag indices ps' (S index)
  end.

Lemma rebuild_replacer_selected newTag indices ps n :
  (rebuild (replacer newTag indices) ps n).1 = selected newTag indices ps n.
Proof.
  revert n. induction ps as [|[c|mi] ps IH]; intros n; cbn.
  - done.
  - specialize (IH n). destruct (rebuild _ ps n) as [out k]. cbn in *. by rewrite IH.
  - unfold replacer at 1. specialize (IH (S n)).
    case_bool_decide; destruct (rebuild _ ps (S n)) as [out k]; cbn in *; by rewrite IH.
Qed.

(** C1 fails on the code: the search text is escaped and then cut into
    single characters, which parts every backslash from the character
    it escapes.  With a search text that has a special character the
    pattern has an escaped opening parenthesis and an unmatched
    closing one: the constructor of the regular expression throws,
    whatever the document is, and nothing is replaced. *)
Theorem replace_special_search_throws
    (st : manager) (z : archive) (xml searchText tagName : jsstring)
    (indicesToReplace : list nat) :
  zip _ _ _ st = Some z →
  z !! DOCUMENT_XML = Some xml →
  Exists (λ c, special c = true) searchText →
  replaceSpecificOccurrences searchText tagName indicesToReplace st
  = (inl (SyntaxError "Unmatched ')'"), st).
Proof.
  intros Hzip Hxml Hs. unfold DocxManager.replaceSpecificOccurrences.
  rewrite Hzip, Hxml, RegExp_new_patternString.
  by rewrite bool_decide_true.
Qed.

(** The outcome for a search text without special characters, over
    the pieces of the scan of its pattern. *)
Lemma replace_plain_pieces
    (st : manager) (z : archive) (xml searchText tagName : jsstring)
    (indicesToReplace : list nat) :
  zip _ _ _ st = Some z →
  z !! DOCUMENT_XML = Some xml →
  Forall (λ c, special c = false) searchText →
  let ps := pieces (mk_seq (terms searchText 0)) xml in
  replaceSpecificOccurrences searchText tagName indicesToReplace st
  = match hits ps with
    | [] => (inl (Error (notFoundMessage searchText)), st)
    | _ :: _ =>
        let z' :=
          <[DOCUMENT_XML :=
              selected (str "{{" ++ tagName ++ str "}}") indicesToReplace ps 0]> z in
        load ArrayBuffer PizZip_new generate Docxtemplater TemplateError
          Docxtemplater_new (generate z')
          (mkManager _ _ _ (Some z') (doc _ _ _ st) (Some (generate z'))
             (loadErrors _ _ _ st) (delimiterConfig _ _ _ st))
    end.
Proof.
  intros Hzip Hxml Hplain ps.
  unfold DocxManager.replaceSpecificOccurrences.
  rewrite Hzip, Hxml, RegExp_new_patternString.
  rewrite bool_decide_false.
  2:{ intros (c & Hc & Hsp)%Exists_exists.
      rewrite Forall_forall in Hplain. rewrite (Hplain c Hc) in Hsp. done. }
  unfold replace_st. fold ps.
  pose proof (rebuild_replacer_count (str "{{" ++ tagName ++ str "}}")
                indicesToReplace ps 0) as Hcount.
  pose proof (rebuild_replacer_selected (str "{{" ++ tagName ++ str "}}")
                indicesToReplace ps 0) as Hsel.
  destruct (rebuild _ _ 0) as [out k]. cbn [fst snd] in *. subst out k.
  destruct (hits _) as [|mi mis]; cbn [length Nat.add]; [reflexivity|].
  rewrite bool_decide_false by done. reflexivity.
Qed.

(** With a search text without special characters the part is cut
    into the leftmost occurrences of the search text, none
    overlapping another, and the characters between them: every
    match is an occurrence, no occurrence begins at a character that
    is copied, and a part that holds an occurrence has a match.
    Without a match the call throws the not-found error; otherwise
    the part is stored with the selected occurrences replaced by the
    token and everything else copied, and the package is loaded
    again. *)
Theorem replace_plain_search_selects
    (st : manager) (z : archive) (xml searchText tagName : jsstring)
    (indicesToReplace : list nat) :
  zip _ _ _ st = Some z →
  z !! DOCUMENT_XML = Some xml →
  Forall (λ c, special c = false) searchText →
  searchText ≠ [] →
  ∃ ps,
    pieces_text ps = xml
    ∧ (∀ mi, mi ∈ hits ps → occurrence searchText (mtext mi))
    ∧ (∀ ps1 c ps2 w rest,
         ps = ps1 ++ Gap c :: ps2 → occurrence searchText w →
         c :: pieces_text ps2 ≠ w ++ rest)
    ∧ (∀ pre w post,
         xml = pre ++ w ++ post → occurrence searchText w → hits ps ≠ [])
    ∧ replaceSpecificOccurrences searchText tagName indicesToReplace st
      = match hits ps with
        | [] => (inl (Error (notFoundMessage searchText)), st)
        | _ :: _ =>
            let z' :=
              <[DOCUMENT_XML :=
                  selected (str "{{" ++ tagName ++ str "}}") indicesToReplace ps 0]> z in
            load ArrayBuffer PizZip_new generate Docxtemplater TemplateError
              Docxtemplater_new (generate z')
              (mkManager _ _ _ (Some z') (doc _ _ _ st) (Some (generate z'))
                 (loadErrors _ _ _ st) (delimiterConfig _ _ _ st))
        end.
Proof.
  intros Hzip Hxml Hplain Hne.
  pose proof (terms_cut searchText 0 xml Hne) as Hcut.
  exists (pieces (mk_seq (terms searchText 0)) xml).
  split; [by eapply cut_text|]. split; [|split; [|split]].
  - intros mi. by apply (cut_hits _ _ _ _ Hcut).
  - intros ps1 c ps2 w rest Hps Hw. by apply (cut_gaps _ _ _ _ _ _ _ _ Hcut Hps).
  - intros pre w post Hs Hw.
    by apply (cut_found _ _ _ _ _ _ (occurrence_nonempty searchText) Hcut Hs).
  - by apply replace_plain_pieces.
Qed.

End Replace.

(** A loaded manager whose main text part holds the name of a company
    split over two runs; buffers are the archives themselves. *)
Definition loaded : manager archive unit unit :=
  mkManager _ _ _
    (Some {[ DOCUMENT_XML := str "<w:t>Ac</w:t><w:t>me Corp.</w:t> Acme Corp {x}" ]})
    None None [] double_markers.

Definition run (searchText tagName : jsstring) (indices : list nat)
    : outcome archive unit unit unit :=
  replaceSpecificOccurrences archive Some id unit unit (λ _ _, Template ())
    searchText tagName indices loaded.

Lemma replace_without_match_aborts_witness :
  run (str "Umbrella") (str "client") [0]
  = (inl (Error (notFoundMessage (str "Umbrella"))), loaded).
Proof.
  eapply (replace_without_match_aborts Some id (λ _ _, Template ()) loaded).
  - reflexivity.
  - reflexivity.
  - vm_compute. reflexivity.
  - vm_compute. reflexivity.
Defined.

(** The search text of scenario C, found once over two runs, is
    replaced and the rest of the part is kept. *)
Example replace_split_occurrence :
  ∃ st, run (str "Acme Corp") (str "client") [0] = (inr (), st)
        ∧ zip _ _ _ st
          = Some {[ DOCUMENT_XML := str "<w:t>{{client}}.</w:t> Acme Corp {x}" ]}.
Proof. eexists. split; vm_compute; reflexivity. Qed.

Lemma replace_plain_search_selects_witness :
  ∃ ps,
    pieces_text ps = str "<w:t>Ac</w:t><w:t>me Corp.</w:t> Acme Corp {x}"
    ∧ (∀ mi, mi ∈ hits ps → occurrence (str "Acme Corp") (mtext mi))
    ∧ (∀ ps1 c ps2 w rest,
         ps = ps1 ++ Gap c :: ps2 → occurrence (str "Acme Corp") w →
         c :: pieces_text ps2 ≠ w ++ rest)
    ∧ (∀ pre w post,
         str "<w:t>Ac</w:t><w:t>me Corp.</w:t> Acme Corp {x}" = pre ++ w ++ post →
         occurrence (str "Acme Corp") w → hits ps ≠ [])
    ∧ run (str "Acme Corp") (str "client") [0]
      = match hits ps with
        | [] => (inl (Error (notFoundMessage (str "Acme Corp"))), loaded)
        | _ :: _ =>
            let z' :=
              <[DOCUMENT_XML := selected (str "{{" ++ str "client" ++ str "}}") [0] ps 0]>
                ({[ DOCUMENT_XML :=
                      str "<w:t>Ac</w:t><w:t>me Corp.</w:t> Acme Corp {x}" ]} : archive) in
            load archive Some id unit unit (λ _ _, Template ()) z'
              (mkManager _ _ _ (Some z') None (Some z') [] double_markers)
        end.
Proof.
  apply (replace_plain_search_selects Some id (λ _ _, Template ()) loaded).
  - reflexivity.
  - reflexivity.
  - repeat constructor.
  - done.
Defined.

(** A search text with a full stop: the pattern and the outcome. *)
Lemma replace_special_search_throws_witness :
  Exists (λ c, special c = true) (str "Acme Corp.")
  ∧ patternString (str "Acme Corp.")
    = str "A(<[^>]+>)*c(<[^>]+>)*m(<[^>]+>)*e(<[^>]+>)* (<[^>]+>)*C(<[^>]+>)*o(<[^>]+>)*r(<[^>]+>)*p(<[^>]+>)*\(<[^>]+>)*."
  ∧ run (str "Acme Corp.") (str "client") [0]
    = (inl (SyntaxError "Unmatched ')'"), loaded).
Proof.
  assert (Hs : Exists (λ c, special c = true) (str "Acme Corp.")).
  { do 9 apply Exists_cons_tl. apply Exists_cons_hd. reflexivity. }
  split; [exact Hs|]. split; [vm_compute; reflexivity|].
  eapply (replace_special_search_throws Some id (λ _ _, Template ()) loaded).
  - reflexivity.
  - reflexivity.
  - exact Hs.
Defined.

End Replacement.

(** ** Healing *)

Module NormalizerFacts.
Import TagNormalizer RegExpFacts JSFacts.

#[local] Arguments N.eqb : simpl never.
#[local] Arguments cleanContent : simpl never.
#[local] Arguments arg : simpl never.

Lemma any_char c : class_matches false [ItSpace; ItNonSpace] c = true.
Proof. unfold class_matches. cbn. by destruct (is_space c). Qed.

(** *** The text of a tag span *)

(** The text up to the first doubled closing brace, and the text
    after it. *)
Fixpoint until_close (s : jsstring) : option (jsstring * jsstring) :=
  match s with
  | [] => None
  | a :: s1 =>
      match s1 with
      | b :: s2 =>
          if (a =? 125)%N && (b =? 125)%N then Some ([], s2)
          else (λ cr, (a :: cr.1, cr.2)) <$> until_close s1
      | [] => None
      end
  end.

Definition span (c : jsstring) : match_info :=
  MatchInfo (str "{{" ++ c ++ str "}}") [(1, c)].

(** What [tagRegex] matches at the start of a text. *)
Definition tag_match (s : jsstring) : option (match_info * jsstring) :=
  match s with
  | a :: b :: s2 =>
      if (a =? 123)%N && (b =? 123)%N
      then (λ cr, (span cr.1, cr.2)) <$> until_close s2
      else None
  | _ => None
  end.

Lemma until_close_cons a b s :
  until_close (a :: b :: s)
  = if (a =? 125)%N && (b =? 125)%N then Some ([], s)
    else (λ cr, (a :: cr.1, cr.2)) <$> until_close (b :: s).
Proof. reflexivity. Qed.

Lemma until_close_split s c r : until_close s = Some (c, r) → s = c ++ str "}}" ++ r.
Proof.
  revert c r. induction s as [|a s1 IH]; intros c r; [done|].
  destruct s1 as [|b s2]; [done|]. rewrite until_close_cons.
  destruct ((a =? 125)%N && (b =? 125)%N) eqn:Hab.
  - apply andb_prop in Hab as [->%N.eqb_eq ->%N.eqb_eq]. by intros [= <- <-].
  - destruct (until_close (b :: s2)) as [[c' r']|] eqn:Hu; cbn; [|done].
    intros [= <- <-]. cbn. f_equal. by apply IH.
Qed.

Lemma until_close_tail a s : until_close (a :: s) = None → until_close s = None.
Proof.
  destruct s as [|b s]; [done|]. rewrite until_close_cons.
  destruct ((a =? 125)%N && (b =? 125)%N); [done|].
  by destruct (until_close (b :: s)).
Qed.

Lemma until_close_lacking c t :
  ch "}" ∉ c → until_close (c ++ str "}}" ++ t) = Some (c, t).
Proof.
  induction c as [|a c IH]; intros Hc.
  - reflexivity.
  - apply not_elem_of_cons in Hc as [Ha Hc].
    assert (Hnext : ∃ b s, c ++ str "}}" ++ t = b :: s).
    { destruct c; cbn; eauto. }
    destruct Hnext as (b & s & Hbs). cbn [app]. rewrite Hbs, until_close_cons.
    replace (a =? 125)%N with false by (symmetry; apply N.eqb_neq; done).
    cbn [andb]. rewrite <- Hbs, (IH Hc). reflexivity.
Qed.

Lemma lazy_until_close before0 after0 c0 s :
  lazy_run (class_matches false [ItSpace; ItNonSpace])
    (λ st3,
       step_char (N.eqb 125)
         (MState (consumed st3) (remaining st3)
            ((1, captured (MState before0 after0 []) st3) :: captures st3))
         (λ st4, step_char (N.eqb 125) st4 Some))
    (reverse c0 ++ before0) s []
  = (λ cr, MState (125%N :: 125%N :: reverse (c0 ++ cr.1) ++ before0) cr.2
             [(1, c0 ++ cr.1)]) <$> until_close s.
Proof.
  revert c0. induction s as [|a s1 IH]; intros c0.
  - reflexivity.
  - cbn [lazy_run]. rewrite captured_reverse, any_char.
    unfold step_char at 1. cbn [remaining consumed captures].
    assert (Hstep : lazy_run (class_matches false [ItSpace; ItNonSpace])
        (λ st3,
           step_char (N.eqb 125)
             (MState (consumed st3) (remaining st3)
                ((1, captured (MState before0 after0 []) st3) :: captures st3))
             (λ st4, step_char (N.eqb 125) st4 Some))
        (a :: reverse c0 ++ before0) s1 []
      = (λ cr, MState (125%N :: 125%N :: reverse (c0 ++ a :: cr.1) ++ before0) cr.2
                 [(1, c0 ++ a :: cr.1)]) <$> until_close s1).
    { replace (a :: reverse c0 ++ before0) with (reverse (c0 ++ [a]) ++ before0)
        by (by rewrite reverse_app).
      rewrite (IH (c0 ++ [a])). destruct (until_close s1) as [[c r]|]; cbn; [|done].
      by rewrite <- !app_assoc. }
    destruct s1 as [|b s2].
    + destruct (125 =? a)%N; cbn; reflexivity.
    + rewrite until_close_cons, (N.eqb_sym a 125), (N.eqb_sym b 125).
      destruct (N.eqb_spec 125 a) as [<-|Ha]; cbn [andb].
      * unfold step_char at 1. cbn [remaining consumed captures].
        destruct (N.eqb_spec 125 b) as [<-|Hb].
        -- cbn. by rewrite app_nil_r.
        -- rewrite Hstep. by destruct (until_close (b :: s2)) as [[c r]|].
      * rewrite Hstep. by destruct (until_close (b :: s2)) as [[c r]|].
Qed.

Lemma tagRegex_described : described tagRegex tag_match.
Proof.
  intros before after. unfold match_here, tagRegex. cbn [m].
  destruct after as [|a [|b s2]]; cbn [tag_match].
  - reflexivity.
  - unfold step_char. cbn [remaining consumed captures].
    destruct (123 =? a)%N; reflexivity.
  - unfold step_char at 1. cbn [remaining consumed captures].
    rewrite (N.eqb_sym a 123), (N.eqb_sym b 123).
    destruct (123 =? a)%N eqn:Ha; cbn [andb]; [|done].
    unfold step_char at 1. cbn [remaining consumed captures].
    destruct (123 =? b)%N eqn:Hb; [|done].
    apply N.eqb_eq in Ha as <-, Hb as <-.
    rewrite star_loop_lazy by (cbn; lia).
    pose proof (lazy_until_close (123%N :: 123%N :: before) s2 [] s2) as Hl.
    rewrite reverse_nil in Hl. cbn [app] in Hl. rewrite Hl. clear Hl.
    destruct (until_close s2) as [[c r]|] eqn:Hu; cbn [fmap option_fmap option_map]; [|done].
    cbn [fst snd app]. f_equal. f_equal. unfold span. f_equal.
    replace (125%N :: 125%N :: reverse c ++ 123%N :: 123%N :: before)
      with (reverse (str "{{" ++ c ++ str "}}") ++ before).
    + apply captured_reverse.
    + rewrite !reverse_app, <- !app_assoc. reflexivity.
Qed.

Lemma tag_match_progress s mi rest :
  tag_match s = Some (mi, rest) → length rest < length s.
Proof.
  destruct s as [|a [|b s2]]; cbn; try done.
  destruct ((a =? 123)%N && (b =? 123)%N); [|done].
  destruct (until_close s2) as [[c r]|] eqn:Hu; cbn; [|done].
  intros [= _ <-]. apply until_close_split in Hu as ->.
  rewrite !length_app. cbn. lia.
Qed.

Lemma tagRegex_scanned s : scanned tag_match s (pieces tagRegex s).
Proof. apply pieces_scanned; [apply tagRegex_described|apply tag_match_progress]. Qed.

(** *** Markup elements *)

Lemma not_gt c : class_matches true [ItChar 62%N] c = negb (c =? 62)%N.
Proof. unfold class_matches. cbn. by rewrite orb_false_r. Qed.

(** The text up to the first closing angle bracket, and the text
    after it. *)
Fixpoint tag_end (s : jsstring) : option (jsstring * jsstring) :=
  match s with
  | [] => None
  | a :: s' =>
      if (a =? 62)%N then Some ([], s')
      else (λ wr, (a :: wr.1, wr.2)) <$> tag_end s'
  end.

(** What [anyTag] matches at the start of a text. *)
Definition tag_at (s : jsstring) : option (match_info * jsstring) :=
  match s with
  | a :: b :: s' =>
      if (a =? 60)%N && negb (b =? 62)%N
      then (λ wr, (MatchInfo (a :: b :: wr.1 ++ [62%N]) [], wr.2)) <$> tag_end s'
      else None
  | _ => None
  end.

Lemma tag_end_split s w r : tag_end s = Some (w, r) → s = w ++ 62%N :: r.
Proof.
  revert w. induction s as [|a s IH]; intros w; cbn; [done|].
  destruct (N.eqb_spec a 62) as [->|Ha].
  - by intros [= <- <-].
  - destruct (tag_end s) as [[w' r']|]; cbn; [|done].
    intros [= <- <-]. cbn. f_equal. by apply IH.
Qed.

Lemma tag_end_None s : tag_end s = None ↔ 62%N ∉ s.
Proof.
  induction s as [|a s IH]; cbn.
  - split; [intros _; apply not_elem_of_nil|done].
  - destruct (N.eqb_spec a 62) as [->|Ha].
    + split; [done|]. intros H. exfalso. apply H. by left.
    + rewrite not_elem_of_cons, <- IH.
      destruct (tag_end s); cbn; split; try done; by intros [_ ?].
Qed.

Lemma greedy_tag_end before0 w0 s caps :
  greedy_run (class_matches true [ItChar 62%N])
    (λ st, step_char (N.eqb 62) st Some) (reverse w0 ++ before0) s caps
  = (λ wr, MState (62%N :: reverse (w0 ++ wr.1) ++ before0) wr.2 caps) <$> tag_end s.
Proof.
  revert w0. induction s as [|a s IH]; intros w0; cbn [greedy_run tag_end].
  - reflexivity.
  - rewrite not_gt, (N.eqb_sym a 62).
    destruct (N.eqb_spec 62 a) as [<-|Ha]; cbn [negb].
    + unfold step_char. cbn. by rewrite app_nil_r.
    + replace (a :: reverse w0 ++ before0) with (reverse (w0 ++ [a]) ++ before0)
        by (by rewrite reverse_app).
      rewrite (IH (w0 ++ [a])).
      destruct (tag_end s) as [[w r]|]; cbn.
      * by rewrite <- !app_assoc.
      * unfold step_char. cbn. by rewrite (proj2 (N.eqb_neq 62 a)).
Qed.

Lemma anyTag_described : described anyTag tag_at.
Proof.
  intros before after. unfold match_here, anyTag. cbn [m].
  destruct after as [|a [|b s']]; cbn [tag_at].
  - reflexivity.
  - unfold step_char. cbn [remaining consumed captures].
    destruct (60 =? a)%N; reflexivity.
  - unfold step_char at 1. cbn [remaining consumed captures].
    rewrite (N.eqb_sym a 60).
    destruct (N.eqb_spec 60 a) as [<-|Ha]; cbn [andb]; [|done].
    unfold step_char at 1. cbn [remaining consumed captures].
    rewrite not_gt. destruct (b =? 62)%N; cbn [negb]; [done|].
    rewrite star_loop_greedy by (cbn; lia).
    pose proof (greedy_tag_end (60%N :: before) [b] s' []) as Hg.
    change (reverse [b] ++ 60%N :: before) with (b :: 60%N :: before) in Hg.
    cbn [app] in Hg. rewrite Hg. clear Hg.
    destruct (tag_end s') as [[w r]|] eqn:Hw; cbn [fmap option_fmap option_map]; [|done].
    cbn [fst snd]. f_equal. f_equal. f_equal.
    replace (62%N :: reverse (b :: w) ++ 60%N :: before)
      with (reverse (60%N :: b :: w ++ [62%N]) ++ before).
    + apply captured_reverse.
    + rewrite !reverse_cons, reverse_app, <- !app_assoc. reflexivity.
Qed.

Lemma tag_at_suffix s mi rest : tag_at s = Some (mi, rest) → ∃ w, s = w ++ rest.
Proof.
  destruct s as [|a [|b s']]; cbn; try done.
  destruct ((a =? 60)%N && negb (b =? 62)%N); [|done].
  destruct (tag_end s') as [[w r]|] eqn:Hw; cbn; [|done].
  intros [= _ <-]. apply tag_end_split in Hw as ->.
  exists (a :: b :: w ++ [62%N]). cbn. by rewrite <- app_assoc.
Qed.

Lemma tag_at_progress s mi rest : tag_at s = Some (mi, rest) → length rest < length s.
Proof.
  destruct s as [|a [|b s']]; cbn; try done.
  destruct ((a =? 60)%N && negb (b =? 62)%N); [|done].
  destruct (tag_end s') as [[w r]|] eqn:Hw; cbn; [|done].
  intros [= _ <-]. apply tag_end_split in Hw as ->.
  rewrite length_app. cbn. lia.
Qed.

Lemma anyTag_scanned s : scanned tag_at s (pieces anyTag s).
Proof. apply pieces_scanned; [apply anyTag_described|apply tag_at_progress]. Qed.

(** The text without its markup elements. *)
Definition strip (s : jsstring) : jsstring := replace anyTag (λ _, []) s.

(** No markup element starts anywhere in the text. *)
Fixpoint no_tag (t : jsstring) : Prop :=
  match t with
  | [] => True
  | a :: t' => tag_at (a :: t') = None ∧ no_tag t'
  end.

Lemma tag_at_other a s : a ≠ 60%N → tag_at (a :: s) = None.
Proof.
  intros Ha. destruct s as [|b s]; [done|]. cbn.
  by rewrite (proj2 (N.eqb_neq a 60)).
Qed.

Lemma tag_at_empty a s : tag_at (a :: 62%N :: s) = None.
Proof. cbn. by rewrite andb_false_r. Qed.

Lemma tag_at_unclosed a s : 62%N ∉ s → tag_at (a :: s) = None.
Proof.
  intros Hs. destruct s as [|b s]; [done|]. cbn.
  apply not_elem_of_cons in Hs as [Hb Hs].
  apply tag_end_None in Hs. rewrite Hs.
  by destruct ((a =? 60)%N && negb (b =? 62)%N).
Qed.

(** Why a markup element does not start at an opening angle bracket. *)
Lemma tag_at_None s :
  tag_at (60%N :: s) = None → (∃ s', s = 62%N :: s') ∨ 62%N ∉ s.
Proof.
  destruct s as [|b s]; [intros _; right; apply not_elem_of_nil|]. cbn.
  destruct (N.eqb_spec b 62) as [->|Hb]; cbn; [by eauto|].
  destruct (tag_end s) as [[w r]|] eqn:Hw; cbn; [done|].
  intros _. right. apply not_elem_of_cons. split; [done|]. by apply tag_end_None.
Qed.

Lemma no_tag_pieces t ps : no_tag t → scanned tag_at t ps → ps = Gap <$> t.
Proof.
  intros Ht H. induction H as [|s mi rest ps Hmu _ IH|a s ps Hmu _ IH].
  - done.
  - destruct s as [|a s]; [done|]. destruct Ht as [Ht _]. congruence.
  - destruct Ht as [_ Ht]. cbn. f_equal. by apply IH.
Qed.

Lemma concat_gaps (f : match_info → jsstring) (t : jsstring) :
  concat (piece_replaced f <$> (Gap <$> t)) = t.
Proof. induction t as [|a t IH]; cbn; [done|]. by rewrite IH. Qed.

Lemma hits_gaps (t : jsstring) : hits (Gap <$> t) = [].
Proof. induction t as [|a t IH]; cbn; done. Qed.

Lemma no_tag_fixed t : no_tag t → strip t = t ∧ matchAll anyTag t = [].
Proof.
  intros Ht. pose proof (no_tag_pieces t _ Ht (anyTag_scanned t)) as Hps.
  unfold strip, matchAll. rewrite replace_pieces, Hps.
  split; [apply concat_gaps|apply hits_gaps].
Qed.

Lemma scanned_no_tag s ps :
  scanned tag_at s ps → no_tag (concat (piece_replaced (λ _, []) <$> ps)).
Proof.
  intros H. induction H as [|s mi rest ps Hmu Hrest IH|a s ps Hmu Hrest IH];
    cbn [fmap list_fmap concat piece_replaced app no_tag].
  - done.
  - exact IH.
  - split; [|exact IH].
    destruct (N.eqb_spec a 60) as [->|Ha]; [|by apply tag_at_other].
    apply tag_at_None in Hmu as [[s' ->]|Hs].
    + inversion Hrest as [|? mi rest ps' Hmu' _|? ? ps' _ _]; subst.
      * by rewrite tag_at_other in Hmu'.
      * cbn [fmap list_fmap concat piece_replaced app]. apply tag_at_empty.
    + apply tag_at_unclosed. intros Hx. apply Hs.
      eapply scanned_removed; [exact tag_at_suffix|done..].
Qed.

Lemma strip_no_tag s : no_tag (strip s).
Proof.
  unfold strip. rewrite replace_pieces.
  apply (scanned_no_tag s), anyTag_scanned.
Qed.

(** *** Marker characters *)

Fixpoint remove_char (c : char) (s : jsstring) : jsstring :=
  match s with
  | [] => []
  | a :: s' => if (a =? c)%N then remove_char c s' else a :: remove_char c s'
  end.

Lemma scan_lit_removed c fuel before after :
  length after < fuel →
  concat (piece_replaced (λ _, []) <$> scan (Lit c) fuel before after)
  = remove_char c after.
Proof.
  revert before after. induction fuel as [|fuel IH]; intros before after Hlen; [lia|].
  destruct after as [|a rest]; [done|].
  cbn [scan]. unfold match_here. cbn [m step_char remaining consumed captures].
  cbn in Hlen. cbn [remove_char]. rewrite (N.eqb_sym a c).
  destruct (c =? a)%N.
  - cbn [remaining consumed].
    rewrite bool_decide_true by (cbn; lia). cbn. apply IH. lia.
  - cbn. f_equal. apply IH. lia.
Qed.

Lemma replace_lit c s : replace (Lit c) (λ _, []) s = remove_char c s.
Proof. rewrite replace_pieces. apply scan_lit_removed. lia. Qed.

Lemma remove_char_elem (x c : char) s : x ∈ remove_char c s → x ∈ s ∧ x ≠ c.
Proof.
  induction s as [|a s IH]; cbn; [by intros ?%elem_of_nil|].
  destruct (N.eqb_spec a c) as [->|Ha].
  - intros [??]%IH. split; [by right|done].
  - intros [->|[??]%IH]%elem_of_cons; (split; [by constructor|done]).
Qed.

Lemma remove_char_lacks c s : c ∉ remove_char c s.
Proof. by intros [_ ?]%remove_char_elem. Qed.

Lemma remove_char_fixed (c : char) s : c ∉ s → remove_char c s = s.
Proof.
  induction s as [|a s IH]; cbn; [done|].
  intros [Ha Hs]%not_elem_of_cons.
  rewrite (proj2 (N.eqb_neq a c)) by congruence. by rewrite IH.
Qed.

Lemma remove_char_no_tag c t :
  c ≠ 60%N → c ≠ 62%N → no_tag t → no_tag (remove_char c t).
Proof.
  intros H60 H62. induction t as [|a t IH]; cbn [remove_char no_tag]; [done|].
  intros [Ha Ht]. destruct (N.eqb_spec a c) as [->|Hac]; [by apply IH|].
  split; [|by apply IH].
  destruct (N.eqb_spec a 60) as [->|Ha60]; [|by apply tag_at_other].
  apply tag_at_None in Ha as [[t' ->]|Hgt].
  - cbn [remove_char]. rewrite (proj2 (N.eqb_neq 62 c)) by congruence.
    apply tag_at_empty.
  - apply tag_at_unclosed. by intros [? _]%remove_char_elem.
Qed.

(** *** The content of a re-emitted span *)

Lemma cleanContent_eq content :
  cleanContent content = remove_char 125 (remove_char 123 (strip content)).
Proof.
  unfold cleanContent, openBrace, closeBrace. by rewrite !replace_lit.
Qed.

Lemma cleanContent_no_tag content : no_tag (cleanContent content).
Proof.
  rewrite cleanContent_eq.
  apply remove_char_no_tag; [done..|].
  apply remove_char_no_tag; [done..|]. apply strip_no_tag.
Qed.

Lemma cleanContent_lacks_close content : ch "}" ∉ cleanContent content.
Proof. rewrite cleanContent_eq. apply remove_char_lacks. Qed.

Lemma cleanContent_lacks_open content : ch "{" ∉ cleanContent content.
Proof.
  rewrite cleanContent_eq. intros [H _]%remove_char_elem.
  by apply remove_char_lacks in H.
Qed.

Lemma cleanContent_fixed t :
  no_tag t → ch "{" ∉ t → ch "}" ∉ t → cleanContent t = t.
Proof.
  intros Ht Ho Hc. rewrite cleanContent_eq.
  rewrite (proj1 (no_tag_fixed t Ht)).
  rewrite (remove_char_fixed 123 t Ho). by apply remove_char_fixed.
Qed.


(** *** Consolidation *)

(** The token a span is re-emitted as. *)
Definition token (mi : match_info) : jsstring :=
  str "{{" ++ cleanContent (arg 1 mi) ++ str "}}".

Definition consolidated (ps : list piece) : jsstring :=
  concat (piece_replaced token <$> ps).

(** The pieces of the consolidated text. *)
Definition cleaned (p : piece) : piece :=
  match p with
  | Gap c => Gap c
  | Hit mi => Hit (span (cleanContent (arg 1 mi)))
  end.

Lemma consolidateTags_pieces xml :
  consolidateTags xml = consolidated (pieces tagRegex xml).
Proof. apply replace_pieces. Qed.

Lemma arg_span c : arg 1 (span c) = c.
Proof. reflexivity. Qed.


Lemma tag_match_Some s mi rest :
  tag_match s = Some (mi, rest) →
  ∃ c, mi = span c ∧ until_close (drop 2 s) = Some (c, rest)
       ∧ s = str "{{" ++ c ++ str "}}" ++ rest.
Proof.
  destruct s as [|a [|b s2]]; cbn; try done.
  destruct (N.eqb_spec a 123) as [->|?]; cbn; [|done].
  destruct (N.eqb_spec b 123) as [->|?]; cbn; [|done].
  destruct (until_close s2) as [[c r]|] eqn:Hu; cbn; [|done].
  intros [= <- <-]. exists c. split; [done|]. split; [done|].
  apply until_close_split in Hu as ->. reflexivity.
Qed.

Lemma tag_match_token c t :
  ch "}" ∉ c → tag_match (str "{{" ++ c ++ str "}}" ++ t) = Some (span c, t).
Proof.
  intros Hc. change (str "{{" ++ c ++ str "}}" ++ t)
    with (123%N :: 123%N :: c ++ str "}}" ++ t).
  cbn [tag_match]. rewrite N.eqb_refl. cbn [andb].
  by rewrite (until_close_lacking c t Hc).
Qed.

Lemma tag_match_other a s : a ≠ 123%N → tag_match (a :: s) = None.
Proof.
  intros Ha. destruct s as [|b s]; [done|]. cbn.
  by rewrite (proj2 (N.eqb_neq a 123)).
Qed.

Lemma tag_match_second a b s : b ≠ 123%N → tag_match (a :: b :: s) = None.
Proof. intros Hb. cbn. by rewrite (proj2 (N.eqb_neq b 123)), andb_false_r. Qed.

Lemma consolidated_head s ps :
  scanned tag_match s ps → head (consolidated ps) = head s.
Proof.
  intros H. destruct H as [|s mi rest ps Hmu _|a s ps _ _]; [done| |done].
  apply tag_match_Some in Hmu as (c & -> & _ & ->). reflexivity.
Qed.

(** Where no doubled closing brace follows, nothing is consolidated. *)
Lemma consolidated_closeless s ps :
  until_close s = None → scanned tag_match s ps → consolidated ps = s.
Proof.
  intros Hs H. induction H as [|s mi rest ps Hmu _ IH|a s ps Hmu _ IH].
  - done.
  - apply tag_match_Some in Hmu as (c & _ & Hu & Heq). exfalso.
    rewrite Heq in Hs, Hu.
    change (str "{{" ++ c ++ str "}}" ++ rest)
      with (123%N :: 123%N :: c ++ str "}}" ++ rest) in Hs, Hu.
    cbn [drop] in Hu. rewrite drop_0 in Hu.
    apply until_close_tail, until_close_tail in Hs. congruence.
  - unfold consolidated in *. cbn. f_equal. apply IH.
    by apply until_close_tail in Hs.
Qed.

(** The consolidated text scans into the cleaned pieces: its spans are
    the tokens. *)
Lemma consolidated_scanned s ps :
  scanned tag_match s ps →
  scanned tag_match (consolidated ps) (cleaned <$> ps).
Proof.
  intros H. induction H as [|s mi rest ps Hmu Hrest IH|a s ps Hmu Hrest IH].
  - constructor.
  - replace (consolidated (Hit mi :: ps))
      with (str "{{" ++ cleanContent (arg 1 mi) ++ str "}}" ++ consolidated ps)
      by (unfold consolidated, token; cbn [fmap list_fmap concat piece_replaced];
          by rewrite <- !app_assoc).
    cbn [fmap list_fmap cleaned].
    eapply scanned_hit; [|exact IH].
    apply tag_match_token, cleanContent_lacks_close.
  - change (consolidated (Gap a :: ps)) with (a :: consolidated ps).
    cbn [fmap list_fmap cleaned].
    apply scanned_gap; [|exact IH].
    destruct (N.eqb_spec a 123) as [->|Ha]; [|by apply tag_match_other].
    pose proof (consolidated_head _ _ Hrest) as Hhead.
    destruct s as [|b s2].
    + inversion Hrest; subst; [done|]. by apply tag_match_progress in H.
    + destruct (N.eqb_spec b 123) as [->|Hb].
      * assert (Hu : until_close s2 = None).
        { cbn in Hmu. by destruct (until_close s2). }
        rewrite (consolidated_closeless (123%N :: s2) ps); [done| |done].
        destruct s2 as [|c s3]; [done|]. rewrite until_close_cons. cbn [andb N.eqb].
        change ((123 =? 125)%N) with false. cbn [andb]. by rewrite Hu.
      * destruct (consolidated ps) as [|b' t]; [done|].
        cbn in Hhead. injection Hhead as ->. by apply tag_match_second.
Qed.

Lemma pieces_consolidated xml :
  pieces tagRegex (consolidateTags xml) = cleaned <$> pieces tagRegex xml.
Proof.
  rewrite consolidateTags_pieces.
  apply (scanned_functional tag_match (consolidated (pieces tagRegex xml)));
    [exact tag_match_progress|apply tagRegex_scanned|].
  apply (consolidated_scanned xml), tagRegex_scanned.
Qed.


(** Every span of a consolidated text is a token with clean content. *)
Theorem consolidateTags_spans xml mi :
  mi ∈ matchAll tagRegex (consolidateTags xml) →
  mtext mi = str "{{" ++ arg 1 mi ++ str "}}"
  ∧ matchAll anyTag (arg 1 mi) = []
  ∧ (ch "{" ∉ arg 1 mi)
  ∧ (ch "}" ∉ arg 1 mi).
Proof.
  unfold matchAll. rewrite pieces_consolidated.
  generalize (pieces tagRegex xml). intros ps.
  induction ps as [|[c|mi'] ps IH]; cbn.
  - by intros ?%elem_of_nil.
  - exact IH.
  - intros [->|Hin]%elem_of_cons; [|by apply IH].
    cbn. split; [done|]. split; [|split].
    + apply no_tag_fixed, cleanContent_no_tag.
    + apply cleanContent_lacks_open.
    + apply cleanContent_lacks_close.
Qed.

(** *** Texts of characters and markup elements *)

(** A text seen as a sequence of single characters and of markup
    elements, each element given by the text between its angle
    brackets. *)
Inductive node : Type :=
| Chr (c : char)
| Elem (body : jsstring).

Definition render_node (n : node) : jsstring :=
  match n with
  | Chr c => [c]
  | Elem body => 60%N :: body ++ [62%N]
  end.

Definition render (ns : list node) : jsstring := concat (render_node <$> ns).

(** The nodes that are left when those with property [bad] are taken
    out. *)
Fixpoint without (bad : node → bool) (ns : list node) : list node :=
  match ns with
  | [] => []
  | n :: ns' => if bad n then without bad ns' else n :: without bad ns'
  end.

(** No opening angle bracket in a character, no angle bracket in the
    body of an element. *)
Definition closed (n : node) : Prop :=
  match n with
  | Chr c => c ≠ 60%N
  | Elem body => (60%N ∉ body) ∧ (62%N ∉ body)
  end.

(** Neither an angle bracket that opens nor a brace. *)
Definition plain (n : node) : Prop :=
  match n with
  | Chr c => c ≠ 60%N ∧ c ≠ 123%N ∧ c ≠ 125%N
  | Elem body => (60%N ∉ body) ∧ (62%N ∉ body) ∧ (123%N ∉ body) ∧ (125%N ∉ body)
  end.

(** An element with a body, without braces. *)
Definition element (n : node) : Prop :=
  match n with
  | Chr _ => False
  | Elem body =>
      body ≠ [] ∧ (60%N ∉ body) ∧ (62%N ∉ body) ∧ (123%N ∉ body) ∧ (125%N ∉ body)
  end.

Lemma render_app ns1 ns2 : render (ns1 ++ ns2) = render ns1 ++ render ns2.
Proof. unfold render. by rewrite fmap_app, concat_app. Qed.

Lemma render_chars (s : jsstring) : render (Chr <$> s) = s.
Proof.
  induction s as [|c s IH]; [done|]. unfold render in *. cbn. by rewrite IH.
Qed.

Lemma render_cons_elem body ns :
  render (Elem body :: ns) = 60%N :: body ++ 62%N :: render ns.
Proof. unfold render. cbn. by rewrite <- app_assoc. Qed.

Lemma without_app bad ns1 ns2 :
  without bad (ns1 ++ ns2) = without bad ns1 ++ without bad ns2.
Proof.
  induction ns1 as [|n ns1 IH]; [done|]. cbn. destruct (bad n); by rewrite IH.
Qed.

Lemma without_Forall (P : node → Prop) bad ns :
  Forall P ns → Forall P (without bad ns).
Proof.
  induction 1 as [|n ns Hn _ IH]; cbn; [done|].
  destruct (bad n); [done|by constructor].
Qed.

Lemma without_none ns : without (λ _, false) ns = ns.
Proof. induction ns as [|n ns IH]; [done|]. cbn. by rewrite IH. Qed.

Lemma plain_closed n : plain n → closed n.
Proof. destruct n; cbn; tauto. Qed.

Lemma element_closed n : element n → closed n.
Proof. destruct n; cbn; tauto. Qed.

Lemma render_lacks (x : char) ns :
  x ≠ 60%N → x ≠ 62%N →
  Forall (λ n, match n with Chr c => c ≠ x | Elem body => x ∉ body end) ns →
  x ∉ render ns.
Proof.
  intros H60 H62. induction 1 as [|[c|body] ns Hn _ IH]; [apply not_elem_of_nil| |].
  - change (render (Chr c :: ns)) with (c :: render ns).
    apply not_elem_of_cons. split; [congruence|exact IH].
  - rewrite render_cons_elem.
    apply not_elem_of_cons. split; [done|].
    apply not_elem_of_app. split; [done|].
    apply not_elem_of_cons. split; [done|exact IH].
Qed.

Lemma plain_lacks_open ns : Forall plain ns → 123%N ∉ render ns.
Proof.
  intros H. apply render_lacks; [done..|].
  eapply Forall_impl; [exact H|]. intros [c|body]; cbn; tauto.
Qed.

Lemma plain_lacks_close ns : Forall plain ns → 125%N ∉ render ns.
Proof.
  intros H. apply render_lacks; [done..|].
  eapply Forall_impl; [exact H|]. intros [c|body]; cbn; tauto.
Qed.

Lemma element_lacks_open ns : Forall element ns → 123%N ∉ render ns.
Proof.
  intros H. apply render_lacks; [done..|].
  eapply Forall_impl; [exact H|]. intros [c|body]; cbn; tauto.
Qed.

Lemma element_lacks_close ns : Forall element ns → 125%N ∉ render ns.
Proof.
  intros H. apply render_lacks; [done..|].
  eapply Forall_impl; [exact H|]. intros [c|body]; cbn; tauto.
Qed.

(** *** Noise elements *)

(** The names of the elements that [removeNoiseTags] takes out. *)
Definition noiseNames : list jsstring :=
  [ str "w:proofErr"; str "w:noProof"; str "w:lang";
    str "w:bookmarkStart"; str "w:bookmarkEnd";
    str "w:commentRangeStart"; str "w:commentRangeEnd";
    str "w:permStart"; str "w:permEnd";
    str "w:moveFromRangeStart"; str "w:moveFromRangeEnd";
    str "w:moveToRangeStart"; str "w:moveToRangeEnd";
    str "w:rsid" ].

(** The opening angle bracket and the name, any characters but a
    closing angle bracket, a slash and the closing angle bracket. *)
Definition noiseRegex (name : jsstring) : regex :=
  mk_seq ((Lit <$> (60%N :: name))
          ++ [Star true (Cls true [ItChar 62%N]); Lit 47%N; Lit 62%N]).

Lemma noisePatterns_names : noisePatterns = noiseRegex <$> noiseNames.
Proof. vm_compute. reflexivity. Qed.

Lemma mk_seq_cons t ts : ts ≠ [] → mk_seq (t :: ts) = Seq t (mk_seq ts).
Proof. by destruct ts. Qed.

Lemma m_literal p ts before after caps k :
  ts ≠ [] →
  m (mk_seq ((Lit <$> p) ++ ts)) (MState before after caps) k
  = if starts_with p after
    then m (mk_seq ts)
           (MState (reverse p ++ before) (drop (length p) after) caps) k
    else None.
Proof.
  intros Hts. revert before after. induction p as [|a p IH]; intros before after.
  - by destruct after.
  - cbn [fmap list_fmap app]. rewrite mk_seq_cons by (by destruct p, ts).
    cbn [m]. unfold step_char at 1. cbn [remaining consumed captures].
    destruct after as [|b after]; [done|]. cbn [starts_with length drop].
    destruct (N.eqb_spec a b) as [->|Hab]; [|done]. cbn [andb].
    rewrite IH. by rewrite reverse_cons, <- app_assoc.
Qed.

(** The text up to the slash that stands before the first closing
    angle bracket, the slash included, and the text after the
    bracket. *)
Fixpoint noise_end (s : jsstring) : option (jsstring * jsstring) :=
  match s with
  | [] => None
  | a :: s' =>
      if (a =? 62)%N then None
      else match noise_end s' with
           | Some wr => Some (a :: wr.1, wr.2)
           | None =>
               if (a =? 47)%N
               then match s' with
                    | b :: rest => if (b =? 62)%N then Some ([a], rest) else None
                    | [] => None
                    end
               else None
           end
  end.

(** What the expression of a noise element matches at the start of a
    text. *)
Definition noise_at (name s : jsstring) : option (match_info * jsstring) :=
  if starts_with (60%N :: name) s
  then (λ wr, (MatchInfo (60%N :: name ++ wr.1 ++ [62%N]) [], wr.2))
         <$> noise_end (drop (S (length name)) s)
  else None.

Fixpoint ends_slash (s : jsstring) : bool :=
  match s with
  | [] => false
  | a :: s' => match s' with [] => (a =? 47)%N | _ :: _ => ends_slash s' end
  end.

(** The body of a noise element: the name at its start and a slash at
    its end. *)
Definition noisy (name body : jsstring) : bool :=
  starts_with name body && ends_slash (drop (length name) body).

Definition noisy_node (name : jsstring) (n : node) : bool :=
  match n with
  | Chr _ => false
  | Elem body => noisy name body
  end.

Definition noise (n : node) : bool :=
  existsb (λ name, noisy_node name n) noiseNames.

Lemma greedy_noise_end before0 w0 s caps :
  greedy_run (class_matches true [ItChar 62%N])
    (λ st, step_char (N.eqb 47) st (λ st', step_char (N.eqb 62) st' Some))
    (reverse w0 ++ before0) s caps
  = (λ wr, MState (62%N :: reverse (w0 ++ wr.1) ++ before0) wr.2 caps)
      <$> noise_end s.
Proof.
  revert w0. induction s as [|a s IH]; intros w0; cbn [greedy_run noise_end].
  - reflexivity.
  - rewrite not_gt. destruct (N.eqb_spec a 62) as [->|Ha]; cbn [negb].
    + reflexivity.
    + replace (a :: reverse w0 ++ before0) with (reverse (w0 ++ [a]) ++ before0)
        by (by rewrite reverse_app).
      rewrite (IH (w0 ++ [a])).
      destruct (noise_end s) as [[w r]|];
        cbn [fmap option_fmap option_map fst snd].
      * by rewrite <- !app_assoc.
      * unfold step_char at 1. cbn [remaining consumed captures].
        rewrite (N.eqb_sym 47 a). destruct (a =? 47)%N; [|done].
        destruct s as [|b rest]; [done|].
        unfold step_char. cbn [remaining consumed captures].
        rewrite (N.eqb_sym 62 b). destruct (N.eqb_spec b 62) as [->|Hb]; [|done].
        cbn [fmap option_fmap option_map fst snd].
        by rewrite reverse_app.
Qed.

Lemma noiseRegex_described name : described (noiseRegex name) (noise_at name).
Proof.
  intros before after. unfold match_here, noiseRegex, noise_at.
  rewrite m_literal by done.
  destruct (starts_with (60%N :: name) after); [|done].
  cbn [mk_seq m length remaining]. rewrite star_loop_greedy by (cbn; lia).
  rewrite (greedy_noise_end before (60%N :: name)).
  destruct (noise_end _) as [[w r]|];
    cbn [fmap option_fmap option_map fst snd]; [|done].
  f_equal. f_equal. f_equal.
  replace (62%N :: reverse ((60%N :: name) ++ w) ++ before)
    with (reverse (60%N :: name ++ w ++ [62%N]) ++ before).
  - apply captured_reverse.
  - cbn [app].
    rewrite !reverse_cons, !reverse_app, reverse_singleton, <- !app_assoc.
    reflexivity.
Qed.

Lemma noise_end_split s w r : noise_end s = Some (w, r) → s = w ++ 62%N :: r.
Proof.
  revert w r. induction s as [|a s IH]; intros w r; cbn [noise_end]; [done|].
  destruct (a =? 62)%N; [done|].
  destruct (noise_end s) as [[w' r']|].
  - intros [= <- <-]. cbn. f_equal. by apply IH.
  - destruct (a =? 47)%N; [|done]. destruct s as [|b rest]; [done|].
    destruct (N.eqb_spec b 62) as [->|Hb]; [|done]. by intros [= <- <-].
Qed.

Lemma noise_at_progress name s mi rest :
  noise_at name s = Some (mi, rest) → length rest < length s.
Proof.
  unfold noise_at. destruct (starts_with _ s); [|done].
  destruct (noise_end _) as [[w r]|] eqn:Hw; [|done]. cbn.
  intros [= _ <-]. apply noise_end_split in Hw.
  apply (f_equal length) in Hw. rewrite length_drop, length_app in Hw.
  cbn in Hw. lia.
Qed.

Lemma noise_at_other name a s : a ≠ 60%N → noise_at name (a :: s) = None.
Proof.
  intros Ha. unfold noise_at. cbn [starts_with].
  by rewrite (proj2 (N.eqb_neq 60 a)).
Qed.

Lemma noise_end_body body rest :
  62%N ∉ body →
  noise_end (body ++ 62%N :: rest)
  = if ends_slash body then Some (body, rest) else None.
Proof.
  induction body as [|a body IH]; intros Hb; [done|].
  apply not_elem_of_cons in Hb as [Ha Hb]. specialize (IH Hb).
  cbn [app noise_end ends_slash]. rewrite (proj2 (N.eqb_neq a 62)) by done.
  destruct body as [|c body].
  - cbn [app noise_end]. rewrite N.eqb_refl. by destruct (a =? 47)%N.
  - rewrite IH. destruct (ends_slash (c :: body)); [done|].
    apply not_elem_of_cons in Hb as [Hc _]. cbn [app].
    rewrite (proj2 (N.eqb_neq c 62)) by done. by destruct (a =? 47)%N.
Qed.

Lemma starts_with_closed name body rest :
  62%N ∉ name →
  starts_with name (body ++ 62%N :: rest) = starts_with name body.
Proof.
  revert body. induction name as [|a name IH]; intros body Hn; [done|].
  apply not_elem_of_cons in Hn as [Ha Hn].
  destruct body as [|b body]; cbn [app starts_with].
  - by rewrite (proj2 (N.eqb_neq a 62)).
  - by rewrite IH.
Qed.

Lemma starts_with_length p s : starts_with p s = true → length p ≤ length s.
Proof.
  revert s. induction p as [|a p IH]; intros [|b s]; cbn; try done; [lia|].
  intros [_ H]%andb_prop. apply IH in H. lia.
Qed.

Lemma drop_lacks (x : char) n (l : jsstring) : x ∉ l → x ∉ drop n l.
Proof.
  intros Hl Hin. apply Hl. rewrite <- (take_drop n l).
  apply elem_of_app. by right.
Qed.

Lemma noise_at_elem name body rest :
  62%N ∉ name → 62%N ∉ body →
  noise_at name (60%N :: body ++ 62%N :: rest)
  = if noisy name body
    then Some (MatchInfo (60%N :: name ++ drop (length name) body ++ [62%N]) [],
               rest)
    else None.
Proof.
  intros Hname Hbody. unfold noise_at, noisy. cbn [starts_with drop].
  rewrite N.eqb_refl. cbn [andb]. rewrite starts_with_closed by done.
  destruct (starts_with name body) eqn:Hs; [|done]. cbn [andb].
  rewrite drop_app_le by (by apply starts_with_length).
  rewrite noise_end_body by (by apply drop_lacks).
  by destruct (ends_slash _).
Qed.

(** One pass of [removeNoiseTags] takes out the elements of one name
    and nothing else. *)
Lemma replace_noise name ns :
  62%N ∉ name → Forall closed ns →
  replace (noiseRegex name) (λ _, []) (render ns)
  = render (without (noisy_node name) ns).
Proof.
  intros Hname.
  pose proof (noiseRegex_described name) as Hd.
  pose proof (noise_at_progress name) as Hp.
  induction 1 as [|[c|body] ns Hn _ IH].
  - by apply (replace_nil _ (noise_at name)).
  - change (render (Chr c :: ns)) with (c :: render ns).
    cbn [without noisy_node].
    rewrite (replace_gap _ (noise_at name)) by (try done; by apply noise_at_other).
    by rewrite IH.
  - destruct Hn as [Hlt Hgt]. rewrite render_cons_elem.
    cbn [without noisy_node].
    pose proof (noise_at_elem name body (render ns) Hname Hgt) as Hat.
    destruct (noisy name body).
    + rewrite (replace_hit _ (noise_at name) _ _ _ _ Hd Hp Hat). exact IH.
    + rewrite (replace_gap _ (noise_at name)) by done.
      rewrite (replace_gaps _ (noise_at name));
        [|done|done|intros a t Ha; apply noise_at_other; by intros ->].
      rewrite (replace_gap _ (noise_at name)) by (try done; by apply noise_at_other).
      by rewrite IH, render_cons_elem.
Qed.

Lemma without_without names name ns :
  without (λ n, existsb (λ name, noisy_node name n) names)
    (without (noisy_node name) ns)
  = without (λ n, existsb (λ name, noisy_node name n) (name :: names)) ns.
Proof.
  induction ns as [|n ns IH]; [done|]. cbn [without existsb].
  destruct (noisy_node name n) eqn:Hn; cbn [orb without]; [exact IH|].
  destruct (existsb _ names); by rewrite IH.
Qed.

Lemma fold_noise names ns :
  Forall (λ name : jsstring, 62%N ∉ name) names → Forall closed ns →
  fold_left (λ cleaned pattern, replace pattern (λ _, []) cleaned)
    (noiseRegex <$> names) (render ns)
  = render (without (λ n, existsb (λ name, noisy_node name n) names) ns).
Proof.
  intros Hnames. revert ns.
  induction Hnames as [|name names Hname _ IH]; intros ns Hns.
  - cbn. by rewrite without_none.
  - cbn [fmap list_fmap fold_left]. rewrite replace_noise by done.
    rewrite IH by (by apply without_Forall). by rewrite without_without.
Qed.

(** [removeNoiseTags] takes out the noise elements of a text whose
    angle brackets are those of its elements. *)
Lemma removeNoiseTags_render ns :
  Forall closed ns → removeNoiseTags (render ns) = render (without noise ns).
Proof.
  intros Hns. unfold removeNoiseTags. rewrite noisePatterns_names.
  apply fold_noise; [|done].
  unfold noiseNames. repeat constructor; by apply lacks_includes.
Qed.

Lemma without_noise_chars (s : jsstring) : without noise (Chr <$> s) = Chr <$> s.
Proof. induction s as [|c s IH]; [done|]. cbn [fmap list_fmap without]. by rewrite IH. Qed.

(** *** Split markers in a text with one placeholder *)

(** A word of either expression of [repairSplitDelimiters] has the
    marker character at both ends and an element in between. *)
Lemma lang_split x w :
  lang (Seq (Group 1 (Lit x))
         (Seq (Group 2 (Star false (Cls true [ItChar 125%N; ItChar 123%N])))
            (Seq (Plus true
                    (Group 3
                       (Seq (Lit 60%N)
                          (Seq (Plus true (Cls true [ItChar 62%N])) (Lit 62%N)))))
               (Seq (Group 4 (Star false (Cls true [ItChar 125%N; ItChar 123%N])))
                  (Group 5 (Lit x)))))) w →
  ∃ w1, w = x :: w1 ++ [x] ∧ w1 ≠ [].
Proof.
  intros (a & r1 & -> & Ha & H1)%lang_seq_inv.
  apply lang_group_inv, lang_lit_inv in Ha as ->.
  apply lang_seq_inv in H1 as (p1 & r2 & -> & _ & H2).
  apply lang_seq_inv in H2 as (ts & r3 & -> & Hts & H3).
  apply lang_seq_inv in H3 as (p2 & e & -> & _ & He).
  apply lang_group_inv, lang_lit_inv in He as ->.
  apply lang_plus_inv in Hts as (t1 & t2 & -> & Ht1 & _).
  apply lang_group_inv, lang_seq_inv in Ht1 as (l & t' & -> & Hl & _).
  apply lang_lit_inv in Hl as ->.
  exists (p1 ++ (60%N :: t' ++ t2) ++ p2). split.
  - cbn. f_equal. rewrite <- !app_assoc. cbn. by rewrite <- !app_assoc.
  - by destruct p1.
Qed.

(** Two marker characters next to each other, and no other, leave no
    room for such a word. *)
Lemma no_spaced_pair (x : char) (A R a w1 c : jsstring) :
  x ∉ A → x ∉ R → A ++ x :: x :: R = a ++ (x :: w1 ++ [x]) ++ c → w1 = [].
Proof.
  intros HA HR. revert a. induction A as [|y A IH]; intros a.
  - destruct a as [|d a]; cbn [app].
    + intros [= Heq]. destruct w1 as [|e w1]; [done|].
      exfalso. injection Heq as _ Heq. apply HR. rewrite Heq.
      rewrite <- app_assoc. apply elem_of_app. right. by left.
    + intros [= _ Heq]. exfalso. destruct a as [|e a].
      * injection Heq as Heq. apply HR. rewrite Heq.
        rewrite <- app_assoc. apply elem_of_app. right. by left.
      * injection Heq as _ Heq. apply HR. rewrite Heq.
        apply elem_of_app. right. by left.
  - apply not_elem_of_cons in HA as [Hy HA].
    destruct a as [|d a]; cbn [app].
    + by intros [= <- _].
    + intros [= _ Heq]. by apply (IH HA a).
Qed.

Lemma str_open2 (s : jsstring) : str "{{" ++ s = 123%N :: 123%N :: s.
Proof. reflexivity. Qed.

Lemma str_close2 (s : jsstring) : str "}}" ++ s = 125%N :: 125%N :: s.
Proof. reflexivity. Qed.

(** In a text whose only braces are those of one placeholder there is
    nothing to repair. *)
Lemma repairSplitDelimiters_placeholder (A B C : jsstring) :
  123%N ∉ A → 125%N ∉ A → 123%N ∉ B → 125%N ∉ B → 123%N ∉ C → 125%N ∉ C →
  repairSplitDelimiters (A ++ str "{{" ++ B ++ str "}}" ++ C)
  = A ++ str "{{" ++ B ++ str "}}" ++ C.
Proof.
  intros HoA HcA HoB HcB HoC HcC. unfold repairSplitDelimiters.
  rewrite (replace_no_match splitOpen).
  - apply replace_no_match.
    destruct (matchAll splitClose _) as [|mi l] eqn:Hall; [done|]. exfalso.
    assert (Hmi : mi ∈ matchAll splitClose (A ++ str "{{" ++ B ++ str "}}" ++ C))
      by (rewrite Hall; by left).
    pose proof (matchAll_lang _ _ _ Hmi) as Hlang.
    apply (lang_split 125) in Hlang as (w1 & Hw & Hne).
    apply matchAll_within in Hmi as (a & c & Heq). rewrite Hw in Heq.
    apply Hne. apply (no_spaced_pair 125 (A ++ str "{{" ++ B) C a w1 c).
    + rewrite str_open2. intros [?|Hin]%elem_of_app; [done|].
      apply elem_of_cons in Hin as [?|Hin]; [done|].
      apply elem_of_cons in Hin as [?|Hin]; done.
    + done.
    + rewrite <- Heq, str_close2, <- !app_assoc. reflexivity.
  - destruct (matchAll splitOpen _) as [|mi l] eqn:Hall; [done|]. exfalso.
    assert (Hmi : mi ∈ matchAll splitOpen (A ++ str "{{" ++ B ++ str "}}" ++ C))
      by (rewrite Hall; by left).
    pose proof (matchAll_lang _ _ _ Hmi) as Hlang.
    apply (lang_split 123) in Hlang as (w1 & Hw & Hne).
    apply matchAll_within in Hmi as (a & c & Heq). rewrite Hw in Heq.
    apply Hne. apply (no_spaced_pair 123 A (B ++ str "}}" ++ C) a w1 c).
    + done.
    + rewrite str_close2. intros [?|Hin]%elem_of_app; [done|].
      apply elem_of_cons in Hin as [?|Hin]; [done|].
      apply elem_of_cons in Hin as [?|Hin]; done.
    + rewrite <- Heq, str_open2. reflexivity.
Qed.

(** *** A placeholder split by markup *)

Lemma strip_hit s mi rest : tag_at s = Some (mi, rest) → strip s = strip rest.
Proof.
  intros Hmu. unfold strip.
  by rewrite (replace_hit _ _ _ _ _ _ anyTag_described tag_at_progress Hmu).
Qed.

Lemma strip_gap a s : tag_at (a :: s) = None → strip (a :: s) = a :: strip s.
Proof.
  intros Hmu. unfold strip.
  by rewrite (replace_gap _ _ _ _ _ anyTag_described tag_at_progress Hmu).
Qed.

Lemma consolidateTags_hit s mi rest :
  tag_match s = Some (mi, rest) →
  consolidateTags s = token mi ++ consolidateTags rest.
Proof.
  intros Hmu. unfold consolidateTags.
  by rewrite (replace_hit _ _ _ _ _ _ tagRegex_described tag_match_progress Hmu).
Qed.

Lemma consolidateTags_gap a s :
  tag_match (a :: s) = None → consolidateTags (a :: s) = a :: consolidateTags s.
Proof.
  intros Hmu. unfold consolidateTags.
  by rewrite (replace_gap _ _ _ _ _ tagRegex_described tag_match_progress Hmu).
Qed.

Lemma tag_end_lacking body rest :
  62%N ∉ body → tag_end (body ++ 62%N :: rest) = Some (body, rest).
Proof.
  induction body as [|a body IH]; intros Hb; cbn [app tag_end].
  - by rewrite N.eqb_refl.
  - apply not_elem_of_cons in Hb as [Ha Hb].
    rewrite (proj2 (N.eqb_neq a 62)) by done. by rewrite (IH Hb).
Qed.

Lemma strip_elements ns rest :
  Forall element ns → strip (render ns ++ rest) = strip rest.
Proof.
  induction 1 as [|[c|body] ns Hn _ IH]; [done|done|].
  destruct Hn as (Hne & _ & Hgt & _).
  rewrite render_cons_elem. cbn [app]. rewrite <- app_assoc. cbn [app].
  destruct body as [|c body]; [done|].
  apply not_elem_of_cons in Hgt as [Hc Hgt].
  erewrite strip_hit; [exact IH|].
  cbn [app tag_at]. rewrite N.eqb_refl, (proj2 (N.eqb_neq c 62)) by done.
  cbn [andb negb]. rewrite (tag_end_lacking body _ Hgt). reflexivity.
Qed.

Lemma consolidateTags_plain pre s :
  123%N ∉ pre → consolidateTags (pre ++ s) = pre ++ consolidateTags s.
Proof.
  induction pre as [|a pre IH]; intros Hpre; [done|].
  apply not_elem_of_cons in Hpre as [Ha Hpre].
  cbn [app]. rewrite consolidateTags_gap by (by apply tag_match_other).
  by rewrite IH.
Qed.

(** A name split in two by a run of markup elements is put together
    again, whatever text without an opening brace stands before the
    placeholder and whatever text after it. *)
Lemma consolidateTags_joins_name (pre post : jsstring) (mid : list node) :
  123%N ∉ pre → Forall element mid →
  consolidateTags (pre ++ str "{{na" ++ render mid ++ str "me}}" ++ post)
  = pre ++ str "{{name}}" ++ consolidateTags post.
Proof.
  intros Hpre Hmid. rewrite consolidateTags_plain by done. f_equal.
  assert (Hclose : 125%N ∉ str "na" ++ render mid ++ str "me").
  { apply not_elem_of_app. split; [by apply lacks_includes|].
    apply not_elem_of_app. split; [|by apply lacks_includes].
    by apply element_lacks_close. }
  replace (str "{{na" ++ render mid ++ str "me}}" ++ post)
    with (str "{{" ++ (str "na" ++ render mid ++ str "me") ++ str "}}" ++ post)
    by (by rewrite <- !app_assoc).
  rewrite (consolidateTags_hit _ _ _ (tag_match_token _ post Hclose)).
  unfold token. rewrite arg_span, cleanContent_eq.
  change (str "na" ++ render mid ++ str "me")
    with (110%N :: 97%N :: render mid ++ str "me").
  rewrite !strip_gap by (by apply tag_at_other).
  rewrite strip_elements by done.
  replace (strip (str "me")) with (str "me") by (vm_compute; reflexivity).
  replace (remove_char 125 (remove_char 123 (110%N :: 97%N :: str "me")))
    with (str "name") by (vm_compute; reflexivity).
  by rewrite <- !app_assoc.
Qed.

(** Healing a text of characters and elements without braces around
    one placeholder whose name is split by elements: the noise
    elements before and after the placeholder are taken out and the
    placeholder is put together. *)
Lemma normalize_joins_name (pre mid post : list node) :
  Forall plain pre → Forall element mid → Forall plain post →
  normalize
    (render pre ++ str "{{na" ++ render mid ++ str "me}}" ++ render post) true
  = render (without noise pre) ++ str "{{name}}" ++ render (without noise post).
Proof.
  intros Hpre Hmid Hpost. unfold normalize, removeDuplicateDelimiters.
  replace (render pre ++ str "{{na" ++ render mid ++ str "me}}" ++ render post)
    with (render (pre ++ (Chr <$> str "{{na") ++ mid
                  ++ (Chr <$> str "me}}") ++ post))
    by (by rewrite !render_app, !render_chars).
  rewrite removeNoiseTags_render.
  2:{ repeat apply Forall_app_2.
      - eapply Forall_impl; [exact Hpre|apply plain_closed].
      - vm_compute. repeat constructor; discriminate.
      - eapply Forall_impl; [exact Hmid|apply element_closed].
      - vm_compute. repeat constructor; discriminate.
      - eapply Forall_impl; [exact Hpost|apply plain_closed]. }
  rewrite !without_app, !without_noise_chars, !render_app, !render_chars.
  pose proof (without_Forall _ noise _ Hpre) as Hpre'.
  pose proof (without_Forall _ noise _ Hmid) as Hmid'.
  pose proof (without_Forall _ noise _ Hpost) as Hpost'.
  replace (render (without noise pre) ++ str "{{na"
           ++ render (without noise mid) ++ str "me}}"
           ++ render (without noise post))
    with (render (without noise pre) ++ str "{{"
          ++ (str "na" ++ render (without noise mid) ++ str "me")
          ++ str "}}" ++ render (without noise post))
    by (by rewrite <- !app_assoc).
  rewrite repairSplitDelimiters_placeholder.
  - replace (render (without noise pre) ++ str "{{"
             ++ (str "na" ++ render (without noise mid) ++ str "me")
             ++ str "}}" ++ render (without noise post))
      with (render (without noise pre) ++ str "{{na"
            ++ render (without noise mid) ++ str "me}}"
            ++ render (without noise post))
      by (by rewrite <- !app_assoc).
    rewrite consolidateTags_joins_name by (done || by apply plain_lacks_open).
    do 2 f_equal.
    rewrite <- (app_nil_r (render (without noise post))) at 1.
    rewrite consolidateTags_plain by (by apply plain_lacks_open).
    replace (consolidateTags []) with (@nil char) by (vm_compute; reflexivity).
    apply app_nil_r.
  - by apply plain_lacks_open.
  - by apply plain_lacks_close.
  - apply not_elem_of_app. split; [by apply lacks_includes|].
    apply not_elem_of_app. split; [|by apply lacks_includes].
    by apply element_lacks_open.
  - apply not_elem_of_app. split; [by apply lacks_includes|].
    apply not_elem_of_app. split; [|by apply lacks_includes].
    by apply element_lacks_close.
  - by apply plain_lacks_open.
  - by apply plain_lacks_close.
Qed.

(** *** A placeholder with markup in its span *)

(** The characters of a text of characters and elements, the
    elements left out. *)
Definition texts (ns : list node) : jsstring :=
  ns ≫= λ n, match n with Chr c => [c] | Elem _ => [] end.

(** A character other than an opening angle bracket, or an element
    with a body. *)
Definition tagged (n : node) : Prop :=
  match n with
  | Chr c => c ≠ 60%N
  | Elem body => body ≠ [] ∧ (60%N ∉ body) ∧ (62%N ∉ body)
  end.

(** Such a node without braces. *)
Definition inline (n : node) : Prop :=
  match n with
  | Chr c => c ≠ 60%N ∧ c ≠ 123%N ∧ c ≠ 125%N
  | Elem body =>
      body ≠ [] ∧ (60%N ∉ body) ∧ (62%N ∉ body) ∧ (123%N ∉ body) ∧ (125%N ∉ body)
  end.

Lemma strip_render ns : Forall tagged ns → strip (render ns) = texts ns.
Proof.
  induction 1 as [|[c|body] ns Hn _ IH]; [vm_compute; reflexivity| |].
  - change (render (Chr c :: ns)) with (c :: render ns).
    rewrite strip_gap by (by apply tag_at_other). cbn. by rewrite IH.
  - destruct Hn as (Hne & _ & Hgt).
    rewrite render_cons_elem.
    destruct body as [|c body]; [done|].
    apply not_elem_of_cons in Hgt as [Hc Hgt].
    erewrite strip_hit; [exact IH|].
    cbn [app tag_at]. rewrite N.eqb_refl, (proj2 (N.eqb_neq c 62)) by done.
    cbn [andb negb]. rewrite (tag_end_lacking body _ Hgt). reflexivity.
Qed.

Lemma remove_braces (s : jsstring) :
  remove_char 125 (remove_char 123 s)
  = filter (λ c, c ≠ 123%N ∧ c ≠ 125%N) s.
Proof.
  induction s as [|a s IH]; [done|]. cbn [remove_char].
  destruct (N.eqb_spec a 123) as [->|Ho].
  - rewrite filter_cons_False by (intros [? _]; done). exact IH.
  - cbn [remove_char]. destruct (N.eqb_spec a 125) as [->|Hc].
    + rewrite filter_cons_False by (intros [_ ?]; done). exact IH.
    + rewrite filter_cons_True by done. by rewrite IH.
Qed.

(** The content of a token: the characters of the span that stand
    outside its elements, the braces among them left out; white space
    is a character like any other. *)
Lemma cleanContent_render ns :
  Forall tagged ns →
  cleanContent (render ns) = filter (λ c, c ≠ 123%N ∧ c ≠ 125%N) (texts ns).
Proof.
  intros Hns. by rewrite cleanContent_eq, strip_render, remove_braces.
Qed.

Lemma inline_tagged n : inline n → tagged n.
Proof. destruct n; cbn; tauto. Qed.

Lemma inline_plain n : inline n → plain n.
Proof. destruct n; cbn; tauto. Qed.

Lemma texts_lacks (x : char) ns :
  (∀ c, Chr c ∈ ns → c ≠ x) → x ∉ texts ns.
Proof.
  induction ns as [|[c|body] ns IH]; intros Hns; cbn.
  - apply not_elem_of_nil.
  - apply not_elem_of_cons. split.
    + intros <-. by apply (Hns x); [left|].
    + apply IH. intros c' Hc'. apply Hns. by right.
  - apply IH. intros c' Hc'. apply Hns. by right.
Qed.

Lemma texts_inline ns :
  Forall inline ns →
  Forall inline (Chr <$> texts ns) ∧ (123%N ∉ texts ns) ∧ (125%N ∉ texts ns).
Proof.
  intros Hns. rewrite Forall_forall in Hns. split; [|split].
  - induction ns as [|[c|body] ns IH]; cbn; [constructor| |].
    + constructor; [apply (Hns (Chr c)); by left|].
      apply IH. intros n Hn. apply Hns. by right.
    + apply IH. intros n Hn. apply Hns. by right.
  - apply texts_lacks. intros c Hc. by destruct (Hns _ Hc) as (_ & ? & _).
  - apply texts_lacks. intros c Hc. by destruct (Hns _ Hc) as (_ & _ & ?).
Qed.


Lemma texts_without bad ns :
  (∀ c, bad (Chr c) = false) → texts (without bad ns) = texts ns.
Proof.
  intros Hbad. induction ns as [|[c|body] ns IH]; [done| |].
  - cbn [without]. rewrite Hbad. cbn. f_equal. exact IH.
  - cbn [without]. destruct (bad (Elem body)); [exact IH|]. exact IH.
Qed.

Lemma cleanContent_inline ns : Forall inline ns → cleanContent (render ns) = texts ns.
Proof.
  intros Hns. rewrite cleanContent_render.
  2:{ eapply Forall_impl; [exact Hns|apply inline_tagged]. }
  destruct (texts_inline ns Hns) as (_ & Ho & Hc).
  rewrite <- remove_braces.
  rewrite (remove_char_fixed 123 _ Ho). by apply remove_char_fixed.
Qed.

(** Healing a text of characters and elements without braces around
    one placeholder: the noise elements before and after the
    placeholder are taken out, and the placeholder keeps the
    characters of its span, white space included, and loses the
    elements. *)
Lemma normalize_placeholder (pre body post : list node) :
  Forall plain pre → Forall inline body → Forall plain post →
  normalize (render pre ++ str "{{" ++ render body ++ str "}}" ++ render post) true
  = render (without noise pre) ++ str "{{" ++ texts body ++ str "}}"
    ++ render (without noise post).
Proof.
  intros Hpre Hbody Hpost. unfold normalize, removeDuplicateDelimiters.
  replace (render pre ++ str "{{" ++ render body ++ str "}}" ++ render post)
    with (render (pre ++ (Chr <$> str "{{") ++ body
                  ++ (Chr <$> str "}}") ++ post))
    by (by rewrite !render_app, !render_chars).
  rewrite removeNoiseTags_render.
  2:{ repeat apply Forall_app_2.
      - eapply Forall_impl; [exact Hpre|apply plain_closed].
      - vm_compute. repeat constructor; discriminate.
      - eapply Forall_impl; [exact Hbody|]. intros n Hn.
        by apply plain_closed, inline_plain.
      - vm_compute. repeat constructor; discriminate.
      - eapply Forall_impl; [exact Hpost|apply plain_closed]. }
  rewrite !without_app, !without_noise_chars, !render_app, !render_chars.
  pose proof (without_Forall _ noise _ Hpre) as Hpre'.
  pose proof (without_Forall _ noise _ Hbody) as Hbody'.
  pose proof (without_Forall _ noise _ Hpost) as Hpost'.
  assert (Hplain : Forall plain (without noise body))
    by (eapply Forall_impl; [exact Hbody'|apply inline_plain]).
  rewrite repairSplitDelimiters_placeholder
    by first [by apply plain_lacks_open | by apply plain_lacks_close].
  rewrite consolidateTags_plain by (by apply plain_lacks_open). f_equal.
  rewrite (consolidateTags_hit _ _ _
             (tag_match_token _ (render (without noise post))
                (plain_lacks_close _ Hplain))).
  unfold token. rewrite arg_span, cleanContent_inline by done.
  rewrite texts_without by done.
  rewrite <- !app_assoc. do 2 f_equal.
  rewrite <- (app_nil_r (render (without noise post))) at 1.
  rewrite consolidateTags_plain by (by apply plain_lacks_open).
  replace (consolidateTags []) with (@nil char) by (vm_compute; reflexivity).
  by rewrite app_nil_r.
Qed.

(** *** Healing in double-marker mode *)

(** C5 fails as stated: the token keeps the white space around the
    name, it is not trimmed. *)
Lemma normalize_keeps_whitespace :
  normalize (str "<w:r><w:t>{{ na</w:t></w:r><w:r><w:t>me }}</w:t></w:r>") true
  = str "<w:r><w:t>{{ name }}</w:t></w:r>"
  ∧ arg 1 <$> matchAll tagRegex (str "<w:r><w:t>{{ name }}</w:t></w:r>")
    = [str " name "]
  ∧ trim (str " name ") ≠ str " name ".
Proof. split; [|split]; [vm_compute; reflexivity..|vm_compute; discriminate]. Qed.

(** The run of characters and elements of a paragraph whose
    placeholder is split over two runs, with a spelling mark between
    them. *)
Example normalize_joins_name_paragraph :
  let pre := [Elem (str "w:p"); Elem (str "w:r"); Elem (str "w:t")] in
  let mid := [Elem (str "/w:t"); Elem (str "/w:r");
              Elem (quoted "w:proofErr w:type='spellEnd'/");
              Elem (str "w:r"); Elem (str "w:t")] in
  let post := [Elem (str "/w:t"); Elem (str "/w:r");
               Elem (str "w:bookmarkEnd w:id=0/"); Chr (ch "!");
               Elem (str "/w:p")] in
  render pre ++ str "{{na" ++ render mid ++ str "me}}" ++ render post
  = quoted "<w:p><w:r><w:t>{{na</w:t></w:r><w:proofErr w:type='spellEnd'/><w:r><w:t>me}}</w:t></w:r><w:bookmarkEnd w:id=0/>!</w:p>"
  ∧ normalize
      (render pre ++ str "{{na" ++ render mid ++ str "me}}" ++ render post) true
    = str "<w:p><w:r><w:t>{{name}}</w:t></w:r>!</w:p>".
Proof.
  intros pre mid post. split; [vm_compute; reflexivity|].
  rewrite normalize_joins_name.
  - vm_compute. reflexivity.
  - repeat constructor; by apply lacks_includes.
  - repeat constructor; first [discriminate | by apply lacks_includes].
  - repeat constructor; first [discriminate | by apply lacks_includes].
Qed.

(** C5, as the code has it: after healing in double-marker mode every
    span between the doubled markers is a token whose content has no
    markup element and no marker character; consolidation re-emits
    each span of its input as the doubled markers around the content
    without markup elements and marker characters, and copies the
    text between the spans.  The content is not trimmed: it is the
    content of the span with the matches of the markup expression
    and the braces left out and every other character kept, white
    space like the rest, so that a content of characters and elements
    becomes its characters other than braces, and a content without
    markup and braces is emitted as it is.  A text of characters and
    elements without braces around one placeholder heals to the text
    with the characters of the span between the markers, white space
    included, and its noise elements taken out; so does a text whose
    placeholder has its name split by elements, and the paragraph
    with a placeholder split over two runs. *)
Theorem normalize_consolidates :
  (∀ xml mi,
     mi ∈ matchAll tagRegex (normalize xml true) →
     mtext mi = str "{{" ++ arg 1 mi ++ str "}}"
     ∧ matchAll anyTag (arg 1 mi) = []
     ∧ (ch "{" ∉ arg 1 mi)
     ∧ (ch "}" ∉ arg 1 mi))
  ∧ (∀ xml,
       pieces_text (pieces tagRegex xml) = xml
       ∧ consolidateTags xml
         = concat (piece_replaced
                     (λ mi, str "{{" ++ cleanContent (arg 1 mi) ++ str "}}")
                   <$> pieces tagRegex xml))
  ∧ (∀ content,
       cleanContent content
       = filter (λ c, c ≠ ch "{" ∧ c ≠ ch "}") (replace anyTag (λ _, []) content))
  ∧ (∀ ns,
       Forall tagged ns →
       cleanContent (render ns) = filter (λ c, c ≠ ch "{" ∧ c ≠ ch "}") (texts ns))
  ∧ (∀ t, no_tag t → ch "{" ∉ t → ch "}" ∉ t → cleanContent t = t)
  ∧ (∀ pre body post : list node,
       Forall plain pre → Forall inline body → Forall plain post →
       normalize
         (render pre ++ str "{{" ++ render body ++ str "}}" ++ render post) true
       = render (without noise pre) ++ str "{{" ++ texts body ++ str "}}"
         ++ render (without noise post))
  ∧ (∀ pre mid post : list node,
       Forall plain pre → Forall element mid → Forall plain post →
       normalize
         (render pre ++ str "{{na" ++ render mid ++ str "me}}" ++ render post)
         true
       = render (without noise pre) ++ str "{{name}}"
         ++ render (without noise post))
  ∧ normalize
      (quoted "<w:p><w:r><w:t>{{na</w:t></w:r><w:proofErr w:type='spellEnd'/><w:r><w:rPr><w:b/></w:rPr><w:t>me}}</w:t></w:r></w:p>")
      true
    = str "<w:p><w:r><w:t>{{name}}</w:t></w:r></w:p>".
Proof.
  repeat apply conj.
  - intros xml mi. unfold normalize, removeDuplicateDelimiters.
    apply consolidateTags_spans.
  - intros xml. split; [apply pieces_text_eq|apply consolidateTags_pieces].
  - intros content. rewrite cleanContent_eq. apply remove_braces.
  - apply cleanContent_render.
  - apply cleanContent_fixed.
  - apply normalize_placeholder.
  - apply normalize_joins_name.
  - vm_compute. reflexivity.
Qed.

(** A placeholder with white space around a name that is split over
    two runs: the token keeps the white space. *)
Lemma normalize_consolidates_witness :
  let pre := [Elem (str "w:r"); Elem (str "w:t")] in
  let body :=
    (Chr <$> str " na")
    ++ [Elem (str "/w:t"); Elem (str "/w:r"); Elem (str "w:r"); Elem (str "w:t")]
    ++ (Chr <$> str "me ") in
  let post := [Elem (str "/w:t"); Elem (str "/w:r")] in
  render pre ++ str "{{" ++ render body ++ str "}}" ++ render post
  = str "<w:r><w:t>{{ na</w:t></w:r><w:r><w:t>me }}</w:t></w:r>"
  ∧ normalize
      (render pre ++ str "{{" ++ render body ++ str "}}" ++ render post) true
    = str "<w:r><w:t>{{ name }}</w:t></w:r>".
Proof.
  intros pre body post. split; [vm_compute; reflexivity|].
  destruct normalize_consolidates as (_ & _ & _ & _ & _ & H & _).
  rewrite H.
  - vm_compute. reflexivity.
  - repeat constructor; by apply lacks_includes.
  - repeat constructor; first [discriminate | by apply lacks_includes].
  - repeat constructor; by apply lacks_includes.
Defined.

(** *** Healing twice *)







End NormalizerFacts.

(** ** Appending image pages *)

Module AppenderFacts.
Import DocxAppender JSFacts.

(** The identifiers the relationships part has, as [getLastRId] reads
    them. *)
Definition existingIds (relsXml : jsstring) : list N :=
  (λ m, parseInt (default (str "0") (firstGroup1 idRegex m)))
    <$> (mtext <$> matchAll idRegex relsXml).

Lemma foldl_max_ge (f : jsstring → N) (l : list jsstring) (a : N) :
  (a ≤ foldl (λ maxId m, if (maxId <? f m)%N then f m else maxId) a l)%N
  ∧ ∀ x, x ∈ l →
      (f x ≤ foldl (λ maxId m, if (maxId <? f m)%N then f m else maxId) a l)%N.
Proof.
  revert a. induction l as [|y l IH]; intros a; cbn.
  - split; [lia|]. intros x Hx. by apply elem_of_nil in Hx.
  - destruct (IH (if (a <? f y)%N then f y else a)) as [H1 H2].
    destruct (N.ltb_spec a (f y)); split; try lia.
    + intros x [->|Hx]%elem_of_cons; [done|by apply H2].
    + intros x [->|Hx]%elem_of_cons; [lia|by apply H2].
Qed.

(** The counter starts at the largest identifier there is. *)
Lemma getLastRId_max relsXml id :
  id ∈ existingIds relsXml → (id ≤ getLastRId relsXml)%N.
Proof.
  unfold existingIds, getLastRId.
  intros (m & -> & Hm)%list_elem_of_fmap.
  by apply (foldl_max_ge
    (λ m, parseInt (default (str "0") (firstGroup1 idRegex m)))).
Qed.

Lemma rIdOf_inj n1 n2 : rIdOf n1 = rIdOf n2 → n1 = n2.
Proof. unfold rIdOf. intros H%app_inv_head. by apply toString_inj. Qed.

Definition CLOSE_RELATIONSHIPS : jsstring := str "</Relationships>".
Definition CLOSE_BODY : jsstring := str "</w:body>".

(** The relationship entry after its opening angle bracket. *)
Definition relationshipTail (n : N) (target : jsstring) : jsstring :=
  quoted "Relationship Id='" ++ rIdOf n
  ++ quoted "' Type='http://schemas.openxmlformats.org/officeDocument/2006/relationships/image' Target='"
  ++ target ++ quoted "'/>".

Lemma relationshipTag_head n target :
  relationshipTag (rIdOf n) target = ch "<" :: relationshipTail n target.
Proof. reflexivity. Qed.

Section Facts.
Context {Blob : Type}.
Variable PizZip_new : Blob → option archive.
Variable generate : archive → Blob.
Variable Date_now : nat → N.

Local Abbreviation imgFileName := (imgFileName Date_now).
Local Abbreviation forEach := (forEach Date_now).
Local Abbreviation step := (step Date_now).
Local Abbreviation appendImages := (appendImages Blob PizZip_new generate Date_now).

(** The name of the media part of the image at an index. *)
Definition mediaPart (index : nat) : jsstring := str "word/" ++ imgFileName index.

Lemma imgFileName_inj k l : imgFileName k = imgFileName l → k = l.
Proof.
  unfold DocxAppender.imgFileName. intros H%app_inv_head.
  change (str "_") with [ch "_"] in H. cbn [app] in H.
  apply app_sep_inj in H as [_ H];
    [|by apply toString_lacks|by apply toString_lacks].
  apply app_inv_tail, toString_inj in H. lia.
Qed.

Lemma mediaPart_inj k l : mediaPart k = mediaPart l → k = l.
Proof. unfold mediaPart. intros H%app_inv_head. by apply imgFileName_inj. Qed.

Lemma mediaPart_not_document k : mediaPart k ≠ DOCUMENT_XML.
Proof. intros [=]. Qed.

Lemma mediaPart_not_rels k : mediaPart k ≠ DOCUMENT_RELS.
Proof. intros [=]. Qed.

Lemma imgFileName_lacks k : ch "<" ∉ imgFileName k.
Proof.
  unfold DocxAppender.imgFileName.
  repeat (apply not_elem_of_app; split);
    first [by apply toString_lacks | by apply lacks_includes].
Qed.

Lemma relationshipTail_lacks n k : ch "<" ∉ relationshipTail n (imgFileName k).
Proof.
  unfold relationshipTail, rIdOf.
  repeat (apply not_elem_of_app; split);
    first [by apply toString_lacks | by apply lacks_includes
          | apply imgFileName_lacks].
Qed.

Lemma forEach_lastRId images idx v :
  v_lastRId (forEach images idx v) = (v_lastRId v + N.of_nat (length images))%N.
Proof.
  revert idx v. induction images as [|img images IH]; intros idx v; cbn.
  - lia.
  - rewrite IH. cbn. lia.
Qed.

Lemma forEach_xmlAppend images idx v :
  v_xmlAppend (forEach images idx v)
  = v_xmlAppend v
    ++ concat (imap (λ k _,
         generatePageBreakAndImageXml (rIdOf (v_lastRId v + 1 + N.of_nat k)))
         images).
Proof.
  revert idx v. induction images as [|img images IH]; intros idx v; cbn [DocxAppender.forEach].
  - cbn. by rewrite app_nil_r.
  - rewrite IH. cbn [DocxAppender.step v_xmlAppend v_lastRId imap concat].
    rewrite <- app_assoc. f_equal.
    replace (v_lastRId v + 1 + N.of_nat 0)%N with (v_lastRId v + 1)%N by lia.
    f_equal. f_equal. apply imap_ext. intros k x _. cbn.
    do 2 f_equal. lia.
Qed.

(** Each entry is put right before the first closing root tag, so
    the entries come in the order of the images. *)
Lemma forEach_relsXml images idx v pre post :
  v_relsXml v = pre ++ CLOSE_RELATIONSHIPS ++ post →
  indexOf CLOSE_RELATIONSHIPS (pre ++ CLOSE_RELATIONSHIPS ++ post) = Some (length pre) →
  v_relsXml (forEach images idx v)
  = pre
    ++ concat (imap (λ k _,
         relationshipTag (rIdOf (v_lastRId v + 1 + N.of_nat k)) (imgFileName (idx + k)))
         images)
    ++ CLOSE_RELATIONSHIPS ++ post.
Proof.
  revert idx v pre. induction images as [|img images IH]; intros idx v pre Hv Hpre;
    cbn [DocxAppender.forEach].
  - done.
  - erewrite (IH (S idx) _ (pre ++ relationshipTag (rIdOf (v_lastRId v + 1)) (imgFileName idx))).
    + cbn [DocxAppender.step v_lastRId imap concat].
      rewrite <- !app_assoc. f_equal.
      replace (v_lastRId v + 1 + N.of_nat 0)%N with (v_lastRId v + 1)%N by lia.
      replace (idx + 0) with idx by lia.
      f_equal. f_equal. f_equal. apply imap_ext. intros k x _. cbn.
      f_equal; [f_equal; lia|f_equal; lia].
    + cbn [DocxAppender.step v_relsXml]. unfold addRelationship. rewrite Hv.
      fold CLOSE_RELATIONSHIPS.
      rewrite (replace_first_at _ _ _ _ Hpre). by rewrite <- !app_assoc.
    + rewrite relationshipTag_head. rewrite <- app_assoc.
      apply (indexOf_insert (ch "<") (str "/Relationships>")).
      * by apply lacks_includes.
      * apply relationshipTail_lacks.
      * reflexivity.
      * exact Hpre.
Qed.

Lemma forEach_relsXml_absent images idx v :
  indexOf CLOSE_RELATIONSHIPS (v_relsXml v) = None →
  v_relsXml (forEach images idx v) = v_relsXml v.
Proof.
  revert idx v. induction images as [|img images IH]; intros idx v Hv;
    cbn [DocxAppender.forEach]; [done|].
  assert (Hstep : v_relsXml (step v idx img) = v_relsXml v).
  { cbn. unfold addRelationship. by apply replace_first_absent. }
  rewrite IH; [done|]. by rewrite Hstep.
Qed.

Lemma forEach_zip_other images idx v part :
  (∀ k, k < length images → part ≠ mediaPart (idx + k)) →
  v_zip (forEach images idx v) !! part = v_zip v !! part.
Proof.
  revert idx v. induction images as [|img images IH]; intros idx v Hpart;
    cbn [DocxAppender.forEach]; [done|].
  rewrite IH.
  - cbn. apply lookup_insert_ne. intros Heq.
    apply (Hpart 0); [cbn; lia|]. rewrite Nat.add_0_r. by rewrite <- Heq.
  - intros k Hk. replace (S idx + k) with (idx + S k) by lia.
    apply Hpart. cbn. lia.
Qed.

Lemma forEach_zip_media images idx v k img :
  images !! k = Some img →
  v_zip (forEach images idx v) !! mediaPart (idx + k) = Some img.
Proof.
  revert idx v k. induction images as [|x images IH]; intros idx v k Hk;
    cbn [DocxAppender.forEach]; [done|].
  destruct k as [|k].
  - injection Hk as ->. rewrite forEach_zip_other.
    + cbn. rewrite Nat.add_0_r. apply lookup_insert_eq.
    + intros k _ Heq%mediaPart_inj. lia.
  - replace (idx + S k) with (S idx + k) by lia. by apply IH.
Qed.

(** What the call does to the archive before the main text part is
    looked at. *)
Definition written (zip : archive) (images : list jsstring) : archive :=
  let relsXml := default [] (zip !! DOCUMENT_RELS) in
  let v := forEach images 0 (mkVars zip relsXml (getLastRId relsXml) []) in
  <[DOCUMENT_RELS := v_relsXml v]> (v_zip v).

Lemma written_document zip images :
  written zip images !! DOCUMENT_XML = zip !! DOCUMENT_XML.
Proof.
  unfold written. rewrite lookup_insert_ne by done.
  rewrite forEach_zip_other; [done|].
  intros k _ H. by apply (mediaPart_not_document (0 + k)).
Qed.

Lemma written_media zip images k img :
  images !! k = Some img → written zip images !! mediaPart k = Some img.
Proof.
  intros Hk. unfold written.
  rewrite lookup_insert_ne by (intros H; by apply (mediaPart_not_rels k)).
  by apply (forEach_zip_media images 0 _ k img).
Qed.

Lemma written_other zip images part :
  part ≠ DOCUMENT_RELS →
  (∀ k, k < length images → part ≠ mediaPart k) →
  written zip images !! part = zip !! part.
Proof.
  intros H1 H2. unfold written. rewrite lookup_insert_ne by done.
  by rewrite forEach_zip_other.
Qed.


(** Where the relationships part contains the closing root tag and
    the main text part the closing body tag, and the counter stays
    where JavaScript numbers count exactly, the images get the
    identifiers [m+1], [m+2], ... in input order, different from each
    other and larger than every identifier read from the
    relationships part; the entries are put, in input order, right
    before the first closing root tag, the fragments, in input order,
    right before the last closing body tag, each image is stored as a
    media part of its own, and no other part changes. *)
Theorem appendImages_appends
    (initialDocxBlob : Blob) (zip : archive) (relsXml docXml : jsstring)
    (images : list jsstring) (i j : nat) :
  images ≠ [] →
  PizZip_new initialDocxBlob = Some zip →
  zip !! DOCUMENT_RELS = Some relsXml →
  indexOf CLOSE_RELATIONSHIPS relsXml = Some i →
  zip !! DOCUMENT_XML = Some docXml →
  lastIndexOf CLOSE_BODY docXml = Some j →
  (getLastRId relsXml + N.of_nat (length images) < 2 ^ 53)%N →
  let rId := λ k : nat, rIdOf (getLastRId relsXml + 1 + N.of_nat k) in
  ∃ zip',
    appendImages initialDocxBlob images = Some (generate zip')
    ∧ zip' !! DOCUMENT_RELS
      = Some (take i relsXml
              ++ concat (imap (λ k _, relationshipTag (rId k) (imgFileName k)) images)
              ++ drop i relsXml)
    ∧ zip' !! DOCUMENT_XML
      = Some (take j docXml
              ++ concat (imap (λ k _, generatePageBreakAndImageXml (rId k)) images)
              ++ drop j docXml)
    ∧ drop i relsXml = CLOSE_RELATIONSHIPS ++ drop (i + length CLOSE_RELATIONSHIPS) relsXml
    ∧ drop j docXml = CLOSE_BODY ++ drop (j + length CLOSE_BODY) docXml
    ∧ (∀ k, j < k → k ≤ length docXml → starts_with CLOSE_BODY (drop k docXml) = false)
    ∧ (∀ k img, images !! k = Some img → zip' !! mediaPart k = Some img)
    ∧ (∀ k l, mediaPart k = mediaPart l → k = l)
    ∧ (∀ k l, rId k = rId l → k = l)
    ∧ (∀ k id, id ∈ existingIds relsXml → rId k ≠ rIdOf id)
    ∧ (∀ part, part ≠ DOCUMENT_XML → part ≠ DOCUMENT_RELS →
         (∀ k, k < length images → part ≠ mediaPart k) →
         zip' !! part = zip !! part).
Proof.
  intros Hne Hzip Hrels Hi Hdoc Hj _ rId.
  destruct (indexOf_split _ _ _ Hi) as [Hsplit Hilen].
  destruct (lastIndexOf_last _ _ _ Hj) as (Hjs & Hjlen & Hjlast).
  set (pre := take i relsXml) in *.
  set (post := drop (i + length CLOSE_RELATIONSHIPS) relsXml) in *.
  assert (Hprelen : length pre = i) by (unfold pre; rewrite length_take; lia).
  assert (Hdropi : drop i relsXml = CLOSE_RELATIONSHIPS ++ post).
  { rewrite Hsplit at 1. rewrite <- Hprelen. by rewrite drop_app_length. }
  set (v := DocxAppender.forEach Date_now images 0
              (mkVars zip relsXml (getLastRId relsXml) [])).
  exists (<[DOCUMENT_XML := take j docXml ++ v_xmlAppend v ++ drop j docXml]>
            (written zip images)).
  repeat apply conj.
  - unfold DocxAppender.appendImages.
    rewrite bool_decide_false by (by destruct images).
    rewrite Hzip. cbn [mbind option_bind]. fold (written zip images).
    rewrite written_document, Hdoc. fold CLOSE_BODY. rewrite Hj.
    unfold written. rewrite Hrels. reflexivity.
  - rewrite lookup_insert_ne by done. unfold written.
    rewrite lookup_insert_eq, Hrels. cbn [default from_option id].
    f_equal. rewrite Hdropi.
    apply (forEach_relsXml images 0 (mkVars zip relsXml (getLastRId relsXml) []) pre post).
    + exact Hsplit.
    + rewrite <- Hsplit, Hprelen. exact Hi.
  - rewrite lookup_insert_eq. f_equal. f_equal. f_equal.
    unfold v. rewrite forEach_xmlAppend. reflexivity.
  - exact Hdropi.
  - apply starts_with_prefix in Hjs. by rewrite drop_drop in Hjs.
  - exact Hjlast.
  - intros k img Hk. rewrite lookup_insert_ne; [by apply written_media|].
    intros H. by apply (mediaPart_not_document k).
  - apply mediaPart_inj.
  - intros k l H%rIdOf_inj. lia.
  - intros k id Hid H%rIdOf_inj. apply getLastRId_max in Hid. lia.
  - intros part H1 H2 H3. rewrite lookup_insert_ne by done.
    by apply written_other.
Qed.

End Facts.

End AppenderFacts.

(** ** The appender on sample packages *)

Module AppenderScenarios.
Import DocxAppender AppenderFacts.

(** Blobs are the archives themselves and the clock stands still. *)
Definition clock (index : nat) : N := 1700000000000%N.

Definition append (zip : archive) (images : list jsstring) : option archive :=
  appendImages archive Some id clock zip images.

(** A filled package: three relationships, one body. *)
Definition filled : archive :=
  {[ DOCUMENT_XML := str "<w:document><w:body><w:p/></w:body></w:document>";
     DOCUMENT_RELS :=
       quoted "<Relationships><Relationship Id='rId1' Target='styles.xml'/><Relationship Id='rId3' Target='settings.xml'/></Relationships>" ]}.


(** A package whose relationships part is an empty element. *)
Definition unrelated : archive :=
  {[ DOCUMENT_XML := str "<w:document><w:body><w:p/></w:body></w:document>";
     DOCUMENT_RELS := quoted "<Relationships xmlns='http://schemas.openxmlformats.org/package/2006/relationships'/>" ]}.



(** C4 fails on the code: the relationships part of [unrelated] is
    an empty element, without the closing root tag that
    [addRelationship] looks for.  The call takes [rId1] for the image,
    stores its media part and puts the fragment that refers to [rId1]
    into the main text part, but the step that adds the relationship
    adds nothing: the relationships part is written back as it was,
    without an entry for the image. *)
Lemma appendImages_no_relationship_entry :
  getLastRId (default [] (unrelated !! DOCUMENT_RELS)) = 0%N
  ∧ ∃ out, append unrelated [str "JPEG"] = Some out
           ∧ out !! mediaPart clock 0 = Some (str "JPEG")
           ∧ out !! DOCUMENT_RELS = unrelated !! DOCUMENT_RELS
           ∧ (∃ docXml, out !! DOCUMENT_XML = Some docXml
                        ∧ is_Some (indexOf (quoted "r:embed='rId1'") docXml)).
Proof.
  split; [vm_compute; reflexivity|].
  eexists. split; [reflexivity|]. split; [vm_compute; reflexivity|].
  split; [vm_compute; reflexivity|].
  eexists. split; [vm_compute; reflexivity|]. vm_compute. by eexists.
Qed.

Lemma appendImages_appends_witness :
  ∃ zip',
    append filled [str "JPEG1"; str "JPEG2"] = Some zip'
    ∧ zip' !! DOCUMENT_RELS
      = Some (quoted "<Relationships><Relationship Id='rId1' Target='styles.xml'/><Relationship Id='rId3' Target='settings.xml'/><Relationship Id='rId4' Type='http://schemas.openxmlformats.org/officeDocument/2006/relationships/image' Target='media/appendix_img_1700000000000_0.jpg'/><Relationship Id='rId5' Type='http://schemas.openxmlformats.org/officeDocument/2006/relationships/image' Target='media/appendix_img_1700000000000_1.jpg'/></Relationships>")
    ∧ zip' !! DOCUMENT_XML
      = Some (str "<w:document><w:body><w:p/>"
              ++ generatePageBreakAndImageXml (str "rId4")
              ++ generatePageBreakAndImageXml (str "rId5")
              ++ str "</w:body></w:document>")
    ∧ zip' !! mediaPart clock 0 = Some (str "JPEG1")
    ∧ zip' !! mediaPart clock 1 = Some (str "JPEG2").
Proof.
  destruct (appendImages_appends Some id clock filled filled
              (quoted "<Relationships><Relationship Id='rId1' Target='styles.xml'/><Relationship Id='rId3' Target='settings.xml'/></Relationships>")
              (str "<w:document><w:body><w:p/></w:body></w:document>")
              [str "JPEG1"; str "JPEG2"] 107 26)
    as (zip' & H1 & H2 & H3 & _ & _ & _ & H4 & _).
  - discriminate.
  - reflexivity.
  - reflexivity.
  - vm_compute. reflexivity.
  - reflexivity.
  - vm_compute. reflexivity.
  - vm_compute. reflexivity.
  - exists zip'. split; [exact H1|]. split; [rewrite H2; vm_compute; reflexivity|].
    split; [rewrite H3; vm_compute; reflexivity|].
    split; [by apply (H4 0)|by apply (H4 1)].
Defined.

End AppenderScenarios.

(** ** The appender on an empty list of images *)

Module AppenderEmpty.
Import DocxAppender.

(** C10: with an empty list of images [appendImages] resolves to the
    blob it was given, whatever the blob is: the archive is not opened,
    so nothing is added to it and the relationships part is not read.
    The call resolves even where the constructor of the archive
    throws on every blob, which rejects every call with an image. *)
Theorem appendImages_empty_identity :
  ∀ (Blob : Type) (PizZip_new : Blob → option archive)
    (generate : archive → Blob) (Date_now : nat → N) (initialDocxBlob : Blob),
    appendImages Blob PizZip_new generate Date_now initialDocxBlob []
    = Some initialDocxBlob
    ∧ appendImages Blob (λ _, None) generate Date_now initialDocxBlob []
      = Some initialDocxBlob
    ∧ ∀ imgBuffer images,
        appendImages Blob (λ _, None) generate Date_now initialDocxBlob
          (imgBuffer :: images)
        = None.
Proof.
  intros Blob PizZip_new generate Date_now initialDocxBlob.
  split; [|split].
  - unfold appendImages. by rewrite bool_decide_true.
  - unfold appendImages. by rewrite bool_decide_true.
  - intros imgBuffer images. unfold appendImages.
    by rewrite bool_decide_false.
Qed.

End AppenderEmpty.

(** ** Healing touches the main text part only *)

Module HealFrame.
Import DocxManager TagNormalizer.

Section Frame.
Context {ArrayBuffer Docxtemplater TemplateError : Type}.
Variable PizZip_new : ArrayBuffer → option archive.
Variable generate : archive → ArrayBuffer.

Local Abbreviation manager := (manager ArrayBuffer Docxtemplater TemplateError).
Local Abbreviation healDocumentXml :=
  (healDocumentXml ArrayBuffer PizZip_new generate Docxtemplater TemplateError).

Definition isDoubleMode (st : manager) : bool :=
  bool_decide (d_start (delimiterConfig _ _ _ st) = str "{{").

(** C9: for a buffer that PizZip reads back as [zip]: without a main
    text part the input buffer itself is returned; with one, the
    returned buffer is the archive in which the main text part is the
    normalized text and every other part is the part of the input. *)
Theorem healDocumentXml_frame (content : ArrayBuffer) (st : manager) (zip : archive) :
  (∀ z, PizZip_new (generate z) = Some z) →
  PizZip_new content = Some zip →
  (zip !! DOCUMENT_XML = None → healDocumentXml content st = Some content)
  ∧ (∀ originalXml, zip !! DOCUMENT_XML = Some originalXml →
       ∃ healed zip',
         healDocumentXml content st = Some healed
         ∧ PizZip_new healed = Some zip'
         ∧ zip' !! DOCUMENT_XML = Some (normalize originalXml (isDoubleMode st))
         ∧ ∀ part, part ≠ DOCUMENT_XML → zip' !! part = zip !! part).
Proof.
  intros Hgen Hzip. unfold DocxManager.healDocumentXml. rewrite Hzip. cbn.
  split.
  - intros ->. reflexivity.
  - intros originalXml ->.
    eexists _, _. split; [reflexivity|]. split; [apply Hgen|]. split.
    + apply lookup_insert_eq.
    + intros part Hne. apply lookup_insert_ne. congruence.
Qed.
End Frame.

(** An archive with a styles part next to the main text part, with
    buffers that are the archives themselves. *)
Definition sample : archive :=
  {[ DOCUMENT_XML := str "<w:t>{{na</w:t><w:t>me}}</w:t>";
     str "word/styles.xml" := str "<w:styles/>" ]}.

Lemma healDocumentXml_frame_witness :
  ∃ healed zip',
    healDocumentXml archive Some id unit unit sample (initial archive unit unit)
    = Some healed
    ∧ Some healed = Some zip'
    ∧ zip' !! DOCUMENT_XML = Some (str "<w:t>{{name}}</w:t>")
    ∧ ∀ part, part ≠ DOCUMENT_XML → zip' !! part = sample !! part.
Proof.
  destruct (healDocumentXml_frame (Docxtemplater:=unit) (TemplateError:=unit)
              Some id sample (initial archive unit unit) sample) as [_ H].
  - reflexivity.
  - reflexivity.
  - apply (H (str "<w:t>{{na</w:t><w:t>me}}</w:t>")). reflexivity.
Defined.

End HealFrame.

(** ** Scans that do not look behind *)

Module ScanFacts.
Import RegExpFacts.

(** No lookbehind assertion in the expression. *)
Fixpoint lookbehind_free (r : regex) : bool :=
  match r with
  | Eps | Lit _ | Cls _ _ => true
  | Seq r1 r2 | Alt r1 r2 => lookbehind_free r1 && lookbehind_free r2
  | Star _ r1 | Plus _ r1 | Group _ r1 | NCGroup r1 | NotAhead r1 =>
      lookbehind_free r1
  | NotBehind _ _ => false
  end.

(** Two states at the same place of the same text that differ in the
    text before the start of the match attempt only. *)
Definition rebased (b b' : jsstring) (st st' : mstate) : Prop :=
  remaining st = remaining st' ∧ captures st = captures st'
  ∧ ∃ w, consumed st = w ++ b ∧ consumed st' = w ++ b'.

Definition alike (b b' : jsstring) (o o' : option mstate) : Prop :=
  match o, o' with
  | Some s, Some s' => rebased b b' s s'
  | None, None => True
  | _, _ => False
  end.

Definition indep (b b' : jsstring) (mt : matcher) : Prop :=
  ∀ st st' k k', rebased b b' st st' →
    (∀ s s', rebased b b' s s' → alike b b' (k s) (k' s')) →
    alike b b' (mt st k) (mt st' k').

Lemma alike_None b b' o : alike b b' None o → o = None.
Proof. by destruct o. Qed.

Lemma step_char_indep b b' p : indep b b' (step_char p).
Proof.
  intros [c1 r1 k1] [c2 r2 k2] k k' (Hr & Hc & w & Hw & Hw') Hk.
  cbn in *. subst. unfold step_char. cbn.
  destruct r2 as [|c rest]; [done|]. destruct (p c); [|done].
  apply Hk. repeat split. by exists (c :: w).
Qed.

Lemma star_loop_indep b b' body g fuel :
  indep b b' body → indep b b' (star_loop body g fuel).
Proof.
  intros Hbody. induction fuel as [|fuel IH]; intros st st' k k' Hst Hk.
  - cbn. destruct g; [by apply Hk|].
    specialize (Hk _ _ Hst). by destruct (k st), (k' st').
  - cbn [star_loop].
    assert (Hagain : alike b b'
      (body st (λ s, if bool_decide (length (remaining s) < length (remaining st))
                     then star_loop body g fuel s k else None))
      (body st' (λ s, if bool_decide (length (remaining s) < length (remaining st'))
                      then star_loop body g fuel s k' else None))).
    { apply Hbody; [done|]. intros s s' Hs.
      destruct Hst as (Hr & _), Hs as (Hr' & Hs).
      rewrite Hr, Hr'. case_bool_decide; [|done].
      apply IH; [|done]. by split. }
    specialize (Hk _ _ Hst).
    destruct g.
    + destruct (body st _), (body st' _); try done.
    + destruct (k st), (k' st'); try done.
Qed.

Lemma captured_rebased b b' st st' s s' :
  rebased b b' st st' → rebased b b' s s' → captured st s = captured st' s'.
Proof.
  intros (_ & _ & w & Hw & Hw') (_ & _ & v & Hv & Hv').
  unfold captured. rewrite Hw, Hw', Hv, Hv', !length_app.
  replace (length v + length b - (length w + length b))
    with (length v - length w) by lia.
  replace (length v + length b' - (length w + length b'))
    with (length v - length w) by lia.
  by rewrite !take_app_le by lia.
Qed.

(** A match attempt of an expression without lookbehind does not
    depend on the text before its start. *)
Lemma m_indep b b' r : lookbehind_free r = true → indep b b' (m r).
Proof.
  induction r as [|c|neg items|r1 IH1 r2 IH2|r1 IH1 r2 IH2|g r IH|g r IH
                 |n r IH|r IH|r IH|neg items]; cbn [lookbehind_free m]; intros Hfree.
  - intros st st' k k' Hst Hk. by apply Hk.
  - apply step_char_indep.
  - apply step_char_indep.
  - apply andb_prop in Hfree as [H1 H2].
    intros st st' k k' Hst Hk. apply IH1; [done..|].
    intros s s' Hs. by apply IH2.
  - apply andb_prop in Hfree as [H1 H2].
    intros st st' k k' Hst Hk.
    pose proof (IH1 H1 _ _ _ _ Hst Hk) as Ha.
    pose proof (IH2 H2 _ _ _ _ Hst Hk) as Hb.
    destruct (m r1 st k), (m r1 st' k'); try done.
  - intros st st' k k' Hst Hk.
    destruct Hst as (Hr & Hst). rewrite Hr.
    apply star_loop_indep; [by apply IH| |done]. by split.
  - intros st st' k k' Hst Hk. apply IH; [done..|].
    intros s s' Hs. destruct Hs as (Hr & Hs). rewrite Hr.
    apply star_loop_indep; [by apply IH| |done]. by split.
  - intros st st' k k' Hst Hk. apply IH; [done..|].
    intros s s' Hs. rewrite (captured_rebased _ _ _ _ _ _ Hst Hs).
    apply Hk. destruct Hs as (Hr & Hc & Hw). cbn. rewrite Hc. by repeat split.
  - by apply IH.
  - intros st st' k k' Hst Hk.
    assert (Ha : alike b b' (m r st Some) (m r st' Some)).
    { apply IH; [done..|]. by intros s s' Hs. }
    destruct (m r st Some), (m r st' Some); try done. by apply Hk.
  - done.
Qed.

(** The match of the expression at the start of a text, and the text
    after it. *)
Definition mu_of (r : regex) (after : jsstring) : option (match_info * jsstring) :=
  (λ st', (MatchInfo (captured (MState [] after []) st') (captures st'),
           remaining st')) <$> match_here r [] after.

Lemma mu_of_described r : lookbehind_free r = true → described r (mu_of r).
Proof.
  intros Hfree before after. unfold mu_of, match_here.
  assert (Hst : rebased before [] (MState before after []) (MState [] after [])).
  { repeat split. by exists []. }
  pose proof (m_indep before [] r Hfree _ _ Some Some Hst) as Ha.
  specialize (Ha (λ s s' Hs, Hs)).
  destruct (m r (MState before after []) Some) as [s|],
    (m r (MState [] after []) Some) as [s'|]; try done.
  cbn. rewrite (captured_rebased _ _ _ _ _ _ Hst Ha).
  destruct Ha as (-> & -> & _). done.
Qed.

Lemma mu_of_word r s mi rest :
  mu_of r s = Some (mi, rest) → lang r (mtext mi) ∧ s = mtext mi ++ rest.
Proof.
  unfold mu_of. destruct (match_here r [] s) as [st'|] eqn:Hm; [|done].
  cbn. intros [= <- <-]. cbn.
  apply match_here_sound in Hm as (w & Hw & Hs & _ & ->). done.
Qed.

Lemma mu_of_progress r :
  (∀ w, lang r w → w ≠ []) →
  ∀ s mi rest, mu_of r s = Some (mi, rest) → length rest < length s.
Proof.
  intros Hne s mi rest [Hw ->]%mu_of_word. apply Hne in Hw.
  rewrite length_app. destruct (mtext mi); [done|]. cbn. lia.
Qed.

(** A greedy loop that can take a whole run of characters, and whose
    continuation succeeds after the run, stops there. *)
Lemma greedy_run_all p k before w rest caps res :
  Forall (λ c, p c = true) w →
  match rest with c :: _ => p c = false | [] => True end →
  k (MState (reverse w ++ before) rest caps) = Some res →
  greedy_run p k before (w ++ rest) caps = Some res.
Proof.
  intros Hw Hrest. revert before. induction Hw as [|a w Ha _ IH]; intros before.
  - cbn [app]. destruct rest as [|c rest]; cbn [greedy_run]; [done|].
    by rewrite Hrest.
  - rewrite reverse_cons, <- app_assoc. cbn [app greedy_run]. rewrite Ha.
    intros Hk. by rewrite (IH (a :: before) Hk).
Qed.

(** The replacement of the matches leaves a text that can be got from
    the input by deleting characters, when every match is replaced by
    such a text. *)
Lemma replace_sublist r f s :
  (∀ mi, mi ∈ matchAll r s → f mi `sublist_of` mtext mi) →
  replace r f s `sublist_of` s.
Proof.
  rewrite replace_pieces. rewrite <- (pieces_text_eq r s) at 2.
  unfold matchAll, pieces_text. generalize (pieces r s). intros ps.
  induction ps as [|[c|mi] ps IH]; intros Hf; cbn.
  - done.
  - apply sublist_skip. by apply IH.
  - apply sublist_app; [apply Hf; by left|].
    apply IH. intros mi' Hmi'. apply Hf. by right.
Qed.

End ScanFacts.

(** ** What healing keeps *)

Module HealingShape.
Import TagNormalizer RegExpFacts JSFacts ScanFacts NormalizerFacts.

#[local] Arguments N.eqb : simpl never.
#[local] Arguments cleanContent : simpl never.
#[local] Arguments arg : simpl never.

Lemma scanned_hits mu s ps mi :
  scanned mu s ps → mi ∈ hits ps → ∃ s' rest, mu s' = Some (mi, rest).
Proof.
  induction 1 as [|s mi' rest ps Hmu _ IH|a s ps _ _ IH]; cbn [hits].
  - by intros ?%elem_of_nil.
  - intros [->|Hin]%elem_of_cons; [by exists s, rest|by apply IH].
  - exact IH.
Qed.

Lemma remove_char_sublist c s : remove_char c s `sublist_of` s.
Proof.
  induction s as [|a s IH]; cbn [remove_char]; [done|].
  destruct (a =? c)%N; [by apply sublist_cons|by apply sublist_skip].
Qed.

Lemma cleanContent_sublist content : cleanContent content `sublist_of` content.
Proof.
  rewrite cleanContent_eq.
  etrans; [apply remove_char_sublist|]. etrans; [apply remove_char_sublist|].
  apply replace_sublist. intros mi _. apply sublist_nil_l.
Qed.

Lemma removeNoiseTags_sublist xml : removeNoiseTags xml `sublist_of` xml.
Proof.
  unfold removeNoiseTags. generalize noisePatterns. intros ps. revert xml.
  induction ps as [|p ps IH]; intros xml; cbn [fold_left]; [done|].
  etrans; [apply IH|]. apply replace_sublist. intros mi _. apply sublist_nil_l.
Qed.

Lemma repairSplitDelimiters_sublist xml : repairSplitDelimiters xml `sublist_of` xml.
Proof.
  unfold repairSplitDelimiters. etrans.
  - apply replace_sublist. intros mi Hmi. apply matchAll_lang in Hmi.
    apply (lang_split 125) in Hmi as (w1 & Hw & _).
    unfold repairWith. destruct (_ && _); [|done]. rewrite Hw.
    change (str "}}") with [125%N; 125%N].
    apply sublist_skip. by apply sublist_inserts_l.
  - apply replace_sublist. intros mi Hmi. apply matchAll_lang in Hmi.
    apply (lang_split 123) in Hmi as (w1 & Hw & _).
    unfold repairWith. destruct (_ && _); [|done]. rewrite Hw.
    change (str "{{") with [123%N; 123%N].
    apply sublist_skip. by apply sublist_inserts_l.
Qed.

Lemma consolidateTags_sublist xml : consolidateTags xml `sublist_of` xml.
Proof.
  apply replace_sublist. intros mi Hmi.
  destruct (scanned_hits _ _ _ _ (tagRegex_scanned xml) Hmi) as (s' & rest & Hmu).
  apply tag_match_Some in Hmu as (c & -> & _).
  rewrite arg_span. cbn [mtext span].
  apply sublist_app; [done|]. apply sublist_app; [|done].
  apply cleanContent_sublist.
Qed.

(** Healing only deletes: the healed text is the input with some of
    its characters taken out, the others in their order; it is never
    longer than the input. *)
Theorem normalize_only_deletes xml isDoubleMode :
  normalize xml isDoubleMode `sublist_of` xml
  ∧ length (normalize xml isDoubleMode) ≤ length xml.
Proof.
  assert (H : normalize xml isDoubleMode `sublist_of` xml).
  { unfold normalize, removeDuplicateDelimiters.
    destruct isDoubleMode; [|apply removeNoiseTags_sublist].
    etrans; [apply consolidateTags_sublist|].
    etrans; [apply repairSplitDelimiters_sublist|].
    apply removeNoiseTags_sublist. }
  split; [exact H|by apply sublist_length].
Qed.

(** On a text whose angle brackets are those of its elements noise
    removal takes out the elements whose body begins with one of the
    fourteen names and ends with a slash, and nothing else. *)
Theorem removeNoiseTags_elements ns :
  Forall closed ns → removeNoiseTags (render ns) = render (without noise ns).
Proof.
  intros Hns. unfold removeNoiseTags. rewrite noisePatterns_names.
  apply fold_noise; [|done].
  unfold noiseNames. repeat constructor; by apply lacks_includes.
Qed.

Lemma removeNoiseTags_elements_witness :
  removeNoiseTags
    (quoted "<w:r><w:lang w:val='en'/><w:language/><w:t>a > b</w:t><w:lang></w:r>")
  = str "<w:r><w:t>a > b</w:t><w:lang></w:r>".
Proof.
  apply (removeNoiseTags_elements
    [Elem (str "w:r"); Elem (quoted "w:lang w:val='en'/"); Elem (str "w:language/");
     Elem (str "w:t"); Chr (ch "a"); Chr (ch " "); Chr (ch ">"); Chr (ch " ");
     Chr (ch "b"); Elem (str "/w:t"); Elem (str "w:lang"); Elem (str "/w:r")]).
  repeat constructor; first [discriminate | by apply lacks_includes].
Defined.

(** Without a brace in the text both modes heal alike: the noise
    elements are removed and nothing else is changed. *)
Theorem normalize_without_braces xml :
  123%N ∉ xml → 125%N ∉ xml →
  normalize xml true = removeNoiseTags xml
  ∧ normalize xml false = removeNoiseTags xml.
Proof.
  intros Hopen Hclose. split; [|done].
  unfold normalize, removeDuplicateDelimiters.
  pose proof (removeNoiseTags_sublist xml) as Hsub.
  set (y := removeNoiseTags xml) in *.
  assert (Ho : 123%N ∉ y) by (intros H; by apply Hopen, (elem_of_sublist _ _ _ H)).
  assert (Hc : 125%N ∉ y) by (intros H; by apply Hclose, (elem_of_sublist _ _ _ H)).
  assert (Hrepair : repairSplitDelimiters y = y).
  { unfold repairSplitDelimiters.
    rewrite (replace_no_match splitOpen).
    - apply replace_no_match.
      destruct (matchAll splitClose y) as [|mi l] eqn:Hall; [done|]. exfalso.
      assert (Hmi : mi ∈ matchAll splitClose y) by (rewrite Hall; by left).
      pose proof (matchAll_lang _ _ _ Hmi) as Hlang.
      apply (lang_split 125) in Hlang as (w1 & Hw & _).
      apply matchAll_within in Hmi as (a & c & Heq). apply Hc.
      rewrite Heq, Hw. apply elem_of_app. right. by left.
    - destruct (matchAll splitOpen y) as [|mi l] eqn:Hall; [done|]. exfalso.
      assert (Hmi : mi ∈ matchAll splitOpen y) by (rewrite Hall; by left).
      pose proof (matchAll_lang _ _ _ Hmi) as Hlang.
      apply (lang_split 123) in Hlang as (w1 & Hw & _).
      apply matchAll_within in Hmi as (a & c & Heq). apply Ho.
      rewrite Heq, Hw. apply elem_of_app. right. by left. }
  rewrite Hrepair.
  rewrite <- (app_nil_r y) at 1. rewrite consolidateTags_plain by done.
  replace (consolidateTags []) with (@nil char) by (vm_compute; reflexivity).
  apply app_nil_r.
Qed.

Lemma normalize_without_braces_witness :
  normalize (str "<w:p><w:proofErr/>text</w:p>") true
  = removeNoiseTags (str "<w:p><w:proofErr/>text</w:p>")
  ∧ normalize (str "<w:p><w:proofErr/>text</w:p>") false
    = removeNoiseTags (str "<w:p><w:proofErr/>text</w:p>").
Proof.
  apply (normalize_without_braces (str "<w:p><w:proofErr/>text</w:p>"));
    by apply lacks_includes.
Defined.

(** *** Markers split by markup *)

(** The third group of both expressions of [repairSplitDelimiters]:
    one markup element. *)
Definition tagRegex3 : regex :=
  Group 3 (Seq (Lit 60%N) (Seq (Plus true (Cls true [ItChar 62%N])) (Lit 62%N))).

Lemma tag_step b body rest caps k res :
  body ≠ [] → 62%N ∉ body →
  k (MState (reverse (60%N :: body ++ [62%N]) ++ b) rest
       ((3, 60%N :: body ++ [62%N]) :: caps)) = Some res →
  m tagRegex3 (MState b (60%N :: body ++ 62%N :: rest) caps) k = Some res.
Proof.
  intros Hne Hgt Hk. destruct body as [|c body]; [done|].
  apply not_elem_of_cons in Hgt as [Hc Hgt].
  unfold tagRegex3. cbn [m]. unfold step_char at 1. cbn [remaining consumed captures].
  rewrite N.eqb_refl. unfold step_char at 1. cbn [remaining consumed captures app].
  rewrite not_gt, (proj2 (N.eqb_neq c 62)) by done. cbn [negb].
  rewrite star_loop_greedy by (cbn; lia).
  apply greedy_run_all.
  - apply Forall_forall. intros a Ha. rewrite not_gt.
    rewrite (proj2 (N.eqb_neq a 62)); [done|]. by intros ->.
  - by rewrite not_gt, N.eqb_refl.
  - unfold step_char. cbn [remaining consumed captures]. rewrite N.eqb_refl.
    replace (62%N :: reverse body ++ c :: 60%N :: b)
      with (reverse (60%N :: (c :: body) ++ [62%N]) ++ b).
    + by rewrite captured_reverse.
    + cbn [app]. rewrite !reverse_cons, reverse_app, reverse_singleton, <- !app_assoc.
      reflexivity.
Qed.

Definition tagcaps (mid : list node) : list (nat * jsstring) :=
  reverse ((λ n, (3, render_node n)) <$> mid).

Lemma tags_loop mid : ∀ b rest caps k res fuel,
  Forall element mid →
  match rest with c :: _ => c ≠ 60%N | [] => True end →
  length (render mid ++ rest) < fuel →
  k (MState (reverse (render mid) ++ b) rest (tagcaps mid ++ caps)) = Some res →
  star_loop (m tagRegex3) true fuel (MState b (render mid ++ rest) caps) k = Some res.
Proof.
  induction mid as [|[c|body] mid IH]; intros b rest caps k res fuel Hmid Hrest Hfuel Hk.
  - cbn [render fmap list_fmap concat app] in *. change (render []) with (@nil char) in *.
    cbn [app] in *. destruct fuel as [|fuel]; [lia|]. cbn [star_loop].
    replace (m tagRegex3 _ _) with (@None mstate); [exact Hk|].
    unfold tagRegex3. cbn [m]. unfold step_char. cbn [remaining].
    destruct rest as [|c rest]; [done|].
    by rewrite (proj2 (N.eqb_neq 60 c)).
  - by apply Forall_inv in Hmid.
  - pose proof (Forall_inv Hmid) as (Hne & Hlt & Hgt & _).
    apply Forall_inv_tail in Hmid.
    rewrite render_cons_elem in *. cbn [app] in *. rewrite <- app_assoc in *. cbn [app] in *.
    destruct fuel as [|fuel]; [lia|]. cbn [star_loop].
    erewrite tag_step; [done|done|done|].
    cbn [remaining]. rewrite bool_decide_true.
    2:{ cbn. rewrite !length_app. cbn. rewrite !length_app. lia. }
    apply IH; [done|done| |].
    + cbn in Hfuel. rewrite !length_app in Hfuel. cbn in Hfuel. rewrite !length_app in *. lia.
    + rewrite <- Hk. f_equal. f_equal.
      * replace (60%N :: body ++ 62%N :: render mid)
          with ((60%N :: body ++ [62%N]) ++ render mid)
          by (cbn; by rewrite <- app_assoc).
        by rewrite reverse_app, app_assoc.
      * unfold tagcaps. cbn [fmap list_fmap render_node].
        by rewrite reverse_cons, <- app_assoc.
Qed.

(** A lazy loop stops at the first place where its continuation
    succeeds. *)
Lemma lazy_run_first p k before w rest caps res :
  (∀ w1 a w2, w = w1 ++ a :: w2 →
     p a = true ∧ k (MState (reverse w1 ++ before) (a :: w2 ++ rest) caps) = None) →
  k (MState (reverse w ++ before) rest caps) = Some res →
  lazy_run p k before (w ++ rest) caps = Some res.
Proof.
  revert before. induction w as [|a w IH]; intros before Hw Hk.
  - cbn [app]. destruct rest; cbn [lazy_run]; cbn in Hk; by rewrite Hk.
  - destruct (Hw [] a w eq_refl) as [Ha Hnone]. cbn [app lazy_run].
    cbn in Hnone. rewrite Hnone, Ha. apply IH.
    + intros w1 b w2 ->. destruct (Hw (a :: w1) b w2 eq_refl) as [Hb Hn].
      split; [done|]. rewrite reverse_cons, <- app_assoc in Hn. exact Hn.
    + rewrite reverse_cons, <- app_assoc in Hk. exact Hk.
Qed.

Definition splitRegex (x : char) : regex :=
  Seq (Group 1 (Lit x))
    (Seq (Group 2 (Star false (Cls true [ItChar 125%N; ItChar 123%N])))
       (Seq (Plus true tagRegex3)
          (Seq (Group 4 (Star false (Cls true [ItChar 125%N; ItChar 123%N])))
             (Group 5 (Lit x))))).

Lemma splitOpen_eq : splitOpen = splitRegex 123.
Proof. reflexivity. Qed.

Lemma splitClose_eq : splitClose = splitRegex 125.
Proof. reflexivity. Qed.

Lemma not_brace c :
  class_matches true [ItChar 125%N; ItChar 123%N] c
  = negb ((c =? 125)%N || (c =? 123)%N).
Proof. unfold class_matches. cbn. by rewrite orb_false_r. Qed.

(** Padding: no brace and no opening angle bracket. *)
Definition padding (p : jsstring) : Prop :=
  Forall (λ c : char, c ≠ 123%N ∧ c ≠ 125%N ∧ c ≠ 60%N) p.

Lemma captured_one b a c x a' c' :
  captured (MState b a c) (MState (x :: b) a' c') = [x].
Proof. apply (captured_reverse b [x]). Qed.

Lemma split_match x p1 e mid p2 post :
  x = 123%N ∨ x = 125%N →
  padding p1 → padding p2 → Forall element (e :: mid) →
  match_here (splitRegex x) [] (x :: p1 ++ render (e :: mid) ++ p2 ++ x :: post)
  = Some (MState (reverse (x :: p1 ++ render (e :: mid) ++ p2 ++ [x])) post
            ((5, [x]) :: (4, p2) :: tagcaps (e :: mid) ++ [(2, p1); (1, [x])])).
Proof.
  intros Hx Hp1 Hp2 Hmid. unfold match_here, splitRegex.
  assert (Hx60 : x ≠ 60%N) by (by destruct Hx as [-> | ->]).
  cbn [m]. unfold step_char at 1. cbn [remaining consumed captures].
  rewrite N.eqb_refl, captured_one.
  rewrite star_loop_lazy by (cbn; lia).
  apply lazy_run_first.
  { intros w1 a w2 ->. apply Forall_app in Hp1 as [_ Hp1].
    apply Forall_inv in Hp1 as (Ho & Hc & Hlt). split.
    - rewrite not_brace.
      by rewrite (proj2 (N.eqb_neq a 125)), (proj2 (N.eqb_neq a 123)).
    - unfold tagRegex3. cbn [m]. unfold step_char. cbn [remaining].
      by rewrite (proj2 (N.eqb_neq 60 a)). }
  cbn [consumed remaining captures]. rewrite captured_reverse.
  destruct e as [c|body]; [by apply Forall_inv in Hmid|].
  pose proof (Forall_inv Hmid) as (Hne & Hlt & Hgt & _).
  apply Forall_inv_tail in Hmid.
  rewrite render_cons_elem. cbn [app]. rewrite <- app_assoc. cbn [app].
  apply tag_step; [done..|]. cbn [remaining].
  assert (Hhead : match p2 ++ x :: post with c :: _ => c ≠ 60%N | [] => True end).
  { destruct p2 as [|c p2]; [done|]. by apply Forall_inv in Hp2 as (_ & _ & ?). }
  apply tags_loop; [done|done|lia|].
  cbn [remaining]. rewrite star_loop_lazy by (cbn; lia).
  apply lazy_run_first.
  { intros w1 a w2 ->. apply Forall_app in Hp2 as [_ Hp2].
    apply Forall_inv in Hp2 as (Ho & Hc & _). split.
    - rewrite not_brace.
      by rewrite (proj2 (N.eqb_neq a 125)), (proj2 (N.eqb_neq a 123)).
    - unfold step_char. cbn [remaining].
      rewrite (proj2 (N.eqb_neq x a)); [done|]. by destruct Hx as [-> | ->]. }
  cbn [consumed remaining captures]. rewrite captured_reverse.
  unfold step_char. cbn [consumed remaining captures]. rewrite N.eqb_refl.
  rewrite captured_one. f_equal. f_equal.
  - replace (x :: p1 ++ 60%N :: (body ++ 62%N :: render mid) ++ p2 ++ [x])
      with ((((([x] ++ p1) ++ (60%N :: body ++ [62%N])) ++ render mid) ++ p2) ++ [x]).
    + rewrite !reverse_app, !reverse_singleton, <- ?app_assoc. reflexivity.
    + cbn [app]. rewrite <- !app_assoc. cbn [app]. by rewrite <- ?app_assoc.
  - unfold tagcaps. cbn [fmap list_fmap render_node].
    by rewrite reverse_cons, <- app_assoc.
Qed.

Lemma group_tagcaps n mid caps :
  n ≠ 3 → group n (tagcaps mid ++ caps) = group n caps.
Proof.
  intros Hn. unfold tagcaps. revert caps.
  induction mid as [|e mid IH]; intros caps; [done|].
  cbn [fmap list_fmap]. rewrite reverse_cons, <- app_assoc.
  rewrite IH. cbn [app group]. by rewrite bool_decide_false.
Qed.

(** Blank padding: what [!padding.trim()] holds of. *)
Definition blank (p : jsstring) : bool := bool_decide (trim p = []).

Lemma split_mu x p1 e mid p2 post :
  x = 123%N ∨ x = 125%N →
  padding p1 → padding p2 → Forall element (e :: mid) →
  ∃ mi,
    mu_of (splitRegex x) (x :: p1 ++ render (e :: mid) ++ p2 ++ x :: post)
    = Some (mi, post)
    ∧ mtext mi = x :: p1 ++ render (e :: mid) ++ p2 ++ [x]
    ∧ repairWith [x; x] mi
      = if blank p1 && blank p2 then [x; x] else mtext mi.
Proof.
  intros Hx Hp1 Hp2 Hmid. unfold mu_of.
  rewrite split_match by done. cbn [fmap option_fmap option_map].
  eexists. split; [reflexivity|]. cbn [mtext mgroups consumed remaining captures].
  match goal with
  | |- context [captured (MState [] ?a []) (MState (reverse ?w) ?r ?c)] =>
      pose proof (captured_reverse [] w a r [] c) as Hcap
  end.
  rewrite app_nil_r in Hcap. rewrite Hcap. clear Hcap.
  split; [done|]. unfold repairWith, blank, TagNormalizer.arg. cbn [mgroups mtext].
  cbn [group].
  change (bool_decide (5 = 2)) with false. change (bool_decide (4 = 2)) with false.
  change (bool_decide (5 = 4)) with false. change (bool_decide (4 = 4)) with true.
  cbn iota. rewrite group_tagcaps by done. cbn [group].
  change (bool_decide (2 = 2)) with true. reflexivity.
Qed.

Lemma splitRegex_nonempty x w : lang (splitRegex x) w → w ≠ [].
Proof. by intros (w1 & -> & _)%lang_split. Qed.

Lemma splitRegex_absent x f s : x ∉ s → replace (splitRegex x) f s = s.
Proof.
  intros Hx. apply replace_no_match.
  destruct (matchAll (splitRegex x) s) as [|mi l] eqn:Hall; [done|]. exfalso.
  assert (Hmi : mi ∈ matchAll (splitRegex x) s) by (rewrite Hall; by left).
  pose proof (matchAll_lang _ _ _ Hmi) as Hlang.
  apply lang_split in Hlang as (w1 & Hw & _).
  apply matchAll_within in Hmi as (a & c & Heq). apply Hx.
  rewrite Heq, Hw. apply elem_of_app. right. by left.
Qed.

Lemma splitRegex_pass x pre p1 e mid p2 post :
  x = 123%N ∨ x = 125%N →
  x ∉ pre → x ∉ post →
  padding p1 → padding p2 → Forall element (e :: mid) →
  replace (splitRegex x) (repairWith [x; x])
    (pre ++ x :: p1 ++ render (e :: mid) ++ p2 ++ x :: post)
  = pre ++ (if blank p1 && blank p2 then [x; x]
            else x :: p1 ++ render (e :: mid) ++ p2 ++ [x]) ++ post.
Proof.
  intros Hx Hpre Hpost Hp1 Hp2 Hmid.
  pose proof (mu_of_described (splitRegex x) eq_refl) as Hd.
  pose proof (mu_of_progress (splitRegex x) (splitRegex_nonempty x)) as Hp.
  rewrite (replace_gaps _ _ _ _ _ Hd Hp).
  2:{ intros a t Ha. unfold mu_of, match_here, splitRegex. cbn [m].
      unfold step_char. cbn [remaining].
      rewrite (proj2 (N.eqb_neq x a)); [done|]. by intros ->. }
  f_equal.
  destruct (split_mu x p1 e mid p2 post Hx Hp1 Hp2 Hmid) as (mi & Hmu & Htext & Hrep).
  rewrite (replace_hit _ _ _ _ _ _ Hd Hp Hmu), Hrep, Htext.
  by rewrite splitRegex_absent.
Qed.

(** A marker split in two by markup elements, with padding around
    them, is joined when both paddings are blank, and the text is
    left as it is otherwise. *)
Theorem repairSplitDelimiters_joins x pre p1 e mid p2 post :
  x = 123%N ∨ x = 125%N →
  123%N ∉ pre → 125%N ∉ pre → 123%N ∉ post → 125%N ∉ post →
  padding p1 → padding p2 → Forall element (e :: mid) →
  repairSplitDelimiters (pre ++ x :: p1 ++ render (e :: mid) ++ p2 ++ x :: post)
  = pre ++ (if blank p1 && blank p2 then [x; x]
            else x :: p1 ++ render (e :: mid) ++ p2 ++ [x]) ++ post.
Proof.
  intros Hx Hopre Hcpre Hopost Hcpost Hp1 Hp2 Hmid.
  unfold repairSplitDelimiters. rewrite splitOpen_eq, splitClose_eq.
  change (str "{{") with [123%N; 123%N]. change (str "}}") with [125%N; 125%N].
  assert (Hlacks : ∀ y : char, y = 123%N ∨ y = 125%N →
            (y ∉ p1) ∧ (y ∉ p2) ∧ (y ∉ render (e :: mid))).
  { intros y Hy. unfold padding in Hp1, Hp2. repeat split.
    - intros Hin. rewrite Forall_forall in Hp1. destruct (Hp1 _ Hin) as (? & ? & _).
      by destruct Hy.
    - intros Hin. rewrite Forall_forall in Hp2. destruct (Hp2 _ Hin) as (? & ? & _).
      by destruct Hy.
    - destruct Hy as [-> | ->];
        [by apply element_lacks_open|by apply element_lacks_close]. }
  destruct Hx as [-> | ->].
  - rewrite splitRegex_pass by (done || by left).
    apply splitRegex_absent.
    destruct (Hlacks 125%N) as (H1 & H2 & H3); [by right|].
    rewrite !not_elem_of_app. split; [done|]. split; [|done].
    destruct (blank p1 && blank p2).
    + by intros [?|[?|?%elem_of_nil]%elem_of_cons]%elem_of_cons.
    + rewrite not_elem_of_cons, !not_elem_of_app, not_elem_of_cons.
      repeat split; try done. apply not_elem_of_nil.
  - rewrite (splitRegex_absent 123).
    + apply splitRegex_pass; done || by right.
    + destruct (Hlacks 123%N) as (H1 & H2 & H3); [by left|].
      rewrite not_elem_of_app, not_elem_of_cons, !not_elem_of_app, not_elem_of_cons.
      repeat split; done.
Qed.

Lemma repairSplitDelimiters_joins_witness :
  repairSplitDelimiters
    (str "<w:t>" ++ 123%N :: str " "
     ++ render [Elem (str "/w:t"); Elem (str "w:t")] ++ [] ++ 123%N :: str "name")
  = str "<w:t>"
    ++ (if blank (str " ") && blank []
        then [123%N; 123%N]
        else 123%N :: str " " ++ render [Elem (str "/w:t"); Elem (str "w:t")]
             ++ [] ++ [123%N])
    ++ str "name".
Proof.
  apply repairSplitDelimiters_joins;
    first [ by left | by apply lacks_includes
          | repeat constructor; first [discriminate | by apply lacks_includes] ].
Defined.

End HealingShape.

(** ** The entries of the placeholder list *)

Module TagShape.
Import TagDetector RegExpFacts JSFacts ScanFacts TagDetectorFacts.

#[local] Arguments N.eqb : simpl never.

(** No white space at either end. *)
Definition trimmed (s : jsstring) : Prop :=
  (∀ c, head s = Some c → is_space c = false)
  ∧ (∀ c, last s = Some c → is_space c = false).

Lemma trimStart_head s c : head (trimStart s) = Some c → is_space c = false.
Proof.
  induction s as [|a s IH]; cbn; [done|].
  destruct (is_space a) eqn:Ha; [exact IH|]. cbn. by intros [= <-].
Qed.

Lemma trimStart_suffix s : ∃ w, s = w ++ trimStart s.
Proof.
  induction s as [|a s [w IH]]; [by exists []|]. cbn.
  destruct (is_space a); [|by exists []]. exists (a :: w). cbn. by rewrite <- IH.
Qed.

Lemma trimStart_fixed s :
  (∀ c, head s = Some c → is_space c = false) → trimStart s = s.
Proof.
  destruct s as [|a s]; [done|]. cbn. intros H. by rewrite (H a).
Qed.

Lemma trim_trimmed s : trimmed (trim s).
Proof.
  unfold trim, trimEnd. set (u := trimStart s).
  destruct (trimStart_suffix (reverse u)) as [w Hw].
  set (v := trimStart (reverse u)) in *.
  split.
  - intros c Hc. destruct (reverse v) as [|x t] eqn:Hv; [done|].
    cbn in Hc. injection Hc as ->.
    apply (f_equal reverse) in Hw. rewrite reverse_involutive, reverse_app, Hv in Hw.
    apply (trimStart_head s). fold u. by rewrite Hw.
  - intros c Hc. rewrite last_reverse in Hc. by apply (trimStart_head (reverse u)).
Qed.

Lemma trimmed_fixed s : trimmed s → trim s = s.
Proof.
  intros [Hh Hl]. unfold trim, trimEnd.
  rewrite (trimStart_fixed s Hh).
  rewrite trimStart_fixed; [apply reverse_involutive|].
  intros c Hc. apply Hl. by rewrite <- head_reverse.
Qed.

(** The calls of [addTag] keep the names non-empty. *)
Lemma foldl_addCandidate_names cs a :
  Forall (λ t, name t ≠ []) a.1 →
  Forall (λ t, name t ≠ []) (foldl addCandidate a cs).1.
Proof.
  revert a. induction cs as [|[r nm] cs IH]; intros [tags seen] Ha; [done|].
  cbn [foldl]. apply IH. unfold addCandidate, addTag. cbn [fst snd].
  case_bool_decide as Hne; cbn [andb]; [|done].
  case_bool_decide; [|done]. cbn [fst].
  apply Forall_app. split; [done|]. by repeat constructor.
Qed.

Lemma lang_DOUBLE w :
  lang DOUBLE_BRACE_REGEX w → ∃ v, w = str "{{" ++ v ++ str "}}".
Proof.
  unfold DOUBLE_BRACE_REGEX.
  intros (a & r1 & -> & ->%lang_lit_inv & H)%lang_seq_inv.
  apply lang_seq_inv in H as (b & r2 & -> & ->%lang_lit_inv & H).
  apply lang_seq_inv in H as (s1 & r3 & -> & _ & H).
  apply lang_seq_inv in H as (g & r4 & -> & _ & H).
  apply lang_seq_inv in H as (s2 & r5 & -> & _ & H).
  apply lang_seq_inv in H as (c & d & -> & ->%lang_lit_inv & ->%lang_lit_inv).
  exists (s1 ++ g ++ s2). cbn. by rewrite <- !app_assoc.
Qed.

Lemma lang_SINGLE w :
  lang SINGLE_BRACE_REGEX w → ∃ v, w = str "{" ++ v ++ str "}".
Proof.
  unfold SINGLE_BRACE_REGEX.
  intros (a & r1 & -> & Ha & H)%lang_seq_inv. inversion Ha; subst.
  apply lang_seq_inv in H as (b & r2 & -> & ->%lang_lit_inv & H).
  apply lang_seq_inv in H as (s1 & r3 & -> & _ & H).
  apply lang_seq_inv in H as (g & r4 & -> & _ & H).
  apply lang_seq_inv in H as (s2 & r5 & -> & _ & H).
  apply lang_seq_inv in H as (c & d & -> & ->%lang_lit_inv & Hd).
  inversion Hd; subst.
  exists (s1 ++ g ++ s2). cbn. by rewrite <- !app_assoc.
Qed.

Section Entries.
Variable localeCompare : jsstring → jsstring → Z.

(** Every entry of the result has a non-empty name without white
    space at its ends, the name as its identifier, and as raw text a
    part of the input: in braces doubled when the input has a
    placeholder in doubled braces, in single braces otherwise, and
    then with a name of less than fifty code units on one line. *)
Theorem findTags_entries (fullText : jsstring) (t : DocxTag) :
  t ∈ findTags localeCompare fullText →
  name t ≠ [] ∧ id t = name t ∧ trimmed (name t)
  ∧ (∃ a c, fullText = a ++ raw t ++ c)
  ∧ (if bool_decide (matchAll DOUBLE_BRACE_REGEX fullText = [])
     then (∃ v, raw t = str "{" ++ v ++ str "}")
          ∧ length (name t) < 50 ∧ 10%N ∉ name t
     else ∃ v, raw t = str "{{" ++ v ++ str "}}").
Proof.
  unfold findTags. rewrite sort_perm, collect_candidates. intros Ht.
  pose proof (foldl_deduplicated (candidates fullText)) as (_ & _ & Hfirst & _).
  pose proof (foldl_addCandidate_names (candidates fullText) ([], ∅)
                (Forall_nil_2 _)) as Hne.
  rewrite Forall_forall in Hne.
  destruct (Hfirst t Ht) as (l1 & r & nm & l2 & Hcs & Hname & Hraw & Hid & _).
  split; [by apply Hne|]. split; [congruence|].
  split; [rewrite Hname; apply trim_trimmed|].
  assert (Hin : (r, nm) ∈ candidates fullText).
  { rewrite Hcs. apply elem_of_app. right. by left. }
  unfold candidates in Hin. case_bool_decide as Hd.
  - apply list_elem_of_omap in Hin as (mi & Hmi & Hsome).
    cbn zeta in Hsome.
    destruct (bool_decide (length (trim (arg 1 mi)) < 50)) eqn:Hlen; [|done].
    destruct (includes_char 10 (trim (arg 1 mi))) eqn:Hnl; [done|].
    cbn in Hsome. injection Hsome as <- <-.
    apply bool_decide_eq_true in Hlen.
    rewrite Hraw, Hname, (trimmed_fixed _ (trim_trimmed _)).
    split; [by apply matchAll_within in Hmi|].
    split; [by apply matchAll_lang, lang_SINGLE in Hmi|].
    split; [done|by apply lacks_includes].
  - apply list_elem_of_fmap in Hin as (mi & [= -> ->] & Hmi).
    rewrite Hraw.
    split; [by apply matchAll_within in Hmi|].
    by apply matchAll_lang, lang_DOUBLE in Hmi.
Qed.
End Entries.

Lemma matchAll_absent r (x : char) s :
  (∀ w, lang r w → x ∈ w) → x ∉ s → matchAll r s = [].
Proof.
  intros Hr Hx. destruct (matchAll r s) as [|mi l] eqn:Hall; [done|]. exfalso.
  assert (Hmi : mi ∈ matchAll r s) by (rewrite Hall; by left).
  pose proof (Hr _ (matchAll_lang _ _ _ Hmi)) as Hin.
  apply matchAll_within in Hmi as (a & c & ->). apply Hx.
  apply elem_of_app. right. apply elem_of_app. by left.
Qed.

Section Finds.
Variable localeCompare : jsstring → jsstring → Z.

(** A text without an opening brace has no placeholder. *)
Theorem findTags_without_braces (fullText : jsstring) :
  123%N ∉ fullText → findTags localeCompare fullText = [].
Proof.
  intros Hx. unfold findTags. rewrite collect_candidates. unfold candidates.
  rewrite (matchAll_absent DOUBLE_BRACE_REGEX 123 fullText); [|
    intros w (v & ->)%lang_DOUBLE; by left | done].
  rewrite bool_decide_true by done.
  rewrite (matchAll_absent SINGLE_BRACE_REGEX 123 fullText); [done|
    intros w (v & ->)%lang_SINGLE; by left | done].
Qed.
End Finds.

Lemma trimStart_split s :
  ∃ w, s = w ++ trimStart s ∧ Forall (λ c, is_space c = true) w.
Proof.
  induction s as [|a s (w & IH & Hw)]; [by exists []|]. cbn.
  destruct (is_space a) eqn:Ha; [|by exists []].
  exists (a :: w). cbn. rewrite <- IH. split; [done|by constructor].
Qed.

Lemma is_ws c : class_matches false [ItSpace] c = is_space c.
Proof. unfold class_matches. cbn. by rewrite orb_false_r. Qed.

Lemma not_close c : class_matches true [ItChar 125%N] c = negb (c =? 125)%N.
Proof. unfold class_matches. cbn. by rewrite orb_false_r. Qed.

(** What [DOUBLE_BRACE_REGEX] matches at a placeholder whose content
    has no closing brace and is not blank. *)
Lemma double_match c post :
  125%N ∉ c → trimStart c ≠ [] →
  match_here DOUBLE_BRACE_REGEX [] (123%N :: 123%N :: c ++ 125%N :: 125%N :: post)
  = Some (MState (reverse (123%N :: 123%N :: c ++ [125%N; 125%N])) post
            [(1, trimStart c)]).
Proof.
  intros Hc Hne. destruct (trimStart_split c) as (w & Hw & Hspace).
  destruct (trimStart c) as [|x c2] eqn:Hc1; [done|].
  assert (Hx : is_space x = false).
  { apply (trimStart_head c). by rewrite Hc1. }
  rewrite Hw in Hc. apply not_elem_of_app in Hc as [_ Hc].
  apply not_elem_of_cons in Hc as [Hx125 Hc2].
  unfold match_here, DOUBLE_BRACE_REGEX. cbn [m].
  unfold step_char at 1. cbn [remaining consumed captures]. rewrite N.eqb_refl.
  unfold step_char at 1. cbn [remaining consumed captures]. rewrite N.eqb_refl.
  rewrite star_loop_greedy by (cbn; lia).
  rewrite Hw at 1. rewrite <- app_assoc.
  apply greedy_run_all.
  { apply Forall_forall. intros a Ha. rewrite is_ws.
    rewrite Forall_forall in Hspace. by apply Hspace. }
  { cbn [app]. by rewrite is_ws. }
  cbn [app]. unfold step_char at 1. cbn [remaining consumed captures].
  rewrite not_close, (proj2 (N.eqb_neq x 125)) by done. cbn [negb].
  rewrite star_loop_greedy by (cbn; lia).
  apply greedy_run_all.
  { apply Forall_forall. intros a Ha. rewrite not_close.
    rewrite (proj2 (N.eqb_neq a 125)); [done|]. by intros ->. }
  { by rewrite not_close, N.eqb_refl. }
  cbn [consumed remaining captures].
  rewrite star_loop_greedy by (cbn; lia).
  apply (greedy_run_all _ _ _ []); [done|by rewrite is_ws|].
  unfold step_char. cbn [app reverse consumed remaining captures]. rewrite !N.eqb_refl.
  rewrite reverse_nil. cbn [app].
  replace (reverse c2 ++ x :: reverse w ++ [123%N; 123%N])
    with (reverse (x :: c2) ++ reverse w ++ [123%N; 123%N])
    by (by rewrite reverse_cons, <- app_assoc).
  rewrite captured_reverse. f_equal. f_equal. rewrite Hw.
  replace (123%N :: 123%N :: (w ++ x :: c2) ++ [125%N; 125%N])
    with ((([123%N; 123%N] ++ w) ++ (x :: c2)) ++ [125%N; 125%N])
    by (cbn; by rewrite <- !app_assoc).
  rewrite !reverse_app. cbn. by rewrite <- ?app_assoc.
Qed.

Lemma trim_trimStart s : trim (trimStart s) = trim s.
Proof.
  unfold trim. f_equal. apply trimStart_fixed. apply trimStart_head.
Qed.

Lemma DOUBLE_nonempty w : lang DOUBLE_BRACE_REGEX w → w ≠ [].
Proof. by intros (v & ->)%lang_DOUBLE. Qed.

Lemma hits_gaps_app (w : jsstring) ps : hits ((Gap <$> w) ++ ps) = hits ps.
Proof. induction w as [|a w IH]; [done|exact IH]. Qed.

(** The matches of [DOUBLE_BRACE_REGEX] in a text that has a
    placeholder after a part without an opening brace. *)
Lemma double_hits (pre c post : jsstring) :
  123%N ∉ pre → 125%N ∉ c → trimStart c ≠ [] →
  ∃ mi,
    matchAll DOUBLE_BRACE_REGEX (pre ++ str "{{" ++ c ++ str "}}" ++ post)
    = mi :: matchAll DOUBLE_BRACE_REGEX post
    ∧ mtext mi = str "{{" ++ c ++ str "}}" ∧ arg 1 mi = trimStart c.
Proof.
  intros Hpre Hc Hstart.
  pose proof (mu_of_described DOUBLE_BRACE_REGEX eq_refl) as Hd.
  pose proof (mu_of_progress DOUBLE_BRACE_REGEX DOUBLE_nonempty) as Hp.
  eexists. split; [|split].
  - unfold matchAll.
    assert (Hgaps : ∀ s, pieces DOUBLE_BRACE_REGEX (pre ++ s)
                         = (Gap <$> pre) ++ pieces DOUBLE_BRACE_REGEX s).
    { intros s. induction pre as [|a pre' IH]; [done|].
      apply not_elem_of_cons in Hpre as [Ha Hpre']. cbn [app fmap list_fmap].
      rewrite (pieces_gap _ _ _ _ Hd Hp), (IH Hpre'); [done|].
      unfold mu_of, match_here, DOUBLE_BRACE_REGEX. cbn [m].
      unfold step_char. cbn [remaining]. by rewrite (proj2 (N.eqb_neq 123 a)). }
    rewrite Hgaps.
    erewrite (pieces_hit _ _ _ _ _ Hd Hp).
    + rewrite hits_gaps_app. reflexivity.
    + unfold mu_of.
      change (str "{{" ++ c ++ str "}}" ++ post)
        with (123%N :: 123%N :: c ++ 125%N :: 125%N :: post).
      rewrite double_match by done. reflexivity.
  - cbn [mtext consumed].
    match goal with
    | |- context [captured (MState [] ?a []) (MState (reverse ?w) ?r ?cp)] =>
        pose proof (captured_reverse [] w a r [] cp) as Hcap
    end.
    rewrite app_nil_r in Hcap. rewrite Hcap. cbn. by rewrite <- ?app_assoc.
  - reflexivity.
Qed.

Section Placeholder.
Variable localeCompare : jsstring → jsstring → Z.

(** The first call of [addTag] with a name that is not blank makes
    an entry of the result. *)
Lemma first_candidate (fullText r nm : jsstring) cs :
  candidates fullText = (r, nm) :: cs → trim nm ≠ [] →
  ∃ t, t ∈ findTags localeCompare fullText
       ∧ name t = trim nm ∧ id t = trim nm ∧ raw t = r.
Proof.
  intros Hcs Hne.
  pose proof (foldl_deduplicated (candidates fullText)) as (_ & _ & Hfirst & Hin).
  specialize (Hin (r, nm)). cbn [snd] in Hin.
  apply list_elem_of_fmap in Hin as (t & Ht & Htin);
    [|rewrite Hcs; by left|done].
  exists t. split.
  { unfold findTags. by rewrite sort_perm, collect_candidates. }
  destruct (Hfirst t Htin) as (l1 & r' & nm' & l2 & Heq & Hn & Hr & Hi & Hbefore).
  split; [done|]. split; [congruence|].
  destruct l1 as [|c0 l1].
  - rewrite Hcs in Heq. injection Heq as <- <- _. by rewrite Hr.
  - exfalso. rewrite Hcs in Heq. injection Heq as <- _.
    apply (Hbefore (r, nm)); [by left|]. cbn [snd]. congruence.
Qed.

(** The entry of a placeholder in doubled braces that follows a text
    without an opening brace. *)
Lemma placeholder_found (pre c post : jsstring) :
  123%N ∉ pre → 125%N ∉ c → trim c ≠ [] →
  ∃ t, t ∈ findTags localeCompare (pre ++ str "{{" ++ c ++ str "}}" ++ post)
       ∧ name t = trim c ∧ id t = trim c
       ∧ raw t = str "{{" ++ c ++ str "}}".
Proof.
  intros Hpre Hc Hne.
  assert (Hstart : trimStart c ≠ []).
  { intros H. apply Hne. by rewrite <- trim_trimStart, H. }
  destruct (double_hits pre c post Hpre Hc Hstart) as (mi & Hall & Htext & Harg).
  assert (Hname : trim (arg 1 mi) = trim c) by (by rewrite Harg, trim_trimStart).
  destruct (first_candidate (pre ++ str "{{" ++ c ++ str "}}" ++ post)
              (mtext mi) (arg 1 mi)
              ((λ mi, (mtext mi, arg 1 mi)) <$> matchAll DOUBLE_BRACE_REGEX post))
    as (t & Ht & H1 & H2 & H3).
  - unfold candidates. rewrite Hall. by rewrite bool_decide_false.
  - by rewrite Hname.
  - exists t. by rewrite <- Hname, <- Htext.
Qed.

(** A placeholder in doubled braces after a text without an opening
    brace is found: when its content has no closing brace and is not
    blank, the result has an entry with the trimmed content as name
    and the placeholder as raw text. *)
Theorem findTags_placeholder (pre c post : jsstring) :
  123%N ∉ pre → 125%N ∉ c → trim c ≠ [] →
  ∃ t, t ∈ findTags localeCompare (pre ++ str "{{" ++ c ++ str "}}" ++ post)
       ∧ name t = trim c ∧ id t = trim c
       ∧ raw t = str "{{" ++ c ++ str "}}".
Proof.
  intros Hpre Hc Hne.
  set (fullText := pre ++ str "{{" ++ c ++ str "}}" ++ post).
  assert (Hstart : trimStart c ≠ []).
  { intros H. apply Hne. by rewrite <- trim_trimStart, H. }
  destruct (double_hits pre c post Hpre Hc Hstart) as (mi & Hall & Htext & Harg).
  fold fullText in Hall.
  assert (Hname : trim (arg 1 mi) = trim c) by (by rewrite Harg, trim_trimStart).
  assert (Hcs : candidates fullText
                = (mtext mi, arg 1 mi)
                  :: ((λ mi, (mtext mi, arg 1 mi)) <$> matchAll DOUBLE_BRACE_REGEX post)).
  { unfold candidates. rewrite Hall. by rewrite bool_decide_false. }
  destruct (first_candidate fullText _ _ _ Hcs) as (t & Ht & H1 & H2 & H3).
  { by rewrite Hname. }
  exists t. rewrite Hname in H1, H2. rewrite Htext in H3. done.
Qed.
End Placeholder.

Lemma findTags_entries_witness :
  let t := mkTag (str "first name") (str "{ first name }") (str "first name") in
  name t ≠ [] ∧ id t = name t ∧ trimmed (name t)
  ∧ (∃ a c, str "Dear { first name }," = a ++ raw t ++ c)
  ∧ (if bool_decide (matchAll DOUBLE_BRACE_REGEX (str "Dear { first name },") = [])
     then (∃ v, raw t = str "{" ++ v ++ str "}")
          ∧ length (name t) < 50 ∧ 10%N ∉ name t
     else ∃ v, raw t = str "{{" ++ v ++ str "}}").
Proof.
  intros t. apply (findTags_entries compareUnits).
  assert (findTags compareUnits (str "Dear { first name },") = [t]) as ->
    by (vm_compute; reflexivity).
  by left.
Defined.

Lemma findTags_without_braces_witness :
  findTags compareUnits (str "no placeholder here }") = [].
Proof. apply findTags_without_braces. by apply lacks_includes. Defined.

Lemma findTags_placeholder_witness :
  ∃ t, t ∈ findTags compareUnits
             (str "Dear " ++ str "{{" ++ str " first name " ++ str "}}"
              ++ str ", see {{x}}")
       ∧ name t = trim (str " first name ") ∧ id t = trim (str " first name ")
       ∧ raw t = str "{{" ++ str " first name " ++ str "}}".
Proof.
  apply findTags_placeholder;
    [by apply lacks_includes|by apply lacks_includes|vm_compute; discriminate].
Defined.

End TagShape.

(** ** Placeholders in single braces *)

Module SingleShape.
Import TagDetector RegExpFacts JSFacts ScanFacts TagDetectorFacts TagShape.

Lemma brace_class c :
  class_matches true [ItChar 123%N; ItChar 125%N] c
  = negb ((c =? 123)%N || (c =? 125)%N).
Proof. unfold class_matches. cbn. by rewrite orb_false_r. Qed.

(** [SINGLE_BRACE_REGEX] after its lookbehind. *)
Definition singleBody : regex :=
  Seq (Lit 123)
    (Seq (Star true (Cls false [ItSpace]))
       (Seq (Group 1 (Plus true (Cls true [ItChar 123; ItChar 125])))
          (Seq (Star true (Cls false [ItSpace]))
             (Seq (Lit 125) (NotAhead (Lit 125)))))).

Lemma singleBody_match before c post :
  123%N ∉ c → 125%N ∉ c → trimStart c ≠ [] → head post ≠ Some 125%N →
  m singleBody (MState before (123%N :: c ++ 125%N :: post) []) Some
  = Some (MState (reverse (123%N :: c ++ [125%N]) ++ before) post
            [(1, trimStart c)]).
Proof.
  intros Hopen Hclose Hne Hpost.
  destruct (trimStart_split c) as (w & Hw & Hspace).
  destruct (trimStart c) as [|x c2] eqn:Hc1; [done|].
  assert (Hx : is_space x = false).
  { apply (trimStart_head c). by rewrite Hc1. }
  rewrite Hw in Hopen, Hclose.
  apply not_elem_of_app in Hopen as [_ Hopen].
  apply not_elem_of_app in Hclose as [_ Hclose].
  apply not_elem_of_cons in Hopen as [Hx123 Hopen].
  apply not_elem_of_cons in Hclose as [Hx125 Hclose].
  unfold singleBody. cbn [m].
  unfold step_char at 1. cbn [remaining consumed captures]. rewrite N.eqb_refl.
  rewrite star_loop_greedy by (cbn; lia).
  rewrite Hw at 1. rewrite <- app_assoc.
  apply greedy_run_all.
  { apply Forall_forall. intros a Ha. rewrite is_ws.
    rewrite Forall_forall in Hspace. by apply Hspace. }
  { cbn [app]. by rewrite is_ws. }
  cbn [app]. unfold step_char at 1. cbn [remaining consumed captures].
  rewrite brace_class, (proj2 (N.eqb_neq x 123)), (proj2 (N.eqb_neq x 125)) by done.
  cbn [orb negb].
  rewrite star_loop_greedy by (cbn; lia).
  apply greedy_run_all.
  { apply Forall_forall. intros a Ha. rewrite brace_class.
    rewrite (proj2 (N.eqb_neq a 123)), (proj2 (N.eqb_neq a 125)); [done| |];
      by intros ->. }
  { by rewrite brace_class, N.eqb_refl, orb_true_r. }
  cbn [consumed remaining captures].
  rewrite star_loop_greedy by (cbn; lia).
  apply (greedy_run_all _ _ _ []); [done|by rewrite is_ws|].
  unfold step_char at 1. cbn [app reverse consumed remaining captures].
  rewrite N.eqb_refl.
  assert (Hahead : ∀ b caps,
            step_char (N.eqb 125) (MState b post caps) Some = None).
  { intros b caps. unfold step_char. cbn [remaining].
    destruct post as [|p post']; [done|].
    rewrite (proj2 (N.eqb_neq 125 p)); [done|]. intros <-. by apply Hpost. }
  rewrite Hahead. clear Hahead.
  rewrite reverse_nil. cbn [app].
  replace (reverse c2 ++ x :: reverse w ++ 123%N :: before)
    with (reverse (x :: c2) ++ reverse w ++ 123%N :: before)
    by (by rewrite reverse_cons, <- app_assoc).
  rewrite captured_reverse. f_equal. f_equal. rewrite Hw.
  replace (123%N :: (w ++ x :: c2) ++ [125%N])
    with ((([123%N] ++ w) ++ (x :: c2)) ++ [125%N])
    by (cbn; by rewrite <- !app_assoc).
  rewrite !reverse_app. cbn. by rewrite <- ?app_assoc.
Qed.

(** What [SINGLE_BRACE_REGEX] matches at a placeholder in single
    braces that no opening brace precedes and no closing brace
    follows. *)
Lemma single_match before c post :
  head before ≠ Some 123%N → 123%N ∉ c → 125%N ∉ c → trimStart c ≠ [] →
  head post ≠ Some 125%N →
  match_here SINGLE_BRACE_REGEX before (123%N :: c ++ 125%N :: post)
  = Some (MState (reverse (123%N :: c ++ [125%N]) ++ before) post
            [(1, trimStart c)]).
Proof.
  intros Hbefore Hopen Hclose Hne Hpost.
  unfold match_here.
  change SINGLE_BRACE_REGEX with (Seq (NotBehind false [ItChar 123%N]) singleBody).
  cbn [m consumed].
  pose proof (singleBody_match before c post Hopen Hclose Hne Hpost) as Hbody.
  destruct before as [|b before']; [exact Hbody|].
  assert (class_matches false [ItChar 123%N] b = false) as ->; [|exact Hbody].
  unfold class_matches. cbn. rewrite orb_false_r.
  apply N.eqb_neq. intros ->. by apply Hbefore.
Qed.

(** No match of [SINGLE_BRACE_REGEX] starts at another character
    than an opening brace. *)
Lemma single_other before a s :
  a ≠ 123%N → match_here SINGLE_BRACE_REGEX before (a :: s) = None.
Proof.
  intros Ha. unfold match_here.
  change SINGLE_BRACE_REGEX with (Seq (NotBehind false [ItChar 123%N]) singleBody).
  cbn [m consumed].
  assert (Hbody : m singleBody (MState before (a :: s) []) Some = None).
  { unfold singleBody. cbn [m]. unfold step_char at 1. cbn [remaining].
    by rewrite (proj2 (N.eqb_neq 123 a)). }
  destruct before as [|b before']; [exact Hbody|].
  by destruct (class_matches false [ItChar 123%N] b).
Qed.

(** The scan over a text in which no match starts. *)
Lemma scan_gaps r pre s before fuel :
  (∀ b a t, a ∈ pre → match_here r b (a :: t) = None) →
  scan r (length pre + fuel) before (pre ++ s)
  = (Gap <$> pre) ++ scan r fuel (reverse pre ++ before) s.
Proof.
  revert before. induction pre as [|a pre IH]; intros before Hpre; [done|].
  cbn [length Nat.add app scan fmap list_fmap].
  rewrite (Hpre before a (pre ++ s)) by (by left).
  rewrite IH by (intros b x t Hx; apply Hpre; by right).
  by rewrite reverse_cons, <- app_assoc.
Qed.

Lemma indexOf_pair_None (pre c post : jsstring) :
  123%N ∉ pre → 123%N ∉ c → indexOf (str "{{") post = None →
  indexOf (str "{{") (pre ++ 123%N :: c ++ 125%N :: post) = None.
Proof.
  intros Hpre Hc Hpost.
  assert (Hskip : ∀ a s, a ≠ 123%N → indexOf (str "{{") s = None →
                         indexOf (str "{{") (a :: s) = None).
  { intros a s Ha Hs. cbn [indexOf]. rewrite Hs.
    change (str "{{") with [123%N; 123%N]. cbn [starts_with].
    by rewrite (proj2 (N.eqb_neq 123 a)). }
  assert (Hrun : ∀ u s, 123%N ∉ u → indexOf (str "{{") s = None →
                        indexOf (str "{{") (u ++ s) = None).
  { intros u s Hu Hs. induction u as [|a u IH]; [done|].
    apply not_elem_of_cons in Hu as [Ha Hu]. cbn [app]. by apply Hskip, IH. }
  apply Hrun; [done|].
  assert (Htail : indexOf (str "{{") (c ++ 125%N :: post) = None).
  { apply Hrun; [done|]. by apply Hskip. }
  cbn [indexOf]. rewrite Htail.
  change (str "{{") with [123%N; 123%N]. cbn [starts_with].
  destruct c as [|x c]; cbn [app]; [done|].
  apply not_elem_of_cons in Hc as [Hx _].
  by rewrite N.eqb_refl, (proj2 (N.eqb_neq 123 x)).
Qed.

Lemma no_double (s : jsstring) :
  indexOf (str "{{") s = None → matchAll DOUBLE_BRACE_REGEX s = [].
Proof.
  intros Hs. destruct (matchAll DOUBLE_BRACE_REGEX s) as [|mi mis] eqn:Hm; [done|].
  exfalso.
  assert (Hin : mi ∈ matchAll DOUBLE_BRACE_REGEX s) by (rewrite Hm; by left).
  pose proof (matchAll_lang _ _ _ Hin) as (v & Hv)%lang_DOUBLE.
  destruct (matchAll_within _ _ _ Hin) as (a & b & Hab).
  pose proof (indexOf_None _ _ (length a) Hs) as Hfalse.
  rewrite Hab, Hv in Hfalse. rewrite drop_app_length in Hfalse.
  rewrite <- !app_assoc in Hfalse. rewrite starts_with_app in Hfalse.
  discriminate Hfalse. rewrite length_app. lia.
Qed.

Lemma includes_elem (x : char) (s : jsstring) :
  includes_char x s = true → x ∈ s.
Proof.
  unfold includes_char. intros (a & Ha & ->%N.eqb_eq)%existsb_exists.
  by apply list_elem_of_In.
Qed.

Section Single.
Variable localeCompare : jsstring → jsstring → Z.

(** In a text without doubled opening braces, a placeholder in
    single braces after a text without an opening brace is found: when
    its content has no brace, its name is shorter than fifty code
    units and has no line feed, and no closing brace follows it, the
    result has an entry with the trimmed content as name and the
    placeholder as raw text. *)
Theorem findTags_single_placeholder (pre c post : jsstring) :
  123%N ∉ pre → 123%N ∉ c → 125%N ∉ c →
  indexOf (str "{{") post = None → head post ≠ Some 125%N →
  trim c ≠ [] → length (trim c) < 50 → 10%N ∉ trim c →
  ∃ t, t ∈ findTags localeCompare (pre ++ str "{" ++ c ++ str "}" ++ post)
       ∧ name t = trim c ∧ id t = trim c
       ∧ raw t = str "{" ++ c ++ str "}".
Proof.
  intros Hpre Hopen Hclose Hpair Hpost Hne Hlen Hline.
  set (fullText := pre ++ str "{" ++ c ++ str "}" ++ post).
  assert (Hstart : trimStart c ≠ []).
  { intros H. apply Hne. by rewrite <- trim_trimStart, H. }
  assert (Hdouble : matchAll DOUBLE_BRACE_REGEX fullText = []).
  { apply no_double. by apply indexOf_pair_None. }
  assert (Hbefore : head (reverse pre) ≠ Some 123%N).
  { intros H. apply Hpre. rewrite head_reverse in H.
    by apply last_Some_elem_of. }
  assert (Hall : ∃ mi mis,
    matchAll SINGLE_BRACE_REGEX fullText = mi :: mis
    ∧ mtext mi = str "{" ++ c ++ str "}" ∧ arg 1 mi = trimStart c).
  { unfold matchAll, pieces, fullText.
    replace (S (length (pre ++ str "{" ++ c ++ str "}" ++ post)))
      with (length pre + S (length (str "{" ++ c ++ str "}" ++ post)))
      by (rewrite !length_app; lia).
    rewrite scan_gaps.
    2:{ intros b a t Ha. apply single_other. by intros ->. }
    rewrite hits_gaps_app, app_nil_r.
    change (str "{" ++ c ++ str "}" ++ post) with (123%N :: c ++ 125%N :: post).
    cbn [scan].
    rewrite (single_match (reverse pre) c post) by done.
    cbn [remaining consumed captures].
    rewrite bool_decide_true by (cbn; rewrite length_app; cbn; lia).
    cbn [hits]. eexists _, _. split; [reflexivity|]. cbn [mtext mgroups].
    split; [|reflexivity].
    rewrite (captured_reverse (reverse pre) (123%N :: c ++ [125%N])). reflexivity. }
  destruct Hall as (mi & mis & Hall & Htext & Harg).
  pose proof (foldl_deduplicated (candidates fullText)) as (_ & _ & Hfirst & Hin).
  assert (Hname : trim (arg 1 mi) = trim c) by (by rewrite Harg, trim_trimStart).
  assert (Hcs : ∃ cs, candidates fullText = (mtext mi, trim c) :: cs).
  { unfold candidates. rewrite Hdouble, Hall. rewrite bool_decide_true by done.
    cbn [omap list_omap]. rewrite Hname.
    rewrite bool_decide_true by done.
    assert (includes_char 10 (trim c) = false) as ->.
    { destruct (includes_char 10 (trim c)) eqn:Hinc; [|done].
      exfalso. by apply Hline, includes_elem. }
    cbn [andb negb]. by eexists. }
  destruct Hcs as (cs & Hcs).
  specialize (Hin (mtext mi, trim c)). cbn [snd] in Hin.
  assert (Htt : trim (trim c) = trim c).
  { apply trimmed_fixed, trim_trimmed. }
  rewrite Htt in Hin.
  apply list_elem_of_fmap in Hin as (t & Ht & Htin);
    [|rewrite Hcs; by left|done].
  exists t. split.
  { unfold findTags. by rewrite sort_perm, collect_candidates. }
  destruct (Hfirst t Htin) as (l1 & r & nm & l2 & Heq & Hn & Hr & Hi & Hbefore').
  split; [done|]. split; [congruence|].
  destruct l1 as [|c0 l1].
  - rewrite Hcs in Heq. injection Heq as <- <- _. by rewrite Hr.
  - exfalso. rewrite Hcs in Heq. injection Heq as <- _.
    apply (Hbefore' (mtext mi, trim c)); [by left|]. cbn [snd]. congruence.
Qed.

End Single.

Lemma findTags_single_placeholder_witness :
  ∃ t, t ∈ findTags compareUnits
             (str "Dear " ++ str "{" ++ str " first name " ++ str "}"
              ++ str ", see {x}")
       ∧ name t = trim (str " first name ") ∧ id t = trim (str " first name ")
       ∧ raw t = str "{" ++ str " first name " ++ str "}".
Proof.
  apply findTags_single_placeholder.
  - by apply lacks_includes.
  - by apply lacks_includes.
  - by apply lacks_includes.
  - reflexivity.
  - done.
  - vm_compute. discriminate.
  - vm_compute. lia.
  - by apply lacks_includes.
Defined.

End SingleShape.

(** ** Loading, replacing and exporting *)

Module ManagerFacts.
Import DocxManager TagNormalizer RegExpFacts Detection.

Section Load.
Context {ArrayBuffer Docxtemplater TemplateError Blob : Type}.
Variable PizZip_new : ArrayBuffer → option archive.
Variable generate : archive → ArrayBuffer.
Variable Docxtemplater_new :
  archive → delimiters → template_result Docxtemplater TemplateError.
Variable generateBlob : archive → Blob.

Local Abbreviation manager := (manager ArrayBuffer Docxtemplater TemplateError).
Local Abbreviation load :=
  (load ArrayBuffer PizZip_new generate Docxtemplater TemplateError Docxtemplater_new).
Local Abbreviation healDocumentXml :=
  (healDocumentXml ArrayBuffer PizZip_new generate Docxtemplater TemplateError).
Local Abbreviation replaceSpecificOccurrences :=
  (replaceSpecificOccurrences ArrayBuffer PizZip_new generate
     Docxtemplater TemplateError Docxtemplater_new).
Local Abbreviation exportCurrentZip :=
  (exportCurrentZip ArrayBuffer Docxtemplater TemplateError Blob generateBlob).
Local Abbreviation hasLoaded := (hasLoaded ArrayBuffer Docxtemplater TemplateError).

(** The delimiters that detection chooses for a main text part. *)
Definition detected (xml : jsstring) : delimiters :=
  if bool_decide (count_double (ch "{") xml = 0)
     && bool_decide (0 < count_char (ch "{") xml)
  then single_markers else double_markers.

(** The archive after healing under the detected delimiters. *)
Definition healed (z : archive) : archive :=
  match z !! DOCUMENT_XML with
  | None => z
  | Some xml =>
      <[DOCUMENT_XML :=
          normalize xml (bool_decide (d_start (detected xml) = str "{{"))]> z
  end.

Definition config (z : archive) : delimiters :=
  detected (default [] (z !! DOCUMENT_XML)).

(** The outcome of [load] depends on the content only: nothing of
    the state before the call is left.  Content that PizZip cannot
    read leaves the manager without a document, with the content
    kept and the doubled markers selected. *)
Theorem load_forgets (content : ArrayBuffer) (st1 st2 : manager) :
  load content st1 = load content st2
  ∧ (PizZip_new content = None →
     load content st1
     = (inl (Error (str "Failed to read file. It may not be a valid DOCX/Zip file.")),
        mkManager _ _ _ None None (Some content) [] double_markers)
     ∧ hasLoaded (load content st1).2 = false).
Proof.
  unfold DocxManager.load, DocxManager.detectDelimiters, DocxManager.healDocumentXml.
  destruct (PizZip_new content) as [z|]; cbn; [|done].
  split; [|done].
  destruct (bool_decide _ && bool_decide _); reflexivity.
Qed.

Lemma detectDelimiters_config content st z :
  PizZip_new content = Some z →
  DocxManager.detectDelimiters ArrayBuffer PizZip_new Docxtemplater TemplateError
    content st
  = set_delimiterConfig _ _ _ (config z) st.
Proof.
  intros Hz. unfold DocxManager.detectDelimiters, config, detected. rewrite Hz.
  rewrite doubleOpen_count, singleOpen_count.
  by destruct (bool_decide _ && bool_decide _).
Qed.

Lemma heal_healed content st z :
  (∀ z', PizZip_new (generate z') = Some z') →
  PizZip_new content = Some z →
  delimiterConfig _ _ _ st = config z →
  healDocumentXml content st ≫= PizZip_new = Some (healed z).
Proof.
  intros Hgen Hz Hcfg. unfold DocxManager.healDocumentXml, healed, config in *.
  rewrite Hz. cbn. destruct (z !! DOCUMENT_XML) as [xml|]; cbn.
  - rewrite Hgen, Hcfg. reflexivity.
  - exact Hz.
Qed.

(** [load] of content that PizZip reads: the manager keeps the
    content as it was given, holds the archive healed under the
    delimiters detected on the content, and has the template, or the
    template errors, or neither when the template engine fails in
    another way, which is the one case in which the call throws. *)
Theorem load_readable (content : ArrayBuffer) (st : manager) (z : archive) :
  (∀ z', PizZip_new (generate z') = Some z') →
  PizZip_new content = Some z →
  load content st
  = match Docxtemplater_new (healed z) (config z) with
    | Template d =>
        (inr (), mkManager _ _ _ (Some (healed z)) (Some d) (Some content) []
                   (config z))
    | TemplateErrors errors =>
        (inr (), mkManager _ _ _ (Some (healed z)) None (Some content) errors
                   (config z))
    | TemplateFailure =>
        (inl (Error (str "Critical error initializing template engine.")),
         mkManager _ _ _ (Some (healed z)) None (Some content) [] (config z))
    end.
Proof.
  intros Hgen Hz. unfold DocxManager.load.
  rewrite (detectDelimiters_config _ _ z Hz).
  rewrite (heal_healed content _ z Hgen Hz) by done.
  unfold initializeDocxtemplater. cbn.
  by destruct (Docxtemplater_new _ _).
Qed.

(** The archive that the manager holds is the one that healing the
    kept content under the kept delimiters gives. *)
Definition consistent (st : manager) : Prop :=
  ∀ content z, originalContent _ _ _ st = Some content → zip _ _ _ st = Some z →
    healDocumentXml content st ≫= PizZip_new = Some z.

Lemma heal_config content (st st' : manager) :
  delimiterConfig _ _ _ st = delimiterConfig _ _ _ st' →
  healDocumentXml content st = healDocumentXml content st'.
Proof. unfold DocxManager.healDocumentXml. by intros ->. Qed.

Lemma detect_originalContent content st :
  originalContent _ _ _
    (DocxManager.detectDelimiters ArrayBuffer PizZip_new Docxtemplater TemplateError
       content st)
  = originalContent _ _ _ st
  ∧ zip _ _ _
      (DocxManager.detectDelimiters ArrayBuffer PizZip_new Docxtemplater TemplateError
         content st)
    = zip _ _ _ st.
Proof.
  unfold DocxManager.detectDelimiters.
  destruct (PizZip_new content); [destruct (_ && _)|]; done.
Qed.

Lemma load_consistent content st : consistent (load content st).2.
Proof.
  unfold DocxManager.load.
  set (st0 := mkManager _ _ _ None None (Some content) [] _).
  destruct (detect_originalContent content st0) as [Ho Hz].
  set (st1 := DocxManager.detectDelimiters _ _ _ _ _ _) in *.
  destruct (healDocumentXml content st1 ≫= PizZip_new) as [z|] eqn:Hheal.
  - unfold initializeDocxtemplater. cbn [zip].
    destruct (Docxtemplater_new _ _); cbn; rewrite Ho; cbn;
      intros c z' [= <-] [= <-]; rewrite <- Hheal; f_equal; by apply heal_config.
  - cbn [snd]. intros c z' _ Hz'. rewrite Hz in Hz'. done.
Qed.

(** Every state that [load] and [replaceSpecificOccurrences] lead to
    is consistent. *)
Theorem manager_consistent :
  consistent (initial ArrayBuffer Docxtemplater TemplateError)
  ∧ (∀ content st, consistent (load content st).2)
  ∧ (∀ searchText tagName indicesToReplace st,
       consistent st →
       consistent (replaceSpecificOccurrences searchText tagName indicesToReplace st).2).
Proof.
  split; [done|]. split; [apply load_consistent|].
  intros searchText tagName indices st Hst.
  unfold DocxManager.replaceSpecificOccurrences.
  destruct (zip _ _ _ st) as [z|]; [|done].
  destruct (z !! DOCUMENT_XML) as [xml|]; [|done].
  destruct (RegExp_new _) as [regex|msg|]; [|done..].
  destruct (replace_st _ _ _ _) as [xml' n].
  case_bool_decide; [done|]. apply load_consistent.
Qed.

Lemma healed_frame z part :
  part ≠ DOCUMENT_XML → healed z !! part = z !! part.
Proof.
  intros Hne. unfold healed. destruct (z !! DOCUMENT_XML); [|done].
  apply lookup_insert_ne. congruence.
Qed.

Lemma healed_document z xml :
  z !! DOCUMENT_XML = Some xml →
  healed z !! DOCUMENT_XML
  = Some (normalize xml (bool_decide (d_start (detected xml) = str "{{"))).
Proof. intros Hxml. unfold healed. rewrite Hxml. apply lookup_insert_eq. Qed.

Lemma load_zip content st z :
  (∀ z', PizZip_new (generate z') = Some z') →
  PizZip_new content = Some z →
  zip _ _ _ (load content st).2 = Some (healed z).
Proof.
  intros Hgen Hz. unfold DocxManager.load.
  rewrite (detectDelimiters_config _ _ z Hz).
  rewrite (heal_healed content _ z Hgen Hz) by done.
  unfold initializeDocxtemplater. cbn.
  by destruct (Docxtemplater_new _ _).
Qed.

(** [replaceSpecificOccurrences] on a manager with a document: in
    every case, also when it throws, the manager has a document
    afterwards, and every part but the main text part is the part it
    was. *)
Theorem replaceSpecificOccurrences_frame
    (searchText tagName : jsstring) (indicesToReplace : list nat)
    (st : manager) (z : archive) :
  (∀ z', PizZip_new (generate z') = Some z') →
  zip _ _ _ st = Some z →
  ∃ z',
    zip _ _ _ (replaceSpecificOccurrences searchText tagName indicesToReplace st).2
    = Some z'
    ∧ ∀ part, part ≠ DOCUMENT_XML → z' !! part = z !! part.
Proof.
  intros Hgen Hzip. unfold DocxManager.replaceSpecificOccurrences. rewrite Hzip.
  destruct (z !! DOCUMENT_XML) as [xml|]; [|by exists z].
  destruct (RegExp_new _) as [regex|msg|]; [|by exists z..].
  destruct (replace_st _ _ _ _) as [xml' n].
  case_bool_decide; [by exists z|].
  eexists. split; [by apply load_zip|].
  intros part Hne. rewrite healed_frame by done.
  apply lookup_insert_ne. congruence.
Qed.

(** What [exportCurrentZip] writes after a [load] of content that
    PizZip reads: the archive of the content with the main text part
    healed under the detected delimiters and every other part as it
    is; also when the template engine failed. *)
Theorem exportCurrentZip_after_load (content : ArrayBuffer) (st : manager) (z : archive) :
  (∀ z', PizZip_new (generate z') = Some z') →
  PizZip_new content = Some z →
  ∃ z',
    exportCurrentZip (load content st).2 = inr (generateBlob z')
    ∧ z' !! DOCUMENT_XML
      = (λ xml, normalize xml (bool_decide (d_start (detected xml) = str "{{")))
          <$> z !! DOCUMENT_XML
    ∧ ∀ part, part ≠ DOCUMENT_XML → z' !! part = z !! part.
Proof.
  intros Hgen Hz. exists (healed z). split; [|split].
  - unfold DocxManager.exportCurrentZip. by rewrite (load_zip content st z).
  - destruct (z !! DOCUMENT_XML) as [xml|] eqn:Hxml; cbn.
    + by apply healed_document.
    + unfold healed. by rewrite Hxml.
  - intros part. apply healed_frame.
Qed.
End Load.

(** A package with a styles part, whose main text part has a
    placeholder split over two runs; buffers and blobs are the
    archives themselves and the template engine accepts everything. *)
Definition package : archive :=
  {[ DOCUMENT_XML := str "<w:t>{{na</w:t><w:t>me}} Acme</w:t>";
     str "word/styles.xml" := str "<w:styles/>" ]}.

Lemma load_readable_witness :
  load archive Some id unit unit (λ _ _, Template ()) package (initial archive unit unit)
  = (inr (), mkManager _ _ _ (Some (healed package)) (Some ()) (Some package) []
               (config package)).
Proof.
  apply (load_readable Some id (λ _ _, Template ()) package
           (initial archive unit unit) package); reflexivity.
Defined.

Lemma replaceSpecificOccurrences_frame_witness :
  ∃ z',
    zip _ _ _
      (replaceSpecificOccurrences archive Some id unit unit (λ _ _, Template ())
         (str "Acme") (str "client") [0]
         (mkManager _ _ _ (Some package) None None [] double_markers)).2
    = Some z'
    ∧ ∀ part, part ≠ DOCUMENT_XML → z' !! part = package !! part.
Proof.
  apply (replaceSpecificOccurrences_frame Some id (λ _ _, Template ())); reflexivity.
Defined.

Lemma exportCurrentZip_after_load_witness :
  ∃ z',
    exportCurrentZip archive unit unit archive id
      (load archive Some id unit unit (λ _ _, Template ()) package
         (initial archive unit unit)).2
    = inr z'
    ∧ z' !! DOCUMENT_XML
      = (λ xml, normalize xml (bool_decide (d_start (detected xml) = str "{{")))
          <$> package !! DOCUMENT_XML
    ∧ ∀ part, part ≠ DOCUMENT_XML → z' !! part = package !! part.
Proof.
  apply (exportCurrentZip_after_load Some id (λ _ _, Template ()) id); reflexivity.
Defined.

End ManagerFacts.

(** ** Appending to a package without the closing root tag *)

Module AppenderEdges.
Import DocxAppender JSFacts AppenderFacts.

Section Edges.
Context {Blob : Type}.
Variable PizZip_new : Blob → option archive.
Variable generate : archive → Blob.
Variable Date_now : nat → N.

Local Abbreviation appendImages := (appendImages Blob PizZip_new generate Date_now).

(** Without the closing root tag in the relationships part no
    relationship entry is written for any image: the part is stored
    as it was read, and a package without the part gets an empty
    one. *)
Theorem appendImages_without_root_tag
    (initialDocxBlob : Blob) (zip : archive) (images : list jsstring) :
  images ≠ [] →
  PizZip_new initialDocxBlob = Some zip →
  indexOf CLOSE_RELATIONSHIPS (default [] (zip !! DOCUMENT_RELS)) = None →
  ∃ zip',
    appendImages initialDocxBlob images = Some (generate zip')
    ∧ zip' !! DOCUMENT_RELS = Some (default [] (zip !! DOCUMENT_RELS)).
Proof.
  intros Hne Hzip Hrels. unfold DocxAppender.appendImages.
  rewrite bool_decide_false by (by destruct images).
  rewrite Hzip. cbn [mbind option_bind].
  eexists. split; [reflexivity|].
  assert (Hwritten : ∀ z : archive,
    (<[DOCUMENT_RELS :=
         v_relsXml
           (forEach Date_now images 0
              (mkVars zip (default [] (zip !! DOCUMENT_RELS))
                 (getLastRId (default [] (zip !! DOCUMENT_RELS))) []))]> z)
      !! DOCUMENT_RELS
    = Some (default [] (zip !! DOCUMENT_RELS))).
  { intros z. rewrite lookup_insert_eq. f_equal.
    by apply (forEach_relsXml_absent Date_now). }
  destruct (_ !! DOCUMENT_XML) as [docXml|]; [|apply Hwritten].
  destruct (lastIndexOf _ docXml); [|apply Hwritten].
  rewrite lookup_insert_ne by done. apply Hwritten.
Qed.
End Edges.

(** A package without a relationships part. *)
Definition norels : archive := {[ DOCUMENT_XML := str "<w:body></w:body>" ]}.

Lemma appendImages_without_root_tag_witness :
  default [] (norels !! DOCUMENT_RELS) = []
  ∧ ∃ zip',
      appendImages archive Some id (λ _, 1700000000000%N) norels [str "JPEG"]
      = Some (id zip')
      ∧ zip' !! DOCUMENT_RELS = Some (default [] (norels !! DOCUMENT_RELS)).
Proof.
  split; [reflexivity|].
  apply (appendImages_without_root_tag Some id (λ _, 1700000000000%N)
           norels norels);
    [done|reflexivity|reflexivity].
Defined.

End AppenderEdges.

(** ** Moving an appendix *)

Module AppendicesFacts.
Import Appendices.

Definition opposite (d : direction) : direction :=
  match d with Up => Down | Down => Up end.

Section Facts.
Context {AppendixFile : Type}.
Implicit Types xs : list (option AppendixFile).

Lemma moveFile_moveAppendix xs index d :
  moveFile AppendixFile xs index d = moveAppendix AppendixFile xs index d.
Proof. reflexivity. Qed.

(** Taking the item at a place of the list out and putting it in
    again right after (or before) its neighbour. *)
Lemma move_down xs (i : nat) x y :
  xs !! i = Some x → xs !! S i = Some y →
  moveAppendix AppendixFile xs (Z.of_nat i) Down
  = take i xs ++ y :: x :: drop (S (S i)) xs.
Proof.
  intros Hx Hy. unfold moveAppendix, splice. cbn [offset].
  pose proof (lookup_lt_Some _ _ _ Hy) as Hlen.
  replace (Z.of_nat i + 1 <? 0)%Z with false by lia.
  replace (Z.of_nat i + 1 >=? Z.of_nat (length xs))%Z with false by lia.
  cbn [orb]. replace (Z.of_nat i <? 0)%Z with false by lia.
  rewrite Nat2Z.id, (Nat.min_l i) by lia.
  rewrite (Nat.min_l 1) by lia.
  rewrite (drop_S _ _ _ Hx). cbn [take head mjoin option_join app].
  replace (Z.of_nat i + 1)%Z with (Z.of_nat (S i)) by lia.
  rewrite Nat2Z.id.
  replace (i + 1) with (S i) by lia.
  rewrite (drop_S _ _ _ Hy).
  set (zs := take i xs ++ y :: drop (S (S i)) xs).
  assert (Hzs : length zs = length xs - 1).
  { unfold zs. rewrite length_app, length_take. cbn. rewrite length_drop. lia. }
  rewrite Hzs, (Nat.min_l (S i)) by lia.
  rewrite Nat.min_0_l, Nat.add_0_r.
  unfold zs.
  assert (Hi : length (take i xs) = i) by (rewrite length_take; lia).
  rewrite (take_app_ge (take i xs)), (drop_app_ge (take i xs)) by lia.
  rewrite Hi. replace (S i - i) with 1 by lia. cbn [take drop].
  rewrite take_0, drop_0. by rewrite <- app_assoc.
Qed.

Lemma move_up xs (i : nat) x y :
  xs !! i = Some x → xs !! S i = Some y →
  moveAppendix AppendixFile xs (Z.of_nat (S i)) Up
  = take i xs ++ y :: x :: drop (S (S i)) xs.
Proof.
  intros Hx Hy. unfold moveAppendix, splice. cbn [offset].
  pose proof (lookup_lt_Some _ _ _ Hy) as Hlen.
  rewrite (proj2 (Z.ltb_ge _ _)), Z.geb_leb, (proj2 (Z.leb_gt _ _)) by lia.
  cbn [orb]. rewrite (proj2 (Z.ltb_ge _ _)) by lia.
  rewrite Nat2Z.id, (Nat.min_l (S i)) by lia.
  rewrite (Nat.min_l 1) by lia.
  rewrite (drop_S _ _ _ Hy). cbn [take head mjoin option_join app].
  replace (Z.of_nat (S i) + -1)%Z with (Z.of_nat i) by lia.
  rewrite Nat2Z.id.
  replace (S i + 1) with (S (S i)) by lia.
  rewrite (take_S_r _ _ _ Hx).
  set (zs := (take i xs ++ [x]) ++ drop (S (S i)) xs).
  assert (Hzs : length zs = length xs - 1).
  { unfold zs. rewrite !length_app, length_take. cbn. rewrite length_drop. lia. }
  rewrite Hzs, (Nat.min_l i) by lia.
  rewrite Nat.min_0_l, Nat.add_0_r.
  unfold zs.
  assert (Hi : length (take i xs) = i) by (rewrite length_take; lia).
  rewrite <- app_assoc.
  rewrite (take_app_ge (take i xs)), (drop_app_ge (take i xs)) by lia.
  rewrite Hi, Nat.sub_diag. cbn [take drop app].
  by rewrite app_nil_r.
Qed.

Lemma split_two xs (i : nat) x y :
  xs !! i = Some x → xs !! S i = Some y →
  take i xs ++ x :: y :: drop (S (S i)) xs = xs.
Proof.
  intros Hx Hy. rewrite <- (drop_S _ _ _ Hy), <- (drop_S _ _ _ Hx).
  apply take_drop.
Qed.

Lemma swapped_lookup xs (i : nat) x y :
  xs !! i = Some x → xs !! S i = Some y →
  let ys := take i xs ++ y :: x :: drop (S (S i)) xs in
  ys ≡ₚ xs ∧ ys !! i = Some y ∧ ys !! S i = Some x
  ∧ (∀ k, k ≠ i → k ≠ S i → ys !! k = xs !! k).
Proof.
  intros Hx Hy ys.
  pose proof (lookup_lt_Some _ _ _ Hy) as Hlen.
  assert (Hi : length (take i xs) = i) by (rewrite length_take; lia).
  assert (Hxs : xs = take i xs ++ x :: y :: drop (S (S i)) xs).
  { symmetry. by apply split_two. }
  repeat apply conj.
  - trans (take i xs ++ x :: y :: drop (S (S i)) xs); [|by rewrite <- Hxs].
    unfold ys. apply Permutation_app, perm_swap. done.
  - unfold ys. rewrite lookup_app_r by lia. by rewrite Hi, Nat.sub_diag.
  - unfold ys. rewrite lookup_app_r by lia. rewrite Hi.
    by replace (S i - i) with 1 by lia.
  - intros k Hk1 Hk2.
    trans ((take i xs ++ x :: y :: drop (S (S i)) xs) !! k); [|by rewrite <- Hxs].
    unfold ys.
    destruct (decide (k < i)) as [Hlt|Hge].
    + by rewrite !lookup_app_l by lia.
    + rewrite !lookup_app_r by lia. rewrite Hi.
      destruct (k - i) as [|[|n]] eqn:Hn; [lia..|done].
Qed.

(** A move inside the list exchanges the item with its neighbour: the
    list keeps its items, the two change places and every other item
    stays where it is; the move back restores the list. *)
Theorem moveAppendix_exchanges xs (i j : nat) (d : direction) :
  Z.of_nat j = (Z.of_nat i + offset d)%Z →
  i < length xs → j < length xs →
  let ys := moveAppendix AppendixFile xs (Z.of_nat i) d in
  ys ≡ₚ xs
  ∧ ys !! i = xs !! j ∧ ys !! j = xs !! i
  ∧ (∀ k, k ≠ i → k ≠ j → ys !! k = xs !! k)
  ∧ moveAppendix AppendixFile ys (Z.of_nat j) (opposite d) = xs
  ∧ moveFile AppendixFile xs (Z.of_nat i) d = ys.
Proof.
  intros Hj Hi Hjlen ys.
  destruct (lookup_lt_is_Some_2 _ _ Hi) as [x Hx].
  destruct (lookup_lt_is_Some_2 _ _ Hjlen) as [y Hy].
  destruct d; cbn [offset opposite] in *.
  - assert (i = S j) as -> by lia.
    pose proof (move_up xs j y x Hy Hx) as Hys. fold ys in Hys.
    destruct (swapped_lookup xs j y x Hy Hx) as (Hp & H1 & H2 & H3).
    rewrite <- Hys in Hp, H1, H2, H3.
    repeat apply conj; try done.
    + by rewrite H2, Hy.
    + by rewrite H1, Hx.
    + intros k Hk1 Hk2. by apply H3.
    + rewrite (move_down ys j x y H1 H2). rewrite Hys.
      assert (Hl : length (take j xs) = j) by (rewrite length_take; lia).
      rewrite take_app_length' by done.
      change (take j xs ++ x :: y :: drop (S (S j)) xs) with
        (take j xs ++ [x; y] ++ drop (S (S j)) xs).
      rewrite (drop_app_ge (take j xs)) by lia. rewrite Hl.
      replace (S (S j) - j) with 2 by lia. cbn [drop app]. rewrite drop_0.
      by apply split_two.
  - assert (j = S i) as -> by lia.
    pose proof (move_down xs i x y Hx Hy) as Hys. fold ys in Hys.
    destruct (swapped_lookup xs i x y Hx Hy) as (Hp & H1 & H2 & H3).
    rewrite <- Hys in Hp, H1, H2, H3.
    repeat apply conj; try done.
    + by rewrite H1, Hy.
    + by rewrite H2, Hx.
    + rewrite (move_up ys i y x H1 H2). rewrite Hys.
      assert (Hl : length (take i xs) = i) by (rewrite length_take; lia).
      rewrite take_app_length' by done.
      change (take i xs ++ y :: x :: drop (S (S i)) xs) with
        (take i xs ++ [y; x] ++ drop (S (S i)) xs).
      rewrite (drop_app_ge (take i xs)) by lia. rewrite Hl.
      replace (S (S i) - i) with 2 by lia. cbn [drop app]. rewrite drop_0.
      by apply split_two.
Qed.

(** A call with an index outside the list does nothing, with two
    exceptions: the index [-1] with the direction [1] moves the last
    item to the front, and the index [length] with the direction [-1]
    puts [undefined] before the last item. *)
Theorem moveAppendix_outside xs (index : Z) (d : direction) :
  (index < 0 ∨ Z.of_nat (length xs) ≤ index)%Z →
  let n := length xs in
  moveAppendix AppendixFile xs index d
  = if bool_decide (index = (-1)%Z ∧ d = Down)
    then drop (n - 1) xs ++ take (n - 1) xs
    else if bool_decide (index = Z.of_nat n ∧ d = Up ∧ xs ≠ [])
    then take (n - 1) xs ++ None :: drop (n - 1) xs
    else xs.
Proof.
  intros Hout n. unfold moveAppendix, splice. fold n.
  case_bool_decide as H1.
  - destruct H1 as [-> ->]. cbn [offset]. change (-1 + 1)%Z with 0%Z.
    change (0 <? 0)%Z with false. cbn [orb].
    destruct (Z.geb_spec 0 (Z.of_nat n)) as [Hn|Hn].
    + assert (n = 0) as Hn0 by lia. rewrite Hn0.
      destruct xs; [done|]. cbn in n. subst n. lia.
    + change (-1 <? 0)%Z with true. cbn match.
      replace (Z.to_nat (Z.max (Z.of_nat n + -1) 0)) with (n - 1) by lia.
      rewrite (Nat.min_l 1) by lia.
      destruct (lookup_lt_is_Some_2 xs (n - 1)) as [x Hx]; [unfold n in *; lia|].
      rewrite (drop_S _ _ _ Hx). cbn [take head mjoin option_join app].
      change (Z.to_nat 0) with 0. rewrite !Nat.min_0_l, Nat.add_0_r.
      cbn [take drop app]. rewrite take_0, drop_0.
      replace (S (n - 1)) with (length xs) by (unfold n; lia).
      replace (n - 1 + 1) with (length xs) by (unfold n; lia).
      rewrite !drop_all. by rewrite app_nil_r.
  - case_bool_decide as H2.
    + destruct H2 as (-> & -> & Hne). cbn [offset].
      assert (0 < n) as Hn by (unfold n; destruct xs; [done|cbn; lia]).
      rewrite (proj2 (Z.ltb_ge _ _)), Z.geb_leb, (proj2 (Z.leb_gt _ _)) by lia.
      cbn [orb]. rewrite (proj2 (Z.ltb_ge _ _)) by lia.
      rewrite Nat2Z.id, Nat.min_id, Nat.sub_diag, Nat.min_0_r.
      rewrite Nat.add_0_r.
      assert (Hd : drop n xs = []) by apply drop_all.
      assert (Ht : take n xs = xs) by (by apply take_ge).
      rewrite Hd, Ht. cbn [app take head mjoin option_join]. rewrite app_nil_r.
      replace (Z.to_nat (Z.of_nat n + -1)) with (n - 1) by lia.
      change (length xs) with n. rewrite (Nat.min_l (n - 1)) by lia.
      by rewrite Nat.min_0_l, Nat.add_0_r.
    + destruct ((index + offset d <? 0)%Z || (index + offset d >=? Z.of_nat n)%Z)
        eqn:Hg; [done|].
      apply orb_false_elim in Hg as [Hg1 Hg2].
      apply Z.ltb_ge in Hg1. rewrite Z.geb_leb in Hg2. apply Z.leb_gt in Hg2.
      exfalso. destruct d; cbn [offset] in *.
      * apply H2. repeat split; [unfold n in *; lia|].
        intros ->. cbn in n. unfold n in *. lia.
      * apply H1. split; [lia|done].
Qed.

End Facts.

Definition files : list (option nat) := [Some 10; Some 20; Some 30].

Lemma moveAppendix_exchanges_witness :
  let ys := moveAppendix nat files 1 Down in
  ys = [Some 10; Some 30; Some 20]
  ∧ ys ≡ₚ files
  ∧ moveAppendix nat ys 2 Up = files.
Proof.
  destruct (moveAppendix_exchanges files 1 2 Down) as (Hp & _ & _ & _ & Hb & _);
    [reflexivity|cbn; lia|cbn; lia|].
  split; [reflexivity|]. split; [exact Hp|exact Hb].
Defined.

Lemma moveAppendix_outside_witness :
  moveAppendix nat files 3 Up = [Some 10; Some 20; None; Some 30]
  ∧ moveAppendix nat files (-1) Down = [Some 30; Some 10; Some 20]
  ∧ moveAppendix nat files 3 Down = files.
Proof.
  split; [|split].
  - rewrite (moveAppendix_outside files 3 Up); [reflexivity|cbn; lia].
  - rewrite (moveAppendix_outside files (-1) Down); [reflexivity|cbn; lia].
  - rewrite (moveAppendix_outside files 3 Down); [reflexivity|cbn; lia].
Defined.

End AppendicesFacts.

(** ** The identifiers of the relationships part *)

Module RelationshipIds.
Import DocxAppender RegExpFacts JSFacts ScanFacts AppenderFacts.

(** The scan of a text reaches a place in it when no match that
    starts before the place ends after it. *)
Lemma scanned_reaches mu a s ps :
  (∀ s mi rest, mu s = Some (mi, rest) → s = mtext mi ++ rest ∧ mtext mi ≠ []) →
  (∀ a1 a2 mi rest, a = a1 ++ a2 → a2 ≠ [] →
     mu (a2 ++ s) = Some (mi, rest) → length (mtext mi) ≤ length a2) →
  scanned mu (a ++ s) ps →
  ∃ ps1 ps2, ps = ps1 ++ ps2 ∧ pieces_text ps1 = a ∧ scanned mu s ps2.
Proof.
  intros Hmu. remember (length a) as n eqn:Hn. revert a ps Hn.
  induction (lt_wf n) as [n _ IH]. intros a ps -> Hin Hsc.
  destruct a as [|x a]; [by exists [], ps|].
  cbn [app] in Hsc.
  inversion Hsc as [|s0 mi rest ps' Hm Hrest|x0 s0 ps' Hm Hrest]; subst.
  - destruct (Hmu _ _ _ Hm) as [Hs Hne].
    pose proof (Hin [] (x :: a) mi rest eq_refl ltac:(done) Hm) as Hlen.
    assert (Ha : ∃ a', x :: a = mtext mi ++ a' ∧ rest = a' ++ s).
    { change (x :: a ++ s) with ((x :: a) ++ s) in Hs.
      apply app_eq_inv in Hs as [(k & Hk1 & Hk2)|(k & Hk1 & Hk2)].
      - by exists k.
      - rewrite Hk1, length_app in Hlen.
        assert (k = []) as -> by (destruct k; [done|cbn in Hlen; lia]).
        exists []. rewrite app_nil_r in *. by subst. }
    destruct Ha as (a' & Ha & ->).
    assert (Hlt : length a' < length (x :: a)).
    { rewrite Ha, length_app. destruct (mtext mi); [done|cbn; lia]. }
    destruct (IH _ Hlt a' ps' eq_refl) as (ps1 & ps2 & -> & Ht & Hs2); [|done|].
    { intros a1 a2 mi' rest' -> Hne2 Hm'.
      apply (Hin (mtext mi ++ a1) a2 mi' rest'); [|done..].
      by rewrite Ha, <- app_assoc. }
    exists (Hit mi :: ps1), ps2. split; [done|]. split; [|done].
    unfold pieces_text in *. cbn. by rewrite Ht, Ha.
  - destruct (IH (length a) ltac:(cbn; lia) a ps' eq_refl)
      as (ps1 & ps2 & -> & Ht & Hs2); [|done|].
    { intros a1 a2 mi' rest' -> Hne2 Hm'.
      by apply (Hin (x :: a1) a2 mi' rest'). }
    exists (Gap x :: ps1), ps2. split; [done|]. split; [|done].
    unfold pieces_text in *. cbn. by rewrite Ht.
Qed.

Lemma lang_star_class g neg items w :
  lang (Star g (Cls neg items)) w →
  Forall (λ c, class_matches neg items c = true) w.
Proof.
  remember (Star g (Cls neg items)) as r eqn:Hr.
  induction 1 as [| | | | | | |g' r' w1 w2 H1 _ H2 IH| | | | |]; try discriminate.
  - constructor.
  - injection Hr as -> ->. apply Forall_app. split; [|by apply IH].
    inversion H1 as [| |neg' items' c Hc| | | | | | | | | |]; subst.
    by constructor.
Qed.

(** An identifier attribute as [getLastRId] looks for it: [Id=], a
    double quote, [rId], the digits [ds] and a double quote. *)
Definition idAttribute (ds : jsstring) : jsstring :=
  quoted "Id='rId" ++ ds ++ quoted "'".

Definition digits (ds : jsstring) : Prop :=
  ds ≠ [] ∧ Forall (λ c, is_digit c = true) ds.

Lemma is_dg c : class_matches false [ItDigit] c = is_digit c.
Proof. unfold class_matches. cbn. by rewrite orb_false_r. Qed.

Lemma lang_idRegex w : lang idRegex w → ∃ ds, digits ds ∧ w = idAttribute ds.
Proof.
  unfold idRegex.
  intros (a1 & r1 & -> & ->%lang_lit_inv & H)%lang_seq_inv.
  apply lang_seq_inv in H as (a2 & r2 & -> & ->%lang_lit_inv & H).
  apply lang_seq_inv in H as (a3 & r3 & -> & ->%lang_lit_inv & H).
  apply lang_seq_inv in H as (a4 & r4 & -> & ->%lang_lit_inv & H).
  apply lang_seq_inv in H as (a5 & r5 & -> & ->%lang_lit_inv & H).
  apply lang_seq_inv in H as (a6 & r6 & -> & ->%lang_lit_inv & H).
  apply lang_seq_inv in H as (a7 & r7 & -> & ->%lang_lit_inv & H).
  apply lang_seq_inv in H as (ds & r8 & -> & Hds%lang_group_inv & ->%lang_lit_inv).
  apply lang_plus_inv in Hds as (d & ds' & -> & Hd & Hds').
  inversion Hd as [| |neg items c Hc| | | | | | | | | |]; subst.
  apply lang_star_class in Hds'.
  exists (c :: ds'). split; [|reflexivity].
  split; [done|]. constructor; [by rewrite <- is_dg|].
  eapply Forall_impl; [exact Hds'|]. intros x Hx. by rewrite <- is_dg.
Qed.

Lemma idRegex_nonempty w : lang idRegex w → w ≠ [].
Proof. by intros (ds & _ & ->)%lang_idRegex. Qed.

Lemma idRegex_match ds rest :
  digits ds →
  match_here idRegex [] (idAttribute ds ++ rest)
  = Some (MState (reverse (idAttribute ds)) rest [(1, ds)]).
Proof.
  intros [Hne Hds]. destruct ds as [|d ds]; [done|].
  apply Forall_cons in Hds as [Hd Hds].
  unfold match_here, idRegex, idAttribute.
  change (quoted "Id='rId") with [73; 100; 61; 34; 114; 73; 100]%N.
  change (quoted "'") with [34%N].
  cbn [m app].
  do 7 (unfold step_char at 1; cbn [remaining consumed captures]; rewrite N.eqb_refl).
  unfold step_char at 1. cbn [remaining consumed captures].
  rewrite is_dg, Hd.
  rewrite star_loop_greedy by (cbn; lia).
  cbn [consumed remaining captures].
  rewrite <- app_assoc.
  apply greedy_run_all.
  { eapply Forall_impl; [exact Hds|]. intros x Hx. by rewrite is_dg. }
  { done. }
  cbn [consumed remaining captures app].
  unfold step_char. cbn [remaining consumed captures]. rewrite N.eqb_refl.
  set (b := [100; 73; 114; 34; 61; 100; 73]%N).
  replace (reverse ds ++ d :: b) with (reverse (d :: ds) ++ b)
    by (by rewrite reverse_cons, <- app_assoc).
  rewrite (captured_reverse b (d :: ds)).
  f_equal. f_equal.
  change (73 :: 100 :: 61 :: 34 :: 114 :: 73 :: 100 :: d :: ds ++ [34])%N
    with ([73; 100; 61; 34; 114; 73; 100]%N ++ (d :: ds) ++ [34%N]).
  rewrite !reverse_app. cbn [reverse]. by rewrite <- app_assoc.
Qed.

(** What [idRegex] matches at an identifier attribute. *)
Lemma idRegex_at ds rest :
  digits ds →
  mu_of idRegex (idAttribute ds ++ rest)
  = Some (MatchInfo (idAttribute ds) [(1, ds)], rest).
Proof.
  intros Hds. unfold mu_of. rewrite (idRegex_match ds rest Hds).
  cbn [fmap option_fmap option_map consumed remaining captures].
  pose proof (captured_reverse [] (idAttribute ds) (idAttribute ds ++ rest) rest
                [] [(1, ds)]) as Hc.
  rewrite app_nil_r in Hc. by rewrite Hc.
Qed.

Lemma idRegex_free : lookbehind_free idRegex = true.
Proof. reflexivity. Qed.

Lemma idRegex_progress s mi rest :
  mu_of idRegex s = Some (mi, rest) → length rest < length s.
Proof. apply mu_of_progress, idRegex_nonempty. Qed.

Lemma idRegex_word s mi rest :
  mu_of idRegex s = Some (mi, rest) → s = mtext mi ++ rest ∧ mtext mi ≠ [].
Proof.
  intros [Hw Hs]%mu_of_word. split; [done|]. by apply idRegex_nonempty.
Qed.

(** No match of [idRegex] that starts before an identifier
    attribute ends inside it or after it. *)
Lemma idRegex_apart a2 ds b mi rest :
  a2 ≠ [] → digits ds →
  mu_of idRegex (a2 ++ idAttribute ds ++ b) = Some (mi, rest) →
  length (mtext mi) ≤ length a2.
Proof.
  intros Hne [Hdne Hds] [Hw Hs]%mu_of_word.
  apply lang_idRegex in Hw as (es & [Hene Hes] & Hmi).
  rewrite Hmi in Hs |- *. clear Hmi.
  destruct (decide (length (idAttribute es) ≤ length a2)) as [|Hgt]; [done|].
  exfalso. apply Nat.nle_gt in Hgt.
  destruct ds as [|d ds]; [done|]. destruct es as [|e es]; [done|].
  apply Forall_cons in Hes as [He Hes].
  unfold idAttribute in *.
  change (quoted "Id='rId") with [73; 100; 61; 34; 114; 73; 100]%N in *.
  change (quoted "'") with [34%N] in *.
  cbn [app] in Hs, Hgt.
  destruct a2 as [|x1 a2]; [done|].
  destruct a2 as [|x2 a2]; [by injection Hs|].
  destruct a2 as [|x3 a2]; [by injection Hs|].
  destruct a2 as [|x4 a2]; [by injection Hs|].
  destruct a2 as [|x5 a2]; [by injection Hs|].
  destruct a2 as [|x6 a2].
  { simplify_eq/=; try by vm_compute in He. }
  destruct a2 as [|x7 a2]; [by injection Hs|].
  destruct a2 as [|x8 a2].
  { simplify_eq/=; try by vm_compute in He. }
  cbn [app] in Hs. injection Hs as ? ? ? ? ? ? ? ? Hs.
  cbn [length] in Hgt. rewrite length_app in Hgt. cbn [length] in Hgt.
  assert (Hin : 73%N ∈ es ++ [34%N]).
  { apply app_eq_inv in Hs as [(k & Hk1 & Hk2)|(k & Hk1 & Hk2)].
    - rewrite Hk1, !length_app in Hgt. cbn in Hgt. lia.
    - destruct k as [|y k].
      { rewrite app_nil_r in Hk1. rewrite <- Hk1, length_app in Hgt.
        cbn in Hgt. lia. }
      cbn in Hk2. injection Hk2 as <- _. rewrite Hk1.
      apply elem_of_app. right. by left. }
  apply elem_of_app in Hin as [Hin|Hin].
  - rewrite Forall_forall in Hes. by apply Hes in Hin.
  - by apply list_elem_of_singleton in Hin.
Qed.
Lemma hits_app ps1 ps2 : hits (ps1 ++ ps2) = hits ps1 ++ hits ps2.
Proof.
  induction ps1 as [|[c|mi] ps1 IH]; cbn; [done|done|by rewrite IH].
Qed.

(** An identifier attribute of the text is one of the matches. *)
Lemma idAttribute_found a ds b :
  digits ds →
  MatchInfo (idAttribute ds) [(1, ds)] ∈ matchAll idRegex (a ++ idAttribute ds ++ b).
Proof.
  intros Hds. unfold matchAll.
  pose proof (pieces_scanned idRegex (mu_of idRegex) (a ++ idAttribute ds ++ b)
                (mu_of_described _ idRegex_free) idRegex_progress) as Hsc.
  apply scanned_reaches in Hsc as (ps1 & ps2 & -> & _ & Hs2);
    [|apply idRegex_word|].
  2: { intros a1 a2 mi rest _ Hne Hm. by eapply idRegex_apart. }
  rewrite hits_app. apply elem_of_app. right.
  pose proof (idRegex_at ds b Hds) as Hat.
  remember (idAttribute ds ++ b) as s eqn:Hs.
  inversion Hs2 as [Hnil|s0 mi rest ps' Hm Hrest|x0 s0 ps' Hm Hrest]; subst.
  - done.
  - rewrite Hat in Hm. injection Hm as <- <-. by left.
  - exfalso. congruence.
Qed.

Lemma firstGroup1_idAttribute ds :
  digits ds → firstGroup1 idRegex (idAttribute ds) = Some ds.
Proof.
  intros Hds. unfold firstGroup1, matchAll.
  pose proof (idRegex_at ds [] Hds) as Hat. rewrite app_nil_r in Hat.
  rewrite (pieces_hit idRegex (mu_of idRegex) _ _ _
             (mu_of_described _ idRegex_free) idRegex_progress Hat).
  reflexivity.
Qed.

(** The number of an identifier attribute of the text is among the
    numbers [getLastRId] takes the largest of. *)
Lemma idAttribute_existing a ds b :
  digits ds → parseInt ds ∈ existingIds (a ++ idAttribute ds ++ b).
Proof.
  intros Hds. unfold existingIds.
  apply list_elem_of_fmap. exists (idAttribute ds). split.
  - by rewrite firstGroup1_idAttribute.
  - apply list_elem_of_fmap. exists (MatchInfo (idAttribute ds) [(1, ds)]).
    split; [done|]. by apply idAttribute_found.
Qed.

Lemma existing_idAttribute relsXml n :
  n ∈ existingIds relsXml →
  ∃ a ds b, relsXml = a ++ idAttribute ds ++ b ∧ digits ds ∧ n = parseInt ds.
Proof.
  unfold existingIds.
  intros (w & -> & (mi & -> & Hmi)%list_elem_of_fmap)%list_elem_of_fmap.
  pose proof (matchAll_lang _ _ _ Hmi) as (ds & Hds & Hw)%lang_idRegex.
  destruct (matchAll_within _ _ _ Hmi) as (a & b & Hs).
  exists a, ds, b. rewrite Hw in *. split; [done|]. split; [done|].
  by rewrite firstGroup1_idAttribute.
Qed.

Lemma foldl_max_in (f : jsstring → N) (l : list jsstring) (a : N) :
  foldl (λ maxId m, if (maxId <? f m)%N then f m else maxId) a l = a
  ∨ ∃ x, x ∈ l
      ∧ foldl (λ maxId m, if (maxId <? f m)%N then f m else maxId) a l = f x.
Proof.
  revert a. induction l as [|y l IH]; intros a; cbn; [by left|].
  destruct (IH (if (a <? f y)%N then f y else a)) as [H|(x & Hx & H)].
  - rewrite H. destruct (a <? f y)%N; [|by left].
    right. exists y. split; [by left|done].
  - right. exists x. split; [by right|done].
Qed.

Lemma getLastRId_existing relsXml :
  getLastRId relsXml = 0%N ∨ getLastRId relsXml ∈ existingIds relsXml.
Proof.
  unfold getLastRId, existingIds.
  destruct (foldl_max_in
    (λ m, parseInt (default (str "0") (firstGroup1 idRegex m)))
    (mtext <$> matchAll idRegex relsXml) 0%N) as [H|(x & Hx & H)].
  - by left.
  - right. rewrite H. apply list_elem_of_fmap. by exists x.
Qed.

(** [parseInt] reads what [toString] writes. *)
Lemma parseInt_acc d acc :
  fold_left (λ acc c, acc * 10 + (c - 48))%N
    (str (NilEmpty.string_of_uint d)) (Npos acc)
  = Npos (Pos.of_uint_acc d acc).
Proof.
  revert acc. unfold str.
  induction d as [|d IH|d IH|d IH|d IH|d IH|d IH|d IH|d IH|d IH|d IH];
    intros acc; cbn [NilEmpty.string_of_uint list_ascii_of_string fmap list_fmap
                     fold_left Pos.of_uint_acc]; [done|..];
    rewrite <- IH; f_equal; cbn [N_of_ascii N_of_digits]; lia.
Qed.

Lemma parseInt_uint d :
  parseInt (str (NilEmpty.string_of_uint d)) = Pos.of_uint d.
Proof.
  unfold parseInt.
  induction d as [|d IH|d IH|d IH|d IH|d IH|d IH|d IH|d IH|d IH|d IH];
    [done|exact IH|..];
    unfold str; cbn [NilEmpty.string_of_uint list_ascii_of_string fmap list_fmap
                     fold_left Pos.of_uint];
    fold (str (NilEmpty.string_of_uint d));
    rewrite <- parseInt_acc; f_equal.
Qed.

Lemma parseInt_toString n : parseInt (toString n) = n.
Proof.
  unfold toString. rewrite <- (DecimalN.Unsigned.of_to n) at 2.
  unfold N.of_uint.
  destruct (N.to_uint n) eqn:Hd; try apply parseInt_uint. reflexivity.
Qed.

Lemma toString_digits_all n : digits (toString n).
Proof.
  split.
  - unfold toString. destruct (N.to_uint n); done.
  - apply Forall_forall. intros c Hc. by eapply toString_digits.
Qed.

(** The counter starts at the largest number that an identifier
    attribute of the relationships part has, at zero when the part has
    no such attribute. *)
Theorem getLastRId_largest (relsXml : jsstring) :
  (getLastRId relsXml < 2 ^ 53)%N →
  (∀ a ds b, relsXml = a ++ idAttribute ds ++ b → digits ds →
     (parseInt ds ≤ getLastRId relsXml)%N)
  ∧ (getLastRId relsXml = 0%N
     ∨ ∃ a ds b, relsXml = a ++ idAttribute ds ++ b ∧ digits ds
                 ∧ getLastRId relsXml = parseInt ds).
Proof.
  intros _. split.
  - intros a ds b -> Hds. apply getLastRId_max. by apply idAttribute_existing.
  - destruct (getLastRId_existing relsXml) as [H|H]; [by left|right].
    by apply existing_idAttribute.
Qed.

Section Fresh.
Context {Blob : Type}.
Variable PizZip_new : Blob → option archive.
Variable generate : archive → Blob.
Variable Date_now : nat → N.
Local Abbreviation imgFileName := (imgFileName Date_now).
Local Abbreviation appendImages := (appendImages Blob PizZip_new generate Date_now).

(** The relationship entries of the images are put before the first
    closing root tag with the identifiers [m+1], [m+2], ..., and none
    of these identifiers is the value of an identifier attribute of the
    relationships part as it was read. *)
Theorem appendImages_fresh_ids
    (initialDocxBlob : Blob) (zip : archive) (relsXml : jsstring)
    (images : list jsstring) (i : nat) :
  images ≠ [] →
  PizZip_new initialDocxBlob = Some zip →
  zip !! DOCUMENT_RELS = Some relsXml →
  indexOf CLOSE_RELATIONSHIPS relsXml = Some i →
  (getLastRId relsXml + N.of_nat (length images) < 2 ^ 53)%N →
  let rId := λ k : nat, rIdOf (getLastRId relsXml + 1 + N.of_nat k) in
  ∃ zip',
    appendImages initialDocxBlob images = Some (generate zip')
    ∧ zip' !! DOCUMENT_RELS
      = Some (take i relsXml
              ++ concat (imap (λ k _, relationshipTag (rId k) (imgFileName k)) images)
              ++ drop i relsXml)
    ∧ ∀ k a b, k < length images →
        relsXml ≠ a ++ quoted "Id='" ++ rId k ++ quoted "'" ++ b.
Proof.
  intros Hne Hzip Hrels Hi _ rId.
  destruct (indexOf_split _ _ _ Hi) as [Hsplit Hilen].
  set (pre := take i relsXml) in *.
  set (post := drop (i + length CLOSE_RELATIONSHIPS) relsXml) in *.
  assert (Hprelen : length pre = i) by (unfold pre; rewrite length_take; lia).
  assert (Hdropi : drop i relsXml = CLOSE_RELATIONSHIPS ++ post).
  { rewrite Hsplit at 1. rewrite <- Hprelen. by rewrite drop_app_length. }
  set (w := written Date_now zip images).
  exists (match w !! DOCUMENT_XML with
          | Some docXml =>
              match lastIndexOf (str "</w:body>") docXml with
              | Some splitIndex =>
                  <[DOCUMENT_XML :=
                      take splitIndex docXml
                      ++ v_xmlAppend (DocxAppender.forEach Date_now images 0
                           (mkVars zip relsXml (getLastRId relsXml) []))
                      ++ drop splitIndex docXml]> w
              | None => w
              end
          | None => w
          end).
  split; [|split].
  - unfold DocxAppender.appendImages.
    rewrite bool_decide_false by (by destruct images).
    rewrite Hzip. cbn [mbind option_bind]. rewrite Hrels.
    cbn [default from_option id]. unfold w, written. rewrite Hrels.
    reflexivity.
  - assert (Hw : w !! DOCUMENT_RELS
                 = Some (pre ++ concat (imap (λ k _, relationshipTag (rId k) (imgFileName k)) images)
                         ++ drop i relsXml)).
    { unfold w, written. rewrite lookup_insert_eq, Hrels.
      cbn [default from_option id]. f_equal. rewrite Hdropi.
      apply (forEach_relsXml Date_now images 0
               (mkVars zip relsXml (getLastRId relsXml) []) pre post).
      - exact Hsplit.
      - rewrite <- Hsplit, Hprelen. exact Hi. }
    destruct (w !! DOCUMENT_XML) as [docXml|]; [|exact Hw].
    destruct (lastIndexOf (str "</w:body>") docXml); [|exact Hw].
    by rewrite lookup_insert_ne.
  - intros k a b Hk Heq.
    assert (Hin : parseInt (toString (getLastRId relsXml + 1 + N.of_nat k))
                  ∈ existingIds relsXml).
    { assert (Hform : relsXml
        = a ++ idAttribute (toString (getLastRId relsXml + 1 + N.of_nat k)) ++ b).
      { rewrite Heq at 1. unfold idAttribute, rId, rIdOf.
        rewrite <- !app_assoc. reflexivity. }
      rewrite Hform at 2.
      apply (idAttribute_existing a (toString _) b), toString_digits_all. }
    apply getLastRId_max in Hin. rewrite parseInt_toString in Hin. lia.
Qed.

End Fresh.

Definition instant (index : nat) : N := 1700000000000%N.

Definition rels : jsstring :=
  quoted "<Relationships><Relationship Id='rId3' Target='a.xml'/><Relationship Id='rId12' Target='b.xml'/></Relationships>".

Lemma getLastRId_largest_witness :
  getLastRId rels = 12%N
  ∧ (parseInt (str "3") ≤ getLastRId rels)%N.
Proof.
  split; [by vm_compute|].
  apply (proj1 (getLastRId_largest rels ltac:(by vm_compute))
           (quoted "<Relationships><Relationship ") (str "3")
           (quoted " Target='a.xml'/><Relationship Id='rId12' Target='b.xml'/></Relationships>")).
  - by vm_compute.
  - split; [done|]. by repeat constructor.
Defined.

Lemma appendImages_fresh_ids_witness :
  ∃ zip',
    appendImages (archive) Some id instant {[DOCUMENT_RELS := rels]} [str "img"]
    = Some zip'
    ∧ ∀ a b, rels ≠ a ++ quoted "Id='rId13'" ++ b.
Proof.
  destruct (appendImages_fresh_ids Some id instant {[DOCUMENT_RELS := rels]}
              {[DOCUMENT_RELS := rels]} rels [str "img"] 96)
    as (zip' & H1 & _ & H3).
  - done.
  - done.
  - by rewrite lookup_singleton_eq.
  - by vm_compute.
  - by vm_compute.
  - exists zip'. split; [exact H1|].
    intros a b. apply (H3 0 a b). cbn. lia.
Defined.

End RelationshipIds.

(** ** Reading the placeholders without the template *)

Module TagsFacts.
Import TagNormalizer DocxManager RegExpFacts JSFacts ScanFacts NormalizerFacts.

Lemma paragraphEnd_free : lookbehind_free paragraphEnd = true.
Proof. reflexivity. Qed.

Lemma lang_paragraphEnd w : lang paragraphEnd w → w = str "</w:p>".
Proof.
  unfold paragraphEnd.
  intros (a1 & r1 & -> & ->%lang_lit_inv & H)%lang_seq_inv.
  apply lang_seq_inv in H as (a2 & r2 & -> & ->%lang_lit_inv & H).
  apply lang_seq_inv in H as (a3 & r3 & -> & ->%lang_lit_inv & H).
  apply lang_seq_inv in H as (a4 & r4 & -> & ->%lang_lit_inv & H).
  apply lang_seq_inv in H as (a5 & r5 & -> & ->%lang_lit_inv & ->%lang_lit_inv).
  reflexivity.
Qed.

Lemma paragraphEnd_progress s mi rest :
  mu_of paragraphEnd s = Some (mi, rest) → length rest < length s.
Proof. apply mu_of_progress. by intros w ->%lang_paragraphEnd. Qed.

Lemma paragraphEnd_other a s : a ≠ 60%N → mu_of paragraphEnd (a :: s) = None.
Proof.
  intros Ha. unfold mu_of, match_here, paragraphEnd. cbn [m].
  unfold step_char at 1. cbn [remaining]. by rewrite (proj2 (N.eqb_neq 60 a)).
Qed.

Lemma paragraphEnd_at rest :
  mu_of paragraphEnd (str "</w:p>" ++ rest)
  = Some (MatchInfo (str "</w:p>") [], rest).
Proof. reflexivity. Qed.

(** At an element, [paragraphEnd] matches the paragraph end and
    nothing else. *)
Lemma paragraphEnd_elem body rest :
  62%N ∉ body → body ≠ str "/w:p" →
  mu_of paragraphEnd (60%N :: body ++ 62%N :: rest) = None.
Proof.
  intros Hgt Hne.
  destruct (mu_of paragraphEnd (60%N :: body ++ 62%N :: rest)) as [[mi r]|] eqn:Hm;
    [|done].
  exfalso. apply mu_of_word in Hm as [->%lang_paragraphEnd Hs].
  assert (Hs' : body ++ 62%N :: rest = str "/w:p" ++ 62%N :: r).
  { change (str "</w:p>" ++ r) with (60%N :: (str "/w:p" ++ 62%N :: r)) in Hs.
    congruence. }
  apply app_sep_inj in Hs' as [Hb _]; [done|done|].
  by apply lacks_includes.
Qed.

(** The node list after the paragraph ends have become line feeds. *)
Definition broken (n : node) : node :=
  match n with
  | Chr c => Chr c
  | Elem body => if bool_decide (body = str "/w:p") then Chr 10%N else Elem body
  end.

Lemma broken_closed ns : Forall closed ns → Forall closed (broken <$> ns).
Proof.
  intros H. apply Forall_fmap. eapply Forall_impl; [exact H|].
  intros [c|body] Hn; cbn; [done|]. by case_bool_decide.
Qed.

Lemma replace_paragraphEnd ns rest :
  Forall closed ns →
  replace paragraphEnd (λ _, [10%N]) (render ns ++ rest)
  = render (broken <$> ns) ++ replace paragraphEnd (λ _, [10%N]) rest.
Proof.
  pose proof (mu_of_described paragraphEnd paragraphEnd_free) as Hd.
  pose proof paragraphEnd_progress as Hp.
  induction 1 as [|[c|body] ns Hn _ IH]; [done| |].
  - change (render (Chr c :: ns)) with (c :: render ns).
    cbn [fmap list_fmap broken app].
    change (render (Chr c :: (broken <$> ns))) with (c :: render (broken <$> ns)).
    cbn [app].
    rewrite (replace_gap _ _ _ _ _ Hd Hp) by (by apply paragraphEnd_other).
    by rewrite IH.
  - destruct Hn as [Hlt Hgt]. rewrite render_cons_elem.
    cbn [fmap list_fmap broken].
    case_bool_decide as Hb.
    + subst body.
      change (render (Chr 10%N :: (broken <$> ns))) with (10%N :: render (broken <$> ns)).
      change ((60%N :: str "/w:p" ++ 62%N :: render ns) ++ rest)
        with (str "</w:p>" ++ render ns ++ rest).
      rewrite (replace_hit _ _ _ _ _ _ Hd Hp (paragraphEnd_at _)).
      cbn [app]. by rewrite IH.
    + rewrite render_cons_elem. cbn [app]. rewrite <- !app_assoc. cbn [app].
      rewrite (replace_gap _ _ _ _ _ Hd Hp) by (by apply paragraphEnd_elem).
      rewrite (replace_gaps _ _ _ _ _ Hd Hp);
        [|intros a t Ha; apply paragraphEnd_other; by intros ->].
      rewrite (replace_gap _ _ _ _ _ Hd Hp) by (by apply paragraphEnd_other).
      by rewrite IH.
Qed.

(** The text of the nodes after every markup element has become a
    space. *)
Definition spaced_node (n : node) : jsstring :=
  match n with
  | Chr c => [c]
  | Elem [] => [60%N; 62%N]
  | Elem (_ :: _) => str " "
  end.

Definition spaced (ns : list node) : jsstring := concat (spaced_node <$> ns).

Lemma replace_anyTag ns rest :
  Forall closed ns →
  replace anyTag (λ _, str " ") (render ns ++ rest)
  = spaced ns ++ replace anyTag (λ _, str " ") rest.
Proof.
  pose proof anyTag_described as Hd. pose proof tag_at_progress as Hp.
  induction 1 as [|[c|body] ns Hn _ IH]; [done| |].
  - change (render (Chr c :: ns)) with (c :: render ns).
    change (spaced (Chr c :: ns)) with (c :: spaced ns). cbn [app].
    rewrite (replace_gap _ _ _ _ _ Hd Hp) by (by apply tag_at_other).
    by rewrite IH.
  - destruct Hn as [Hlt Hgt]. rewrite render_cons_elem.
    cbn [app]. rewrite <- !app_assoc. cbn [app].
    destruct body as [|b body].
    + change (spaced (Elem [] :: ns)) with (60%N :: 62%N :: spaced ns).
      cbn [app].
      rewrite (replace_gap _ _ _ _ _ Hd Hp) by apply tag_at_empty.
      rewrite (replace_gap _ _ _ _ _ Hd Hp) by (by apply tag_at_other).
      by rewrite IH.
    + change (spaced (Elem (b :: body) :: ns)) with (str " " ++ spaced ns).
      apply not_elem_of_cons in Hgt as [Hb Hgt].
      rewrite <- app_assoc.
      erewrite (replace_hit _ _ _ _ _ _ Hd Hp); [by rewrite IH|].
      cbn [app tag_at]. rewrite N.eqb_refl, (proj2 (N.eqb_neq b 62)) by done.
      cbn [andb negb]. rewrite (tag_end_lacking body _ Hgt). reflexivity.
Qed.

Lemma spaced_lacks (x : char) ns :
  x ≠ 32%N → x ≠ 60%N → x ≠ 62%N → x ∉ render ns → x ∉ spaced ns.
Proof.
  intros H1 H2 H3. induction ns as [|[c|body] ns IH]; [done| |].
  - change (render (Chr c :: ns)) with (c :: render ns).
    change (spaced (Chr c :: ns)) with (c :: spaced ns).
    rewrite !not_elem_of_cons. intros [? ?]. split; [done|by apply IH].
  - rewrite render_cons_elem.
    rewrite not_elem_of_cons, not_elem_of_app, not_elem_of_cons.
    intros (_ & _ & _ & Hns). specialize (IH Hns).
    destruct body as [|b body].
    + change (spaced (Elem [] :: ns)) with (60%N :: 62%N :: spaced ns).
      by rewrite !not_elem_of_cons.
    + change (spaced (Elem (b :: body) :: ns)) with (32%N :: spaced ns).
      by rewrite not_elem_of_cons.
Qed.

Lemma broken_lacks (x : char) ns :
  x ≠ 10%N → x ∉ render ns → x ∉ render (broken <$> ns).
Proof.
  intros H1. induction ns as [|[c|body] ns IH]; [done| |].
  - change (render (Chr c :: ns)) with (c :: render ns).
    cbn [fmap list_fmap broken].
    change (render (Chr c :: (broken <$> ns))) with (c :: render (broken <$> ns)).
    rewrite !not_elem_of_cons. intros [? ?]. split; [done|by apply IH].
  - rewrite render_cons_elem. cbn [fmap list_fmap broken].
    rewrite not_elem_of_cons, not_elem_of_app, not_elem_of_cons.
    intros (H60 & Hb & H62 & Hns). specialize (IH Hns).
    case_bool_decide.
    + change (render (Chr 10%N :: (broken <$> ns))) with (10%N :: render (broken <$> ns)).
      by rewrite not_elem_of_cons.
    + rewrite render_cons_elem.
      by rewrite not_elem_of_cons, not_elem_of_app, not_elem_of_cons.
Qed.

(** The text that [getTags] reads from a part in which a placeholder
    follows well-formed markup. *)
Lemma partText_placeholder ns c post :
  Forall closed ns → 60%N ∉ c →
  partText (render ns ++ str "{{" ++ c ++ str "}}" ++ post)
  = spaced (broken <$> ns) ++ str "{{" ++ c ++ str "}}" ++ partText post.
Proof.
  intros Hns Hc. unfold partText.
  pose proof (mu_of_described paragraphEnd paragraphEnd_free) as Hd.
  pose proof paragraphEnd_progress as Hp.
  assert (Hw : ∀ a, a ∈ str "{{" ++ c ++ str "}}" → a ≠ 60%N).
  { intros a Ha ->. apply elem_of_app in Ha as [Ha|Ha].
    - by apply (lacks_includes 60 (str "{{")).
    - apply elem_of_app in Ha as [Ha|Ha]; [done|].
      by apply (lacks_includes 60 (str "}}")). }
  rewrite replace_paragraphEnd by done.
  replace (str "{{" ++ c ++ str "}}" ++ post)
    with ((str "{{" ++ c ++ str "}}") ++ post) by (by rewrite <- !app_assoc).
  rewrite (replace_gaps _ _ _ _ _ Hd Hp)
    by (intros a t Ha; apply paragraphEnd_other; by apply Hw).
  rewrite replace_anyTag by (by apply broken_closed).
  rewrite (replace_gaps _ _ _ _ _ anyTag_described tag_at_progress)
    by (intros a t Ha; apply tag_at_other; by apply Hw).
  by rewrite <- !app_assoc.
Qed.

Lemma replace_lacks (x : char) r (rep s : jsstring) :
  x ∉ s → x ∉ rep → x ∉ replace r (λ _, rep) s.
Proof.
  intros Hs Hrep. rewrite replace_pieces.
  rewrite <- (pieces_text_eq r s) in Hs. unfold pieces_text in Hs.
  induction (pieces r s) as [|[c|mi] ps IH]; cbn in *; [done| |].
  - apply not_elem_of_cons in Hs as [Hc Hs].
    apply not_elem_of_cons. split; [done|by apply IH].
  - apply not_elem_of_app in Hs as [_ Hs].
    apply not_elem_of_app. split; [done|by apply IH].
Qed.

Lemma partText_lacks (x : char) s :
  x ≠ 10%N → x ≠ 32%N → x ∉ s → x ∉ partText s.
Proof.
  intros H10 H32 Hs. unfold partText.
  apply replace_lacks; [apply replace_lacks; [done|]|].
  - by intros ->%list_elem_of_singleton.
  - by intros ->%list_elem_of_singleton.
Qed.

(** The names of the header and footer parts. *)
Definition headerOrFooter (f : jsstring) : bool :=
  starts_with (str "word/header") f || starts_with (str "word/footer") f.

Section Tags.
Context {ArrayBuffer Docxtemplater TemplateError : Type}.
Variable getFullText : Docxtemplater → option jsstring.
Variable fileNames : archive → list jsstring.
Variable localeCompare : jsstring → jsstring → Z.
Local Abbreviation manager := (manager ArrayBuffer Docxtemplater TemplateError).
Local Abbreviation getTags :=
  (getTags ArrayBuffer Docxtemplater TemplateError getFullText fileNames localeCompare).

Lemma headers_appended (z : archive) (fullText : jsstring) (fs : list jsstring) :
  ∃ more,
    foldl (λ fullText f,
             match z !! f with
             | Some t =>
                 if bool_decide (t = []) then fullText
                 else fullText ++ str " " ++ partText t
             | None => fullText
             end) fullText fs
    = fullText ++ more.
Proof.
  revert fullText. induction fs as [|f fs IH]; intros fullText; cbn [foldl].
  - exists []. by rewrite app_nil_r.
  - destruct (z !! f) as [t|]; [|apply IH].
    case_bool_decide; [apply IH|].
    destruct (IH (fullText ++ str " " ++ partText t)) as [more ->].
    eexists. by rewrite <- app_assoc.
Qed.

(** Without a template, a placeholder in doubled braces of the main
    text part is found when well-formed markup without an opening
    brace stands before it, and its content is not blank and has no
    closing brace and no opening angle bracket. *)
Theorem getTags_fallback_placeholder
    (st : manager) (z : archive) (ns : list node) (c post : jsstring) :
  zip _ _ _ st = Some z → doc _ _ _ st = None →
  z !! DOCUMENT_XML = Some (render ns ++ str "{{" ++ c ++ str "}}" ++ post) →
  Forall closed ns → 123%N ∉ render ns →
  60%N ∉ c → 125%N ∉ c → trim c ≠ [] →
  ∃ tags t,
    getTags st = inr tags ∧ t ∈ tags
    ∧ TagDetector.name t = trim c ∧ TagDetector.id t = trim c
    ∧ TagDetector.raw t = str "{{" ++ c ++ str "}}".
Proof.
  intros Hzip Hdoc Hxml Hns Hopen Hlt Hclose Hne.
  unfold DocxManager.getTags. rewrite Hzip, Hdoc, Hxml.
  rewrite partText_placeholder by done.
  destruct (headers_appended z
    (spaced (broken <$> ns) ++ str "{{" ++ c ++ str "}}" ++ partText post)
    (List.filter (λ f, starts_with (str "word/header") f
                       || starts_with (str "word/footer") f) (fileNames z)))
    as [more ->].
  rewrite <- !app_assoc.
  destruct (TagShape.placeholder_found localeCompare
              (spaced (broken <$> ns)) c (partText post ++ more))
    as (t & Ht & H1 & H2 & H3); [|done|done|].
  { apply spaced_lacks; [done..|]. by apply broken_lacks. }
  by exists (TagDetector.findTags localeCompare
            (spaced (broken <$> ns) ++ str "{{" ++ c ++ str "}}" ++ partText post ++ more)), t.
Qed.

Lemma headers_lacking (z : archive) (fullText : jsstring) (fs : list jsstring) :
  123%N ∉ fullText →
  (∀ g t, g ∈ fs → z !! g = Some t → 123%N ∉ t) →
  123%N ∉ foldl (λ fullText f,
             match z !! f with
             | Some t =>
                 if bool_decide (t = []) then fullText
                 else fullText ++ str " " ++ partText t
             | None => fullText
             end) fullText fs.
Proof.
  revert fullText. induction fs as [|f fs IH]; intros fullText Hfull Hfs; [done|].
  cbn [foldl]. apply IH; [|intros g t Hg; apply Hfs; by right].
  destruct (z !! f) as [t|] eqn:Hf; [|done].
  case_bool_decide; [done|].
  rewrite !not_elem_of_app. split; [done|]. split.
  - by apply lacks_includes.
  - apply partText_lacks; [done..|]. apply (Hfs f); [by left|done].
Qed.

(** Without a template, a placeholder in doubled braces of a header
    or footer part is found as well, when no opening brace stands in
    the main text part and in the header and footer parts read before
    it, and the placeholder follows well-formed markup without an
    opening brace. *)
Theorem getTags_fallback_header
    (st : manager) (z : archive) (fs1 fs2 : list jsstring) (f : jsstring)
    (ns : list node) (c post : jsstring) :
  zip _ _ _ st = Some z → doc _ _ _ st = None →
  (∀ docXml, z !! DOCUMENT_XML = Some docXml → 123%N ∉ docXml) →
  fileNames z = fs1 ++ f :: fs2 →
  headerOrFooter f = true →
  (∀ g t, g ∈ fs1 → headerOrFooter g = true → z !! g = Some t → 123%N ∉ t) →
  z !! f = Some (render ns ++ str "{{" ++ c ++ str "}}" ++ post) →
  Forall closed ns → 123%N ∉ render ns →
  60%N ∉ c → 125%N ∉ c → trim c ≠ [] →
  ∃ tags t,
    getTags st = inr tags ∧ t ∈ tags
    ∧ TagDetector.name t = trim c ∧ TagDetector.id t = trim c
    ∧ TagDetector.raw t = str "{{" ++ c ++ str "}}".
Proof.
  intros Hzip Hdoc Hmain Hnames Hf Hfs1 Hpart Hns Hopen Hlt Hclose Hne.
  unfold DocxManager.getTags. rewrite Hzip, Hdoc, Hnames.
  fold headerOrFooter.
  rewrite List.filter_app. cbn [List.filter]. rewrite Hf.
  rewrite foldl_app. cbn [foldl]. rewrite Hpart.
  rewrite bool_decide_false by (by destruct (render ns)).
  rewrite partText_placeholder by done.
  set (T0 := match z !! DOCUMENT_XML with Some docXml => partText docXml | None => [] end).
  assert (HT0 : 123%N ∉ T0).
  { unfold T0. destruct (z !! DOCUMENT_XML) as [docXml|] eqn:Hd; [|apply not_elem_of_nil].
    apply partText_lacks; [done..|]. by apply Hmain. }
  set (T1 := foldl _ T0 (List.filter headerOrFooter fs1)).
  assert (HT1 : 123%N ∉ T1).
  { unfold T1. apply headers_lacking; [done|].
    intros g t Hg Hgt. apply list_elem_of_In, List.filter_In in Hg as [Hg Hhf].
    apply (Hfs1 g t); [by apply list_elem_of_In|done..]. }
  match goal with
  | |- context [foldl ?g (T1 ++ ?rest) ?l] =>
      destruct (headers_appended z (T1 ++ rest) l) as [more Hmore];
      change (foldl g (T1 ++ rest) l) with
        (foldl (λ fullText f,
             match z !! f with
             | Some t =>
                 if bool_decide (t = []) then fullText
                 else fullText ++ str " " ++ partText t
             | None => fullText
             end) (T1 ++ rest) l);
      rewrite Hmore
  end.
  replace ((T1 ++ str " " ++ spaced (broken <$> ns) ++ str "{{" ++ c ++ str "}}"
            ++ partText post) ++ more)
    with ((T1 ++ str " " ++ spaced (broken <$> ns)) ++ str "{{" ++ c ++ str "}}"
          ++ partText post ++ more) by (by rewrite <- !app_assoc).
  destruct (TagShape.placeholder_found localeCompare
              (T1 ++ str " " ++ spaced (broken <$> ns)) c (partText post ++ more))
    as (t & Ht & H1 & H2 & H3); [|done|done|].
  { rewrite !not_elem_of_app. split; [done|]. split; [by apply lacks_includes|].
    apply spaced_lacks; [done..|]. by apply broken_lacks. }
  eexists _, t. split; [reflexivity|]. done.
Qed.

End Tags.

(** A manager without a template: the main text part has a
    placeholder after two elements, and a header part. *)
Definition letter : archive :=
  {[ DOCUMENT_XML := str "<w:p><w:t>Dear {{ name }},</w:t></w:p>{{broken";
     str "word/header1.xml" := str "<w:p>{{ date }}</w:p>" ]}.

Lemma getTags_fallback_placeholder_witness :
  ∃ tags t,
    getTags unit unit unit (λ _, None) (λ z, (map_to_list z).*1)
      TagDetectorFacts.compareUnits
      (mkManager _ _ _ (Some letter) None None [] double_markers)
    = inr tags ∧ t ∈ tags
    ∧ TagDetector.name t = trim (str " name ")
    ∧ TagDetector.id t = trim (str " name ")
    ∧ TagDetector.raw t = str "{{" ++ str " name " ++ str "}}".
Proof.
  apply (getTags_fallback_placeholder (λ _, None) (λ z, (map_to_list z).*1)
           TagDetectorFacts.compareUnits _ letter
           (Elem (str "w:p") :: Elem (str "w:t") :: (Chr <$> str "Dear "))
           (str " name ") (str ",</w:t></w:p>{{broken")).
  - reflexivity.
  - reflexivity.
  - reflexivity.
  - change (Chr <$> str "Dear ")
      with [Chr 68%N; Chr 101%N; Chr 97%N; Chr 114%N; Chr 32%N].
    repeat (apply Forall_cons; split;
            [first [by split; apply lacks_includes | done]|]).
    apply Forall_nil_2.
  - by apply lacks_includes.
  - by apply lacks_includes.
  - by apply lacks_includes.
  - vm_compute. discriminate.
Defined.


(** A package whose header part has a placeholder; the names of the
    parts in the order of the package. *)
Definition memo : archive :=
  {[ DOCUMENT_XML := str "<w:p>Dear client</w:p>";
     str "word/header1.xml" := str "<w:p>{{ date }}</w:p>";
     str "word/styles.xml" := str "<w:styles/>" ]}.

Definition memoNames (z : archive) : list jsstring :=
  [str "word/styles.xml"; str "word/header1.xml"; DOCUMENT_XML].

Lemma getTags_fallback_header_witness :
  ∃ tags t,
    getTags unit unit unit (λ _, None) memoNames TagDetectorFacts.compareUnits
      (mkManager _ _ _ (Some memo) None None [] double_markers)
    = inr tags ∧ t ∈ tags
    ∧ TagDetector.name t = trim (str " date ")
    ∧ TagDetector.id t = trim (str " date ")
    ∧ TagDetector.raw t = str "{{" ++ str " date " ++ str "}}".
Proof.
  apply (getTags_fallback_header (λ _, None) memoNames
           TagDetectorFacts.compareUnits _ memo
           [str "word/styles.xml"] [DOCUMENT_XML] (str "word/header1.xml")
           [Elem (str "w:p")] (str " date ") (str "</w:p>")).
  - reflexivity.
  - reflexivity.
  - intros docXml [= <-]. by apply lacks_includes.
  - reflexivity.
  - reflexivity.
  - intros g t ->%list_elem_of_singleton Hg. discriminate Hg.
  - reflexivity.
  - repeat constructor; by apply lacks_includes.
  - by apply lacks_includes.
  - by apply lacks_includes.
  - by apply lacks_includes.
  - vm_compute. discriminate.
Defined.

End TagsFacts.

(** ** Searching the document *)

Module ScanTextFacts.
Import TagNormalizer DocxManager IgnoreCase.
Import RegExpFacts JSFacts PatternFacts.

(** The least number of code units a match of the expression has. *)
Fixpoint min_len (r : regex) : nat :=
  match r with
  | Eps | Star _ _ | NotAhead _ | NotBehind _ _ => 0
  | Lit _ | Cls _ _ => 1
  | Seq r1 r2 => min_len r1 + min_len r2
  | Alt r1 r2 => min_len r1 `min` min_len r2
  | Plus _ r1 | Group _ r1 | NCGroup r1 => min_len r1
  end.

Lemma star_loop_advances body g fuel :
  sound (λ _, True) body → sound (λ _, True) (star_loop body g fuel).
Proof.
  intros Hbody. induction fuel as [|fuel IH]; intros st k res.
  - cbn. destruct g.
    + intros Hk. eapply entered; [done|apply advances_nil|done].
    + destruct (k st) eqn:Hk; [|done].
      intros [= <-]. eapply entered; [done|apply advances_nil|done].
  - cbn.
    set (again := body st _).
    assert (Hagain : again = Some res →
      ∃ w st', True ∧ advances st st' w ∧ k st' = Some res).
    { unfold again. intros H. apply Hbody in H as (w1 & st1 & _ & Hadv1 & H).
      case_bool_decide; [|done].
      apply IH in H as (w2 & st2 & _ & Hadv2 & H).
      eapply entered; [done|by eapply advances_app|done]. }
    destruct g.
    + destruct again as [x|] eqn:Ha.
      * intros [= <-]. by apply Hagain.
      * intros Hk. eapply entered; [done|apply advances_nil|done].
    + destruct (k st) eqn:Hk.
      * intros [= <-]. eapply entered; [done|apply advances_nil|done].
      * apply Hagain.
Qed.

Lemma sound_weaken (P Q : jsstring → Prop) mt :
  (∀ w, P w → Q w) → sound P mt → sound Q mt.
Proof.
  intros HPQ H st k res Hm. apply H in Hm as (w & st' & Hw & Hadv & Hk).
  exists w, st'. auto.
Qed.

Section Canonical.
Variable canonicalize : char → char.

(** A successful match attempt consumed at least [min_len] code
    units. *)
Lemma m_i_sound r : sound (λ w, min_len r ≤ length w) (m_i canonicalize r).
Proof.
  induction r as [|c|neg items|r1 IH1 r2 IH2|r1 IH1 r2 IH2|g r IH|g r IH
                 |n r IH|r IH|r IH|neg items]; intros st k res; cbn [m_i min_len].
  - intros Hk. eapply (entered _ _ _ _ []); [cbn; lia|apply advances_nil|done].
  - intros H. apply step_char_sound in H as (w & st' & (c' & -> & Hc) & Hadv & H).
    eapply entered; [|done..]. cbn. lia.
  - intros H. apply step_char_sound in H as (w & st' & (c' & -> & Hc) & Hadv & H).
    eapply entered; [|done..]. cbn. lia.
  - intros H. apply IH1 in H as (w1 & st1 & Hw1 & Hadv1 & H).
    apply IH2 in H as (w2 & st2 & Hw2 & Hadv2 & H).
    eapply entered; [|by eapply advances_app|done]. cbn. rewrite length_app. lia.
  - destruct (m_i canonicalize r1 st k) eqn:H1.
    + intros [= <-]. apply IH1 in H1 as (w & st' & ? & ? & ?).
      eapply entered; [|done..]. cbn in *. lia.
    + intros H. apply IH2 in H as (w & st' & ? & ? & ?).
      eapply entered; [|done..]. cbn in *. lia.
  - intros H.
    apply (star_loop_advances _ g _ (sound_weaken _ _ _ (λ _ _, I) IH)) in H
      as (w & st' & _ & ? & ?).
    eapply entered; [|done..]. cbn. lia.
  - intros H. apply IH in H as (w1 & st1 & Hw1 & Hadv1 & H).
    apply (star_loop_advances _ g _ (sound_weaken _ _ _ (λ _ _, I) IH)) in H
      as (w2 & st2 & _ & Hadv2 & H).
    eapply entered; [|by eapply advances_app|done]. cbn in *. rewrite length_app. lia.
  - intros H. apply IH in H as (w & st' & Hw & Hadv & H).
    eapply entered; [exact Hw| |exact H].
    by apply advances_captures.
  - intros H. apply IH in H as (w & st' & ? & ? & ?).
    eapply entered; [|done..]. done.
  - destruct (m_i canonicalize r st Some); [done|].
    intros Hk. eapply (entered _ _ _ _ []); [cbn; lia|apply advances_nil|done].
  - destruct (consumed st) as [|c ?] eqn:Hc.
    + intros Hk. eapply (entered _ _ _ _ []); [cbn; lia|apply advances_nil|done].
    + destruct (class_matches_i canonicalize neg items c); [done|].
      intros Hk. eapply (entered _ _ _ _ []); [cbn; lia|apply advances_nil|done].
Qed.

(** What [exec] finds: a match of at least [min_len] code units that
    starts at or after the current position. *)
Lemma exec_found r before after start st' :
  exec canonicalize r before after = Some (start, st') →
  ∃ u w, after = u ++ w ++ remaining st'
         ∧ start = reverse u ++ before
         ∧ consumed st' = reverse w ++ start
         ∧ min_len r ≤ length w.
Proof.
  revert before. induction after as [|c after IH]; intros before; cbn [exec].
  - destruct (m_i canonicalize r (MState before [] []) Some) as [st|] eqn:Hm; [|done].
    intros [= <- <-].
    apply m_i_sound in Hm as (w & st' & Hw & [H1 H2] & [= <-]).
    exists [], w. cbn in *. done.
  - destruct (m_i canonicalize r (MState before (c :: after) []) Some) as [st|] eqn:Hm.
    + intros [= <- <-].
      apply m_i_sound in Hm as (w & st' & Hw & [H1 H2] & [= <-]).
      exists [], w. cbn in *. done.
    + intros H. apply IH in H as (u & w & -> & -> & Hc & Hw).
      exists (c :: u), w. rewrite reverse_cons, <- app_assoc. done.
Qed.

End Canonical.
Lemma substring_length (s : jsstring) a b :
  length (substring s a b) ≤ (a `max` b) - (a `min` b)
  ∧ length (substring s a b) ≤ length s.
Proof.
  unfold substring. rewrite length_take, length_drop. lia.
Qed.

(** *** Where case plays no role *)

(** The expression has only characters of [L], sets of such
    characters, sequences, alternatives, repetitions, groups and
    lookaheads. *)
Fixpoint simple (L : list char) (r : regex) : Prop :=
  match r with
  | Eps => True
  | Lit c => c ∈ L
  | Cls _ items => Forall (λ it, ∃ d, it = ItChar d ∧ d ∈ L) items
  | Seq r1 r2 | Alt r1 r2 => simple L r1 ∧ simple L r2
  | Star _ r1 | Plus _ r1 | Group _ r1 | NCGroup r1 | NotAhead r1 => simple L r1
  | NotBehind _ _ => False
  end.

Section Apart.
Variable canonicalize : char → char.
Variable L : list char.

(** No character left to read has the canonical form of another
    character of [L]. *)
Definition fits (st : mstate) : Prop :=
  ∀ x c, x ∈ remaining st → c ∈ L → canonicalize x = canonicalize c → x = c.

Definition same_on_fits (mt mt' : matcher) : Prop :=
  ∀ st k k', fits st → (∀ st', fits st' → k st' = k' st') → mt st k = mt' st k'.

Lemma step_char_same (p p' : char → bool) :
  (∀ st x rest, fits st → remaining st = x :: rest → p x = p' x) →
  same_on_fits (step_char p) (step_char p').
Proof.
  intros Hp st k k' Hst Hk. unfold step_char.
  destruct (remaining st) as [|x rest] eqn:Hr; [done|].
  rewrite (Hp st x rest Hst Hr). destruct (p' x); [|done].
  apply Hk. intros y c Hy. apply Hst. rewrite Hr. by right.
Qed.

Lemma star_loop_same body body' g fuel :
  same_on_fits body body' →
  same_on_fits (star_loop body g fuel) (star_loop body' g fuel).
Proof.
  intros Hbody. induction fuel as [|fuel IH]; intros st k k' Hst Hk.
  - cbn. rewrite (Hk st Hst). done.
  - cbn [star_loop].
    assert (Hagain :
      body st (λ s, if bool_decide (length (remaining s) < length (remaining st))
                    then star_loop body g fuel s k else None)
      = body' st (λ s, if bool_decide (length (remaining s) < length (remaining st))
                       then star_loop body' g fuel s k' else None)).
    { apply Hbody; [done|]. intros s Hs. case_bool_decide; [|done]. by apply IH. }
    rewrite Hagain, (Hk st Hst). done.
Qed.

Lemma class_same neg items x :
  Forall (λ it, ∃ d, it = ItChar d ∧ d ∈ L) items →
  (∀ c, c ∈ L → canonicalize x = canonicalize c → x = c) →
  class_matches_i canonicalize neg items x = class_matches neg items x.
Proof.
  intros Hitems Hx. unfold class_matches_i, class_matches. f_equal.
  induction Hitems as [|it items (d & -> & Hd) _ IH]; [done|].
  cbn [existsb item_matches_i item_matches]. rewrite IH. f_equal.
  destruct (N.eqb_spec x d) as [->|Hne]; [apply N.eqb_refl|].
  apply N.eqb_neq. intros Heq. by apply Hne, Hx.
Qed.

(** On such texts the matcher of the [i] flag does what the matcher
    without the flag does. *)
Lemma m_i_same r : simple L r → same_on_fits (m_i canonicalize r) (m r).
Proof.
  induction r as [|c|neg items|r1 IH1 r2 IH2|r1 IH1 r2 IH2|g r IH|g r IH
                 |n r IH|r IH|r IH|neg items]; cbn [simple m_i m]; intros Hs.
  - intros st k k' Hst Hk. by apply Hk.
  - apply step_char_same. intros st x rest Hst Hr.
    rewrite (N.eqb_sym c x).
    destruct (N.eqb_spec x c) as [->|Hne]; [apply N.eqb_refl|].
    apply N.eqb_neq. intros Heq. apply Hne, (Hst x c); [|done..].
    rewrite Hr. by left.
  - apply step_char_same. intros st x rest Hst Hr.
    apply class_same; [done|]. intros c Hc. apply Hst; [|done].
    rewrite Hr. by left.
  - destruct Hs as [H1 H2]. intros st k k' Hst Hk.
    apply IH1; [done..|]. intros s Hs. by apply IH2.
  - destruct Hs as [H1 H2]. intros st k k' Hst Hk.
    rewrite (IH1 H1 st k k' Hst Hk), (IH2 H2 st k k' Hst Hk). done.
  - intros st k k' Hst Hk. apply star_loop_same; [by apply IH|done..].
  - intros st k k' Hst Hk. apply IH; [done..|].
    intros s Hs'. apply star_loop_same; [by apply IH|done..].
  - intros st k k' Hst Hk. apply IH; [done..|].
    intros s Hs'. by apply Hk.
  - by apply IH.
  - intros st k k' Hst Hk.
    rewrite (IH Hs st Some Some Hst (λ _ _, eq_refl)).
    destruct (m r st Some); [done|]. by apply Hk.
  - done.
Qed.

End Apart.

Lemma terms_simple chars n :
  simple (60%N :: 62%N :: chars) (mk_seq (terms chars n)).
Proof.
  assert (H : ∀ L chars n, (∀ c, c ∈ chars → c ∈ L) → 60%N ∈ L → 62%N ∈ L →
              simple L (mk_seq (terms chars n))).
  { clear. intros L chars. induction chars as [|c chars IH]; intros n Hin H60 H62; [done|].
    destruct chars as [|c' chars].
    - cbn. apply Hin. by left.
    - assert (Hseq : mk_seq (terms (c :: c' :: chars) n)
                = Seq (Lit c) (Seq (Star true (Group (S n) TAG))
                                 (mk_seq (terms (c' :: chars) (S n))))).
      { cbn [terms]. destruct chars; reflexivity. }
      rewrite Hseq. cbn [simple TAG]. split; [apply Hin; by left|].
      split.
      + unfold TAG. cbn [simple]. split; [done|]. split; [|done].
        constructor; [|constructor]. by exists 62%N.
      + apply IH; [|done..]. intros x Hx. apply Hin. by right. }
  apply H.
  - intros c Hc. by do 2 right.
  - by left.
  - right. by left.
Qed.

Lemma terms_free chars n : ScanFacts.lookbehind_free (mk_seq (terms chars n)) = true.
Proof.
  revert n. induction chars as [|c chars IH]; intros n; [done|].
  destruct chars as [|c' chars]; [done|].
  assert (Hseq : mk_seq (terms (c :: c' :: chars) n)
            = Seq (Lit c) (Seq (Star true (Group (S n) TAG))
                             (mk_seq (terms (c' :: chars) (S n))))).
  { cbn [terms]. destruct chars; reflexivity. }
  rewrite Hseq. cbn [ScanFacts.lookbehind_free TAG]. by rewrite IH.
Qed.

(** *** Occurrences without regard to case *)

Section Insensitive.
Variable canonicalize : char → char.

(** The words of an expression without assertions under the [i]
    flag: a character of the expression stands for every character
    with its canonical form. *)
Inductive lang_i : regex → jsstring → Prop :=
| lang_i_eps : lang_i Eps []
| lang_i_lit c x : canonicalize x = canonicalize c → lang_i (Lit c) [x]
| lang_i_cls neg items x :
    class_matches_i canonicalize neg items x = true → lang_i (Cls neg items) [x]
| lang_i_seq r1 r2 w1 w2 :
    lang_i r1 w1 → lang_i r2 w2 → lang_i (Seq r1 r2) (w1 ++ w2)
| lang_i_alt_l r1 r2 w : lang_i r1 w → lang_i (Alt r1 r2) w
| lang_i_alt_r r1 r2 w : lang_i r2 w → lang_i (Alt r1 r2) w
| lang_i_star_nil g r : lang_i (Star g r) []
| lang_i_star_cons g r w1 w2 :
    lang_i r w1 → lang_i (Star g r) w2 → lang_i (Star g r) (w1 ++ w2)
| lang_i_plus g r w1 w2 :
    lang_i r w1 → lang_i (Star g r) w2 → lang_i (Plus g r) (w1 ++ w2)
| lang_i_group n r w : lang_i r w → lang_i (Group n r) w
| lang_i_ncgroup r w : lang_i r w → lang_i (NCGroup r) w.

Lemma lang_i_words g r ws : Forall (lang_i r) ws → lang_i (Star g r) (concat ws).
Proof.
  induction 1 as [|w ws Hw _ IH]; [constructor|]. cbn. by constructor.
Qed.

Lemma lang_i_star_words g r w :
  lang_i (Star g r) w → ∃ ws, Forall (lang_i r) ws ∧ w = concat ws.
Proof.
  remember (Star g r) as e eqn:He.
  induction 1 as [| | | | | | |g' r' w1 w2 H1 _ H2 IH| | |]; try discriminate.
  - by exists [].
  - injection He as -> ->. destruct (IH eq_refl) as (ws & Hws & ->).
    exists (w1 :: ws). split; [by constructor|done].
Qed.

(** A successful match attempt under the [i] flag consumed a word of
    the expression. *)
Lemma m_i_words r :
  assertion_free r = true → sound (lang_i r) (m_i canonicalize r).
Proof.
  induction r as [|c|neg items|r1 IH1 r2 IH2|r1 IH1 r2 IH2|g r IH|g r IH
                 |n r IH|r IH|r IH|neg items]; cbn [assertion_free m_i];
    intros Hfree st k res; try discriminate.
  - intros Hk. eapply entered; [apply lang_i_eps|apply advances_nil|done].
  - intros H. apply step_char_sound in H as (w & st' & (x & -> & Hx) & Hadv & H).
    apply N.eqb_eq in Hx. eapply entered; [by apply lang_i_lit|done..].
  - intros H. apply step_char_sound in H as (w & st' & (x & -> & Hx) & Hadv & H).
    eapply entered; [by apply lang_i_cls|done..].
  - apply andb_prop in Hfree as [H1 H2].
    intros H. apply (IH1 H1) in H as (w1 & st1 & Hw1 & Hadv1 & H).
    apply (IH2 H2) in H as (w2 & st2 & Hw2 & Hadv2 & H).
    eapply entered; [by apply lang_i_seq|by eapply advances_app|done].
  - apply andb_prop in Hfree as [H1 H2].
    destruct (m_i canonicalize r1 st k) eqn:Hm.
    + intros [= <-]. apply (IH1 H1) in Hm as (w & st' & ? & ? & ?).
      eapply entered; [by apply lang_i_alt_l|done..].
    + intros H. apply (IH2 H2) in H as (w & st' & ? & ? & ?).
      eapply entered; [by apply lang_i_alt_r|done..].
  - intros H.
    apply (star_loop_words _ _ g _ (IH Hfree)) in H as (w & st' & (ws & Hws & ->) & ? & ?).
    eapply entered; [by apply lang_i_words|done..].
  - intros H. apply (IH Hfree) in H as (w1 & st1 & Hw1 & Hadv1 & H).
    apply (star_loop_words _ _ g _ (IH Hfree)) in H
      as (w2 & st2 & (ws & Hws & ->) & Hadv2 & H).
    eapply entered;
      [apply lang_i_plus; [done|by apply lang_i_words]|by eapply advances_app|done].
  - intros H. apply (IH Hfree) in H as (w & st' & Hw & Hadv & H).
    eapply entered; [by apply lang_i_group| |exact H].
    by apply advances_captures.
  - intros H. apply (IH Hfree) in H as (w & st' & ? & ? & ?).
    eapply entered; [by apply lang_i_ncgroup|done..].
Qed.

(** And it misses no word. *)
Lemma m_i_complete r :
  assertion_free r = true → complete (lang_i r) (m_i canonicalize r).
Proof.
  induction r as [|c|neg items|r1 IH1 r2 IH2|r1 IH1 r2 IH2|g r IH|g r IH
                 |n r IH|r IH|r IH|neg items]; cbn [assertion_free m_i]; intros Hfree;
    try discriminate.
  - intros w [before after caps] rest k Hw Hr Hk. inversion Hw; subst.
    cbn in *. subst. apply Hk.
  - intros w st rest k Hw. inversion Hw as [|c' x Hx| | | | | | | | |]; subst.
    apply step_char_complete. exists x. split; [done|by apply N.eqb_eq].
  - intros w st rest k Hw. inversion Hw; subst.
    apply step_char_complete. by eexists.
  - apply andb_prop in Hfree as [H1 H2].
    intros w st rest k Hw Hr Hk.
    inversion Hw as [| | |? ? w1 w2 Hw1 Hw2| | | | | | |]; subst.
    rewrite <- app_assoc in Hr.
    apply (IH1 H1 w1 st (w2 ++ rest)); [done..|].
    intros caps. apply (IH2 H2 w2 _ rest); [done..|].
    intros caps'. cbn [consumed]. rewrite app_assoc, <- reverse_app. apply Hk.
  - apply andb_prop in Hfree as [H1 H2].
    intros w st rest k Hw Hr Hk.
    destruct (m_i canonicalize r1 st k) eqn:Hm; [done|].
    inversion Hw; subst.
    + destruct (IH1 H1 w st rest k) as [x Hx]; [done..|]. congruence.
    + by apply (IH2 H2 w st rest).
  - intros w st rest k (ws & Hws & ->)%lang_i_star_words Hr Hk.
    apply (star_loop_complete (lang_i r) _ g (IH Hfree) ws Hws _ st rest);
      [done|lia|done].
  - intros w st rest k Hw Hr Hk.
    inversion Hw as [| | | | | | | |? ? w1 w2 Hw1 Hw2| |]; subst.
    rewrite <- app_assoc in Hr.
    apply (IH Hfree w1 st (w2 ++ rest)); [done..|].
    intros caps. apply lang_i_star_words in Hw2 as (ws & Hws & ->).
    apply (star_loop_complete (lang_i r) _ g (IH Hfree) ws Hws _ _ rest);
      [done|cbn; lia|].
    intros caps'. cbn [consumed]. rewrite app_assoc, <- reverse_app. apply Hk.
  - intros w st rest k Hw Hr Hk. inversion Hw; subst.
    apply (IH Hfree w st rest); [done..|].
    intros caps. cbn [consumed remaining]. apply Hk.
  - intros w st rest k Hw Hr Hk. inversion Hw; subst.
    by apply (IH Hfree w st rest).
Qed.


(** A run of markup elements, as the [i] flag reads it: an element
    begins and ends with a character that has the canonical form of
    the angle bracket. *)
Inductive markup_i : jsstring → Prop :=
| markup_i_nil : markup_i []
| markup_i_cons o body c rest :
    canonicalize o = canonicalize 60%N →
    body ≠ [] →
    Forall (λ x, canonicalize x ≠ canonicalize 62%N) body →
    canonicalize c = canonicalize 62%N →
    markup_i rest →
    markup_i (o :: body ++ c :: rest).

(** An occurrence of the search text without regard to case: for
    each character of the search text a character with the same
    canonical form, and runs of markup elements between them. *)
Inductive occurrence_i : jsstring → jsstring → Prop :=
| occurrence_i_last c x :
    canonicalize x = canonicalize c → occurrence_i [c] [x]
| occurrence_i_next c c' chars x ts w :
    canonicalize x = canonicalize c →
    markup_i ts → occurrence_i (c' :: chars) w →
    occurrence_i (c :: c' :: chars) (x :: ts ++ w).

Lemma not_gt_i x :
  class_matches_i canonicalize true [ItChar 62%N] x = true
  ↔ canonicalize x ≠ canonicalize 62%N.
Proof.
  unfold class_matches_i. cbn [existsb item_matches_i]. rewrite orb_false_r.
  destruct (N.eqb_spec (canonicalize x) (canonicalize 62)) as [->|Hne]; cbn.
  - split; [done|]. by intros [].
  - done.
Qed.

Lemma lang_i_not_gt g w :
  lang_i (Star g (Cls true [ItChar 62%N])) w
  ↔ Forall (λ x, canonicalize x ≠ canonicalize 62%N) w.
Proof.
  split.
  - intros (ws & Hws & ->)%lang_i_star_words.
    induction Hws as [|w ws Hw _ IH]; [constructor|]. cbn.
    inversion Hw; subst. constructor; [by apply not_gt_i|done].
  - induction 1 as [|x w Hx _ IH]; [constructor|].
    apply (lang_i_star_cons g _ [x] w); [|done].
    constructor. by apply not_gt_i.
Qed.

Lemma lang_i_TAG w :
  lang_i TAG w
  ↔ ∃ o body c, w = o :: body ++ [c]
      ∧ canonicalize o = canonicalize 60%N ∧ body ≠ []
      ∧ Forall (λ x, canonicalize x ≠ canonicalize 62%N) body
      ∧ canonicalize c = canonicalize 62%N.
Proof.
  unfold TAG. split.
  - intros H.
    inversion H as [| | |r1 r2 w1 w2 H1 H2| | | | | | |]; subst.
    inversion H1 as [|c o Ho| | | | | | | | |]; subst.
    inversion H2 as [| | |r1 r2 w3 w4 H3 H4| | | | | | |]; subst.
    inversion H4 as [|c e He| | | | | | | | |]; subst.
    inversion H3 as [| | | | | | | |g r w5 w6 H5 H6| |]; subst.
    inversion H5 as [| |neg items x Hx| | | | | | | |]; subst.
    exists o, (x :: w6), e. split; [by rewrite <- app_assoc|].
    split; [done|]. split; [done|]. split; [|done].
    constructor; [by apply not_gt_i|by eapply lang_i_not_gt].
  - intros (o & body & c & -> & Ho & Hne & Hbody & Hc).
    destruct body as [|x body]; [done|].
    apply Forall_cons in Hbody as [Hx Hbody].
    apply (lang_i_seq _ _ [o] (x :: body ++ [c])); [by constructor|].
    apply (lang_i_seq _ _ (x :: body) [c]); [|by constructor].
    apply (lang_i_plus true _ [x] body); [|by apply lang_i_not_gt].
    constructor. by apply not_gt_i.
Qed.

Lemma lang_i_markup g n w : lang_i (Star g (Group n TAG)) w ↔ markup_i w.
Proof.
  split.
  - intros (ws & Hws & ->)%lang_i_star_words.
    induction Hws as [|w ws Hw _ IH]; [constructor|]. cbn.
    inversion Hw as [| | | | | | | | |n' r' w' Hw'|]; subst.
    apply lang_i_TAG in Hw' as (o & body & c & -> & Ho & Hne & Hbody & Hc).
    cbn [app]. rewrite <- app_assoc. cbn [app]. by constructor.
  - induction 1 as [|o body c rest Ho Hne Hbody Hc _ IH]; [constructor|].
    replace (o :: body ++ c :: rest) with ((o :: body ++ [c]) ++ rest)
      by (cbn; by rewrite <- app_assoc).
    apply lang_i_star_cons; [|done]. constructor.
    apply lang_i_TAG. by exists o, body, c.
Qed.

(** The words of the pattern under the [i] flag are the occurrences
    of the search text without regard to case. *)
Lemma terms_occurrence_i chars n w :
  chars ≠ [] → lang_i (mk_seq (terms chars n)) w ↔ occurrence_i chars w.
Proof.
  intros Hne. split.
  - revert n w. induction chars as [|c chars IH]; intros n w; [done|].
    destruct chars as [|c' chars].
    + cbn. intros H. inversion H; subst. by constructor.
    + assert (Hseq : mk_seq (terms (c :: c' :: chars) n)
                = Seq (Lit c) (Seq (Star true (Group (S n) TAG))
                                 (mk_seq (terms (c' :: chars) (S n))))).
      { cbn [terms]. destruct chars; reflexivity. }
      rewrite Hseq. intros H.
      inversion H as [| | |r1 r2 w1 w2 Hc Hrest| | | | | | |]; subst.
      inversion Hc as [|c0 x Hx| | | | | | | | |]; subst.
      inversion Hrest as [| | |r1 r2 w3 w4 Hts Hw| | | | | | |]; subst.
      cbn [app]. constructor; [done|by eapply lang_i_markup|].
      by apply (IH ltac:(done) (S n)).
  - intros H. revert n. clear Hne.
    induction H as [c x Hx|c c' chars x ts w Hx Hts _ IH]; intros n.
    + cbn. by constructor.
    + assert (Hseq : mk_seq (terms (c :: c' :: chars) n)
                = Seq (Lit c) (Seq (Star true (Group (S n) TAG))
                                 (mk_seq (terms (c' :: chars) (S n))))).
      { cbn [terms]. destruct chars; reflexivity. }
      rewrite Hseq. apply (lang_i_seq _ _ [x] (ts ++ w)); [by constructor|].
      apply lang_i_seq; [by apply lang_i_markup|apply IH].
Qed.

Lemma occurrence_i_nonempty chars w : occurrence_i chars w → w ≠ [].
Proof. by destruct 1. Qed.

End Insensitive.

(** *** The occurrences that the loop lists *)

(** No word with property [P] begins at a character of [u] in the
    text [u ++ s]. *)
Definition gapped (P : jsstring → Prop) (u s : jsstring) : Prop :=
  ∀ u1 c u2 w rest, u = u1 ++ c :: u2 → P w → c :: u2 ++ s ≠ w ++ rest.

Lemma gapped_nil P s : gapped P [] s.
Proof. intros u1 c u2 w rest Hu. by destruct u1. Qed.

Lemma gapped_cons P a u s :
  (∀ w rest, P w → a :: u ++ s ≠ w ++ rest) → gapped P u s → gapped P (a :: u) s.
Proof.
  intros Ha Hu u1 c u2 w rest Heq Hw. destruct u1 as [|b u1].
  - injection Heq as <- <-. by apply Ha.
  - injection Heq as _ Heq. by apply (Hu u1 c u2).
Qed.

Lemma cut_gapped P u s ps :
  gapped P u s → cut P s ps → cut P (u ++ s) ((Gap <$> u) ++ ps).
Proof.
  intros Hu Hs. induction u as [|a u IH]; [done|].
  cbn. constructor.
  - intros w rest. by apply (Hu [] a u).
  - apply IH. intros u1 c u2 w rest ->. by apply (Hu (a :: u1) c u2).
Qed.

Section Exec.
Variable canonicalize : char → char.

(** What [exec] skips and where it stops. *)
Lemma exec_gaps r (P : jsstring → Prop) after before :
  complete P (m_i canonicalize r) →
  match exec canonicalize r before after with
  | Some (start, st') =>
      ∃ u s, after = u ++ s ∧ start = reverse u ++ before
             ∧ m_i canonicalize r (MState start s []) Some = Some st'
             ∧ gapped P u s
  | None => gapped P after []
  end.
Proof.
  intros Hc. revert before. induction after as [|c after IH]; intros before.
  - cbn [exec].
    destruct (m_i canonicalize r (MState before [] []) Some) as [st'|] eqn:Hm.
    + exists [], []. split; [done|]. split; [done|]. split; [done|]. apply gapped_nil.
    + apply gapped_nil.
  - cbn [exec].
    destruct (m_i canonicalize r (MState before (c :: after) []) Some) as [st'|] eqn:Hm.
    + exists [], (c :: after). split; [done|]. split; [done|]. split; [done|].
      apply gapped_nil.
    + assert (Hhere : ∀ s w rest, P w → c :: s ≠ w ++ rest ∨ s ≠ after).
      { intros s w rest Hw.
        destruct (decide (s = after)) as [->|Hne]; [|by right]. left. intros Heq.
        destruct (Hc w (MState before (c :: after) []) rest Some Hw Heq) as [x Hx];
          [by eexists|]. congruence. }
      specialize (IH (c :: before)).
      destruct (exec canonicalize r (c :: before) after) as [[start st']|].
      * destruct IH as (u & s & -> & -> & Hst & Hu).
        exists (c :: u), s. split; [done|].
        split; [by rewrite reverse_cons, <- app_assoc|]. split; [done|].
        apply gapped_cons; [|done].
        intros w rest Hw. by destruct (Hhere (u ++ s) w rest Hw).
      * apply gapped_cons; [|done].
        intros w rest Hw. rewrite app_nil_r. by destruct (Hhere after w rest Hw).
Qed.

End Exec.

Section Scan.
Context {ArrayBuffer Docxtemplater TemplateError : Type}.
Variable canonicalize : char → char.
Variable toLowerCase : jsstring → jsstring.
Local Abbreviation manager := (manager ArrayBuffer Docxtemplater TemplateError).
Local Abbreviation contextOf := (contextOf toLowerCase).
Local Abbreviation scanLoop := (scanLoop canonicalize toLowerCase).
Local Abbreviation scanText :=
  (scanText ArrayBuffer Docxtemplater TemplateError canonicalize toLowerCase).

(** A context is a part of the cleaned text between two ellipses, at
    most sixty code units longer than the search text. *)
Definition shaped (searchText ctx : jsstring) : Prop :=
  ∃ body, ctx = str "..." ++ body ++ str "..."
          ∧ length body ≤ length searchText + 60.

Lemma contextOf_shaped xml searchText matchIndex matchLength :
  shaped searchText (contextOf xml searchText matchIndex matchLength).
Proof.
  unfold DocxManager.contextOf, shaped.
  set (cleanText := trim _).
  destruct (indexOf _ _) as [textIndex|]; eexists; (split; [reflexivity|]).
  - pose proof (substring_length cleanText
      (Z.to_nat (0 `max` (Z.of_nat textIndex - 30)))
      (length cleanText `min` (textIndex + length searchText + 30))) as [H1 H2].
    unfold substring in *. rewrite length_take, length_drop in *. lia.
  - pose proof (substring_length cleanText 0 (60 `min` length cleanText)) as [H1 H2].
    lia.
Qed.

(** The loop ends when every match has a code unit: it numbers the
    matches from [count] on, and there are no more of them than code
    units left. *)
Lemma scanLoop_ends regex xml searchText :
  0 < min_len regex →
  ∀ fuel before after count,
    length after < fuel →
    ∃ results,
      scanLoop fuel regex xml searchText before after count = Some results
      ∧ index <$> results = seq count (length results)
      ∧ length results ≤ length after
      ∧ Forall (λ o, shaped searchText (context o)) results.
Proof.
  intros Hmin. induction fuel as [|fuel IH]; intros before after count Hfuel; [lia|].
  cbn [DocxManager.scanLoop].
  destruct (exec canonicalize regex before after) as [[start st']|] eqn:Hex.
  - apply exec_found in Hex as (u & w & Hafter & Hstart & Hcons & Hw).
    assert (Hlen : length (remaining st') < length after).
    { rewrite Hafter, !length_app. lia. }
    destruct (IH (consumed st') (remaining st') (S count)) as (rs & -> & Hidx & Hn & Hctx);
      [lia|].
    eexists. split; [reflexivity|]. cbn [fmap list_fmap length seq index].
    split; [by rewrite Hidx|]. split; [lia|].
    constructor; [apply contextOf_shaped|done].
  - exists []. repeat split; [cbn; lia|constructor].
Qed.

Lemma terms_min_len chars n : chars ≠ [] → 0 < min_len (mk_seq (terms chars n)).
Proof.
  intros Hne. destruct chars as [|c [|c' chars]]; [done|cbn; lia|].
  assert (Hseq : mk_seq (terms (c :: c' :: chars) n)
            = Seq (Lit c) (Seq (Star true (Group (S n) TAG))
                             (mk_seq (terms (c' :: chars) (S n))))).
  { cbn [terms]. destruct chars; reflexivity. }
  rewrite Hseq. cbn. lia.
Qed.

(** The entries for the matches of a cut of the text after [pos]
    code units, numbered from [count] on: each match with the
    context of its place. *)
Fixpoint listed (xml searchText : jsstring) (ps : list piece) (pos count : nat)
    : list occurrenceInfo :=
  match ps with
  | [] => []
  | Gap _ :: ps' => listed xml searchText ps' (S pos) count
  | Hit mi :: ps' =>
      mkOccurrenceInfo count (contextOf xml searchText pos (length (mtext mi)))
      :: listed xml searchText ps' (pos + length (mtext mi)) (S count)
  end.

Lemma listed_gaps xml searchText (u : jsstring) ps pos count :
  listed xml searchText ((Gap <$> u) ++ ps) pos count
  = listed xml searchText ps (pos + length u) count.
Proof.
  revert pos. induction u as [|a u IH]; intros pos; cbn.
  - by rewrite Nat.add_0_r.
  - rewrite IH. f_equal. lia.
Qed.

Lemma listed_length xml searchText ps pos count :
  length (listed xml searchText ps pos count) = length (hits ps).
Proof.
  revert pos count. induction ps as [|[c|mi] ps IH]; intros pos count; cbn; [done|done|].
  by rewrite IH.
Qed.

Lemma listed_lookup xml searchText ps1 mi ps2 pos count :
  listed xml searchText (ps1 ++ Hit mi :: ps2) pos count !! length (hits ps1)
  = Some (mkOccurrenceInfo (count + length (hits ps1))
            (contextOf xml searchText (pos + length (pieces_text ps1))
               (length (mtext mi)))).
Proof.
  revert pos count. induction ps1 as [|[c|mi'] ps1 IH]; intros pos count.
  - cbn. by rewrite !Nat.add_0_r.
  - cbn [app listed hits]. rewrite IH. unfold pieces_text. cbn.
    do 3 f_equal. lia.
  - cbn [app listed hits length lookup list_lookup]. rewrite IH.
    unfold pieces_text. cbn [fmap list_fmap concat piece_text].
    rewrite length_app. do 2 f_equal; [lia|]. f_equal. lia.
Qed.

(** The loop lists the matches of a cut of the rest of the text into
    leftmost words. *)
Lemma scanLoop_cut regex (P : jsstring → Prop) xml searchText :
  sound P (m_i canonicalize regex) → complete P (m_i canonicalize regex) →
  (∀ w, P w → w ≠ []) →
  ∀ fuel before after count,
    length after < fuel →
    ∃ ps, cut P after ps
          ∧ scanLoop fuel regex xml searchText before after count
            = Some (listed xml searchText ps (length before) count).
Proof.
  intros Hsound Hcomplete Hne.
  induction fuel as [|fuel IH]; intros before after count Hfuel; [lia|].
  cbn [DocxManager.scanLoop].
  pose proof (exec_gaps canonicalize regex P after before Hcomplete) as Hex.
  destruct (exec canonicalize regex before after) as [[start st']|].
  - destruct Hex as (u & s & -> & -> & Hm & Hu).
    apply Hsound in Hm as (w & st1 & Hw & [Hr Hc] & [= <-]). cbn in Hr, Hc.
    pose proof (Hne w Hw) as Hw'.
    destruct (IH (consumed st1) (remaining st1) (S count)) as (ps & Hcut & ->).
    { rewrite Hr, !length_app in Hfuel. destruct w; [done|]. cbn in Hfuel. lia. }
    exists ((Gap <$> u) ++ Hit (MatchInfo w (captures st1)) :: ps). split.
    + apply cut_gapped; [done|]. rewrite Hr.
      by apply (cut_hit P (MatchInfo w (captures st1))).
    + rewrite listed_gaps. cbn [fmap option_fmap option_map listed mtext].
      rewrite Hc, !length_app, !length_reverse.
      repeat first [lia | progress f_equal].
  - exists (Gap <$> after). split.
    + rewrite <- (app_nil_r after) at 1. rewrite <- (app_nil_r (Gap <$> after)).
      apply cut_gapped; [done|constructor].
    + rewrite <- (app_nil_r (Gap <$> after)), listed_gaps. reflexivity.
Qed.

(** For a search text without special characters, [scanText] ends
    and lists the occurrences of the search text without regard to
    case, leftmost first and none overlapping another: the text is
    cut into these occurrences and the characters between them, at
    which no occurrence begins, and the occurrence that comes after
    [k] others is entry [k] of the result, with index [k] and the
    context of its place; each context stands between two ellipses
    and is at most sixty code units longer than the search text. *)
Theorem scanText_lists
    (st : manager) (z : archive) (xml searchText : jsstring) (fuel : nat) :
  zip _ _ _ st = Some z →
  z !! DOCUMENT_XML = Some xml →
  Forall (λ c, special c = false) searchText →
  searchText ≠ [] →
  length xml < fuel →
  ∃ results ps,
    scanText fuel searchText st = Some (inr results)
    ∧ pieces_text ps = xml
    ∧ (∀ mi, mi ∈ hits ps → occurrence_i canonicalize searchText (mtext mi))
    ∧ (∀ ps1 c ps2 w rest,
         ps = ps1 ++ Gap c :: ps2 → occurrence_i canonicalize searchText w →
         c :: pieces_text ps2 ≠ w ++ rest)
    ∧ (∀ pre w post,
         xml = pre ++ w ++ post → occurrence_i canonicalize searchText w →
         results ≠ [])
    ∧ length results = length (hits ps)
    ∧ (∀ ps1 mi ps2,
         ps = ps1 ++ Hit mi :: ps2 →
         results !! length (hits ps1)
         = Some (mkOccurrenceInfo (length (hits ps1))
                   (contextOf xml searchText (length (pieces_text ps1))
                      (length (mtext mi)))))
    ∧ index <$> results = seq 0 (length results)
    ∧ length results ≤ length xml
    ∧ ∀ o, o ∈ results →
        ∃ body, context o = str "..." ++ body ++ str "..."
                ∧ length body ≤ length searchText + 60.
Proof.
  intros Hzip Hxml Hplain Hne Hfuel.
  set (regex := mk_seq (terms searchText 0)).
  pose proof (terms_occurrence_i canonicalize searchText 0) as Hocc.
  assert (Hsound : sound (occurrence_i canonicalize searchText)
                     (m_i canonicalize regex)).
  { apply (sound_weaken (lang_i canonicalize regex)); [intros w; by apply Hocc|].
    apply m_i_words, terms_assertion_free. }
  assert (Hcomplete : complete (occurrence_i canonicalize searchText)
                        (m_i canonicalize regex)).
  { apply (complete_impl _ (lang_i canonicalize regex)); [intros w; by apply Hocc|].
    apply m_i_complete, terms_assertion_free. }
  destruct (scanLoop_cut regex _ xml searchText Hsound Hcomplete
              (occurrence_i_nonempty canonicalize searchText) fuel [] xml 0 Hfuel)
    as (ps & Hcut & Hres).
  cbn [length] in Hres.
  destruct (scanLoop_ends regex xml searchText
              (terms_min_len searchText 0 Hne) fuel [] xml 0 Hfuel)
    as (results & Hres' & Hidx & Hn & Hctx).
  rewrite Hres in Hres'. injection Hres' as Hres'.
  exists results, ps. repeat apply conj.
  - unfold DocxManager.scanText. rewrite Hzip, Hxml, RegExp_new_patternString.
    rewrite bool_decide_false.
    2:{ intros (c & Hc & Hsp)%Exists_exists.
        rewrite Forall_forall in Hplain. rewrite (Hplain c Hc) in Hsp. done. }
    fold regex. by rewrite Hres, Hres'.
  - by eapply cut_text.
  - intros mi. by apply (cut_hits _ _ _ _ Hcut).
  - intros ps1 c ps2 w rest Hps Hw. by apply (cut_gaps _ _ _ _ _ _ _ _ Hcut Hps).
  - intros pre w post Hs Hw Hnil.
    apply (cut_found _ _ _ _ _ _ (occurrence_i_nonempty canonicalize searchText)
             Hcut Hs Hw).
    apply (f_equal length) in Hnil. rewrite <- Hres', listed_length in Hnil.
    by destruct (hits ps).
  - by rewrite <- Hres', listed_length.
  - intros ps1 mi ps2 ->. rewrite <- Hres'. apply listed_lookup.
  - exact Hidx.
  - exact Hn.
  - rewrite Forall_forall in Hctx. exact Hctx.
Qed.

(** A search text with a special character makes the constructor of
    the regular expression throw, whatever the document is. *)
Theorem scanText_special_throws
    (st : manager) (z : archive) (xml searchText : jsstring) (fuel : nat) :
  zip _ _ _ st = Some z →
  z !! DOCUMENT_XML = Some xml →
  Exists (λ c, special c = true) searchText →
  scanText fuel searchText st = Some (inl (SyntaxError "Unmatched ')'")).
Proof.
  intros Hzip Hxml Hs. unfold DocxManager.scanText.
  rewrite Hzip, Hxml, RegExp_new_patternString.
  by rewrite bool_decide_true.
Qed.

Lemma scanLoop_empty xml searchText fuel before after count :
  scanLoop fuel Eps xml searchText before after count = None.
Proof.
  revert count. induction fuel as [|fuel IH]; intros count; [done|].
  cbn [DocxManager.scanLoop].
  assert (Hex : exec canonicalize Eps before after
                = Some (before, MState before after [])).
  { destruct after; reflexivity. }
  rewrite Hex. cbn [consumed remaining]. by rewrite IH.
Qed.

(** With the empty search text the loop over the matches does not
    end: the expression matches the empty text at the start of the
    document in every iteration, which adds an entry to the result as
    long as an array can grow. *)
Theorem scanText_empty_keeps_looping
    (st : manager) (z : archive) (xml : jsstring) (fuel : nat) :
  zip _ _ _ st = Some z →
  z !! DOCUMENT_XML = Some xml →
  (N.of_nat fuel < 2 ^ 32)%N →
  scanText fuel [] st = None.
Proof.
  intros Hzip Hxml _. unfold DocxManager.scanText.
  rewrite Hzip, Hxml, RegExp_new_patternString.
  rewrite bool_decide_false by (by intros ?%Exists_nil).
  cbn [terms mk_seq]. by rewrite scanLoop_empty.
Qed.

(** Where the matcher of the [i] flag does what the matcher without
    it does, the loop finds the matches of the scan of [replace]. *)
Lemma scanLoop_hits regex L xml searchText after ps :
  ScanFacts.lookbehind_free regex = true → 0 < min_len regex → simple L regex →
  scanned (ScanFacts.mu_of regex) after ps →
  (∀ x c, x ∈ after → c ∈ L → canonicalize x = canonicalize c → x = c) →
  ∀ fuel before count,
    length after < fuel →
    ∃ results,
      scanLoop fuel regex xml searchText before after count = Some results
      ∧ length results = length (hits ps).
Proof.
  intros Hfree Hmin Hsimple Hsc.
  pose proof (ScanFacts.mu_of_described regex Hfree) as Hd.
  assert (Hsame : ∀ before after,
    (∀ x c, x ∈ after → c ∈ L → canonicalize x = canonicalize c → x = c) →
    m_i canonicalize regex (MState before after []) Some = match_here regex before after).
  { intros before after0 Hfits. unfold match_here.
    apply (m_i_same canonicalize L regex Hsimple); [exact Hfits|done]. }
  induction Hsc as [|s mi rest ps Hmu Hrest IH|a s ps Hmu Hrest IH];
    intros Hfits fuel before count Hfuel.
  - destruct fuel as [|fuel]; [lia|]. cbn [DocxManager.scanLoop exec].
    destruct (m_i canonicalize regex (MState before [] []) Some) as [st'|] eqn:Hm.
    + apply m_i_sound in Hm as (w & st1 & Hw & [H1 H2] & _).
      cbn in H1. destruct w; [cbn in Hw; lia|done].
    + by exists [].
  - destruct fuel as [|fuel]; [lia|]. cbn [DocxManager.scanLoop].
    specialize (Hd before s). rewrite Hmu in Hd.
    destruct (match_here regex before s) as [st'|] eqn:Hm; [|done].
    injection Hd as Hmi Hrem.
    pose proof (Hsame before s Hfits) as Hmi'. rewrite Hm in Hmi'.
    assert (Hex : exec canonicalize regex before s = Some (before, st')).
    { destruct s; cbn [exec]; by rewrite Hmi'. }
    rewrite Hex.
    apply m_i_sound in Hmi' as (w & st1 & Hw & [H1 H2] & [= <-]). cbn in H1.
    rewrite Hrem in H1.
    destruct (IH ltac:(intros x c Hx; apply Hfits; rewrite H1; apply elem_of_app; by right)
                fuel (consumed st1) (S count)) as (results & Hres & Hlen).
    { rewrite H1, length_app in Hfuel. lia. }
    rewrite Hrem, Hres. eexists. split; [reflexivity|]. cbn. by rewrite Hlen.
  - destruct fuel as [|fuel]; [lia|].
    specialize (Hd before (a :: s)). rewrite Hmu in Hd.
    destruct (match_here regex before (a :: s)) as [st'|] eqn:Hm; [done|].
    pose proof (Hsame before (a :: s) Hfits) as Hmi'. rewrite Hm in Hmi'.
    destruct (IH ltac:(intros x c Hx; apply Hfits; by right) (S fuel) (a :: before) count)
      as (results & Hres & Hlen); [cbn in Hfuel; lia|].
    exists results. split; [|done].
    rewrite <- Hres. cbn [DocxManager.scanLoop exec]. by rewrite Hmi'.
Qed.

Variable PizZip_new : ArrayBuffer → option archive.
Variable generate : archive → ArrayBuffer.
Variable Docxtemplater_new :
  archive → delimiters → template_result Docxtemplater TemplateError.
Local Abbreviation replaceSpecificOccurrences :=
  (replaceSpecificOccurrences ArrayBuffer PizZip_new generate
     Docxtemplater TemplateError Docxtemplater_new).

(** When no character of the document has the canonical form of
    another character of the search text or of an angle bracket, the
    occurrences that [scanText] lists are the ones that
    [replaceSpecificOccurrences] counts, under the same numbers: the
    leftmost occurrences of the search text, none of which is
    skipped. *)
Theorem scanText_numbers_occurrences
    (st : manager) (z : archive) (xml searchText tagName : jsstring)
    (indicesToReplace : list nat) (fuel : nat) :
  zip _ _ _ st = Some z →
  z !! DOCUMENT_XML = Some xml →
  Forall (λ c, special c = false) searchText →
  searchText ≠ [] →
  length xml < fuel →
  (∀ x c, x ∈ xml → c ∈ 60%N :: 62%N :: searchText →
     canonicalize x = canonicalize c → x = c) →
  ∃ results ps,
    scanText fuel searchText st = Some (inr results)
    ∧ pieces_text ps = xml
    ∧ (∀ mi, mi ∈ hits ps → occurrence searchText (mtext mi))
    ∧ (∀ ps1 c ps2 w rest,
         ps = ps1 ++ Gap c :: ps2 → occurrence searchText w →
         c :: pieces_text ps2 ≠ w ++ rest)
    ∧ index <$> results = seq 0 (length (hits ps))
    ∧ replaceSpecificOccurrences searchText tagName indicesToReplace st
      = match hits ps with
        | [] => (inl (Error (notFoundMessage searchText)), st)
        | _ :: _ =>
            let z' :=
              <[DOCUMENT_XML :=
                  Replacement.selected (str "{{" ++ tagName ++ str "}}")
                    indicesToReplace ps 0]> z in
            load ArrayBuffer PizZip_new generate Docxtemplater TemplateError
              Docxtemplater_new (generate z')
              (mkManager _ _ _ (Some z') (doc _ _ _ st) (Some (generate z'))
                 (loadErrors _ _ _ st) (delimiterConfig _ _ _ st))
        end.
Proof.
  intros Hzip Hxml Hplain Hne Hfuel Hcase.
  set (regex := mk_seq (terms searchText 0)).
  assert (Hnonempty : ∀ w, lang regex w → w ≠ []).
  { intros w Hw%(terms_occurrence searchText 0); [|done]. by destruct Hw. }
  pose proof (pieces_scanned regex (ScanFacts.mu_of regex) xml
                (ScanFacts.mu_of_described regex (terms_free searchText 0))
                (ScanFacts.mu_of_progress regex Hnonempty)) as Hsc.
  destruct (scanLoop_ends regex xml searchText (terms_min_len searchText 0 Hne)
              fuel [] xml 0 Hfuel) as (results & Hres & Hidx & _ & _).
  destruct (scanLoop_hits regex (60%N :: 62%N :: searchText) xml searchText xml
              (pieces regex xml) (terms_free searchText 0)
              (terms_min_len searchText 0 Hne) (terms_simple searchText 0)
              Hsc Hcase fuel [] 0 Hfuel) as (results' & Hres' & Hlen).
  rewrite Hres in Hres'. injection Hres' as <-.
  exists results, (pieces regex xml).
  split; [|split; [apply pieces_text_eq|split; [|split; [|split]]]].
  - unfold DocxManager.scanText. rewrite Hzip, Hxml, RegExp_new_patternString.
    rewrite bool_decide_false.
    2:{ intros (c & Hc & Hsp)%Exists_exists.
        rewrite Forall_forall in Hplain. rewrite (Hplain c Hc) in Hsp. done. }
    fold regex. by rewrite Hres.
  - intros mi Hmi. apply (terms_occurrence searchText 0); [done|].
    by apply (matchAll_lang _ xml).
  - intros ps1 c ps2 w rest Hps Hw.
    by apply (cut_gaps _ _ _ _ _ _ _ _ (terms_cut searchText 0 xml Hne) Hps).
  - by rewrite Hidx, Hlen.
  - by apply Replacement.replace_plain_pieces.
Qed.

End Scan.

(** A host for the examples: upper case for the letters a to z as
    canonical form, lower case for the letters A to Z. *)
Definition upper (c : char) : char :=
  if (97 <=? c)%N && (c <=? 122)%N then (c - 32)%N else c.

Definition lower (s : jsstring) : jsstring :=
  (λ c, if (65 <=? c)%N && (c <=? 90)%N then (c + 32)%N else c) <$> s.

Definition invoiceXml : jsstring := str "<w:t>Invoice 4</w:t><w:t>2 of 42</w:t>".

Definition invoice : manager archive unit unit :=
  mkManager _ _ _ (Some {[ DOCUMENT_XML := invoiceXml ]}) None None [] double_markers.

Lemma scanText_lists_witness :
  ∃ results ps,
    scanText archive unit unit upper lower 100 (str "invoice") invoice
    = Some (inr results)
    ∧ pieces_text ps = invoiceXml
    ∧ (∀ mi, mi ∈ hits ps → occurrence_i upper (str "invoice") (mtext mi))
    ∧ (∀ ps1 c ps2 w rest,
         ps = ps1 ++ Gap c :: ps2 → occurrence_i upper (str "invoice") w →
         c :: pieces_text ps2 ≠ w ++ rest)
    ∧ (∀ pre w post,
         invoiceXml = pre ++ w ++ post → occurrence_i upper (str "invoice") w →
         results ≠ [])
    ∧ length results = length (hits ps)
    ∧ (∀ ps1 mi ps2,
         ps = ps1 ++ Hit mi :: ps2 →
         results !! length (hits ps1)
         = Some (mkOccurrenceInfo (length (hits ps1))
                   (contextOf lower invoiceXml (str "invoice")
                      (length (pieces_text ps1)) (length (mtext mi)))))
    ∧ index <$> results = seq 0 (length results)
    ∧ length results ≤ length invoiceXml
    ∧ ∀ o, o ∈ results →
        ∃ body, context o = str "..." ++ body ++ str "..."
                ∧ length body ≤ length (str "invoice") + 60.
Proof.
  apply (scanText_lists upper lower invoice {[ DOCUMENT_XML := invoiceXml ]}).
  - reflexivity.
  - reflexivity.
  - repeat constructor.
  - done.
  - vm_compute. lia.
Defined.

Lemma scanText_special_throws_witness :
  scanText archive unit unit upper lower 100 (str "4.2") invoice
  = Some (inl (SyntaxError "Unmatched ')'")).
Proof.
  apply (scanText_special_throws upper lower invoice
           {[ DOCUMENT_XML := invoiceXml ]} invoiceXml).
  - reflexivity.
  - reflexivity.
  - apply Exists_cons_tl, Exists_cons_hd. reflexivity.
Defined.

Lemma scanText_empty_keeps_looping_witness :
  scanText archive unit unit upper lower 1000 [] invoice = None.
Proof.
  apply (scanText_empty_keeps_looping upper lower invoice
           {[ DOCUMENT_XML := invoiceXml ]} invoiceXml);
    [reflexivity|reflexivity|by vm_compute].
Defined.

Lemma scanText_numbers_occurrences_witness :
  ∃ results ps,
    scanText archive unit unit upper lower 100 (str "42") invoice
    = Some (inr results)
    ∧ pieces_text ps = invoiceXml
    ∧ (∀ mi, mi ∈ hits ps → occurrence (str "42") (mtext mi))
    ∧ (∀ ps1 c ps2 w rest,
         ps = ps1 ++ Gap c :: ps2 → occurrence (str "42") w →
         c :: pieces_text ps2 ≠ w ++ rest)
    ∧ index <$> results = seq 0 (length (hits ps))
    ∧ replaceSpecificOccurrences archive Some id unit unit (λ _ _, Template ())
        (str "42") (str "total") [1] invoice
      = match hits ps with
        | [] => (inl (Error (notFoundMessage (str "42"))), invoice)
        | _ :: _ =>
            let z' :=
              <[DOCUMENT_XML :=
                  Replacement.selected (str "{{" ++ str "total" ++ str "}}") [1] ps 0]>
                ({[ DOCUMENT_XML := invoiceXml ]} : archive) in
            load archive Some id unit unit (λ _ _, Template ()) z'
              (mkManager _ _ _ (Some z') None (Some z') [] double_markers)
        end.
Proof.
  apply (scanText_numbers_occurrences upper lower Some id (λ _ _, Template ()) invoice).
  - reflexivity.
  - reflexivity.
  - repeat constructor.
  - done.
  - vm_compute. lia.
  - assert (H : Forall (λ x, Forall (λ c, upper x = upper c → x = c)
                               (60%N :: 62%N :: str "42")) invoiceXml)
      by (apply (bool_decide_unpack _); vm_compute; exact I).
    intros x c Hx Hc. rewrite Forall_forall in H. specialize (H x Hx).
    rewrite Forall_forall in H. by apply H.
Defined.

End ScanTextFacts.

(** ** Generating the document *)

Module GenerationFacts.
Import DocxManager TagNormalizer RegExpFacts Detection ManagerFacts.

Section Generation.
Context {ArrayBuffer Docxtemplater TemplateError Blob : Type}.
Variable PizZip_new : ArrayBuffer → option archive.
Variable generate : archive → ArrayBuffer.
Variable Docxtemplater_new :
  archive → delimiters → template_result Docxtemplater TemplateError.
Variable generateBlob : archive → Blob.
Variable PizZip_error : ArrayBuffer → thrown.
Variable render : archive → delimiters → FormDataMap → thrown + archive.

Local Abbreviation manager := (manager ArrayBuffer Docxtemplater TemplateError).
Local Abbreviation load :=
  (load ArrayBuffer PizZip_new generate Docxtemplater TemplateError Docxtemplater_new).
Local Abbreviation replaceSpecificOccurrences :=
  (replaceSpecificOccurrences ArrayBuffer PizZip_new generate
     Docxtemplater TemplateError Docxtemplater_new).
Local Abbreviation exportCurrentZip :=
  (exportCurrentZip ArrayBuffer Docxtemplater TemplateError Blob generateBlob).
Local Abbreviation generateDocument :=
  (generateDocument ArrayBuffer PizZip_new generate Docxtemplater TemplateError
     Blob generateBlob PizZip_error render).

(** The states of a manager: the one of the constructor, and those
    after a call of [load] or [replaceSpecificOccurrences], whether it
    returns or throws. *)
Inductive reachable : manager → Prop :=
| reachable_initial : reachable (initial ArrayBuffer Docxtemplater TemplateError)
| reachable_load content st : reachable st → reachable (load content st).2
| reachable_replace searchText tagName indicesToReplace st :
    reachable st →
    reachable (replaceSpecificOccurrences searchText tagName indicesToReplace st).2.

Lemma load_keeps_content content st :
  originalContent _ _ _ (load content st).2 = Some content.
Proof.
  unfold DocxManager.load.
  set (st0 := mkManager _ _ _ None None (Some content) [] _).
  destruct (detect_originalContent PizZip_new content st0) as [Ho Hz].
  set (st1 := DocxManager.detectDelimiters _ _ _ _ _ _) in *.
  destruct (healDocumentXml _ _ _ _ _ content st1 ≫= PizZip_new) as [z|].
  - unfold initializeDocxtemplater. cbn [zip].
    destruct (Docxtemplater_new _ _); cbn; by rewrite Ho.
  - cbn [snd]. by rewrite Ho.
Qed.

Lemma reachable_kept st :
  reachable st →
  consistent PizZip_new generate st
  ∧ (zip _ _ _ st ≠ None → originalContent _ _ _ st ≠ None).
Proof.
  induction 1 as [|content st _ _|searchText tagName indices st _ [IH1 IH2]].
  - split; [done|]. by intros H.
  - split; [apply load_consistent|]. intros _. by rewrite load_keeps_content.
  - unfold DocxManager.replaceSpecificOccurrences.
    destruct (zip _ _ _ st) as [z|] eqn:Hz; [|by split].
    destruct (z !! DOCUMENT_XML) as [xml|]; [|cbn [snd]; rewrite Hz; by split].
    destruct (RegExp_new _) as [regex|msg|]; [|cbn [snd]; rewrite Hz; by split..].
    destruct (replace_st _ _ _ _) as [xml' n].
    case_bool_decide; [cbn [snd]; rewrite Hz; by split|].
    split; [apply load_consistent|]. intros _. by rewrite load_keeps_content.
Qed.

(** In every state with a document that [load] and
    [replaceSpecificOccurrences] lead to, [generateDocument] renders
    the archive that the manager holds, the one that
    [exportCurrentZip] writes, under the delimiters of the manager; it
    returns the rendered archive as a blob, or throws the readable
    form of what the template engine throws. *)
Theorem generateDocument_renders_held
    (st : manager) (z : archive) (data : FormDataMap) :
  reachable st →
  zip _ _ _ st = Some z →
  generateDocument data st
  = match render z (delimiterConfig _ _ _ st) data with
    | inl error => inl (throwHumanReadableError error)
    | inr rendered => inr (generateBlob rendered)
    end
  ∧ exportCurrentZip st = inr (generateBlob z).
Proof.
  intros [Hcons Hcontent]%reachable_kept Hzip. split.
  - unfold DocxManager.generateDocument. rewrite Hzip.
    destruct (originalContent _ _ _ st) as [content|] eqn:Ho.
    2:{ exfalso. apply Hcontent; [by rewrite Hzip|done]. }
    specialize (Hcons content z Ho Hzip).
    destruct (healDocumentXml _ _ _ _ _ content st) as [healedContent|]; [|done].
    cbn in Hcons. unfold executeGeneration. rewrite Hcons.
    by destruct (render z _ data).
  - unfold DocxManager.exportCurrentZip. by rewrite Hzip.
Qed.

End Generation.

Lemma generateDocument_renders_held_witness :
  let st := (load archive Some id unit unit (λ _ _, Template ()) package
               (initial archive unit unit)).2 in
  generateDocument archive Some id unit unit archive id
    (λ _, mkThrown None None) (λ z _ _, inr z) ∅ st
  = inr (healed package)
  ∧ exportCurrentZip archive unit unit archive id st = inr (healed package).
Proof.
  intros st.
  apply (generateDocument_renders_held Some id (λ _ _, Template ()) id
           (λ _, mkThrown None None) (λ z _ _, inr z) st (healed package) ∅).
  - apply reachable_load, reachable_initial.
  - reflexivity.
Defined.

End GenerationFacts.
